(** * DOM Chronicle: a shallow embedding of the capture, redaction and export
      pipeline, with the properties of its specification.

    The development follows the layout of the TypeScript sources:

    - [JSString]: the [String.prototype] / [Array.prototype] helpers the code
      relies on ([split], [join], [includes], [trim], [substring], ...);
    - [Templates]: [lib/export/templates.ts];
    - the data model of [lib/types.ts];
    - [MarkdownExporter]: [lib/export/markdown-exporter.ts];
    - [RegExpRuntime] and [MiniRE]: the interface of the JavaScript regular
      expression objects and an executable matcher for the fragment of the
      pattern language that the built-in rules use;
    - [RedactionEngine]: [lib/redaction/patterns.ts] and [engine.ts];
    - [Dom] and [SemanticExtractor]: [lib/capture/semantic-extractor.ts];
    - [Timing]: [lib/utils/debounce.ts];
    - [Chronicle]: [content.ts] with the two capture classes and the timers.

    Strings are modelled by [string] (sequences of 8-bit characters), JavaScript
    integers that only count by [nat] or [N], other numbers by [Z]. *)

From Stdlib Require Import String Ascii List ZArith NArith Lia Bool.
From Stdlib Require Import DecimalString.
From stdpp Require Import base strings gmap list.
Import ListNotations.
Open Scope string_scope.

(* ===================================================================== *)
(** * String and array helpers of the JavaScript runtime *)
(* ===================================================================== *)

Module JSString.

Definition LF : ascii := ascii_of_nat 10.

(** The one-character string holding a line feed. *)
Definition nl : string := String LF EmptyString.

(** The double quote and the backslash, as characters and as strings. *)
Definition DQ : ascii := ascii_of_nat 34.
Definition dq : string := String DQ EmptyString.
Definition BSL : ascii := ascii_of_nat 92.

(** [s.split(sep)] for a one-character separator. *)
Fixpoint split (sep : ascii) (s : string) : list string :=
  match s with
  | EmptyString => [EmptyString]
  | String a s' =>
      if Ascii.eqb a sep then EmptyString :: split sep s'
      else match split sep s' with
           | [] => [String a EmptyString]
           | w :: ws => String a w :: ws
           end
  end.

(** [l.join(sep)]. *)
Definition join (sep : string) (l : list string) : string :=
  String.concat sep l.

(** [l.push(x)]: the array with [x] appended. *)
Definition push {A : Type} (l : list A) (x : A) : list A := (l ++ [x])%list.

(** [l.includes(x)] on an array of strings. *)
Definition includes (l : list string) (x : string) : bool :=
  existsb (String.eqb x) l.

(** [s.startsWith(p)]. *)
Definition startsWith (s p : string) : bool := String.prefix p s.

(** [s.includes(sub)] on strings. *)
Fixpoint strIncludes (s sub : string) : bool :=
  startsWith s sub ||
  match s with
  | EmptyString => false
  | String _ s' => strIncludes s' sub
  end.

(** [s.endsWith(p)]. *)
Fixpoint endsWith (s p : string) : bool :=
  String.eqb s p ||
  match s with
  | EmptyString => false
  | String _ s' => endsWith s' p
  end.

(** [s.substring(0, n)]. *)
Definition substring0 (n : nat) (s : string) : string :=
  String.substring 0 n s.

(** White space removed by [trim] (within the 8-bit range). *)
Definition isSpace (c : ascii) : bool :=
  let n := nat_of_ascii c in
  (Nat.leb 9 n && Nat.leb n 13) || Nat.eqb n 32 || Nat.eqb n 160.

Fixpoint trimStart (s : string) : string :=
  match s with
  | EmptyString => EmptyString
  | String a s' => if isSpace a then trimStart s' else s
  end.

(** Drops trailing white space: a character is kept when it is not a space
    or when something is kept after it. *)
Fixpoint trimEnd (s : string) : string :=
  match s with
  | EmptyString => EmptyString
  | String a s' =>
      match trimEnd s' with
      | EmptyString => if isSpace a then EmptyString else String a EmptyString
      | t => String a t
      end
  end.

(** [s.trim()]. *)
Definition trim (s : string) : string := trimEnd (trimStart s).

Definition lowerChar (c : ascii) : ascii :=
  let n := nat_of_ascii c in
  if Nat.leb 65 n && Nat.leb n 90 then ascii_of_nat (n + 32) else c.

Definition upperChar (c : ascii) : ascii :=
  let n := nat_of_ascii c in
  if Nat.leb 97 n && Nat.leb n 122 then ascii_of_nat (n - 32) else c.

(** [s.toLowerCase()] on the letters A-Z. *)
Fixpoint toLowerCase (s : string) : string :=
  match s with
  | EmptyString => EmptyString
  | String a s' => String (lowerChar a) (toLowerCase s')
  end.

(** [n.toString()] for a natural number and for an integer. *)
Definition natToString (n : nat) : string :=
  NilZero.string_of_uint (Nat.to_uint n).

Definition intToString (z : Z) : string :=
  NilZero.string_of_int (Z.to_int z).

(** A string is truthy when it is not empty. *)
Definition truthy (s : string) : bool :=
  match s with EmptyString => false | _ => true end.

(** [o || d] for an optional string [o]: [d] replaces an absent or empty
    value. *)
Definition orElse (o : option string) (d : string) : string :=
  match o with
  | Some s => if truthy s then s else d
  | None => d
  end.

End JSString.

Import JSString.

(* ===================================================================== *)
(** * lib/export/templates.ts *)
(* ===================================================================== *)

Module Templates.

(** [codeBlock(content, language)]. *)
Definition codeBlock (content language : string) : string :=
  "```" ++ language ++ nl ++ content ++ nl ++ "```".

(** [truncate(text, maxLength)]. *)
Definition truncate (text : string) (maxLength : nat) : string :=
  if Nat.leb (String.length text) maxLength then text
  else substring0 (maxLength - 3) text ++ "...".

(** The characters [escapeMarkdown] puts a backslash in front of. *)
Definition isMarkdownSpecial (c : ascii) : bool :=
  existsb (Ascii.eqb c)
    ["*"; "_"; "`"; "["; "]"; "("; ")"; "#"; ">"]%char.

(** [escapeMarkdown(text)]: every character of the class in the source's
    regular expression gets a backslash in front. *)
Fixpoint escapeMarkdown (text : string) : string :=
  match text with
  | EmptyString => EmptyString
  | String c t =>
      if isMarkdownSpecial c then String BSL (String c (escapeMarkdown t))
      else String c (escapeMarkdown t)
  end.

(** [formatUnifiedDiff(before, after)]: the two [forEach] loops push onto
    [result], which is joined at the end. *)
Definition unifiedDiffLines (before after : string) : list string :=
  let beforeLines := split LF before in
  let afterLines := split LF after in
  let result : list string := [] in
  let result :=
    fold_left (fun result line =>
                 if negb (includes afterLines line)
                 then push result ("- " ++ line) else result)
              beforeLines result in
  let result :=
    fold_left (fun result line =>
                 if negb (includes beforeLines line)
                 then push result ("+ " ++ line) else result)
              afterLines result in
  result.

Definition formatUnifiedDiff (before after : string) : string :=
  join nl (unifiedDiffLines before after).

(** [formatAddedDiff(html)]. *)
Definition formatAddedDiff (html : string) : string :=
  join nl (map (fun line => "+ " ++ line) (split LF html)).

(** [formatRemovedDiff(html)]. *)
Definition formatRemovedDiff (html : string) : string :=
  join nl (map (fun line => "- " ++ line) (split LF html)).

(** [formatAttributeDiff(name, oldVal, newVal)]. *)
Definition formatAttributeDiff (name oldVal newVal : string) : string :=
  "- " ++ name ++ "=" ++ dq ++ oldVal ++ dq ++ nl ++
  "+ " ++ name ++ "=" ++ dq ++ newVal ++ dq.

End Templates.


(* ===================================================================== *)
(** * lib/types.ts *)
(* ===================================================================== *)

(** [EventType]. *)
Inductive EventType :=
| mutation_add | mutation_remove | mutation_attribute | mutation_text
| user_click | user_input | user_scroll | user_navigation
| user_focus | user_blur
| network_xhr | network_fetch
| error_js | error_console.

(** The string each tag stands for. *)
Definition EventType_toString (t : EventType) : string :=
  match t with
  | mutation_add => "mutation:add"
  | mutation_remove => "mutation:remove"
  | mutation_attribute => "mutation:attribute"
  | mutation_text => "mutation:text"
  | user_click => "user:click"
  | user_input => "user:input"
  | user_scroll => "user:scroll"
  | user_navigation => "user:navigation"
  | user_focus => "user:focus"
  | user_blur => "user:blur"
  | network_xhr => "network:xhr"
  | network_fetch => "network:fetch"
  | error_js => "error:js"
  | error_console => "error:console"
  end.

Definition EventType_eqb (a b : EventType) : bool :=
  String.eqb (EventType_toString a) (EventType_toString b).

Module Rect.
Record t := mk { x : Z; y : Z; width : Z; height : Z }.
End Rect.

(** [ElementDescriptor]. *)
Module ElementDescriptor.
Record t := mk {
  tagName : string;
  id : option string;
  classes : list string;
  role : option string;
  label : option string;
  xpath : string;
  cssSelector : string;
  boundingRect : option Rect.t
}.

(** [{ ...d, label: l }]. *)
Definition with_label (d : t) (l : option string) : t :=
  mk (tagName d) (id d) (classes d) (role d) l (xpath d) (cssSelector d)
     (boundingRect d).
End ElementDescriptor.
Abbreviation ElementDescriptor := ElementDescriptor.t.

(** [DOMFragment]; the attribute record keeps its entries in insertion
    order, as [Object.entries] enumerates them. *)
Module DOMFragment.
Record t := mk {
  html : string;
  text : string;
  attributes : list (string * string)
}.
End DOMFragment.
Abbreviation DOMFragment := DOMFragment.t.

Inductive MutationRecordType := ChildList | Attributes | CharacterData.

Module MutationPayload.
Record t := mk {
  mutationType : MutationRecordType;
  addedNodes : option (list DOMFragment);
  removedNodes : option (list DOMFragment);
  attributeName : option string;
  oldValue : option string;
  newValue : option string;
  parentHTMLBefore : option string;
  parentHTMLAfter : option string
}.
End MutationPayload.
Abbreviation MutationPayload := MutationPayload.t.

Module Modifiers.
Record t := mk { ctrl : bool; shift : bool; alt : bool; meta : bool }.
End Modifiers.

Module ClickPayload.
Record t := mk {
  button : Z;
  coordinates : Z * Z;
  modifiers : Modifiers.t
}.
End ClickPayload.
Abbreviation ClickPayload := ClickPayload.t.

Module InputPayload.
Record t := mk {
  inputType : string;
  value : string;
  selectionStart : option Z;
  selectionEnd : option Z
}.

(** [{ ...p, value: v }]. *)
Definition with_value (p : t) (v : string) : t :=
  mk (inputType p) v (selectionStart p) (selectionEnd p).
End InputPayload.
Abbreviation InputPayload := InputPayload.t.

Module ScrollPayload.
Record t := mk { scrollX : Z; scrollY : Z }.
End ScrollPayload.
Abbreviation ScrollPayload := ScrollPayload.t.

Inductive NavigationKind :=
| pushState | replaceState | popstate | hashchange | pageload.

Definition NavigationKind_toString (k : NavigationKind) : string :=
  match k with
  | pushState => "pushState"
  | replaceState => "replaceState"
  | popstate => "popstate"
  | hashchange => "hashchange"
  | pageload => "pageload"
  end.

Module NavigationPayload.
Record t := mk {
  url : string;
  type : NavigationKind;
  initialHTML : option string
}.
End NavigationPayload.
Abbreviation NavigationPayload := NavigationPayload.t.

Module FocusPayload.
Record t := mk { focused : bool }.
End FocusPayload.
Abbreviation FocusPayload := FocusPayload.t.

Module ErrorPayload.
Record t := mk {
  message : string;
  stack : option string;
  source : option string;
  lineno : option Z;
  colno : option Z
}.
End ErrorPayload.
Abbreviation ErrorPayload := ErrorPayload.t.

(** [EventPayload]: the union discriminated by [kind]. *)
Inductive EventPayload :=
| PMutation (p : MutationPayload)
| PClick (p : ClickPayload)
| PInput (p : InputPayload)
| PScroll (p : ScrollPayload)
| PNavigation (p : NavigationPayload)
| PFocus (p : FocusPayload)
| PError (p : ErrorPayload).

(** [DOMEvent].  [timestamp] is the reading of [performance.now()], kept as
    an integer number of milliseconds. *)
Module DOMEvent.
Record t := mk {
  id : string;
  sessionId : string;
  timestamp : Z;
  sequence : N;
  type : EventType;
  target : ElementDescriptor;
  payload : EventPayload;
  domSnapshot : option DOMFragment
}.

Definition with_target (e : t) (d : ElementDescriptor) : t :=
  mk (id e) (sessionId e) (timestamp e) (sequence e) (type e) d (payload e)
     (domSnapshot e).

Definition with_payload (e : t) (p : EventPayload) : t :=
  mk (id e) (sessionId e) (timestamp e) (sequence e) (type e) (target e) p
     (domSnapshot e).

Definition with_domSnapshot (e : t) (s : option DOMFragment) : t :=
  mk (id e) (sessionId e) (timestamp e) (sequence e) (type e) (target e)
     (payload e) s.

Definition with_sequence (e : t) (n : N) : t :=
  mk (id e) (sessionId e) (timestamp e) n (type e) (target e) (payload e)
     (domSnapshot e).
End DOMEvent.
Abbreviation DOMEvent := DOMEvent.t.

(** [RedactionRule]. *)
Inductive RuleType := InputTypeRule | RegexRule | SelectorRule | AttributeRule.

Module RedactionRule.
Record t := mk {
  id : string;
  name : string;
  type : RuleType;
  pattern : string;
  replacement : string;
  enabled : bool
}.
End RedactionRule.
Abbreviation RedactionRule := RedactionRule.t.

Inductive DiffMode := LineDiff | ElementDiff.

Module ExportConfig.
Record t := mk {
  maxInitialHTMLSize : nat;
  diffMode : DiffMode;
  includeParentContext : bool
}.
End ExportConfig.
Abbreviation ExportConfig := ExportConfig.t.

(** [SessionConfig].  [exportConfig] is read with [?.] in the sources, so it
    may be absent at run time. *)
Module SessionConfig.
Record t := mk {
  redactionRules : option (list RedactionRule);
  captureScrollEvents : bool;
  captureMouseMovement : bool;
  debounceMs : Z;
  maxEventsPerMinute : Z;
  exportConfig : option ExportConfig
}.
End SessionConfig.
Abbreviation SessionConfig := SessionConfig.t.

(** [LIMITS] of [lib/utils/constants.ts]. *)
Module LIMITS.
Definition MAX_EVENTS_IN_MEMORY : nat := 500.
Definition MAX_DOM_FRAGMENT_SIZE : nat := 2000.
Definition MAX_EVENTS_PER_SESSION : N := 50000.
Definition BUFFER_FLUSH_INTERVAL : Z := 500.
Definition INPUT_DEBOUNCE_MS : Z := 100.
Definition SCROLL_THROTTLE_MS : Z := 200.
End LIMITS.

(* ===================================================================== *)
(** * lib/export/markdown-exporter.ts *)
(* ===================================================================== *)

Module MarkdownExporter.
Import Templates.

Record ExportOptions := mkOptions {
  includeReproductionSteps : bool;
  maxDOMFragmentLength : nat;
  groupMutations : bool;
  exportConfig : option ExportConfig
}.

Definition DEFAULT_OPTIONS : ExportOptions :=
  mkOptions true 500 true None.

(** A value is printed by a template literal; an absent one prints as
    [undefined]. *)
Definition show (o : option string) : string :=
  match o with Some s => s | None => "undefined" end.

(** [renderMutationDiff(payload, type)]; [isAdd] stands for [type === 'add'].
    The result is [None] for [null]. *)
Definition renderMutationDiff (options : ExportOptions)
    (payload : MutationPayload) (isAdd : bool) : option string :=
  let unified :=
    match MutationPayload.parentHTMLBefore payload,
          MutationPayload.parentHTMLAfter payload with
    | Some before, Some after =>
        if truthy before && truthy after then
          let diffContent := formatUnifiedDiff before after in
          if truthy diffContent
          then Some ("```diff" ++ nl ++ diffContent ++ nl ++ "```")
          else None
        else None
    | _, _ => None
    end in
  match unified with
  | Some block => Some block
  | None =>
      let fallback (nodes : option (list DOMFragment))
                   (fmt : string -> string) : option string :=
        match nodes with
        | Some (n :: ns) =>
            let diffLines :=
              join nl (map (fun n => fmt (truncate (DOMFragment.html n)
                                            (maxDOMFragmentLength options)))
                           (n :: ns)) in
            Some ("```diff" ++ nl ++ diffLines ++ nl ++ "```")
        | _ => None
        end in
      if isAdd then fallback (MutationPayload.addedNodes payload) formatAddedDiff
      else fallback (MutationPayload.removedNodes payload) formatRemovedDiff
  end.

(** The modifier suffix of a click description. *)
Definition modifierNames (m : Modifiers.t) : list string :=
  (if Modifiers.ctrl m then ["Ctrl"] else []) ++
  (if Modifiers.shift m then ["Shift"] else []) ++
  (if Modifiers.alt m then ["Alt"] else []) ++
  (if Modifiers.meta m then ["Meta"] else []).

(** [value.startsWith('[') && value.endsWith(']')]. *)
Definition isRedacted (value : string) : bool :=
  startsWith value "[" && endsWith value "]".

(** The number of fragments, [nodes?.length || 0]. *)
Definition countOf (nodes : option (list DOMFragment)) : nat :=
  match nodes with Some l => length l | None => 0 end.

(** [describeEvent(event)].  The source casts [event.payload] to the payload
    type its [switch] case expects; the result is [None] where the payload is
    of another kind, which the capture classes never produce. *)
Definition describeEvent (options : ExportOptions) (event : DOMEvent)
  : option string :=
  let target := DOMEvent.target event in
  let targetLabel :=
    match ElementDescriptor.label target with
    | Some l =>
        if truthy l
        then "**" ++ dq ++ escapeMarkdown (truncate l 50) ++ dq ++ "**"
        else "**" ++ ElementDescriptor.tagName target ++ "**"
    | None => "**" ++ ElementDescriptor.tagName target ++ "**"
    end in
  let selector := "(`" ++ ElementDescriptor.cssSelector target ++ "`)" in
  match DOMEvent.type event, DOMEvent.payload event with
  | user_click, PClick payload =>
      let desc := "User clicked " ++ targetLabel ++ " " ++ selector in
      let m := ClickPayload.modifiers payload in
      if Modifiers.ctrl m || Modifiers.shift m || Modifiers.alt m
         || Modifiers.meta m
      then Some (desc ++ " with " ++ join "+" (modifierNames m))
      else Some desc
  | user_input, PInput payload =>
      let fieldName :=
        orElse (ElementDescriptor.label target) "input field" in
      let desc := "User typed in **" ++ dq ++ escapeMarkdown fieldName ++ dq
                  ++ "** " ++ selector in
      let value := InputPayload.value payload in
      if isRedacted value
      then Some (desc ++ nl ++ nl ++ "**Value:** `" ++ value
                 ++ "` *(redacted)*")
      else if truthy value
      then Some (desc ++ nl ++ nl ++ "**Value:** `"
                 ++ escapeMarkdown (truncate value 100) ++ "`")
      else Some desc
  | user_focus, PFocus payload
  | user_blur, PFocus payload =>
      let action :=
        if FocusPayload.focused payload then "focused on" else "left" in
      Some ("User " ++ action ++ " " ++ targetLabel ++ " " ++ selector)
  | user_scroll, PScroll payload =>
      Some ("Scrolled to position ("
            ++ intToString (ScrollPayload.scrollX payload) ++ ", "
            ++ intToString (ScrollPayload.scrollY payload) ++ ")")
  | user_navigation, PNavigation payload =>
      Some ("Navigated to: `" ++ NavigationPayload.url payload ++ "` ("
            ++ NavigationKind_toString (NavigationPayload.type payload)
            ++ ")")
  | mutation_add, PMutation payload =>
      let count := countOf (MutationPayload.addedNodes payload) in
      let desc := natToString count ++ " element"
                  ++ (if Nat.eqb count 1 then "" else "s")
                  ++ " added to " ++ selector in
      match renderMutationDiff options payload true with
      | Some diffBlock => Some (desc ++ nl ++ nl ++ diffBlock)
      | None => Some desc
      end
  | mutation_remove, PMutation payload =>
      let count := countOf (MutationPayload.removedNodes payload) in
      let desc := natToString count ++ " element"
                  ++ (if Nat.eqb count 1 then "" else "s")
                  ++ " removed from " ++ selector in
      match renderMutationDiff options payload false with
      | Some diffBlock => Some (desc ++ nl ++ nl ++ diffBlock)
      | None => Some desc
      end
  | mutation_attribute, PMutation payload =>
      let diffContent :=
        formatAttributeDiff
          (orElse (MutationPayload.attributeName payload) "unknown")
          (orElse (MutationPayload.oldValue payload) "")
          (orElse (MutationPayload.newValue payload) "") in
      Some ("Attribute `" ++ show (MutationPayload.attributeName payload)
            ++ "` changed on " ++ targetLabel ++ nl ++ nl
            ++ "```diff" ++ nl ++ diffContent ++ nl ++ "```")
  | mutation_text, PMutation payload =>
      let diffContent :=
        formatUnifiedDiff (orElse (MutationPayload.oldValue payload) "")
                          (orElse (MutationPayload.newValue payload) "") in
      Some ("Text content changed in " ++ targetLabel ++ nl ++ nl
            ++ "```diff" ++ nl ++ diffContent ++ nl ++ "```")
  | (network_xhr | network_fetch | error_js | error_console), _ =>
      Some ("Event: " ++ EventType_toString (DOMEvent.type event))
  | _, _ => None
  end.

End MarkdownExporter.

(* ===================================================================== *)
(** * Regular expressions of the JavaScript runtime *)
(* ===================================================================== *)

(** What the redaction engine uses of [RegExp]: the constructor with the
    flags ['gi'] and [String.prototype.replace] with a global regular
    expression.  The engine is written against this interface. *)
Class RegExpRuntime := {
  RegExp : Type;
  (** [new RegExp(pattern, 'gi')]; [None] when the constructor throws. *)
  newRegExp : string -> option RegExp;
  (** [text.replace(regex, replacement)]. *)
  replace : string -> RegExp -> string -> string
}.

(** An executable instance: a backtracking matcher with the matching rules of
    ECMAScript (leftmost match, greedy quantifiers, alternatives tried in
    order, case-insensitive comparison) for a fragment of the pattern
    language: characters, [.], classes with ranges and the escapes [\d \w \s]
    and their complements, groups, [|], the quantifiers [* + ? {n} {n,}
    {n,m}], [\b \B ^ $].  Lazy quantifiers, look-around, back references and
    the escapes [\x \u \c] are outside the fragment and rejected by
    [parse].  In replacement strings [$$] and [$&] are expanded. *)
Module MiniRE.

Inductive setItem :=
| SIChar (c : ascii)
| SIRange (lo hi : ascii)
| SIDigit (negated : bool)
| SIWord (negated : bool)
| SISpace (negated : bool).

Inductive re :=
| Empty
| Lit (c : ascii)
| AnyChar
| Class (negated : bool) (items : list setItem)
| Cat (r1 r2 : re)
| Alt (r1 r2 : re)
| Repeat (r : re) (min : nat) (max : option nat)
| WordBoundary (negated : bool)
| InputStart
| InputEnd.

Definition code (c : ascii) : nat := nat_of_ascii c.

Definition between (lo hi : nat) (c : ascii) : bool :=
  Nat.leb lo (code c) && Nat.leb (code c) hi.

Definition isDigit (c : ascii) : bool := between 48 57 c.

Definition isWordChar (c : ascii) : bool :=
  between 97 122 c || between 65 90 c || isDigit c || Nat.eqb (code c) 95.

Definition isLineTerminator (c : ascii) : bool :=
  Nat.eqb (code c) 10 || Nat.eqb (code c) 13.

Definition itemHas (i : setItem) (c : ascii) : bool :=
  match i with
  | SIChar a => Ascii.eqb a c
  | SIRange lo hi => between (code lo) (code hi) c
  | SIDigit n => xorb n (isDigit c)
  | SIWord n => xorb n (isWordChar c)
  | SISpace n => xorb n (isSpace c)
  end.

(** Membership in a class under the flag [i]: some character with the same
    canonical form belongs to the set. *)
Definition classHas (items : list setItem) (c : ascii) : bool :=
  existsb (fun i => itemHas i c || itemHas i (upperChar c)
                    || itemHas i (lowerChar c)) items.

Definition optWord (o : option ascii) : bool :=
  match o with Some c => isWordChar c | None => false end.

Definition headOf (s : string) : option ascii :=
  match s with String a _ => Some a | EmptyString => None end.

(** [matchRe r prev s k]: match [r] at the start of [s], where [prev] is the
    character before [s] in the input, then continue with [k] on the last
    character consumed and the rest; the first success in backtracking order
    is returned. *)
Fixpoint matchRe {R : Type} (r : re) (prev : option ascii) (s : string)
    (k : option ascii -> string -> option R) {struct r} : option R :=
  match r with
  | Empty => k prev s
  | Lit c =>
      match s with
      | String a s' =>
          if Ascii.eqb (upperChar a) (upperChar c) then k (Some a) s' else None
      | EmptyString => None
      end
  | AnyChar =>
      match s with
      | String a s' => if isLineTerminator a then None else k (Some a) s'
      | EmptyString => None
      end
  | Class neg items =>
      match s with
      | String a s' => if xorb neg (classHas items a) then k (Some a) s' else None
      | EmptyString => None
      end
  | Cat r1 r2 => matchRe r1 prev s (fun p s' => matchRe r2 p s' k)
  | Alt r1 r2 =>
      match matchRe r1 prev s k with
      | Some x => Some x
      | None => matchRe r2 prev s k
      end
  | Repeat r0 min max =>
      (fix loop (fuel count : nat) (prev : option ascii) (s : string)
         : option R :=
         match fuel with
         | O => None
         | S fuel' =>
             let more :=
               if match max with Some m => Nat.ltb count m | None => true end
               then matchRe r0 prev s
                      (fun p s' =>
                         if Nat.leb min count
                            && Nat.eqb (String.length s') (String.length s)
                         then None
                         else loop fuel' (S count) p s')
               else None in
             match more with
             | Some x => Some x
             | None => if Nat.leb min count then k prev s else None
             end
         end) (S (min + String.length s)) 0 prev s
  | WordBoundary neg =>
      if xorb neg (xorb (optWord prev) (optWord (headOf s)))
      then k prev s else None
  | InputStart => match prev with None => k prev s | Some _ => None end
  | InputEnd => match s with EmptyString => k prev s | _ => None end
  end.

(** One match attempt at the current position: the last character consumed
    and the rest of the input. *)
Definition matchHere (r : re) (prev : option ascii) (s : string)
  : option (option ascii * string) :=
  matchRe r prev s (fun p s' => Some (p, s')).

(** [GetSubstitution] for [$$] and [$&]. *)
Fixpoint expand (replacement matched : string) : string :=
  match replacement with
  | String "$" (String "$" t) => String "$" (expand t matched)
  | String "$" (String "&" t) => matched ++ expand t matched
  | String c t => String c (expand t matched)
  | EmptyString => EmptyString
  end.

(** The global replacement loop: at each position the leftmost match is
    replaced; after an empty match the next character is copied. *)
Fixpoint replaceFrom (fuel : nat) (r : re) (replacement : string)
    (prev : option ascii) (s : string) : string :=
  match fuel with
  | O => s
  | S fuel' =>
      let copy :=
        match s with
        | String a t => String a (replaceFrom fuel' r replacement (Some a) t)
        | EmptyString => EmptyString
        end in
      match matchHere r prev s with
      | Some (p, s') =>
          let n := String.length s - String.length s' in
          let out := expand replacement (substring0 n s) in
          if Nat.eqb n 0 then out ++ copy
          else out ++ replaceFrom fuel' r replacement p s'
      | None => copy
      end
  end.

Definition replaceAll (text : string) (r : re) (replacement : string)
  : string :=
  replaceFrom (S (String.length text)) r replacement None text.

(** *** The pattern parser *)

Definition isSyntaxChar (c : ascii) : bool :=
  existsb (Ascii.eqb c)
    ["^"; "$"; "."; "*"; "+"; "?"; "("; ")"; "["; "{"; "|"]%char
  || Ascii.eqb c BSL.

Definition isAlnum (c : ascii) : bool :=
  between 97 122 c || between 65 90 c || isDigit c.

(** The atom a backslash escape stands for, outside a class. *)
Definition escapeAtom (c : ascii) : option re :=
  match c with
  | "d"%char => Some (Class false [SIDigit false])
  | "D"%char => Some (Class false [SIDigit true])
  | "w"%char => Some (Class false [SIWord false])
  | "W"%char => Some (Class false [SIWord true])
  | "s"%char => Some (Class false [SISpace false])
  | "S"%char => Some (Class false [SISpace true])
  | "b"%char => Some (WordBoundary false)
  | "B"%char => Some (WordBoundary true)
  | "t"%char => Some (Lit (ascii_of_nat 9))
  | "n"%char => Some (Lit (ascii_of_nat 10))
  | "v"%char => Some (Lit (ascii_of_nat 11))
  | "f"%char => Some (Lit (ascii_of_nat 12))
  | "r"%char => Some (Lit (ascii_of_nat 13))
  | _ => if isAlnum c then None else Some (Lit c)
  end.

(** The class item a backslash escape stands for, inside a class. *)
Definition escapeItem (c : ascii) : option setItem :=
  match c with
  | "d"%char => Some (SIDigit false)
  | "D"%char => Some (SIDigit true)
  | "w"%char => Some (SIWord false)
  | "W"%char => Some (SIWord true)
  | "s"%char => Some (SISpace false)
  | "S"%char => Some (SISpace true)
  | "b"%char => Some (SIChar (ascii_of_nat 8))
  | "t"%char => Some (SIChar (ascii_of_nat 9))
  | "n"%char => Some (SIChar (ascii_of_nat 10))
  | "v"%char => Some (SIChar (ascii_of_nat 11))
  | "f"%char => Some (SIChar (ascii_of_nat 12))
  | "r"%char => Some (SIChar (ascii_of_nat 13))
  | _ => if isAlnum c then None else Some (SIChar c)
  end.

(** One class atom: an escape or a plain character. *)
Definition classAtom (s : string) : option (setItem * string) :=
  match s with
  | String c (String e t) =>
      if Ascii.eqb c BSL
      then match escapeItem e with Some i => Some (i, t) | None => None end
      else Some (SIChar c, String e t)
  | String c t => if Ascii.eqb c BSL then None else Some (SIChar c, t)
  | EmptyString => None
  end.

(** The items of a class up to the closing bracket. *)
Fixpoint classItems (fuel : nat) (s : string) (acc : list setItem)
  : option (list setItem * string) :=
  match fuel with
  | O => None
  | S fuel' =>
      match s with
      | String "]" t => Some (acc, t)
      | _ =>
          match classAtom s with
          | Some (SIChar lo, String "-" t) =>
              match t with
              | String "]" _ => classItems fuel' (String "-" t) (acc ++ [SIChar lo])
              | _ =>
                  match classAtom t with
                  | Some (SIChar hi, t') =>
                      if Nat.leb (code lo) (code hi)
                      then classItems fuel' t' (acc ++ [SIRange lo hi])
                      else None
                  | Some (i, t') =>
                      classItems fuel' t' (acc ++ [SIChar lo; SIChar "-"; i])
                  | None => None
                  end
              end
          | Some (i, t) => classItems fuel' t (acc ++ [i])
          | None => None
          end
      end
  end.

(** A run of decimal digits. *)
Fixpoint digits (s : string) (acc : option nat) : option nat * string :=
  match s with
  | String c t =>
      if isDigit c
      then digits t (Some (10 * match acc with Some n => n | None => 0 end
                           + (code c - 48)))
      else (acc, s)
  | EmptyString => (acc, s)
  end.

(** A quantifier after an atom; [None] for a form outside the fragment. *)
Definition quantifier (r : re) (s : string) : option (re * string) :=
  let lazyCheck (q : re) (t : string) : option (re * string) :=
    match t with
    | String "?" _ => None
    | _ => Some (q, t)
    end in
  match s with
  | String "*" t => lazyCheck (Repeat r 0 None) t
  | String "+" t => lazyCheck (Repeat r 1 None) t
  | String "?" t => lazyCheck (Repeat r 0 (Some 1)) t
  | String "{" t =>
      match digits t None with
      | (Some n, String "}" t') => lazyCheck (Repeat r n (Some n)) t'
      | (Some n, String "," t') =>
          match digits t' None with
          | (None, String "}" t'') => lazyCheck (Repeat r n None) t''
          | (Some m, String "}" t'') =>
              if Nat.leb n m then lazyCheck (Repeat r n (Some m)) t''
              else None
          | _ => None
          end
      | _ => None
      end
  | _ => Some (r, s)
  end.

Fixpoint parseDisjunction (fuel : nat) (s : string) : option (re * string) :=
  match fuel with
  | O => None
  | S fuel' =>
      match parseAlternative fuel' s Empty with
      | Some (r, String "|" t) =>
          match parseDisjunction fuel' t with
          | Some (r2, t') => Some (Alt r r2, t')
          | None => None
          end
      | other => other
      end
  end
with parseAlternative (fuel : nat) (s : string) (acc : re)
  : option (re * string) :=
  match fuel with
  | O => None
  | S fuel' =>
      match s with
      | EmptyString => Some (acc, s)
      | String "|" _ => Some (acc, s)
      | String ")" _ => Some (acc, s)
      | _ =>
          match parseTerm fuel' s with
          | Some (r, t) => parseAlternative fuel' t (Cat acc r)
          | None => None
          end
      end
  end
with parseTerm (fuel : nat) (s : string) : option (re * string) :=
  match fuel with
  | O => None
  | S fuel' =>
      match s with
      | String "^" t => Some (InputStart, t)
      | String "$" t => Some (InputEnd, t)
      | String "." t => quantifier AnyChar t
      | String "(" t =>
          let body :=
            match t with
            | String "?" (String ":" t') => Some t'
            | String "?" _ => None
            | _ => Some t
            end in
          match body with
          | Some t' =>
              match parseDisjunction fuel' t' with
              | Some (r, String ")" t'') => quantifier r t''
              | _ => None
              end
          | None => None
          end
      | String "[" t =>
          let '(neg, t') :=
            match t with
            | String "^" t' => (true, t')
            | _ => (false, t)
            end in
          match classItems (S (String.length t')) t' [] with
          | Some (items, t'') => quantifier (Class neg items) t''
          | None => None
          end
      | String c t =>
          if Ascii.eqb c BSL then
            match t with
            | String e t' =>
                match escapeAtom e with
                | Some (WordBoundary n) => Some (WordBoundary n, t')
                | Some r => quantifier r t'
                | None => None
                end
            | EmptyString => None
            end
          else if isSyntaxChar c then None
          else quantifier (Lit c) t
      | EmptyString => None
      end
  end.

(** [new RegExp(pattern, 'gi')] on the fragment. *)
Definition parse (pattern : string) : option re :=
  match parseDisjunction (4 * String.length pattern + 8) pattern with
  | Some (r, EmptyString) => Some r
  | _ => None
  end.

End MiniRE.

#[export] Instance miniRE : RegExpRuntime := {
  RegExp := MiniRE.re;
  newRegExp := MiniRE.parse;
  replace := MiniRE.replaceAll
}.

(* ===================================================================== *)
(** * lib/redaction/patterns.ts and lib/redaction/engine.ts *)
(* ===================================================================== *)

(** [DEFAULT_REDACTION_RULES]. *)
Definition DEFAULT_REDACTION_RULES : list RedactionRule :=
  [ RedactionRule.mk "input-password" "Password fields" InputTypeRule
      "password" "[PASSWORD]" true;
    RedactionRule.mk "input-hidden" "Hidden inputs" InputTypeRule
      "hidden" "[HIDDEN]" true;
    RedactionRule.mk "regex-email" "Email addresses" RegexRule
      "[a-zA-Z0-9._%+-]+@[a-zA-Z0-9.-]+\.[a-zA-Z]{2,}" "[EMAIL]" true;
    RedactionRule.mk "regex-phone" "Phone numbers" RegexRule
      "(\+?1?[-.\s]?)?(\(?\d{3}\)?[-.\s]?)?\d{3}[-.\s]?\d{4}" "[PHONE]" true;
    RedactionRule.mk "regex-ssn" "Social Security Numbers" RegexRule
      "\b\d{3}-\d{2}-\d{4}\b" "[SSN]" true;
    RedactionRule.mk "regex-credit-card" "Credit card numbers" RegexRule
      "\b(?:\d{4}[- ]?){3}\d{4}\b" "[CARD]" true;
    RedactionRule.mk "regex-ip-address" "IP addresses" RegexRule
      "\b(?:\d{1,3}\.){3}\d{1,3}\b" "[IP]" false;
    RedactionRule.mk "selector-cvv" "CVV fields" SelectorRule
      ("input[name*=" ++ dq ++ "cvv" ++ dq ++ "], input[name*=" ++ dq ++ "cvc"
       ++ dq ++ "], input[autocomplete=" ++ dq ++ "cc-csc" ++ dq ++ "]")
      "[CVV]" true;
    RedactionRule.mk "attr-auth-token" "Auth tokens" AttributeRule
      "data-token,data-auth,data-session,data-csrf" "[TOKEN]" true ].

Module RedactionEngine.

Definition RuleType_eqb (a b : RuleType) : bool :=
  match a, b with
  | InputTypeRule, InputTypeRule | RegexRule, RegexRule
  | SelectorRule, SelectorRule | AttributeRule, AttributeRule => true
  | _, _ => false
  end.

(** The longest prefix of characters satisfying [p], and the rest. *)
Fixpoint span (p : ascii -> bool) (s : string) : string * string :=
  match s with
  | String c t =>
      if p c then let '(w, r) := span p t in (String c w, r)
      else (EmptyString, s)
  | EmptyString => (EmptyString, EmptyString)
  end.

(** After an opening bracket: a word, an optional operator among [* ^ $], an
    equals sign and a non-empty quoted value closed by a bracket. *)
Definition attrPatternAt (s : string) : option (string * string * string) :=
  let '(attr, r1) := span MiniRE.isWordChar s in
  if negb (truthy attr) then None else
  let '(op, r2) :=
    match r1 with
    | String c t =>
        if existsb (Ascii.eqb c) ["*"; "^"; "$"]%char
        then (String c EmptyString, t) else (EmptyString, r1)
    | EmptyString => (EmptyString, r1)
    end in
  match r2 with
  | String "=" (String q r3) =>
      if Ascii.eqb q DQ then
        let '(value, r4) := span (fun c => negb (Ascii.eqb c DQ)) r3 in
        if negb (truthy value) then None else
        match r4 with
        | String q' (String "]" _) =>
            if Ascii.eqb q' DQ then Some (attr, op, value) else None
        | _ => None
        end
      else None
  | _ => None
  end.

(** The first match of the regular expression that
    [matchesSelectorPattern] applies to the pattern, an attribute test in
    brackets: its three groups.  None of its quantified parts can give back
    characters to a later part, so the leftmost bracket where the test
    reads through is the match. *)
Fixpoint attrPatternMatch (pattern : string)
  : option (string * string * string) :=
  match pattern with
  | String c t =>
      match (if Ascii.eqb c "[" then attrPatternAt t else None) with
      | Some m => Some m
      | None => attrPatternMatch t
      end
  | EmptyString => None
  end.

(** [matchAttributeValue(actual, op, expected)]. *)
Definition matchAttributeValue (actual op expected : string) : bool :=
  if String.eqb op "*" then strIncludes actual expected
  else if String.eqb op "^" then startsWith actual expected
  else if String.eqb op "$" then endsWith actual expected
  else String.eqb actual expected.

(** [matchesSelectorPattern(target, pattern)]. *)
Definition matchesSelectorPattern (target : ElementDescriptor)
    (pattern : string) : bool :=
  if startsWith pattern (ElementDescriptor.tagName target) then
    match attrPatternMatch pattern with
    | Some (attr, op, value) =>
        let byId :=
          match ElementDescriptor.id target with
          | Some i => if String.eqb attr "id" && truthy i then Some i else None
          | None => None
          end in
        match byId with
        | Some i => matchAttributeValue i op value
        | None =>
            if String.eqb attr "autocomplete"
               && strIncludes (ElementDescriptor.cssSelector target) value
            then true
            else if String.eqb attr "name"
                    && strIncludes (ElementDescriptor.cssSelector target) value
            then true
            else false
        end
    | None => false
    end
  else false.

(** [rule.pattern.split(',').map((p) => p.trim())]. *)
Definition patternsOf (rule : RedactionRule) : list string :=
  map trim (split "," (RedactionRule.pattern rule)).

(** [shouldRedactInputType(target, inputType)] over the rule list. *)
Fixpoint shouldRedactInputType (rules : list RedactionRule)
    (target : ElementDescriptor) (inputType : string) : bool :=
  match rules with
  | [] => false
  | rule :: rest =>
      if negb (RedactionRule.enabled rule)
      then shouldRedactInputType rest target inputType
      else if RuleType_eqb (RedactionRule.type rule) InputTypeRule
              && String.eqb (RedactionRule.pattern rule) inputType
      then true
      else if RuleType_eqb (RedactionRule.type rule) SelectorRule
              && truthy (ElementDescriptor.cssSelector target)
              && existsb (matchesSelectorPattern target) (patternsOf rule)
      then true
      else shouldRedactInputType rest target inputType
  end.

(** [getReplacementForInputType(target, inputType)] over the rule list. *)
Fixpoint getReplacementForInputType (rules : list RedactionRule)
    (target : ElementDescriptor) (inputType : string) : string :=
  match rules with
  | [] => "[REDACTED]"
  | rule :: rest =>
      if negb (RedactionRule.enabled rule)
      then getReplacementForInputType rest target inputType
      else if RuleType_eqb (RedactionRule.type rule) InputTypeRule
              && String.eqb (RedactionRule.pattern rule) inputType
      then RedactionRule.replacement rule
      else if RuleType_eqb (RedactionRule.type rule) SelectorRule
              && existsb (matchesSelectorPattern target) (patternsOf rule)
      then RedactionRule.replacement rule
      else getReplacementForInputType rest target inputType
  end.

Section Engine.
Context {RT : RegExpRuntime}.

(** The fields of the class: the rule list and the map from rule ids to
    compiled regular expressions. *)
Record t := mk {
  rules : list RedactionRule;
  compiledRegex : gmap string RegExp
}.

(** A fresh engine, before [loadRules]. *)
Definition create : t := mk [] ∅.

(** The loop of [loadRules] that compiles the enabled regex rules; a pattern
    the constructor rejects leaves the map as it is. *)
Definition compileRules (rules : list RedactionRule) : gmap string RegExp :=
  fold_left
    (fun compiled rule =>
       if RuleType_eqb (RedactionRule.type rule) RegexRule
          && RedactionRule.enabled rule
       then match newRegExp (RedactionRule.pattern rule) with
            | Some r => <[RedactionRule.id rule := r]> compiled
            | None => compiled
            end
       else compiled)
    rules ∅.

(** [loadRules(customRules)]. *)
Definition loadRules (customRules : option (list RedactionRule)) : t :=
  let rules :=
    app DEFAULT_REDACTION_RULES
        match customRules with Some l => l | None => [] end in
  mk rules (compileRules rules).

(** [redactText(text)]: the cascade over the enabled regex rules. *)
Definition redactText (this : t) (text : string) : string :=
  fold_left
    (fun result rule =>
       if negb (RedactionRule.enabled rule)
          || negb (RuleType_eqb (RedactionRule.type rule) RegexRule)
       then result
       else match compiledRegex this !! RedactionRule.id rule with
            | Some regex => replace result regex (RedactionRule.replacement rule)
            | None => result
            end)
    (rules this) text.

(** The replacement of the first enabled attribute rule that names [key]. *)
Fixpoint attributeRuleFor (rules : list RedactionRule) (key : string)
  : option string :=
  match rules with
  | [] => None
  | rule :: rest =>
      if negb (RedactionRule.enabled rule)
         || negb (RuleType_eqb (RedactionRule.type rule) AttributeRule)
      then attributeRuleFor rest key
      else if includes (patternsOf rule) key
      then Some (RedactionRule.replacement rule)
      else attributeRuleFor rest key
  end.

(** [redactAttributes(attrs)]. *)
Definition redactAttributes (this : t) (attrs : list (string * string))
  : list (string * string) :=
  map (fun '(key, value) =>
         match attributeRuleFor (rules this) key with
         | Some replacement => (key, replacement)
         | None => (key, redactText this value)
         end)
      attrs.

(** [process(event)].  For a [user:input] event the source casts the payload
    to [InputPayload]; the result is [None] when the payload is of another
    kind, which [EventCapture] never produces. *)
Definition process (this : t) (event : DOMEvent) : option DOMEvent :=
  let redacted := event in
  let redacted :=
    match ElementDescriptor.label (DOMEvent.target redacted) with
    | Some l =>
        if truthy l
        then DOMEvent.with_target redacted
               (ElementDescriptor.with_label (DOMEvent.target redacted)
                  (Some (redactText this l)))
        else redacted
    | None => redacted
    end in
  let redacted :=
    match DOMEvent.type event with
    | user_input =>
        match DOMEvent.payload event with
        | PInput inputPayload =>
            if shouldRedactInputType (rules this) (DOMEvent.target event)
                 (InputPayload.inputType inputPayload)
            then Some (DOMEvent.with_payload redacted
                         (PInput (InputPayload.with_value inputPayload
                                    (getReplacementForInputType (rules this)
                                       (DOMEvent.target event)
                                       (InputPayload.inputType inputPayload)))))
            else Some (DOMEvent.with_payload redacted
                         (PInput (InputPayload.with_value inputPayload
                                    (redactText this
                                       (InputPayload.value inputPayload)))))
        | _ => None
        end
    | _ => Some redacted
    end in
  match redacted with
  | Some redacted =>
      match DOMEvent.domSnapshot redacted with
      | Some snapshot =>
          Some (DOMEvent.with_domSnapshot redacted
                  (Some (DOMFragment.mk
                           (redactText this (DOMFragment.html snapshot))
                           (redactText this (DOMFragment.text snapshot))
                           (redactAttributes this
                              (DOMFragment.attributes snapshot)))))
      | None => Some redacted
      end
  | None => None
  end.

End Engine.
End RedactionEngine.

(* ===================================================================== *)
(** * The document *)
(* ===================================================================== *)

(** Nodes are trees; a node is referred to by the tree it belongs to and its
    path from the root of that tree.  The tree of an attached node is the
    document element; a removed node is the root of its own tree. *)
Module Dom.

#[warnings="-register-all"]
Inductive node :=
| TextNode (data : string)
| CommentNode (data : string)
| ElementNode (tagName : string) (attributes : list (string * string))
    (children : list node).

Record NodeRef := mkRef {
  attached : bool;
  root : node;
  path : list nat
}.

Definition isElement (n : node) : bool :=
  match n with ElementNode _ _ _ => true | _ => false end.

Definition isText (n : node) : bool :=
  match n with TextNode _ => true | _ => false end.

Definition children (n : node) : list node :=
  match n with ElementNode _ _ cs => cs | _ => [] end.

Definition tagName (n : node) : string :=
  match n with ElementNode t _ _ => t | _ => EmptyString end.

Definition nodeName (n : node) : string :=
  match n with
  | TextNode _ => "#text"
  | CommentNode _ => "#comment"
  | ElementNode t _ _ => t
  end.

Definition attributes (n : node) : list (string * string) :=
  match n with ElementNode _ a _ => a | _ => [] end.

Fixpoint lookupAttr (attrs : list (string * string)) (name : string)
  : option string :=
  match attrs with
  | [] => None
  | (k, v) :: rest => if String.eqb k name then Some v else lookupAttr rest name
  end.

(** [element.getAttribute(name)]. *)
Definition getAttribute (n : node) (name : string) : option string :=
  lookupAttr (attributes n) name.

(** [element.id]. *)
Definition id (n : node) : string :=
  match getAttribute n "id" with Some v => v | None => EmptyString end.

(** [element.className] of an HTML element. *)
Definition className (n : node) : string :=
  match getAttribute n "class" with Some v => v | None => EmptyString end.

(** The text of the text nodes below a node, in tree order. *)
Fixpoint descendantText (n : node) : string :=
  match n with
  | TextNode d => d
  | CommentNode _ => EmptyString
  | ElementNode _ _ cs => String.concat EmptyString (map descendantText cs)
  end.

(** [node.textContent] of an element, a text node or a comment. *)
Definition textContent (n : node) : string :=
  match n with
  | CommentNode d => d
  | _ => descendantText n
  end.

(** A node and the nodes below it, in tree order. *)
Fixpoint descendantsOrSelf (n : node) : list node :=
  match n with
  | ElementNode _ _ cs => n :: List.flat_map descendantsOrSelf cs
  | _ => [n]
  end.

(** [document.getElementById(i)]. *)
Definition getElementById (doc : node) (i : string) : option node :=
  if truthy i
  then List.find (fun n => isElement n && String.eqb (id n) i) (descendantsOrSelf doc)
  else None.

(** The node at a path. *)
Fixpoint nodeAt (n : node) (p : list nat) : option node :=
  match p with
  | [] => Some n
  | i :: p' =>
      match List.nth_error (children n) i with
      | Some c => nodeAt c p'
      | None => None
      end
  end.

Definition deref (r : NodeRef) : option node := nodeAt (root r) (path r).

(** [node.parentElement]: the documentElement and the root of a removed
    subtree have none. *)
Definition parentElement (r : NodeRef) : option NodeRef :=
  match path r with
  | [] => None
  | _ :: _ => Some (mkRef (attached r) (root r) (List.removelast (path r)))
  end.

(** A type selector matches the tag name without regard to case. *)
Definition hasTag (tag : string) (n : node) : bool :=
  isElement n && String.eqb (toLowerCase (tagName n)) tag.

(** The node and its ancestors, the node first. *)
Fixpoint ancestorsOrSelf (fuel : nat) (r : NodeRef) : list NodeRef :=
  match fuel with
  | O => [r]
  | S fuel' =>
      match parentElement r with
      | Some p => r :: ancestorsOrSelf fuel' p
      | None => [r]
      end
  end.

(** [element.closest(tag)] for a type selector. *)
Definition closest (r : NodeRef) (tag : string) : option node :=
  let matching (a : NodeRef) : option node :=
    match deref a with
    | Some n => if hasTag tag n then Some n else None
    | None => None
    end in
  fold_right (fun a found =>
                match matching a with Some n => Some n | None => found end)
             None (ancestorsOrSelf (length (path r)) r).

(** A deep copy of [n] from which the descendants satisfying [p] are
    removed: [clone.querySelectorAll(...)] followed by [remove()] on each. *)
Fixpoint removeDescendants (p : node -> bool) (n : node) : node :=
  match n with
  | ElementNode t a cs =>
      ElementNode t a
        ((fix keep (l : list node) : list node :=
            match l with
            | [] => []
            | c :: l' =>
                if p c then keep l' else removeDescendants p c :: keep l'
            end) cs)
  | _ => n
  end.

(** The element siblings before the node, nearest last. *)
Definition precedingElementSiblings (r : NodeRef) : list node :=
  match parentElement r with
  | Some p =>
      match deref p with
      | Some pn => List.filter isElement (List.firstn (List.last (path r) 0) (children pn))
      | None => []
      end
  | None => []
  end.

(** [parent.children] of the parent of the node. *)
Definition siblingElements (r : NodeRef) : list node :=
  match parentElement r with
  | Some p =>
      match deref p with
      | Some pn => List.filter isElement (children pn)
      | None => []
      end
  | None => []
  end.

(** The path of [document.body]: the first [body] or [frameset] child of the
    document element. *)
Fixpoint bodyIndex (cs : list node) (i : nat) : option nat :=
  match cs with
  | [] => None
  | c :: rest =>
      if hasTag "body" c || hasTag "frameset" c then Some i
      else bodyIndex rest (S i)
  end.

Definition isDocumentElement (r : NodeRef) : bool :=
  attached r && match path r with [] => true | _ => false end.

Definition isBody (r : NodeRef) : bool :=
  attached r &&
  match path r, bodyIndex (children (root r)) 0 with
  | [i], Some b => Nat.eqb i b
  | _, _ => false
  end.

End Dom.

(** The result of a call that may throw. *)
Inductive Outcome (A : Type) :=
| Returned (a : A)
| Thrown.
Arguments Returned {A} a.
Arguments Thrown {A}.

Inductive QueryResult :=
| Found (n : Dom.node)
| NotFound
| SyntaxError.

(** What the code uses of the browser beyond the tree itself: the HTML
    serializer, [CSS.escape], the layout ([getBoundingClientRect] after
    [Math.round]; [None] when the call throws), the selector engine behind
    [document.querySelector] and the source of identifiers. *)
Class Browser := {
  outerHTML : Dom.node -> string;
  cssEscape : string -> string;
  roundedClientRect : Dom.NodeRef -> option Rect.t;
  querySelector : Dom.node -> string -> QueryResult;
  (** [crypto.randomUUID()]: the result of its n-th call. *)
  randomUUID : nat -> string
}.

(* ===================================================================== *)
(** * lib/capture/semantic-extractor.ts *)
(* ===================================================================== *)

Module SemanticExtractor.
Import Dom.

(** [describeNonElement(node)]. *)
Definition describeNonElement (node : option Dom.node) : ElementDescriptor :=
  ElementDescriptor.mk
    (match node with
     | Some n => if truthy (toLowerCase (nodeName n))
                 then toLowerCase (nodeName n) else "unknown"
     | None => "unknown"
     end)
    None [] None None EmptyString EmptyString None.

(** [typeRoles[input.type] || 'textbox']. *)
Definition getInputRole (input : Dom.node) : option string :=
  let type :=
    match getAttribute input "type" with
    | Some v => toLowerCase v
    | None => "text"
    end in
  Some (if String.eqb type "search" then "searchbox"
        else if String.eqb type "number" then "spinbutton"
        else if String.eqb type "range" then "slider"
        else if String.eqb type "checkbox" then "checkbox"
        else if String.eqb type "radio" then "radio"
        else if includes ["button"; "submit"; "reset"; "image"] type
        then "button"
        else "textbox").

(** The table [implicitRoles]. *)
Definition implicitRoles : list (string * string) :=
  [("button", "button"); ("a", "link"); ("select", "combobox");
   ("textarea", "textbox"); ("img", "img"); ("nav", "navigation");
   ("main", "main"); ("header", "banner"); ("footer", "contentinfo");
   ("form", "form"); ("table", "table"); ("ul", "list"); ("ol", "list");
   ("li", "listitem"); ("dialog", "dialog"); ("article", "article");
   ("section", "region"); ("aside", "complementary")].

(** [getRole(element)]. *)
Definition getRole (element : Dom.node) : option string :=
  match getAttribute element "role" with
  | Some explicitRole =>
      if truthy explicitRole then Some explicitRole
      else
        let tagName := toLowerCase (tagName element) in
        if String.eqb tagName "input" then getInputRole element
        else lookupAttr implicitRoles tagName
  | None =>
      let tagName := toLowerCase (tagName element) in
      if String.eqb tagName "input" then getInputRole element
      else lookupAttr implicitRoles tagName
  end.

(** [s || null] for a string. *)
Definition nonEmpty (s : string) : option string :=
  if truthy s then Some s else None.

(** [Array.from(element.classList)]: the tokens of the class attribute,
    without repetition. *)
Fixpoint tokens (s : string) (current : string) : list string :=
  match s with
  | EmptyString => if truthy current then [current] else []
  | String c t =>
      if isSpace c
      then (if truthy current then [current] else []) ++ tokens t EmptyString
      else tokens t (current ++ String c EmptyString)
  end.

Fixpoint dedupe (l : list string) (seen : list string) : list string :=
  match l with
  | [] => []
  | x :: rest =>
      if includes seen x then dedupe rest seen
      else x :: dedupe rest (x :: seen)
  end.

Definition classList (element : Dom.node) : list string :=
  dedupe (tokens (className element) EmptyString) [].

(** [s.split(/\s+/)] for a trimmed string. *)
Definition splitWhitespace (s : string) : list string :=
  match tokens s EmptyString with
  | [] => [EmptyString]
  | l => l
  end.

Section Extractor.
Context {B : Browser}.

(** [findAssociatedLabel(element)]; it throws when the selector built from
    the id is rejected. *)
Definition findAssociatedLabel (doc : Dom.node) (element : NodeRef)
    (el : Dom.node) : Outcome (option string) :=
  let wrapping : option string :=
    match closest element "label" with
    | Some parentLabel =>
        let clone :=
          removeDescendants
            (fun n => hasTag "input" n || hasTag "select" n
                      || hasTag "textarea" n)
            parentLabel in
        nonEmpty (trim (textContent clone))
    | None => None
    end in
  if truthy (id el) then
    match querySelector doc ("label[for=" ++ dq ++ id el ++ dq ++ "]") with
    | Found label => Returned (nonEmpty (trim (textContent label)))
    | NotFound => Returned wrapping
    | SyntaxError => Thrown
    end
  else Returned wrapping.

(** The loop of [getLabel] over its sources: the first whose result has a
    non-empty trimmed text wins. *)
Fixpoint firstLabel (sources : list (unit -> Outcome (option string)))
  : Outcome (option string) :=
  match sources with
  | [] => Returned None
  | source :: rest =>
      match source tt with
      | Thrown => Thrown
      | Returned (Some label) =>
          if truthy (trim label) then Returned (Some (trim label))
          else firstLabel rest
      | Returned None => firstLabel rest
      end
  end.

(** [getLabel(element)]. *)
Definition getLabel (doc : Dom.node) (element : NodeRef) (el : Dom.node)
  : Outcome (option string) :=
  let sources : list (unit -> Outcome (option string)) :=
    [ (fun _ => Returned (getAttribute el "aria-label"));
      (fun _ =>
         match getAttribute el "aria-labelledby" with
         | Some labelledBy =>
             if truthy labelledBy
             then Returned (option_map textContent
                              (getElementById doc labelledBy))
             else Returned None
         | None => Returned None
         end);
      (fun _ => Returned (getAttribute el "title"));
      (fun _ => Returned (getAttribute el "alt"));
      (fun _ => Returned (getAttribute el "placeholder"));
      (fun _ => findAssociatedLabel doc element el);
      (fun _ =>
         let text := trim (textContent el) in
         Returned (Some (if truthy text && Nat.leb (String.length text) 50
                         then text
                         else substring0 47 text ++ "..."))) ] in
  firstLabel sources.

(** [getXPath(element)]. *)
Fixpoint xpathParts (fuel : nat) (current : NodeRef) (parts : list string)
  : list string :=
  match deref current with
  | Some n =>
      if isElement n then
        let index :=
          1 + length (List.filter (fun s => String.eqb (tagName s) (tagName n))
                                  (precedingElementSiblings current)) in
        let parts :=
          (toLowerCase (tagName n) ++ "[" ++ natToString index ++ "]")
          :: parts in
        match fuel, parentElement current with
        | S fuel', Some p => xpathParts fuel' p parts
        | _, _ => parts
        end
      else parts
  | None => parts
  end.

Definition getXPath (element : NodeRef) (el : Dom.node) : string :=
  if truthy (id el) then "//*[@id=" ++ dq ++ id el ++ dq ++ "]"
  else "/" ++ join "/" (xpathParts (length (path element)) element []).

(** The position of the node among the siblings of the same tag, counted
    from one: [sameTagSiblings.indexOf(current) + 1]. *)
Definition nthOfType (current : NodeRef) (n : Dom.node) : nat :=
  1 + length (List.filter (fun s => String.eqb (tagName s) (tagName n))
                          (precedingElementSiblings current)).

(** [getCssSelector(element)]. *)
Fixpoint selectorPath (fuel : nat) (current : NodeRef) (path : list string)
  : list string :=
  if isBody current || isDocumentElement current then path else
  match deref current with
  | Some n =>
      if truthy (id n) then ("#" ++ cssEscape (id n)) :: path
      else
        let selector := toLowerCase (tagName n) in
        let selector :=
          if truthy (className n) then
            let classes := List.firstn 2 (splitWhitespace (trim (className n))) in
            selector ++ "." ++ join "." (map cssEscape classes)
          else selector in
        let selector :=
          match parentElement current with
          | Some _ =>
              let sameTagSiblings :=
                List.filter (fun s => String.eqb (tagName s) (tagName n))
                            (siblingElements current) in
              if Nat.ltb 1 (length sameTagSiblings)
              then selector ++ ":nth-of-type("
                   ++ natToString (nthOfType current n) ++ ")"
              else selector
          | None => selector
          end in
        match fuel, parentElement current with
        | S fuel', Some p => selectorPath fuel' p (selector :: path)
        | _, _ => selector :: path
        end
  | None => path
  end.

Definition getCssSelector (element : NodeRef) (el : Dom.node) : string :=
  if truthy (id el) then "#" ++ cssEscape (id el)
  else join " > " (selectorPath (length (path element)) element []).

(** [describe(element)]; [None] stands for a [null] argument. *)
Definition describe (doc : Dom.node) (element : option NodeRef)
  : Outcome ElementDescriptor :=
  match element with
  | None => Returned (describeNonElement None)
  | Some r =>
      match deref r with
      | Some el =>
          if isElement el then
            match getLabel doc r el with
            | Returned label =>
                Returned
                  (ElementDescriptor.mk
                     (toLowerCase (tagName el))
                     (nonEmpty (id el))
                     (classList el)
                     (getRole el)
                     label
                     (getXPath r el)
                     (getCssSelector r el)
                     (roundedClientRect r))
            | Thrown => Thrown
            end
          else Returned (describeNonElement (Some el))
      | None => Returned (describeNonElement None)
      end
  end.

(** [captureFragment(element, maxLength)]; the result [None] is
    [undefined]. *)
Definition captureFragment (element : option Dom.node) (maxLength : nat)
  : option DOMFragment :=
  match element with
  | None => None
  | Some el =>
      if isElement el then
        Some (DOMFragment.mk
                (substring0 maxLength (outerHTML el))
                (substring0 500 (trim (textContent el)))
                (attributes el))
      else if isText el then
        Some (DOMFragment.mk (trim (textContent el)) (trim (textContent el)) [])
      else Some (DOMFragment.mk EmptyString EmptyString [])
  end.

End Extractor.
End SemanticExtractor.

(** A browser to evaluate the definitions on sample documents: the
    serializer writes tags, attributes and text as they are (the samples have
    no void element and nothing to escape), [CSS.escape] is the identity (the
    samples use plain identifiers), every element has an empty rectangle, and
    the selector engine answers the one shape of selector that the code
    builds, [label[for=...]] with a quoted value; a value holding a quote, a
    backslash or a line break is answered by [SyntaxError]. *)
Module PlainBrowser.
Import Dom.

Definition voidTags : list string :=
  ["area"; "base"; "br"; "col"; "embed"; "hr"; "img"; "input"; "link";
   "meta"; "source"; "track"; "wbr"].

Fixpoint serialize (n : node) : string :=
  match n with
  | TextNode d => d
  | CommentNode d => "<!--" ++ d ++ "-->"
  | ElementNode t a cs =>
      "<" ++ toLowerCase t
      ++ String.concat EmptyString
           (map (fun '(k, v) => " " ++ k ++ "=" ++ dq ++ v ++ dq) a)
      ++ ">"
      ++ (if includes voidTags (toLowerCase t) then EmptyString
          else String.concat EmptyString (map serialize cs)
               ++ "</" ++ toLowerCase t ++ ">")
  end.

Fixpoint stripPrefix (p s : string) : option string :=
  match p, s with
  | EmptyString, _ => Some s
  | String a p', String b s' =>
      if Ascii.eqb a b then stripPrefix p' s' else None
  | _, EmptyString => None
  end.

Fixpoint plainValue (v : string) : bool :=
  match v with
  | EmptyString => true
  | String c t =>
      negb (Ascii.eqb c DQ || Ascii.eqb c BSL
            || (Nat.leb 10 (nat_of_ascii c) && Nat.leb (nat_of_ascii c) 13))
      && plainValue t
  end.

Definition labelFor (doc : node) (v : string) : QueryResult :=
  match List.find (fun n => hasTag "label" n
                            && match getAttribute n "for" with
                               | Some f => String.eqb f v
                               | None => false
                               end)
                  (descendantsOrSelf doc) with
  | Some n => Found n
  | None => NotFound
  end.

Definition query (doc : node) (selector : string) : QueryResult :=
  match stripPrefix ("label[for=" ++ dq) selector with
  | Some rest =>
      let v := substring0 (String.length rest - 2) rest in
      if String.eqb rest (v ++ dq ++ "]") && plainValue v
      then labelFor doc v
      else SyntaxError
  | None => SyntaxError
  end.

End PlainBrowser.

#[export] Instance plainBrowser : Browser := {
  outerHTML := PlainBrowser.serialize;
  cssEscape := fun s => s;
  roundedClientRect := fun _ => Some (Rect.mk 0 0 0 0);
  querySelector := PlainBrowser.query;
  randomUUID := fun n => "uuid-" ++ natToString n
}.

(* ===================================================================== *)
(** * lib/utils/debounce.ts *)
(* ===================================================================== *)

(** A debounced or throttled function is a closure over a little state.  It
    is modelled by that state and by the requests the closure makes to the
    timer system and to the wrapped function [fn]. *)
Module Timing.

Inductive Effect (A : Type) :=
| ClearTimeout (id : nat)
| SetTimeout (delay : Z) (args : A)
| CallFn (args : A).
Arguments ClearTimeout {A} id.
Arguments SetTimeout {A} delay args.
Arguments CallFn {A} args.

(** The state of [debounce]: [timeoutId]. *)
Record Debounce := mkDebounce { d_timeoutId : option nat }.

Definition newDebounce : Debounce := mkDebounce None.

(** A call of [debounced(...args)]; [fresh] is the id that [setTimeout]
    returns. *)
Definition debounced {A : Type} (wait : Z) (fresh : nat) (args : A)
    (st : Debounce) : Debounce * list (Effect A) :=
  (mkDebounce (Some fresh),
   app match d_timeoutId st with
       | Some id => [ClearTimeout id]
       | None => []
       end
       [SetTimeout wait args]).

(** The callback of the timer of [debounce]: [fn(...args)], then
    [timeoutId = null]; [completed] tells whether [fn] returned. *)
Definition debounceFired (completed : bool) (st : Debounce) : Debounce :=
  if completed then mkDebounce None else st.

(** The state of [throttle]: [lastCall] and [timeoutId]. *)
Record Throttle := mkThrottle {
  lastCall : Z;
  t_timeoutId : option nat
}.

Definition newThrottle : Throttle := mkThrottle 0 None.

(** A call of [throttled(...args)] when [Date.now()] reads [now]. *)
Definition throttled {A : Type} (wait now : Z) (fresh : nat) (args : A)
    (st : Throttle) : Throttle * list (Effect A) :=
  let remaining := (wait - (now - lastCall st))%Z in
  if (remaining <=? 0)%Z then
    (mkThrottle now None,
     app match t_timeoutId st with
         | Some id => [ClearTimeout id]
         | None => []
         end
         [CallFn args])
  else
    match t_timeoutId st with
    | None => (mkThrottle (lastCall st) (Some fresh), [SetTimeout remaining args])
    | Some _ => (st, [])
    end.

(** The callback of the timer of [throttle], run when [Date.now()] reads
    [now]: [lastCall = Date.now(); timeoutId = null; fn(...args)]. *)
Definition throttleFired {A : Type} (now : Z) (args : A) (st : Throttle)
  : Throttle * list (Effect A) :=
  (mkThrottle now None, [CallFn args]).

End Timing.

(* ===================================================================== *)
(** * content.ts, lib/capture/mutation-observer.ts, event-listener.ts *)
(* ===================================================================== *)

(** ** Notifications of the page *)

(** The target of an [input] notification with the properties that
    [handleInput] reads; [selectionStart] and [selectionEnd] are absent
    when the element has no such property or it is [null]. *)
Module InputTarget.
Record t := mk {
  ref : Dom.NodeRef;
  type : string;
  value : string;
  selectionStart : option Z;
  selectionEnd : option Z
}.
End InputTarget.

(** An interaction notification; an absent target is [null]. *)
Inductive DomEvent :=
| ClickEvent (target : option Dom.NodeRef) (button clientX clientY : Z)
    (modifiers : Modifiers.t)
| InputEvent (target : option InputTarget.t)
| FocusEvent (target : option Dom.NodeRef)
| BlurEvent (target : option Dom.NodeRef)
| ScrollEvent
| PopStateEvent
| HashChangeEvent.

Inductive ListenerType :=
| OnClick | OnInput | OnFocus | OnBlur | OnScroll | OnPopState | OnHashChange.

Definition ListenerType_eqb (a b : ListenerType) : bool :=
  match a, b with
  | OnClick, OnClick | OnInput, OnInput | OnFocus, OnFocus | OnBlur, OnBlur
  | OnScroll, OnScroll | OnPopState, OnPopState
  | OnHashChange, OnHashChange => true
  | _, _ => false
  end.

Definition listenerTypeOf (e : DomEvent) : ListenerType :=
  match e with
  | ClickEvent _ _ _ _ _ => OnClick
  | InputEvent _ => OnInput
  | FocusEvent _ => OnFocus
  | BlurEvent _ => OnBlur
  | ScrollEvent => OnScroll
  | PopStateEvent => OnPopState
  | HashChangeEvent => OnHashChange
  end.

(** The closures handed to [setTimeout] and [setInterval]: the flush of the
    micro-batch, the delayed call of the debounced input handler of an
    [EventCapture] object with the notification it was called with, the
    delayed call of its throttled scroll handler, and the periodic flush of
    the event buffer. *)
Inductive Callback :=
| CbBatch
| CbDebouncedInput (owner : nat) (e : DomEvent)
| CbThrottledScroll (owner : nat) (e : DomEvent)
| CbFlushInterval.

Record Timer := mkTimer {
  tid : nat;
  callback : Callback;
  repeating : bool
}.

(** What a callback reads from the page while it runs: the two clocks, the
    tree of [document.documentElement], [window.location.href] and the
    scroll position. *)
Record Env := mkEnv {
  perfNow : Z;
  dateNow : Z;
  document : Dom.node;
  href : string;
  scrollX : Z;
  scrollY : Z
}.

(** ** The objects *)

(** A notification of the [MutationObserver]: [MutationRecord].  The nodes are
    given as they are when the record is read. *)
Module MutationRecord.
Record t := mk {
  type : MutationRecordType;
  target : Dom.NodeRef;
  addedNodes : list Dom.node;
  removedNodes : list Dom.node;
  attributeName : option string;
  oldValue : option string
}.
End MutationRecord.

(** [MutationWithContext]. *)
Module MutationWithContext.
Record t := mk {
  record : MutationRecord.t;
  parentHTMLBefore : option string
}.
End MutationWithContext.

(** The fields of [MutationCapture]; [observer] tells whether an observer is
    connected. *)
Module MutationCapture.
Record t := mk {
  observer : bool;
  sessionId : string;
  sequence : N;
  batchBuffer : list MutationWithContext.t;
  batchTimeout : option nat;
  includeParentContext : bool
}.
Definition set_observer (v : bool) (r : t) : t :=
  mk v (sessionId r) (sequence r) (batchBuffer r) (batchTimeout r) (includeParentContext r).
Definition set_sessionId (v : string) (r : t) : t :=
  mk (observer r) v (sequence r) (batchBuffer r) (batchTimeout r) (includeParentContext r).
Definition set_sequence (v : N) (r : t) : t :=
  mk (observer r) (sessionId r) v (batchBuffer r) (batchTimeout r) (includeParentContext r).
Definition set_batchBuffer (v : list MutationWithContext.t) (r : t) : t :=
  mk (observer r) (sessionId r) (sequence r) v (batchTimeout r) (includeParentContext r).
Definition set_batchTimeout (v : option nat) (r : t) : t :=
  mk (observer r) (sessionId r) (sequence r) (batchBuffer r) v (includeParentContext r).
Definition set_includeParentContext (v : bool) (r : t) : t :=
  mk (observer r) (sessionId r) (sequence r) (batchBuffer r) (batchTimeout r) v.
End MutationCapture.

(** [EventCaptureConfig]. *)
Module EventCaptureConfig.
Record t := mk {
  captureScrollEvents : bool;
  captureMouseMovement : bool;
  debounceMs : Z
}.
End EventCaptureConfig.

(** The fields of [EventCapture], with the state of the two closures that
    [start] creates: the debounced input handler and the throttled scroll
    handler. *)
Module EventCapture.
Record t := mk {
  sessionId : string;
  sequence : N;
  config : EventCaptureConfig.t;
  listeners : list ListenerType;
  debouncedInput : Timing.Debounce;
  throttledScroll : Timing.Throttle
}.
Definition set_sessionId (v : string) (r : t) : t :=
  mk v (sequence r) (config r) (listeners r) (debouncedInput r) (throttledScroll r).
Definition set_sequence (v : N) (r : t) : t :=
  mk (sessionId r) v (config r) (listeners r) (debouncedInput r) (throttledScroll r).
Definition set_config (v : EventCaptureConfig.t) (r : t) : t :=
  mk (sessionId r) (sequence r) v (listeners r) (debouncedInput r) (throttledScroll r).
Definition set_listeners (v : list ListenerType) (r : t) : t :=
  mk (sessionId r) (sequence r) (config r) v (debouncedInput r) (throttledScroll r).
Definition set_debouncedInput (v : Timing.Debounce) (r : t) : t :=
  mk (sessionId r) (sequence r) (config r) (listeners r) v (throttledScroll r).
Definition set_throttledScroll (v : Timing.Throttle) (r : t) : t :=
  mk (sessionId r) (sequence r) (config r) (listeners r) (debouncedInput r) v.
End EventCapture.

(** The fields of [DOMChronicle]; [eventCapture] is a reference into the
    store of [EventCapture] objects, [flushInterval] the id of the interval
    timer. *)
Module DOMChronicle.
Record t {RT : RegExpRuntime} := mk {
  isRecording : bool;
  sessionId : option string;
  config : option SessionConfig;
  redactionEngine : RedactionEngine.t;
  eventCapture : option nat;
  eventBuffer : list DOMEvent;
  flushInterval : option nat;
  sequence : N
}.
Arguments mk {RT}.
Definition set_isRecording {RT : RegExpRuntime} (v : bool) (r : t) : t :=
  mk v (sessionId r) (config r) (redactionEngine r) (eventCapture r) (eventBuffer r) (flushInterval r) (sequence r).
Definition set_sessionId {RT : RegExpRuntime} (v : option string) (r : t) : t :=
  mk (isRecording r) v (config r) (redactionEngine r) (eventCapture r) (eventBuffer r) (flushInterval r) (sequence r).
Definition set_config {RT : RegExpRuntime} (v : option SessionConfig) (r : t) : t :=
  mk (isRecording r) (sessionId r) v (redactionEngine r) (eventCapture r) (eventBuffer r) (flushInterval r) (sequence r).
Definition set_redactionEngine {RT : RegExpRuntime} (v : RedactionEngine.t) (r : t) : t :=
  mk (isRecording r) (sessionId r) (config r) v (eventCapture r) (eventBuffer r) (flushInterval r) (sequence r).
Definition set_eventCapture {RT : RegExpRuntime} (v : option nat) (r : t) : t :=
  mk (isRecording r) (sessionId r) (config r) (redactionEngine r) v (eventBuffer r) (flushInterval r) (sequence r).
Definition set_eventBuffer {RT : RegExpRuntime} (v : list DOMEvent) (r : t) : t :=
  mk (isRecording r) (sessionId r) (config r) (redactionEngine r) (eventCapture r) v (flushInterval r) (sequence r).
Definition set_flushInterval {RT : RegExpRuntime} (v : option nat) (r : t) : t :=
  mk (isRecording r) (sessionId r) (config r) (redactionEngine r) (eventCapture r) (eventBuffer r) v (sequence r).
Definition set_sequence {RT : RegExpRuntime} (v : N) (r : t) : t :=
  mk (isRecording r) (sessionId r) (config r) (redactionEngine r) (eventCapture r) (eventBuffer r) (flushInterval r) v.
End DOMChronicle.

(** The page around the content script: the registered listeners (owner,
    type, capture flag), the owners of the wrappers installed on
    [history.pushState] and [history.replaceState] (oldest first), the
    pending timers, the number of calls of [crypto.randomUUID], the calls of
    [chrome.runtime.sendMessage] not yet settled (with a flag telling that
    [stop] awaits the call) and the batches of events acknowledged by the
    background script. *)
Module Runtime.
Record t := mk {
  registry : list (nat * ListenerType * bool);
  historyHooks : list nat;
  timers : list Timer;
  nextTimer : nat;
  uuids : nat;
  outbox : list (list DOMEvent * bool);
  delivered : list (list DOMEvent)
}.
Definition set_registry (v : list (nat * ListenerType * bool)) (r : t) : t :=
  mk v (historyHooks r) (timers r) (nextTimer r) (uuids r) (outbox r) (delivered r).
Definition set_historyHooks (v : list nat) (r : t) : t :=
  mk (registry r) v (timers r) (nextTimer r) (uuids r) (outbox r) (delivered r).
Definition set_timers (v : list Timer) (r : t) : t :=
  mk (registry r) (historyHooks r) v (nextTimer r) (uuids r) (outbox r) (delivered r).
Definition set_nextTimer (v : nat) (r : t) : t :=
  mk (registry r) (historyHooks r) (timers r) v (uuids r) (outbox r) (delivered r).
Definition set_uuids (v : nat) (r : t) : t :=
  mk (registry r) (historyHooks r) (timers r) (nextTimer r) v (outbox r) (delivered r).
Definition set_outbox (v : list (list DOMEvent * bool)) (r : t) : t :=
  mk (registry r) (historyHooks r) (timers r) (nextTimer r) (uuids r) v (delivered r).
Definition set_delivered (v : list (list DOMEvent)) (r : t) : t :=
  mk (registry r) (historyHooks r) (timers r) (nextTimer r) (uuids r) (outbox r) v.
End Runtime.

(** What happened in the current session, recorded for the statements: the
    events pushed onto [eventBuffer], in order, and the results returned by
    [redactionEngine.process].  No code reads these. *)
Module History.
Record t := mk {
  accepted : list DOMEvent;
  redacted : list DOMEvent
}.
Definition set_accepted (v : list DOMEvent) (r : t) : t :=
  mk v (redacted r).
Definition set_redacted (v : list DOMEvent) (r : t) : t :=
  mk (accepted r) v.
End History.

(** The content script with the objects it owns and the page. *)
Module World.
Record t {RT : RegExpRuntime} := mk {
  chronicle : DOMChronicle.t;
  mutationCapture : MutationCapture.t;
  captures : list EventCapture.t;
  runtime : Runtime.t;
  history : History.t
}.
Arguments mk {RT}.
Definition set_chronicle {RT : RegExpRuntime} (v : DOMChronicle.t) (r : t) : t :=
  mk v (mutationCapture r) (captures r) (runtime r) (history r).
Definition set_mutationCapture {RT : RegExpRuntime} (v : MutationCapture.t) (r : t) : t :=
  mk (chronicle r) v (captures r) (runtime r) (history r).
Definition set_captures {RT : RegExpRuntime} (v : list EventCapture.t) (r : t) : t :=
  mk (chronicle r) (mutationCapture r) v (runtime r) (history r).
Definition set_runtime {RT : RegExpRuntime} (v : Runtime.t) (r : t) : t :=
  mk (chronicle r) (mutationCapture r) (captures r) v (history r).
Definition set_history {RT : RegExpRuntime} (v : History.t) (r : t) : t :=
  mk (chronicle r) (mutationCapture r) (captures r) (runtime r) v.
End World.
(** ** The methods *)

Module Chronicle.
Import Dom.

(** The attribute lists of two elements that [isEqualNode] takes for equal:
    they have the same length, and each attribute of the first has an
    attribute of the second with the same name and value, at any place. *)
Definition attrs_eqb (a b : list (string * string)) : bool :=
  Nat.eqb (length a) (length b)
  && forallb (fun x =>
                existsb (fun y => String.eqb (fst x) (fst y)
                                  && String.eqb (snd x) (snd y)) b) a.

(** Structural equality of nodes: [isEqualNode].  Text and comments are
    equal when their data is; elements when they have the same name, equal
    attribute lists, and as many children, equal one by one in order. *)
Fixpoint node_eqb (a b : node) : bool :=
  match a, b with
  | TextNode x, TextNode y => String.eqb x y
  | CommentNode x, CommentNode y => String.eqb x y
  | ElementNode t1 a1 c1, ElementNode t2 a2 c2 =>
      String.eqb t1 t2
      && attrs_eqb a1 a2
      && (fix nodes (l1 l2 : list node) : bool :=
            match l1, l2 with
            | [], [] => true
            | x :: r1, y :: r2 => node_eqb x y && nodes r1 r2
            | _, _ => false
            end) c1 c2
  | _, _ => false
  end.

(** A timer id is truthy when it is not zero; the ids handed out start at
    one. *)
Definition truthyId (o : option nat) : option nat :=
  match o with
  | Some id => if Nat.eqb id 0 then None else Some id
  | None => None
  end.

(** [x || undefined] for an optional string. *)
Definition orUndefined (o : option string) : option string :=
  match o with
  | Some s => SemanticExtractor.nonEmpty s
  | None => None
  end.

(** [target instanceof Element ? target : target.parentElement]. *)
Definition elementOrParent (r : NodeRef) : option NodeRef :=
  match deref r with
  | Some n => if isElement n then Some r else parentElement r
  | None => None
  end.

(** [getMutationType(mutation)]. *)
Definition getMutationType (mutation : MutationRecord.t) : option EventType :=
  match MutationRecord.type mutation with
  | ChildList =>
      if Nat.ltb 0 (length (MutationRecord.addedNodes mutation))
      then Some mutation_add
      else if Nat.ltb 0 (length (MutationRecord.removedNodes mutation))
      then Some mutation_remove
      else None
  | Attributes => Some mutation_attribute
  | CharacterData => Some mutation_text
  end.

(** [shouldIgnore(element)]. *)
Definition shouldIgnore (element : node) : bool :=
  includes ["script"; "style"; "noscript"; "link"; "meta"]
           (toLowerCase (tagName element)).

Section Pipeline.
Context {RT : RegExpRuntime} {B : Browser}.

(** *** Updates of the parts of the world *)

Definition updChronicle (f : DOMChronicle.t -> DOMChronicle.t) (w : World.t)
  : World.t :=
  World.set_chronicle (f (World.chronicle w)) w.

Definition updMutationCapture (f : MutationCapture.t -> MutationCapture.t)
    (w : World.t) : World.t :=
  World.set_mutationCapture (f (World.mutationCapture w)) w.

Definition updRuntime (f : Runtime.t -> Runtime.t) (w : World.t) : World.t :=
  World.set_runtime (f (World.runtime w)) w.

Definition updHistory (f : History.t -> History.t) (w : World.t) : World.t :=
  World.set_history (f (World.history w)) w.

(** An update of the [EventCapture] object at an address. *)
Definition updCapture (owner : nat) (f : EventCapture.t -> EventCapture.t)
    (w : World.t) : World.t :=
  match World.captures w !! owner with
  | Some cap => World.set_captures (<[owner := f cap]> (World.captures w)) w
  | None => w
  end.

(** *** The runtime *)

(** [crypto.randomUUID()]. *)
Definition nextUUID (w : World.t) : string * World.t :=
  (randomUUID (Runtime.uuids (World.runtime w)),
   updRuntime (fun r => Runtime.set_uuids (S (Runtime.uuids r)) r) w).

(** [setTimeout] and [setInterval]: the id and the world with the timer. *)
Definition setTimer (cb : Callback) (repeating : bool) (w : World.t)
  : nat * World.t :=
  let id := Runtime.nextTimer (World.runtime w) in
  (id,
   updRuntime
     (fun r =>
        Runtime.set_nextTimer (S id)
          (Runtime.set_timers
             (app (Runtime.timers r) [mkTimer id cb repeating]) r))
     w).

(** [clearTimeout] and [clearInterval]. *)
Definition clearTimer (id : nat) (w : World.t) : World.t :=
  updRuntime
    (fun r =>
       Runtime.set_timers
         (List.filter (fun t => negb (Nat.eqb (tid t) id)) (Runtime.timers r))
         r)
    w.

(** The world when the content script has been loaded: the constructor of
    [DOMChronicle] has run. *)
Definition initial : World.t :=
  World.mk
    (DOMChronicle.mk false None None RedactionEngine.create None [] None 0%N)
    (MutationCapture.mk false EmptyString 0%N [] None true)
    []
    (Runtime.mk [] [] [] 1 0 [] [])
    (History.mk [] []).

(** *** DOMChronicle: buffer and sequence *)

(** [this.eventBuffer.push(event)]. *)
Definition pushEvent (event : DOMEvent) (w : World.t) : World.t :=
  updHistory
    (fun h => History.set_accepted (push (History.accepted h) event) h)
    (updChronicle
       (fun c =>
          DOMChronicle.set_eventBuffer (push (DOMChronicle.eventBuffer c) event)
            c)
       w).

(** [this.sequence++]: the world after the increment; the value read is
    [DOMChronicle.sequence] before it. *)
Definition bumpSequence (w : World.t) : World.t :=
  updChronicle
    (fun c => DOMChronicle.set_sequence (DOMChronicle.sequence c + 1)%N c) w.

(** [flushBuffer()] up to its [await]: the buffer is emptied into a call of
    [chrome.runtime.sendMessage]; [awaited] tells that [stop] waits for the
    call.  The flag returned tells whether a call was made. *)
Definition flushBuffer (awaited : bool) (w : World.t) : World.t * bool :=
  match DOMChronicle.eventBuffer (World.chronicle w) with
  | [] => (w, false)
  | events =>
      (updRuntime
         (fun r => Runtime.set_outbox (push (Runtime.outbox r) (events, awaited))
                     r)
         (updChronicle (DOMChronicle.set_eventBuffer []) w),
       true)
  end.

(** The end of [stop()], after the final flush: [sessionId] and [config]
    become [null]. *)
Definition finishStop (w : World.t) : World.t :=
  updChronicle
    (fun c => DOMChronicle.set_config None (DOMChronicle.set_sessionId None c))
    w.

(** [handleEvent(event)], where [stop] is what [this.stop()] does before
    its [await].  When the cast in [process] fails nothing has been changed
    yet. *)
Definition handleEventWith (stop : World.t -> World.t) (event : DOMEvent)
    (w : World.t) : World.t :=
  let c := World.chronicle w in
  if negb (DOMChronicle.isRecording c)
     || match DOMChronicle.config c with Some _ => false | None => true end
  then w
  else if (LIMITS.MAX_EVENTS_PER_SESSION <=? DOMChronicle.sequence c)%N
  then stop w
  else
    match RedactionEngine.process (DOMChronicle.redactionEngine c) event with
    | None => w
    | Some redactedEvent =>
        let w :=
          updHistory
            (fun h => History.set_redacted
                        (push (History.redacted h) redactedEvent) h) w in
        let redactedEvent :=
          DOMEvent.with_sequence redactedEvent (DOMChronicle.sequence c) in
        let w := pushEvent redactedEvent (bumpSequence w) in
        if Nat.leb LIMITS.MAX_EVENTS_IN_MEMORY
             (length (DOMChronicle.eventBuffer (World.chronicle w)))
        then fst (flushBuffer false w)
        else w
    end.

(** *** MutationCapture *)

(** [reconstructBeforeState(parent, mutation)]. *)
Definition removeFirstEqual (added : node) (children : list node)
  : list node :=
  (fix go (l : list node) : list node :=
     match l with
     | [] => []
     | c :: l' => if node_eqb c added then l' else c :: go l'
     end) children.

Definition reconstructBeforeState (parent : node)
    (mutation : MutationRecord.t) : string :=
  let clone :=
    match parent with
    | ElementNode t a cs =>
        let cs := fold_left (fun cs added => removeFirstEqual added cs)
                            (MutationRecord.addedNodes mutation) cs in
        let cs := fold_left (fun cs removed => push cs removed)
                            (MutationRecord.removedNodes mutation) cs in
        ElementNode t a cs
    | other => other
    end in
  outerHTML clone.

(** The fragments of the first ten elements among the nodes. *)
Definition fragmentsOf (nodes : list node) : list DOMFragment :=
  omap (fun n => SemanticExtractor.captureFragment (Some n)
                   LIMITS.MAX_DOM_FRAGMENT_SIZE)
       (List.firstn 10 (List.filter isElement nodes)).

(** [buildPayload(mutationCtx)]. *)
Definition buildPayload (this : MutationCapture.t)
    (mutationCtx : MutationWithContext.t) : MutationPayload :=
  let mutation := MutationWithContext.record mutationCtx in
  let target := MutationRecord.target mutation in
  match MutationRecord.type mutation with
  | ChildList =>
      let parent :=
        match elementOrParent target with
        | Some p => deref p
        | None => None
        end in
      MutationPayload.mk ChildList
        (if Nat.ltb 0 (length (MutationRecord.addedNodes mutation))
         then Some (fragmentsOf (MutationRecord.addedNodes mutation))
         else None)
        (if Nat.ltb 0 (length (MutationRecord.removedNodes mutation))
         then Some (fragmentsOf (MutationRecord.removedNodes mutation))
         else None)
        None None None
        (if MutationCapture.includeParentContext this
         then MutationWithContext.parentHTMLBefore mutationCtx else None)
        (if MutationCapture.includeParentContext this
         then option_map outerHTML parent else None)
  | Attributes =>
      MutationPayload.mk Attributes None None
        (orUndefined (MutationRecord.attributeName mutation))
        (orUndefined (MutationRecord.oldValue mutation))
        (match deref target with
         | Some n =>
             if isElement n
             then orUndefined
                    (getAttribute n
                       (orElse (MutationRecord.attributeName mutation)
                               EmptyString))
             else None
         | None => None
         end)
        None None
  | CharacterData =>
      MutationPayload.mk CharacterData None None None
        (orUndefined (MutationRecord.oldValue mutation))
        (orUndefined (option_map textContent (deref target)))
        None None
  end.

(** [captureContext(mutation)]. *)
Definition captureContext (mutation : MutationRecord.t) : option DOMFragment :=
  match elementOrParent (MutationRecord.target mutation) with
  | Some target =>
      SemanticExtractor.captureFragment (deref target)
        LIMITS.MAX_DOM_FRAGMENT_SIZE
  | None => None
  end.

(** [createEvent(mutationCtx)]: the world after the call and its result;
    [Thrown] when [describe] throws, after the identifier and the sequence
    number of the event have been drawn. *)
Definition createEvent (env : Env) (mutationCtx : MutationWithContext.t)
    (w : World.t) : World.t * Outcome (option DOMEvent) :=
  let mutation := MutationWithContext.record mutationCtx in
  match getMutationType mutation with
  | None => (w, Returned None)
  | Some type =>
      match elementOrParent (MutationRecord.target mutation) with
      | None => (w, Returned None)
      | Some target =>
          if match deref target with
             | Some n => shouldIgnore n
             | None => false
             end
          then (w, Returned None)
          else
            let this := World.mutationCapture w in
            let payload := buildPayload this mutationCtx in
            let '(uuid, w) := nextUUID w in
            let w :=
              updMutationCapture
                (fun m => MutationCapture.set_sequence
                            (MutationCapture.sequence m + 1)%N m) w in
            match SemanticExtractor.describe (document env) (Some target) with
            | Thrown => (w, Thrown)
            | Returned descriptor =>
                (w,
                 Returned
                   (Some (DOMEvent.mk uuid (MutationCapture.sessionId this)
                            (perfNow env) (MutationCapture.sequence this)
                            type descriptor (PMutation payload)
                            (captureContext mutation))))
            end
      end
  end.

(** [processBatch()] with [callback] for [this.callback]: the loop stops at
    the first mutation for which [createEvent] throws.  The flag tells
    whether the loop completed. *)
Definition processBatchWith (callback : DOMEvent -> World.t -> World.t)
    (env : Env) (w : World.t) : World.t * bool :=
  let mutations := MutationCapture.batchBuffer (World.mutationCapture w) in
  let w := updMutationCapture (MutationCapture.set_batchBuffer []) w in
  fold_left
    (fun (acc : World.t * bool) mutation =>
       let '(w, completed) := acc in
       if completed then
         match createEvent env mutation w with
         | (w, Returned (Some event)) => (callback event w, true)
         | (w, Returned None) => (w, true)
         | (w, Thrown) => (w, false)
         end
       else (w, false))
    mutations (w, true).

(** [batchMutations(mutations)], the callback of the observer. *)
Definition batchMutations (mutations : list MutationRecord.t) (w : World.t)
  : World.t :=
  let this := World.mutationCapture w in
  let mutationsWithContext :=
    map (fun m =>
           MutationWithContext.mk m
             (match MutationRecord.type m with
              | ChildList =>
                  if MutationCapture.includeParentContext this then
                    match elementOrParent (MutationRecord.target m) with
                    | Some parent =>
                        option_map (fun p => reconstructBeforeState p m)
                                   (deref parent)
                    | None => None
                    end
                  else None
              | _ => None
              end))
        mutations in
  let w :=
    updMutationCapture
      (fun m => MutationCapture.set_batchBuffer
                  (app (MutationCapture.batchBuffer m) mutationsWithContext) m)
      w in
  match MutationCapture.batchTimeout this with
  | None =>
      let '(id, w) := setTimer CbBatch false w in
      updMutationCapture (MutationCapture.set_batchTimeout (Some id)) w
  | Some _ => w
  end.

(** [MutationCapture.stop()] with [callback] for [this.callback]; the flag
    tells whether it returned. *)
Definition mutationCaptureStopWith (callback : DOMEvent -> World.t -> World.t)
    (env : Env) (w : World.t) : World.t * bool :=
  let '(w, completed) :=
    match truthyId (MutationCapture.batchTimeout (World.mutationCapture w)) with
    | Some id => processBatchWith callback env (clearTimer id w)
    | None => (w, true)
    end in
  if completed
  then (updMutationCapture (MutationCapture.set_observer false) w, true)
  else (w, false).

(** *** EventCapture *)

(** [EventCapture.stop()]: [removeEventListener(type, handler, true)] for
    every tracked listener removes the registrations made with the capture
    flag; then the list is emptied. *)
Definition eventCaptureStop (owner : nat) (w : World.t) : World.t :=
  match World.captures w !! owner with
  | None => w
  | Some cap =>
      let tracked := EventCapture.listeners cap in
      let w :=
        updRuntime
          (fun r =>
             Runtime.set_registry
               (List.filter
                  (fun '(o, ty, capture) =>
                     negb (Nat.eqb o owner && capture
                           && existsb (ListenerType_eqb ty) tracked))
                  (Runtime.registry r))
               r)
          w in
      updCapture owner (EventCapture.set_listeners []) w
  end.

(** [stop()] of [DOMChronicle] up to its [await], with [callback] for the
    callback of the mutation capture.  An exception thrown by
    [mutationCapture.stop()] ends the call there. *)
Definition stopWith (callback : DOMEvent -> World.t -> World.t) (env : Env)
    (w : World.t) : World.t :=
  if negb (DOMChronicle.isRecording (World.chronicle w)) then w else
  let w := updChronicle (DOMChronicle.set_isRecording false) w in
  let '(w, completed) := mutationCaptureStopWith callback env w in
  if negb completed then w else
  let w :=
    match DOMChronicle.eventCapture (World.chronicle w) with
    | Some owner => eventCaptureStop owner w
    | None => w
    end in
  let w := updChronicle (DOMChronicle.set_eventCapture None) w in
  let w :=
    match truthyId (DOMChronicle.flushInterval (World.chronicle w)) with
    | Some id =>
        updChronicle (DOMChronicle.set_flushInterval None) (clearTimer id w)
    | None => w
    end in
  let '(w, pending) := flushBuffer true w in
  if pending then w else finishStop w.

(** The callback given to the two capture objects is [handleEvent].  While
    [stop] runs [isRecording] is already false, so the callback returns at
    its first test; this is [handleEventWith] whatever its first argument. *)
Definition stop (env : Env) (w : World.t) : World.t :=
  stopWith (handleEventWith (fun w => w)) env w.

Definition handleEvent (env : Env) (event : DOMEvent) (w : World.t)
  : World.t :=
  handleEventWith (stop env) event w.

Definition processBatch (env : Env) (w : World.t) : World.t * bool :=
  processBatchWith (handleEvent env) env w.

(** [emit(type, target, payload)] of the [EventCapture] object at [owner];
    the flag tells whether it returned. *)
Definition emit (owner : nat) (type : EventType) (target : option NodeRef)
    (payload : EventPayload) (env : Env) (w : World.t) : World.t * bool :=
  match World.captures w !! owner with
  | None => (w, true)
  | Some this =>
      let '(uuid, w) := nextUUID w in
      let w :=
        updCapture owner
          (fun cap => EventCapture.set_sequence
                        (EventCapture.sequence cap + 1)%N cap) w in
      match SemanticExtractor.describe (document env) target with
      | Thrown => (w, false)
      | Returned descriptor =>
          let event :=
            DOMEvent.mk uuid (EventCapture.sessionId this) (perfNow env)
              (EventCapture.sequence this) type descriptor payload
              (match type with
               | user_click =>
                   SemanticExtractor.captureFragment
                     (match target with Some r => deref r | None => None end)
                     LIMITS.MAX_DOM_FRAGMENT_SIZE
               | _ => None
               end) in
          (handleEvent env event w, true)
      end
  end.

(** [document.documentElement]. *)
Definition documentElement (env : Env) : NodeRef :=
  mkRef true (document env) [].

(** [handleClick], [handleInput], [handleFocus], [handleBlur],
    [handleScroll] and [handleNavigation]. *)
Definition handle (owner : nat) (e : DomEvent) (env : Env) (w : World.t)
  : World.t * bool :=
  match e with
  | ClickEvent None _ _ _ _ => (w, true)
  | ClickEvent (Some target) button clientX clientY modifiers =>
      emit owner user_click (Some target)
        (PClick (ClickPayload.mk button (clientX, clientY) modifiers)) env w
  | InputEvent None => (w, true)
  | InputEvent (Some target) =>
      emit owner user_input (Some (InputTarget.ref target))
        (PInput (InputPayload.mk
                   (if truthy (InputTarget.type target)
                    then InputTarget.type target else "text")
                   (InputTarget.value target)
                   (InputTarget.selectionStart target)
                   (InputTarget.selectionEnd target)))
        env w
  | FocusEvent None => (w, true)
  | FocusEvent (Some target) =>
      emit owner user_focus (Some target) (PFocus (FocusPayload.mk true)) env w
  | BlurEvent None => (w, true)
  | BlurEvent (Some target) =>
      emit owner user_blur (Some target) (PFocus (FocusPayload.mk false)) env w
  | ScrollEvent =>
      emit owner user_scroll (Some (documentElement env))
        (PScroll (ScrollPayload.mk (scrollX env) (scrollY env))) env w
  | PopStateEvent =>
      emit owner user_navigation (Some (documentElement env))
        (PNavigation (NavigationPayload.mk (href env) popstate None)) env w
  | HashChangeEvent =>
      emit owner user_navigation (Some (documentElement env))
        (PNavigation (NavigationPayload.mk (href env) hashchange None)) env w
  end.

(** [emitNavigation(type)]. *)
Definition emitNavigation (owner : nat) (type : NavigationKind) (env : Env)
    (w : World.t) : World.t * bool :=
  emit owner user_navigation (Some (documentElement env))
    (PNavigation (NavigationPayload.mk (href env) type None)) env w.

(** The requests of a debounced or throttled closure of the object at
    [owner], carried out in order. *)
Definition perform (owner : nat) (timer : DomEvent -> Callback) (env : Env)
    (effects : list (Timing.Effect DomEvent)) (w : World.t) : World.t :=
  fold_left
    (fun w effect =>
       match effect with
       | Timing.ClearTimeout id => clearTimer id w
       | Timing.SetTimeout _ args => snd (setTimer (timer args) false w)
       | Timing.CallFn args => fst (handle owner args env w)
       end)
    effects w.

(** The handler registered for a listener type by the object at [owner]:
    the input handler is debounced, the scroll handler throttled. *)
Definition invokeListener (owner : nat) (e : DomEvent) (env : Env)
    (w : World.t) : World.t :=
  match World.captures w !! owner with
  | None => w
  | Some cap =>
      let fresh := Runtime.nextTimer (World.runtime w) in
      match e with
      | InputEvent _ =>
          let '(st, effects) :=
            Timing.debounced
              (EventCaptureConfig.debounceMs (EventCapture.config cap))
              fresh e (EventCapture.debouncedInput cap) in
          perform owner (CbDebouncedInput owner) env effects
            (updCapture owner (EventCapture.set_debouncedInput st) w)
      | ScrollEvent =>
          let '(st, effects) :=
            Timing.throttled LIMITS.SCROLL_THROTTLE_MS (dateNow env) fresh e
              (EventCapture.throttledScroll cap) in
          perform owner (CbThrottledScroll owner) env effects
            (updCapture owner (EventCapture.set_throttledScroll st) w)
      | _ => fst (handle owner e env w)
      end
  end.

(** The page dispatches a notification to the registered listeners of its
    type, in the order of registration. *)
Definition dispatch (e : DomEvent) (env : Env) (w : World.t) : World.t :=
  fold_left
    (fun w '(owner, ty, _) =>
       if ListenerType_eqb ty (listenerTypeOf e)
       then invokeListener owner e env w else w)
    (Runtime.registry (World.runtime w)) w.

(** A call of [history.pushState] or [history.replaceState] by the page:
    the wrappers run from the oldest to the newest. *)
Definition historyCall (type : NavigationKind) (env : Env) (w : World.t)
  : World.t :=
  fold_left (fun w owner => fst (emitNavigation owner type env w))
            (Runtime.historyHooks (World.runtime w)) w.

(** [EventCapture.start(sessionId, startSequence)] for the object at
    [owner]. *)
Definition eventCaptureStart (owner : nat) (sessionId : string)
    (startSequence : N) (w : World.t) : World.t :=
  match World.captures w !! owner with
  | None => w
  | Some cap =>
      let scroll :=
        if EventCaptureConfig.captureScrollEvents (EventCapture.config cap)
        then [(OnScroll, true)] else [] in
      let added : list (ListenerType * bool) :=
        app [(OnClick, true); (OnInput, true); (OnFocus, true); (OnBlur, true)]
            (app scroll [(OnPopState, false); (OnHashChange, false)]) in
      let w :=
        updCapture owner
          (fun cap =>
             EventCapture.set_listeners
               (app (EventCapture.listeners cap) (map fst added))
               (EventCapture.set_throttledScroll Timing.newThrottle
                  (EventCapture.set_debouncedInput Timing.newDebounce
                     (EventCapture.set_sequence startSequence
                        (EventCapture.set_sessionId sessionId cap)))))
          w in
      updRuntime
        (fun r =>
           Runtime.set_historyHooks (push (Runtime.historyHooks r) owner)
             (Runtime.set_registry
                (app (Runtime.registry r)
                     (map (fun '(ty, capture) => (owner, ty, capture)) added))
                r))
        w
  end.

(** *** DOMChronicle: start and the timers *)

(** [captureInitialState()]. *)
Definition captureInitialState (env : Env) (w : World.t) : World.t :=
  let c := World.chronicle w in
  match DOMChronicle.sessionId c with
  | None => w
  | Some sessionId =>
      if negb (truthy sessionId) then w else
      let initialHTML := outerHTML (document env) in
      let maxSize :=
        match DOMChronicle.config c with
        | Some cfg =>
            match SessionConfig.exportConfig cfg with
            | Some ec => ExportConfig.maxInitialHTMLSize ec
            | None => 0
            end
        | None => 0
        end in
      let initialHTML :=
        if Nat.ltb 0 maxSize && Nat.ltb maxSize (String.length initialHTML)
        then substring0 maxSize initialHTML ++ nl ++ "<!-- TRUNCATED -->"
        else initialHTML in
      let '(uuid, w) := nextUUID w in
      let event :=
        DOMEvent.mk uuid sessionId (perfNow env) (DOMChronicle.sequence c)
          user_navigation
          (ElementDescriptor.mk "document" None [] None None "/" ":root" None)
          (PNavigation (NavigationPayload.mk (href env) pageload
                          (Some initialHTML)))
          None in
      pushEvent event (bumpSequence w)
  end.

(** [start(sessionId, config)]; when a recording is running the call throws
    and nothing changes. *)
Definition start (sessionId : string) (config : SessionConfig) (env : Env)
    (w : World.t) : World.t :=
  if DOMChronicle.isRecording (World.chronicle w) then w else
  let w :=
    updChronicle
      (fun c =>
         DOMChronicle.set_isRecording true
           (DOMChronicle.set_eventBuffer []
              (DOMChronicle.set_sequence 0%N
                 (DOMChronicle.set_config (Some config)
                    (DOMChronicle.set_sessionId (Some sessionId) c)))))
      w in
  let w := updHistory (fun _ => History.mk [] []) w in
  let w :=
    updChronicle
      (DOMChronicle.set_redactionEngine
         (RedactionEngine.loadRules (SessionConfig.redactionRules config)))
      w in
  let includeParentContext :=
    match SessionConfig.exportConfig config with
    | Some ec => ExportConfig.includeParentContext ec
    | None => true
    end in
  let w :=
    updMutationCapture
      (fun m =>
         MutationCapture.set_observer true
           (MutationCapture.set_includeParentContext includeParentContext
              (MutationCapture.set_sequence 0%N
                 (MutationCapture.set_sessionId sessionId m))))
      w in
  let owner := length (World.captures w) in
  let w :=
    World.set_captures
      (push (World.captures w)
            (EventCapture.mk EmptyString 0%N
               (EventCaptureConfig.mk
                  (SessionConfig.captureScrollEvents config) false
                  (SessionConfig.debounceMs config))
               [] Timing.newDebounce Timing.newThrottle))
      w in
  let w := updChronicle (DOMChronicle.set_eventCapture (Some owner)) w in
  let w :=
    eventCaptureStart owner sessionId
      (DOMChronicle.sequence (World.chronicle w)) w in
  let '(id, w) := setTimer CbFlushInterval true w in
  let w := updChronicle (DOMChronicle.set_flushInterval (Some id)) w in
  captureInitialState env w.

(** A pending timer fires: a timeout is removed from the timers, then its
    callback runs. *)
Definition fireTimer (id : nat) (env : Env) (w : World.t) : World.t :=
  match List.find (fun t => Nat.eqb (tid t) id) (Runtime.timers (World.runtime w)) with
  | None => w
  | Some timer =>
      let w := if repeating timer then w else clearTimer id w in
      match callback timer with
      | CbBatch =>
          let '(w, completed) := processBatch env w in
          if completed
          then updMutationCapture (MutationCapture.set_batchTimeout None) w
          else w
      | CbDebouncedInput owner e =>
          let '(w, completed) := handle owner e env w in
          updCapture owner
            (fun cap =>
               EventCapture.set_debouncedInput
                 (Timing.debounceFired completed
                    (EventCapture.debouncedInput cap)) cap)
            w
      | CbThrottledScroll owner e =>
          match World.captures w !! owner with
          | None => w
          | Some cap =>
              let '(st, effects) :=
                Timing.throttleFired (dateNow env) e
                  (EventCapture.throttledScroll cap) in
              perform owner (CbThrottledScroll owner) env effects
                (updCapture owner (EventCapture.set_throttledScroll st) w)
          end
      | CbFlushInterval => fst (flushBuffer false w)
      end
  end.

(** A call of [chrome.runtime.sendMessage] settles: on success the events
    are with the background script, on failure they are put back at the
    head of the buffer; the end of [stop] runs if it awaited the call. *)
Definition settle (i : nat) (ok : bool) (w : World.t) : World.t :=
  match (Runtime.outbox (World.runtime w) !! i
         : option (list DOMEvent * bool)) with
  | None => w
  | Some (events, awaited) =>
      let w :=
        updRuntime
          (fun r => Runtime.set_outbox (delete i (Runtime.outbox r)) r) w in
      let w :=
        if ok
        then updRuntime
               (fun r => Runtime.set_delivered
                           (push (Runtime.delivered r) events) r) w
        else updChronicle
               (fun c => DOMChronicle.set_eventBuffer
                           (app events (DOMChronicle.eventBuffer c)) c) w in
      if awaited then finishStop w else w
  end.

(** *** The steps of the world *)

Inductive Label :=
| LStart (sessionId : string) (config : SessionConfig)
| LStop
| LUpdateConfig (config : SessionConfig)
| LSettle (i : nat) (ok : bool)
| LMutations (records : list MutationRecord.t)
| LTimer (id : nat)
| LDispatch (e : DomEvent)
| LHistory (type : NavigationKind).

(** One turn of the event loop: a message of the background script, the
    settlement of a message sent, a callback of the observer, a timer or a
    notification. *)
Definition step (env : Env) (l : Label) (w : World.t) : World.t :=
  match l with
  | LStart sessionId config => start sessionId config env w
  | LStop => stop env w
  | LUpdateConfig config =>
      match DOMChronicle.config (World.chronicle w) with
      | Some _ => updChronicle (DOMChronicle.set_config (Some config)) w
      | None => w
      end
  | LSettle i ok => settle i ok w
  | LMutations records =>
      if MutationCapture.observer (World.mutationCapture w)
      then batchMutations records w else w
  | LTimer id => fireTimer id env w
  | LDispatch e => dispatch e env w
  | LHistory type => historyCall type env w
  end.

(** A run: the turns in order. *)
Definition run (turns : list (Env * Label)) (w : World.t) : World.t :=
  fold_left (fun w (turn : Env * Label) => step (fst turn) (snd turn) w)
            turns w.

End Pipeline.
End Chronicle.

(* ===================================================================== *)
(** * The throttled scroll handler in time *)
(* ===================================================================== *)

(** [EventCapture.start] registers [throttle(handleScroll, wait)] for the
    scroll notifications, with [wait = LIMITS.SCROLL_THROTTLE_MS].  Here
    the closure runs against a timer system that keeps the time at which
    each timeout is due, and the calls of [handleScroll] are logged with
    the time at which they are made. *)
Module ThrottledScroll.
Import Timing.

(** A timeout set with [setTimeout(callback, delay)]. *)
Record Timeout := mkTimeout {
  timeoutId : nat;
  due : Z;
  args : DomEvent
}.

Record t := mk {
  closure : Throttle;
  timeouts : list Timeout;
  nextTimeout : nat;
  emitted : list (Z * ScrollPayload)
}.

(** Before the first notification. *)
Definition initial : t := mk newThrottle [] 1 [].

(** [handleScroll(_e)]: the payload is read from the window when the
    handler runs; the notification is not looked at. *)
Definition handleScroll (env : Env) (_e : DomEvent) : ScrollPayload :=
  ScrollPayload.mk (scrollX env) (scrollY env).

(** The requests of the closure, carried out in order when [Date.now()]
    reads [dateNow env]. *)
Definition perform (env : Env) (effects : list (Effect DomEvent)) (s : t) : t :=
  fold_left
    (fun s effect =>
       match effect with
       | ClearTimeout id =>
           mk (closure s)
              (List.filter (fun x => negb (Nat.eqb (timeoutId x) id))
                           (timeouts s))
              (nextTimeout s) (emitted s)
       | SetTimeout delay e =>
           mk (closure s)
              (app (timeouts s)
                   [mkTimeout (nextTimeout s) (dateNow env + delay)%Z e])
              (S (nextTimeout s)) (emitted s)
       | CallFn e =>
           mk (closure s) (timeouts s) (nextTimeout s)
              (app (emitted s) [(dateNow env, handleScroll env e)])
       end)
    effects s.

(** A turn of the event loop that reaches the closure: a scroll
    notification, or the timeout [id] running. *)
Inductive Turn :=
| Notify (env : Env)
| Expire (id : nat) (env : Env).

Definition envOf (turn : Turn) : Env :=
  match turn with
  | Notify env => env
  | Expire _ env => env
  end.

Section Wait.
Variable wait : Z.

(** The listener is called with a scroll notification. *)
Definition notify (env : Env) (s : t) : t :=
  let '(st, effects) :=
    throttled wait (dateNow env) (nextTimeout s) ScrollEvent (closure s) in
  perform env effects
    (mk st (timeouts s) (nextTimeout s) (emitted s)).

(** The timeout [id] runs: it is pending and its delay has elapsed. *)
Definition expire (id : nat) (env : Env) (s : t) : t :=
  match List.find (fun x => Nat.eqb (timeoutId x) id) (timeouts s) with
  | None => s
  | Some x =>
      if (due x <=? dateNow env)%Z then
        let '(st, effects) := throttleFired (dateNow env) (args x) (closure s) in
        perform env effects
          (mk st
              (List.filter (fun y => negb (Nat.eqb (timeoutId y) id))
                           (timeouts s))
              (nextTimeout s) (emitted s))
      else s
  end.

Definition step (turn : Turn) (s : t) : t :=
  match turn with
  | Notify env => notify env s
  | Expire id env => expire id env s
  end.

Definition run (turns : list Turn) (s : t) : t :=
  fold_left (fun s turn => step turn s) turns s.

End Wait.

(** The turns come in the order of the clock, none before [from]. *)
Fixpoint chronological (from : Z) (turns : list Turn) : bool :=
  match turns with
  | [] => true
  | turn :: rest =>
      (from <=? dateNow (envOf turn))%Z
      && chronological (dateNow (envOf turn)) rest
  end.

(** The emissions made at a time in the window of length [wait] that
    opens at [t]. *)
Definition emissionsIn (wait t : Z) (s : ThrottledScroll.t)
  : list (Z * ScrollPayload) :=
  List.filter (fun e => (t <=? fst e)%Z && (fst e <? t + wait)%Z) (emitted s).

End ThrottledScroll.

(* ===================================================================== *)
(** * The debounced closures in time *)
(* ===================================================================== *)

(** [debounce(fn, wait)] and [batchDebounce(fn, wait)] of
    lib/utils/debounce.ts, run against a timer system that keeps the time
    at which each timeout is due; the calls of [fn] are logged with the
    time at which they are made and their arguments. *)
Module Debounced.
Import Timing.

Section Args.
Context {A : Type}.

(** A timeout set with [setTimeout(callback, wait)] by [debounced]; the
    callback holds the arguments of the call. *)
Record Timeout := mkTimeout {
  timeoutId : nat;
  due : Z;
  args : A
}.

Record t := mk {
  closure : Debounce;
  timeouts : list Timeout;
  nextTimeout : nat;
  called : list (Z * A)
}.

(** Before the first call. *)
Definition initial : t := mk newDebounce [] 1 [].

(** The requests of the closure, carried out in order at time [now]. *)
Definition perform (now : Z) (effects : list (Effect A)) (s : t) : t :=
  fold_left
    (fun s effect =>
       match effect with
       | ClearTimeout id =>
           mk (closure s)
              (List.filter (fun x => negb (Nat.eqb (timeoutId x) id))
                           (timeouts s))
              (nextTimeout s) (called s)
       | SetTimeout delay a =>
           mk (closure s)
              (app (timeouts s) [mkTimeout (nextTimeout s) (now + delay)%Z a])
              (S (nextTimeout s)) (called s)
       | CallFn a =>
           mk (closure s) (timeouts s) (nextTimeout s)
              (app (called s) [(now, a)])
       end)
    effects s.

(** A turn of the event loop that reaches the closure: a call of the
    debounced function, or the timeout [id] running. *)
Inductive Turn :=
| Call (now : Z) (a : A)
| Expire (id : nat) (now : Z).

Section Wait.
Variable wait : Z.

(** [debounced(...args)] at time [now]. *)
Definition call (now : Z) (a : A) (s : t) : t :=
  let '(st, effects) := debounced wait (nextTimeout s) a (closure s) in
  perform now effects (mk st (timeouts s) (nextTimeout s) (called s)).

(** The timeout [id] runs at time [now]: it is pending and its delay has
    elapsed; its callback is [fn(...args); timeoutId = null]. *)
Definition expire (id : nat) (now : Z) (s : t) : t :=
  match List.find (fun x => Nat.eqb (timeoutId x) id) (timeouts s) with
  | None => s
  | Some x =>
      if (due x <=? now)%Z then
        let s :=
          perform now [CallFn (args x)]
            (mk (closure s)
                (List.filter (fun y => negb (Nat.eqb (timeoutId y) id))
                             (timeouts s))
                (nextTimeout s) (called s)) in
        mk (debounceFired true (closure s)) (timeouts s) (nextTimeout s)
           (called s)
      else s
  end.

Definition step (turn : Turn) (s : t) : t :=
  match turn with
  | Call now a => call now a s
  | Expire id now => expire id now s
  end.

Definition run (turns : list Turn) (s : t) : t :=
  fold_left (fun s turn => step turn s) turns s.

End Wait.

(** *** [batchDebounce] *)

(** The closure of [batchDebounce]: [items] and [timeoutId]; the pending
    timeouts with the time at which they are due; the calls of [fn] with
    the array they were given. *)
Record Batch := mkBatch {
  items : list A;
  batchTimeoutId : option nat;
  batchTimeouts : list (nat * Z);
  batchNext : nat;
  delivered : list (Z * list A)
}.

Definition batchInitial : Batch := mkBatch [] None [] 1 [].

(** A turn of the event loop that reaches the closure of [batchDebounce]: a
    call of [batch], or the timeout [id] running, in which [fn] returns or
    throws. *)
Inductive BatchTurn :=
| Add (now : Z) (item : A)
| Fire (id : nat) (now : Z) (returns : bool).

Section BatchWait.
Variable wait : Z.

(** [batch(item)] at time [now]. *)
Definition batch (now : Z) (item : A) (s : Batch) : Batch :=
  let items := push (items s) item in
  let pending :=
    match batchTimeoutId s with
    | Some id =>
        List.filter (fun x => negb (Nat.eqb (fst x) id)) (batchTimeouts s)
    | None => batchTimeouts s
    end in
  mkBatch items (Some (batchNext s))
          (app pending [(batchNext s, (now + wait)%Z)])
          (S (batchNext s)) (delivered s).

(** The timeout [id] runs at time [now]:
    [fn(items); items = []; timeoutId = null].  [fn] is called with the
    items that wait.  When it returns, the closure is reset; when it
    throws, the two assignments after it are skipped: the items stay, and
    [timeoutId] keeps the id of the timeout that has just run. *)
Definition batchExpire (id : nat) (now : Z) (returns : bool) (s : Batch)
  : Batch :=
  match List.find (fun x => Nat.eqb (fst x) id) (batchTimeouts s) with
  | None => s
  | Some x =>
      if (snd x <=? now)%Z then
        let pending :=
          List.filter (fun y => negb (Nat.eqb (fst y) id)) (batchTimeouts s) in
        let delivered := app (delivered s) [(now, items s)] in
        if returns
        then mkBatch [] None pending (batchNext s) delivered
        else mkBatch (items s) (batchTimeoutId s) pending (batchNext s)
                     delivered
      else s
  end.

Definition batchStep (turn : BatchTurn) (s : Batch) : Batch :=
  match turn with
  | Add now item => batch now item s
  | Fire id now returns => batchExpire id now returns s
  end.

Definition batchRun (turns : list BatchTurn) (s : Batch) : Batch :=
  fold_left (fun s turn => batchStep turn s) turns s.

End BatchWait.
End Args.

Arguments Timeout A : clear implicits.
Arguments t A : clear implicits.
Arguments Turn A : clear implicits.
Arguments Batch A : clear implicits.
Arguments BatchTurn A : clear implicits.

End Debounced.

(* ===================================================================== *)
(** * lib/export/markdown-exporter.ts: the timeline, the summary and the
      reproduction steps *)
(* ===================================================================== *)

Module MarkdownSections.
Import Templates MarkdownExporter.

(** [Session], without its configuration. *)
Module Session.
Record t := mk {
  id : string;
  startedAt : Z;
  endedAt : option Z;
  url : string;
  title : string;
  eventCount : nat
}.
End Session.

(** [EVENT_TYPE_LABELS[type]]: every event type has its label. *)
Definition EVENT_TYPE_LABELS (type : EventType) : string :=
  match type with
  | mutation_add => "[MUTATION] Element Added"
  | mutation_remove => "[MUTATION] Element Removed"
  | mutation_attribute => "[MUTATION] Attribute Changed"
  | mutation_text => "[MUTATION] Text Changed"
  | user_click => "[ACTION] Click"
  | user_input => "[ACTION] Input"
  | user_scroll => "[ACTION] Scroll"
  | user_navigation => "[NAV] Navigation"
  | user_focus => "[ACTION] Focus"
  | user_blur => "[ACTION] Blur"
  | network_xhr => "[NETWORK] XHR Request"
  | network_fetch => "[NETWORK] Fetch Request"
  | error_js => "[ERROR] JavaScript Error"
  | error_console => "[ERROR] Console Error"
  end.

(** [s.padStart(n, '0')]. *)
Fixpoint zeros (n : nat) : string :=
  match n with
  | O => EmptyString
  | S k => String "0" (zeros k)
  end.

Definition padStart0 (n : nat) (s : string) : string :=
  zeros (n - String.length s) ++ s.

(** [formatRelativeTime(timestampMs, baseMs)] for integer readings:
    [Math.floor] of a quotient is the floor division, [%] the remainder
    with the sign of the dividend. *)
Definition formatRelativeTime (timestampMs baseMs : Z) : string :=
  let elapsed := (timestampMs - baseMs)%Z in
  let minutes := (elapsed / 60000)%Z in
  let seconds := (Z.rem elapsed 60000 / 1000)%Z in
  let millis := Z.rem elapsed 1000 in
  padStart0 2 (intToString minutes) ++ ":"
  ++ padStart0 2 (intToString seconds) ++ "."
  ++ padStart0 3 (intToString millis).

(** [renderDOMFragment(event)]. *)
Definition renderDOMFragment (options : ExportOptions) (event : DOMEvent)
  : option string :=
  match DOMEvent.domSnapshot event with
  | None => None
  | Some snapshot =>
      let html := truncate (DOMFragment.html snapshot)
                           (maxDOMFragmentLength options) in
      if negb (truthy html) || Nat.ltb (String.length html) 10 then None
      else Some ("**Element:**" ++ nl ++ codeBlock html "html")
  end.

(** [renderEvent(event, baseTime)]: [Returned None] for [null]; the call
    is outside the model where [describeEvent] is. *)
Definition renderEvent (options : ExportOptions) (event : DOMEvent)
    (baseTime : Z) : option (option string) :=
  let time :=
    formatRelativeTime (DOMEvent.timestamp event + baseTime)%Z baseTime in
  let label := EVENT_TYPE_LABELS (DOMEvent.type event) in
  match describeEvent options event with
  | None => None
  | Some description =>
      let domFragment := renderDOMFragment options event in
      if negb (truthy description) then Some None
      else
        let md := "### " ++ time ++ " " ++ label ++ nl ++ description in
        Some (Some match domFragment with
                   | Some fragment => md ++ nl ++ nl ++ fragment
                   | None => md
                   end)
  end.

(** [renderInitialLoad(session)]. *)
Definition renderInitialLoad (session : Session.t) : string :=
  "### 00:00.000 [ACTION] Page Load" ++ nl
  ++ "Initial page loaded: **" ++ escapeMarkdown (Session.title session)
  ++ "**" ++ nl ++ nl
  ++ codeBlock ("<title>" ++ escapeMarkdown (Session.title session)
                ++ "</title>") "html".

(** The array [rendered] of [renderTimeline(session, events)] when its
    loop ends. *)
Definition timelineEntries (options : ExportOptions) (session : Session.t)
    (events : list DOMEvent) : option (list string) :=
  fold_left
    (fun (acc : option (list string)) event =>
       match acc with
       | None => None
       | Some rendered =>
           match renderEvent options event (Session.startedAt session) with
           | None => None
           | Some (Some eventMd) =>
               if truthy eventMd then Some (push rendered eventMd)
               else Some rendered
           | Some None => Some rendered
           end
       end)
    events (Some [renderInitialLoad session]).

(** [renderTimeline(session, events)]. *)
Definition renderTimeline (options : ExportOptions) (session : Session.t)
    (events : list DOMEvent) : option string :=
  option_map (join (nl ++ nl)) (timelineEntries options session events).

(** *** The summary *)

Record Counts := mkCounts {
  actions : nat;
  mutations : nat;
  errors : nat;
  navs : nat;
  redactions : nat
}.

(** One round of the loop of [renderSummary]; outside the model for an
    input event whose payload is of another kind. *)
Definition countEvent (counts : Counts) (event : DOMEvent) : option Counts :=
  let type := EventType_toString (DOMEvent.type event) in
  let counts :=
    if startsWith type "user:"
    then mkCounts (S (actions counts)) (mutations counts) (errors counts)
                  (navs counts) (redactions counts)
    else if startsWith type "mutation:"
    then mkCounts (actions counts) (S (mutations counts)) (errors counts)
                  (navs counts) (redactions counts)
    else if startsWith type "error:"
    then mkCounts (actions counts) (mutations counts) (S (errors counts))
                  (navs counts) (redactions counts)
    else counts in
  let counts :=
    if String.eqb type "user:navigation"
    then mkCounts (actions counts) (mutations counts) (errors counts)
                  (S (navs counts)) (redactions counts)
    else counts in
  if String.eqb type "user:input" then
    match DOMEvent.payload event with
    | PInput payload =>
        if isRedacted (InputPayload.value payload)
        then Some (mkCounts (actions counts) (mutations counts)
                            (errors counts) (navs counts)
                            (S (redactions counts)))
        else Some counts
    | _ => None
    end
  else Some counts.

Definition summaryCounts (events : list DOMEvent) : option Counts :=
  fold_left
    (fun (acc : option Counts) event =>
       match acc with
       | Some counts => countEvent counts event
       | None => None
       end)
    events (Some (mkCounts 0 0 0 0 0)).

(** *** The reproduction steps *)

(** [eventToStep(event)]; [Some None] for [null]. *)
Definition eventToStep (event : DOMEvent) : option (option string) :=
  let target := DOMEvent.target event in
  let targetLabel :=
    match ElementDescriptor.label target with
    | Some l => if truthy l then l else ElementDescriptor.cssSelector target
    | None => ElementDescriptor.cssSelector target
    end in
  match DOMEvent.type event with
  | user_click =>
      Some (Some ("Click " ++ dq ++ truncate targetLabel 30 ++ dq))
  | user_input =>
      match DOMEvent.payload event with
      | PInput payload =>
          if isRedacted (InputPayload.value payload)
          then Some (Some ("Fill " ++ dq ++ truncate targetLabel 30 ++ dq
                           ++ " with " ++ InputPayload.value payload))
          else Some (Some ("Fill " ++ dq ++ truncate targetLabel 30 ++ dq
                           ++ " with value"))
      | _ => None
      end
  | user_navigation =>
      match DOMEvent.payload event with
      | PNavigation payload =>
          Some (Some ("Observe navigation to `"
                      ++ NavigationPayload.url payload ++ "`"))
      | _ => None
      end
  | user_scroll => Some None
  | user_focus | user_blur => Some None
  | mutation_add =>
      Some (Some ("Observe new element in " ++ dq
                  ++ truncate targetLabel 30 ++ dq))
  | mutation_remove =>
      Some (Some ("Observe element removed from " ++ dq
                  ++ truncate targetLabel 30 ++ dq))
  | _ => Some None
  end.

(** The array [steps] and the counter [stepNum] of
    [renderReproductionSteps(session, events)] when its loop ends. *)
Definition reproductionSteps (session : Session.t) (events : list DOMEvent)
  : option (list string * nat) :=
  fold_left
    (fun (acc : option (list string * nat)) event =>
       match acc with
       | None => None
       | Some (steps, stepNum) =>
           match eventToStep event with
           | None => None
           | Some (Some step) =>
               if truthy step
               then Some (push steps (natToString stepNum ++ ". " ++ step),
                          S stepNum)
               else Some (steps, stepNum)
           | Some None => Some (steps, stepNum)
           end
       end)
    events
    (Some (["1. Navigate to `" ++ Session.url session ++ "`"], 2)).

(** [renderReproductionSteps(session, events)]. *)
Definition renderReproductionSteps (session : Session.t)
    (events : list DOMEvent) : option string :=
  option_map (fun r => "## Reproduction Steps" ++ nl ++ nl ++ join nl (fst r))
             (reproductionSteps session events).

End MarkdownSections.

(* ===================================================================== *)
(** * The vocabulary of the properties, and sample inputs *)
(* ===================================================================== *)

Module JSStringSpec.

(** A string free of line feeds. *)
Fixpoint noLF (s : string) : bool :=
  match s with
  | EmptyString => true
  | String a s' => negb (Ascii.eqb a LF) && noLF s'
  end.

End JSStringSpec.

Module MarkdownExporterSpec.
Import Templates MarkdownExporter JSStringSpec.

(** A structural addition of one [div] to [form#contact-form]. *)
Definition sampleAddedFragment : DOMFragment :=
  DOMFragment.mk "<div>Saved</div>" "Saved" [].

(** The event of that addition, without a snapshot of the parent. *)
Definition sampleAddEvent : DOMEvent :=
  DOMEvent.mk "e1" "s1" 10 1 mutation_add
    (ElementDescriptor.mk "form" (Some "contact-form") [] (Some "form") None
       "/html[1]/body[1]/form[1]" "form#contact-form" None)
    (PMutation (MutationPayload.mk ChildList (Some [sampleAddedFragment])
                  None None None None None None))
    None.

End MarkdownExporterSpec.

Module MiniRESpec.
Import MiniRE.

(** The character before the position reached by reading [m] from a
    position that [prev] precedes. *)
Fixpoint lastOf (prev : option ascii) (m : string) : option ascii :=
  match m with
  | EmptyString => prev
  | String a m' => lastOf (Some a) m'
  end.

Fixpoint allChars (p : ascii -> bool) (s : string) : bool :=
  match s with
  | EmptyString => true
  | String a s' => p a && allChars p s'
  end.

Fixpoint someChar (p : ascii -> bool) (s : string) : bool :=
  match s with
  | EmptyString => false
  | String a s' => p a || someChar p s'
  end.

Section Iterations.
Variable body : option ascii -> string -> string -> Prop.
Variable min : nat.
Variable max : option nat.

(** The iterations of a quantified term from the iteration numbered
    [count] on: at most [max] in all, at least [min], and none that reads
    nothing once [min] are made. *)
Inductive Iter : nat -> option ascii -> string -> string -> Prop :=
| IterStop count prev rest :
    min <= count -> Iter count prev EmptyString rest
| IterStep count prev m1 m2 rest :
    match max with Some m => count < m | None => True end ->
    body prev m1 (m2 ++ rest) ->
    (min <= count -> m1 <> EmptyString) ->
    Iter (S count) (lastOf prev m1) m2 rest ->
    Iter count prev (m1 ++ m2) rest.

End Iterations.

(** [Matches r prev m rest]: the expression [r] can read [m] at a position
    of the input that [prev] precedes and from which the input goes on
    with [m ++ rest]. *)
Fixpoint Matches (r : re) (prev : option ascii) (m rest : string) : Prop :=
  match r with
  | Empty => m = EmptyString
  | Lit c =>
      exists a, m = String a EmptyString
                /\ Ascii.eqb (upperChar a) (upperChar c) = true
  | AnyChar =>
      exists a, m = String a EmptyString /\ isLineTerminator a = false
  | Class neg items =>
      exists a, m = String a EmptyString
                /\ xorb neg (classHas items a) = true
  | Cat r1 r2 =>
      exists m1 m2,
        m = m1 ++ m2 /\ Matches r1 prev m1 (m2 ++ rest)
        /\ Matches r2 (lastOf prev m1) m2 rest
  | Alt r1 r2 => Matches r1 prev m rest \/ Matches r2 prev m rest
  | Repeat r0 min max => Iter (Matches r0) min max 0 prev m rest
  | WordBoundary neg =>
      m = EmptyString
      /\ xorb neg (xorb (optWord prev) (optWord (headOf rest))) = true
  | InputStart => m = EmptyString /\ prev = None
  | InputEnd => m = EmptyString /\ rest = EmptyString
  end.

(** The loop of [matchRe] on a quantified term, over the matcher of the
    term. *)
Definition repeatLoop {R : Type}
    (body : option ascii -> string -> (option ascii -> string -> option R)
            -> option R)
    (min : nat) (max : option nat) (k : option ascii -> string -> option R)
  : nat -> nat -> option ascii -> string -> option R :=
  fix loop (fuel count : nat) (prev : option ascii) (s : string)
    : option R :=
    match fuel with
    | O => None
    | S fuel' =>
        let more :=
          if match max with Some m => Nat.ltb count m | None => true end
          then body prev s
                 (fun p s' =>
                    if Nat.leb min count
                       && Nat.eqb (String.length s') (String.length s)
                    then None
                    else loop fuel' (S count) p s')
          else None in
        match more with
        | Some x => Some x
        | None => if Nat.leb min count then k prev s else None
        end
    end.

(** No match of [r] starts at any position of [s], the text that follows
    [prev]. *)
Definition Free (r : re) (prev : option ascii) (s : string) : Prop :=
  forall x y, s = x ++ y -> matchHere r (lastOf prev x) y = None.

(** *** What can be read off an expression *)

(** All characters. *)
Definition allAscii : list ascii := map ascii_of_nat (seq 0 256).

(** The characters that a term for one character reads. *)
Definition atomHas (r : re) (c : ascii) : bool :=
  match r with
  | Lit c' => Ascii.eqb (upperChar c) (upperChar c')
  | AnyChar => negb (isLineTerminator c)
  | Class neg items => xorb neg (classHas items c)
  | _ => false
  end.

(** Every character that the atom [r] reads satisfies [p]. *)
Definition atomIn (p : ascii -> bool) (r : re) : bool :=
  forallb (fun c => implb (atomHas r c) (p c)) allAscii.

(** Every character of a match of [r] satisfies [p]. *)
Fixpoint readsIn (p : ascii -> bool) (r : re) : bool :=
  match r with
  | Cat r1 r2 | Alt r1 r2 => readsIn p r1 && readsIn p r2
  | Repeat r0 _ _ => readsIn p r0
  | Lit _ | AnyChar | Class _ _ => atomIn p r
  | _ => true
  end.

(** Every match of [r] holds a character that satisfies [p]. *)
Fixpoint needs (p : ascii -> bool) (r : re) : bool :=
  match r with
  | Cat r1 r2 => needs p r1 || needs p r2
  | Alt r1 r2 => needs p r1 && needs p r2
  | Repeat r0 min _ => Nat.ltb 0 min && needs p r0
  | Lit _ | AnyChar | Class _ _ => atomIn p r
  | _ => false
  end.

(** [r] may match the empty string. *)
Fixpoint nullable (r : re) : bool :=
  match r with
  | Cat r1 r2 => nullable r1 && nullable r2
  | Alt r1 r2 => nullable r1 || nullable r2
  | Repeat r0 min _ => Nat.eqb min 0 || nullable r0
  | Lit _ | AnyChar | Class _ _ => false
  | _ => true
  end.

(** The first character of every match of [r] that is not empty satisfies
    [p]. *)
Fixpoint firstIn (p : ascii -> bool) (r : re) : bool :=
  match r with
  | Cat r1 r2 => firstIn p r1 && (negb (nullable r1) || firstIn p r2)
  | Alt r1 r2 => firstIn p r1 && firstIn p r2
  | Repeat r0 _ _ => firstIn p r0
  | Lit _ | AnyChar | Class _ _ => atomIn p r
  | _ => true
  end.

(** The last character of every match of [r] that is not empty satisfies
    [p]. *)
Fixpoint lastIn (p : ascii -> bool) (r : re) : bool :=
  match r with
  | Cat r1 r2 => lastIn p r2 && (negb (nullable r2) || lastIn p r1)
  | Alt r1 r2 => lastIn p r1 && lastIn p r2
  | Repeat r0 _ _ => lastIn p r0
  | Lit _ | AnyChar | Class _ _ => atomIn p r
  | _ => true
  end.

(** [r] begins with the assertion [\b]. *)
Fixpoint leadB (r : re) : bool :=
  match r with
  | WordBoundary false => true
  | Cat r1 r2 =>
      leadB r1 || match r1 with Empty => leadB r2 | _ => false end
  | _ => false
  end.

(** [r] ends with the assertion [\b]. *)
Fixpoint trailB (r : re) : bool :=
  match r with
  | WordBoundary false => true
  | Cat r1 r2 =>
      trailB r2 || match r2 with Empty => trailB r1 | _ => false end
  | _ => false
  end.

(** [r] holds an assertion [\b] or [\B]. *)
Fixpoint hasBoundary (r : re) : bool :=
  match r with
  | WordBoundary _ => true
  | Cat r1 r2 | Alt r1 r2 => hasBoundary r1 || hasBoundary r2
  | Repeat r0 _ _ => hasBoundary r0
  | _ => false
  end.

(** [r] holds neither [^] nor [$]. *)
Fixpoint anchorFree (r : re) : bool :=
  match r with
  | InputStart | InputEnd => false
  | Cat r1 r2 | Alt r1 r2 => anchorFree r1 && anchorFree r2
  | Repeat r0 _ _ => anchorFree r0
  | _ => true
  end.

(** [r] is between two assertions [\b], and its matches start and end with
    a word character. *)
Definition wordEdged (r : re) : bool :=
  leadB r && trailB r && firstIn isWordChar r && lastIn isWordChar r.

(** The text between the brackets of a replacement [[...]]. *)
Definition bracketed (w : string) : string :=
  String "[" (w ++ "]").

(** A rule with the expression [r] leaves the replacements [[w]] of a rule
    with the expression [r'] alone, and the text around them as well: [r]
    reads no bracket and needs a character satisfying [p], which [w] has
    not; it has no [^] or [$], and either no [\b] or [\B], or both [r] and
    [r'] are between two [\b] with word characters at both ends.  No match
    of [r'] is empty, and [w] holds no [$]. *)
Definition apart (p : ascii -> bool) (r r' : re) (w : string) : bool :=
  readsIn (fun c => negb (Ascii.eqb c "[") && negb (Ascii.eqb c "]")) r
  && needs p r && negb (someChar p (String "[" w))
  && anchorFree r
  && (negb (hasBoundary r) || (wordEdged r && wordEdged r'))
  && needs (fun _ => true) r'
  && negb (someChar (Ascii.eqb "$") w).

(** A regex rule that replaces the matches of [tokenRe] by
    [[tokenText]]; every match holds a character that satisfies
    [tokenNeeds]. *)
Record Token := mkToken {
  tokenNeeds : ascii -> bool;
  tokenRe : re;
  tokenText : string
}.

Definition tokenApart (a b : Token) : bool :=
  apart (tokenNeeds a) (tokenRe a) (tokenRe b) (tokenText b).

(** Each rule of the list is apart from itself and from the rules after
    it. *)
Fixpoint settled (l : list Token) : bool :=
  match l with
  | [] => true
  | a :: rest => forallb (tokenApart a) (a :: rest) && settled rest
  end.

(** The rules applied one after the other, each to the result of the one
    before. *)
Definition cascade (l : list Token) (text : string) : string :=
  fold_left
    (fun result b => replaceAll result (tokenRe b) (bracketed (tokenText b)))
    l text.

(** The expression of a pattern of the fragment. *)
Definition compiled (pattern : string) : re :=
  match parse pattern with Some r => r | None => Empty end.

(** The enabled regex rules among the built-in rules, in order. *)
Definition builtinTokens : list Token :=
  [ mkToken (Ascii.eqb "@")
      (compiled "[a-zA-Z0-9._%+-]+@[a-zA-Z0-9.-]+\.[a-zA-Z]{2,}") "EMAIL";
    mkToken isDigit
      (compiled "(\+?1?[-.\s]?)?(\(?\d{3}\)?[-.\s]?)?\d{3}[-.\s]?\d{4}")
      "PHONE";
    mkToken isDigit (compiled "\b\d{3}-\d{2}-\d{4}\b") "SSN";
    mkToken isDigit (compiled "\b(?:\d{4}[- ]?){3}\d{4}\b") "CARD" ].

End MiniRESpec.

Module RedactionEngineSpec.
Import RedactionEngine.

Section Generic.
Context {RT : RegExpRuntime}.

(** A second pass of the regex cascade leaves [text], once redacted, as it
    is. *)
Definition stableText (this : t) (text : string) : Prop :=
  redactText this (redactText this text) = redactText this text.

(** The regex cascade is idempotent on every text of the event that it is
    applied to. *)
Definition cascadeStableOn (this : t) (e : DOMEvent) : Prop :=
  (forall l, ElementDescriptor.label (DOMEvent.target e) = Some l ->
             stableText this l) /\
  (forall ip, DOMEvent.payload e = PInput ip ->
              stableText this (InputPayload.value ip)) /\
  (forall s, DOMEvent.domSnapshot e = Some s ->
             stableText this (DOMFragment.html s) /\
             stableText this (DOMFragment.text s) /\
             Forall (fun kv => stableText this (snd kv))
                    (DOMFragment.attributes s)).

(** The label step of [process]. *)
Definition redactLabel (this : t) (d : ElementDescriptor)
  : ElementDescriptor :=
  match ElementDescriptor.label d with
  | Some l =>
      if truthy l
      then ElementDescriptor.with_label d (Some (redactText this l))
      else d
  | None => d
  end.

End Generic.

(** The descriptor of a text field, and an input event on it. *)
Definition plainTarget (tag : string) (label : option string)
  : ElementDescriptor :=
  ElementDescriptor.mk tag None [] (Some "textbox") label
    "/html[1]/body[1]/input[1]" "input" None.

Definition inputEvent (inputType value : string) : DOMEvent :=
  DOMEvent.mk "e1" "s1" 10 1 user_input (plainTarget "input" None)
    (PInput (InputPayload.mk inputType value None None)) None.

(** The engine with the built-in rules only. *)
Definition defaultEngine : t (RT := miniRE) := loadRules None.

(** No custom rule is an enabled regex rule. *)
Definition withoutRegex (custom : option (list RedactionRule)) : bool :=
  match custom with
  | Some l =>
      forallb (fun rule =>
                 negb (RuleType_eqb (RedactionRule.type rule) RegexRule
                       && RedactionRule.enabled rule)) l
  | None => true
  end.

(** A custom attribute rule. *)
Definition keyRule : RedactionRule :=
  RedactionRule.mk "custom-key" "Keys" AttributeRule "data-key" "[KEY]" true.

(** A custom regex rule whose replacement matches its own pattern. *)
Definition doublingRule : RedactionRule :=
  RedactionRule.mk "custom-a" "Doubling" RegexRule "a" "aa" true.

Definition doublingEngine : t (RT := miniRE) :=
  loadRules (Some [doublingRule]).

End RedactionEngineSpec.

Module SemanticExtractorSpec.
Import Dom SemanticExtractor.

(** A page with an empty [div]. *)
Definition spacer : node :=
  ElementNode "DIV" [("class", "spacer")] [TextNode "  "].

Definition spacerPage : node :=
  ElementNode "HTML" [] [ElementNode "BODY" [] [spacer]].

Definition spacerRef : NodeRef := mkRef true spacerPage [0; 0].

(** A page without any [label], with an empty [div] whose id holds a
    double quote. *)
Definition quotedDiv : node :=
  ElementNode "DIV" [("id", "a" ++ dq ++ "b")] [].

Definition quotedDivPage : node :=
  ElementNode "HTML" [] [ElementNode "BODY" [] [quotedDiv]].

Definition quotedDivRef : NodeRef := mkRef true quotedDivPage [0; 0].

End SemanticExtractorSpec.

Module ChronicleSpec.
Import Dom Chronicle.

Section Generic.
Context {RT : RegExpRuntime} {B : Browser}.

(** The counter of the content script, the events pushed onto its buffer
    since [start], and the results of [process] since [start]. *)
Definition sequenceOf (w : World.t) : N :=
  DOMChronicle.sequence (World.chronicle w).

Definition acceptedOf (w : World.t) : list DOMEvent :=
  History.accepted (World.history w).

Definition redactedOf (w : World.t) : list DOMEvent :=
  History.redacted (World.history w).

(** The invariant of a session: the events pushed onto the buffer carry the
    numbers 0, 1, 2, ... in the order of the pushes, the counter is the
    number of pushes, and all pushed events but at most one at the head are
    the results of [process], in order, with their sequence number set. *)
Record Good (w : World.t) : Prop := mkGood {
  good_numbers :
    map DOMEvent.sequence (acceptedOf w)
    = map N.of_nat (List.seq 0 (length (acceptedOf w)));
  good_counter : sequenceOf w = N.of_nat (length (acceptedOf w));
  good_redacted :
    exists init rest,
      acceptedOf w = app init rest /\ length init <= 1 /\
      Forall2 (fun a r => a = DOMEvent.with_sequence r (DOMEvent.sequence a))
              rest (redactedOf w)
}.

(** A step that leaves the counter and the history as they are. *)
Definition steady (w w' : World.t) : Prop :=
  sequenceOf w' = sequenceOf w /\ World.history w' = World.history w.

(** [stop] after [mutationCapture.stop()] has returned: the listeners are
    removed, the interval is cleared and the buffer is flushed. *)
Definition stopRest (w : World.t) : World.t :=
  let w :=
    match DOMChronicle.eventCapture (World.chronicle w) with
    | Some owner => eventCaptureStop owner w
    | None => w
    end in
  let w := updChronicle (DOMChronicle.set_eventCapture None) w in
  let w :=
    match truthyId (DOMChronicle.flushInterval (World.chronicle w)) with
    | Some id =>
        updChronicle (DOMChronicle.set_flushInterval None) (clearTimer id w)
    | None => w
    end in
  let '(w, pending) := flushBuffer true w in
  if pending then w else finishStop w.

(** [start] before [captureInitialState()]. *)
Definition startPrefix (sessionId : string) (config : SessionConfig)
    (w : World.t) : World.t :=
  let w :=
    updChronicle
      (fun c =>
         DOMChronicle.set_isRecording true
           (DOMChronicle.set_eventBuffer []
              (DOMChronicle.set_sequence 0%N
                 (DOMChronicle.set_config (Some config)
                    (DOMChronicle.set_sessionId (Some sessionId) c)))))
      w in
  let w := updHistory (fun _ => History.mk [] []) w in
  let w :=
    updChronicle
      (DOMChronicle.set_redactionEngine
         (RedactionEngine.loadRules (SessionConfig.redactionRules config)))
      w in
  let includeParentContext :=
    match SessionConfig.exportConfig config with
    | Some ec => ExportConfig.includeParentContext ec
    | None => true
    end in
  let w :=
    updMutationCapture
      (fun m =>
         MutationCapture.set_observer true
           (MutationCapture.set_includeParentContext includeParentContext
              (MutationCapture.set_sequence 0%N
                 (MutationCapture.set_sessionId sessionId m))))
      w in
  let owner := length (World.captures w) in
  let w :=
    World.set_captures
      (push (World.captures w)
            (EventCapture.mk EmptyString 0%N
               (EventCaptureConfig.mk
                  (SessionConfig.captureScrollEvents config) false
                  (SessionConfig.debounceMs config))
               [] Timing.newDebounce Timing.newThrottle))
      w in
  let w := updChronicle (DOMChronicle.set_eventCapture (Some owner)) w in
  let w :=
    eventCaptureStart owner sessionId
      (DOMChronicle.sequence (World.chronicle w)) w in
  let '(id, w) := setTimer CbFlushInterval true w in
  updChronicle (DOMChronicle.set_flushInterval (Some id)) w.

(** Steps that leave the content script, the history, the timers, the
    messages and the batch as they are. *)
Record quiet (w w' : World.t) : Prop := mkQuiet {
  quiet_chronicle : World.chronicle w' = World.chronicle w;
  quiet_history : World.history w' = World.history w;
  quiet_timers :
    Runtime.timers (World.runtime w') = Runtime.timers (World.runtime w);
  quiet_outbox :
    Runtime.outbox (World.runtime w') = Runtime.outbox (World.runtime w);
  quiet_delivered :
    Runtime.delivered (World.runtime w') = Runtime.delivered (World.runtime w);
  quiet_batchBuffer :
    MutationCapture.batchBuffer (World.mutationCapture w')
    = MutationCapture.batchBuffer (World.mutationCapture w);
  quiet_batchTimeout :
    MutationCapture.batchTimeout (World.mutationCapture w')
    = MutationCapture.batchTimeout (World.mutationCapture w)
}.

(** Where no selector is rejected, [describe] returns. *)
Definition selectorsAccepted : Prop :=
  forall doc selector, querySelector doc selector <> SyntaxError.

(** The timers left when those of the given ids are cleared. *)
Definition withoutTimers (ids : list nat) (timers : list Timer) : list Timer :=
  List.filter (fun t => negb (existsb (Nat.eqb (tid t)) ids)) timers.

(** The id of a timer that is set, as a list. *)
Definition optList (o : option nat) : list nat :=
  match o with Some id => [id] | None => [] end.

(** [mutationCapture.stop()], called by [stop], returns: no event of the
    pending batch makes [describe] throw. *)
Definition stopReturns (env : Env) (w : World.t) : Prop :=
  snd (mutationCaptureStopWith (handleEventWith (fun w => w)) env
         (updChronicle (DOMChronicle.set_isRecording false) w)) = true.

End Generic.

(** A page with an element that carries an inline handler and a script, a
    text field, and an address in its text. *)
Definition widget : node :=
  ElementNode "DIV" [("onclick", "steal()")]
    [ElementNode "SCRIPT" [] [TextNode "alert(document.cookie)"];
     TextNode "Hi"].

Definition field : node := ElementNode "INPUT" [("name", "q")] [].

Definition page : node :=
  ElementNode "HTML" []
    [ElementNode "BODY" []
       [widget; field; TextNode "Contact: user@example.com"]].

(** The page at time [t], and a configuration of a session. *)
Definition sampleEnv (t : Z) : Env :=
  mkEnv t (1700000000000 + t)%Z page "https://example.org/" 0 0.

Definition sampleConfig : SessionConfig :=
  SessionConfig.mk None false false 100 1000
    (Some (ExportConfig.mk 4096 LineDiff true)).

(** A click on the element with the handler, the insertion of a paragraph
    into the body, and an input of the text field. *)
Definition sampleClick : DomEvent :=
  ClickEvent (Some (mkRef true page [0; 0])) 0 5 5
             (Modifiers.mk false false false false).

Definition sampleRecord : MutationRecord.t :=
  MutationRecord.mk ChildList (mkRef true page [0])
                    [ElementNode "P" [] [TextNode "new"]] [] None None.

Definition sampleInput : DomEvent :=
  InputEvent (Some (InputTarget.mk (mkRef true page [0; 1]) "text" "hello"
                                   (Some 5%Z) (Some 5%Z))).

(** The session after [start]. *)
Definition startedWorld : World.t (RT := miniRE) :=
  run (B := plainBrowser) [(sampleEnv 0, LStart "s1" sampleConfig)] initial.

(** The session after a click. *)
Definition clickedWorld : World.t (RT := miniRE) :=
  run (B := plainBrowser) [(sampleEnv 10, LDispatch sampleClick)]
      startedWorld.

(** The session with a micro-batch of one mutation and a debounced input
    emission pending. *)
Definition pendingWorld : World.t (RT := miniRE) :=
  run (B := plainBrowser)
      [(sampleEnv 20, LMutations [sampleRecord]);
       (sampleEnv 30, LDispatch sampleInput)]
      clickedWorld.

(** The timer of the pending debounced input emission. *)
Definition pendingInput : Timer :=
  mkTimer 3 (CbDebouncedInput 0 sampleInput) false.

(** The event stream as it is outside the content script or on its way
    there: the messages delivered, the messages sent, the buffer. *)
Definition streamOf (w : World.t (RT := miniRE)) : list DOMEvent :=
  app (concat (Runtime.delivered (World.runtime w)))
      (app (concat (map fst (Runtime.outbox (World.runtime w))))
           (DOMChronicle.eventBuffer (World.chronicle w))).

End ChronicleSpec.

Module ThrottledScrollSpec.
Import Timing ThrottledScroll.

(** The time of the last of [turns], [from] when there is none. *)
Definition clock (from : Z) (turns : list Turn) : Z :=
  List.last (map (fun turn => dateNow (envOf turn)) turns) from.

Section Generic.
Variable wait : Z.

(** Each time is at least [wait] after the one before it. *)
Fixpoint spacedFrom (prev : Z) (times : list Z) : Prop :=
  match times with
  | [] => True
  | t :: rest => (prev + wait <= t)%Z /\ spacedFrom t rest
  end.

(** The times of a list are at least [wait] apart. *)
Definition spaced (times : list Z) : Prop :=
  match times with
  | [] => True
  | t :: rest => spacedFrom t rest
  end.

(** The invariant of the closure at time [now]: [lastCall] is not in the
    future, the emissions are at least [wait] apart and none is later than
    [lastCall], and the timeout of the closure, if any, is the only one
    pending and is due [wait] after [lastCall]. *)
Record Inv (now : Z) (s : ThrottledScroll.t) : Prop := mkInv {
  inv_clock : (lastCall (closure s) <= now)%Z;
  inv_spaced : spaced (map fst (emitted s));
  inv_before :
    Forall (fun e => (fst e <= lastCall (closure s))%Z) (emitted s);
  inv_timeouts :
    match t_timeoutId (closure s) with
    | None => timeouts s = []
    | Some id =>
        exists e,
          timeouts s = [mkTimeout id (lastCall (closure s) + wait)%Z e]
    end
}.

End Generic.

(** A scroll notification at time [now] with the window at [(0, y)]. *)
Definition scrolledTo (now y : Z) : Env :=
  mkEnv now now (Dom.ElementNode "HTML" [] []) "https://example.org/" 0 y.

End ThrottledScrollSpec.

Module TemplatesSpec.
Import Templates.

(** A text without any of the characters that [escapeMarkdown] escapes. *)
Fixpoint plainMarkdown (text : string) : bool :=
  match text with
  | EmptyString => true
  | String c t => negb (isMarkdownSpecial c) && plainMarkdown t
  end.

(** A line without its first [n] characters. *)
Fixpoint dropPrefix (n : nat) (s : string) : string :=
  match n, s with
  | S n', String _ t => dropPrefix n' t
  | _, _ => s
  end.

End TemplatesSpec.

Module RedactionEngineMoreSpec.
Import RedactionEngine.

(** The attribute names of the built-in rule for authentication tokens. *)
Definition tokenAttributes : list string :=
  ["data-token"; "data-auth"; "data-session"; "data-csrf"].

(** A click on an element that carries a token, before and after
    [process]. *)
Definition tokenFragment : DOMFragment :=
  DOMFragment.mk "<div>Pay</div>" "Pay"
    [("class", "pay"); ("data-token", "s3cr3t")].

Definition tokenEvent : DOMEvent :=
  DOMEvent.mk "e2" "s1" 20 2 user_click
    (ElementDescriptor.mk "div" None ["pay"] None (Some "Pay")
       "/html[1]/body[1]/div[1]" "div.pay" None)
    (PClick (ClickPayload.mk 0 (1, 1)%Z
               (Modifiers.mk false false false false)))
    (Some tokenFragment).

Definition tokenEventRedacted : DOMEvent :=
  DOMEvent.with_domSnapshot tokenEvent
    (Some (DOMFragment.mk "<div>Pay</div>" "Pay"
             [("class", "pay"); ("data-token", "[TOKEN]")])).

(** An input of three digits into a field whose selector holds [cvv]. *)
Definition cvvEvent : DOMEvent :=
  DOMEvent.mk "e3" "s1" 30 3 user_input
    (ElementDescriptor.mk "input" (Some "cvv-code") [] (Some "textbox") None
       ("//*[@id=" ++ dq ++ "cvv-code" ++ dq ++ "]") "#cvv-code" None)
    (PInput (InputPayload.mk "text" "123" None None)) None.

(** A custom regex rule with an unbalanced parenthesis as its pattern. *)
Definition rejectedRule : RedactionRule :=
  RedactionRule.mk "custom-bad" "Unbalanced" RegexRule "(" "x" true.

End RedactionEngineMoreSpec.

Module SemanticExtractorMoreSpec.
Import Dom SemanticExtractor.

(** A page with a paragraph of more than 50 characters of text. *)
Definition longParagraph : node :=
  ElementNode "P" []
    [TextNode "  The quick brown fox jumps over the lazy dog, twice over.  "].

Definition longParagraphPage : node :=
  ElementNode "HTML" [] [ElementNode "BODY" [] [longParagraph]].

Definition longParagraphRef : NodeRef := mkRef true longParagraphPage [0; 0].

(** What [describe] returns for the paragraph. *)
Definition longParagraphDescriptor : ElementDescriptor :=
  ElementDescriptor.mk "p" None [] None
    (Some "The quick brown fox jumps over the lazy dog, tw...")
    "/html[1]/body[1]/p[1]" "p" (Some (Rect.mk 0 0 0 0)).

End SemanticExtractorMoreSpec.

Module MutationCaptureSpec.
Import Dom.

(** A list item with a text. *)
Definition listItem (text : string) : node :=
  ElementNode "LI" [] [TextNode text].

End MutationCaptureSpec.

Module LedgerSpec.
Import Chronicle ChronicleSpec.

(** The part of the world that tells where the events are: the flag and the
    counter of the content script, its buffer, the events accepted since
    [start], the messages sent and not yet settled, the messages
    delivered. *)
Record Ledger := mkLedger {
  recording : bool;
  counter : N;
  buffer : list DOMEvent;
  accepted : list DOMEvent;
  inflight : list (list DOMEvent * bool);
  delivered : list (list DOMEvent)
}.

Definition ledgerOf {RT : RegExpRuntime} (w : World.t) : Ledger :=
  mkLedger (DOMChronicle.isRecording (World.chronicle w))
           (DOMChronicle.sequence (World.chronicle w))
           (DOMChronicle.eventBuffer (World.chronicle w))
           (History.accepted (World.history w))
           (Runtime.outbox (World.runtime w))
           (Runtime.delivered (World.runtime w)).

(** Steps that leave the ledger as it is. *)
Definition calm {RT : RegExpRuntime} (w w' : World.t) : Prop :=
  ledgerOf w' = ledgerOf w.

(** The changes of the ledger that the code makes. *)
Definition pushed (e : DOMEvent) (l : Ledger) : Ledger :=
  mkLedger (recording l) (counter l + 1)%N (push (buffer l) e)
           (push (accepted l) e) (inflight l) (delivered l).

Definition flushed (awaited : bool) (l : Ledger) : Ledger :=
  match buffer l with
  | [] => l
  | events =>
      mkLedger (recording l) (counter l) [] (accepted l)
               (push (inflight l) (events, awaited)) (delivered l)
  end.

Definition taken (e : DOMEvent) (l : Ledger) : Ledger :=
  if Nat.leb LIMITS.MAX_EVENTS_IN_MEMORY (length (buffer (pushed e l)))
  then flushed false (pushed e l)
  else pushed e l.

Definition halted (l : Ledger) : Ledger :=
  mkLedger false (counter l) (buffer l) (accepted l) (inflight l)
           (delivered l).

Definition opened (l : Ledger) : Ledger :=
  mkLedger true 0 [] [] (inflight l) (delivered l).

Definition settled (i : nat) (events : list DOMEvent) (l : Ledger)
  : Ledger :=
  mkLedger (recording l) (counter l) (buffer l) (accepted l)
           (delete i (inflight l)) (push (delivered l) events).

Definition failed (i : nat) (events : list DOMEvent) (l : Ledger) : Ledger :=
  mkLedger (recording l) (counter l) (app events (buffer l)) (accepted l)
           (delete i (inflight l)) (delivered l).

Inductive Kind := KOpen | KFirst | KAccept | KFlush | KHalt | KSettled | KFailed.

(** One change, with what holds when the code makes it. *)
Inductive move : Kind -> Ledger -> Ledger -> Prop :=
| move_open l :
    recording l = false -> move KOpen l (opened l)
| move_first l e :
    recording l = true -> counter l = 0%N -> buffer l = [] ->
    accepted l = [] -> DOMEvent.sequence e = 0%N ->
    move KFirst l (pushed e l)
| move_accept l e :
    recording l = true ->
    (counter l < LIMITS.MAX_EVENTS_PER_SESSION)%N ->
    DOMEvent.sequence e = counter l ->
    move KAccept l (taken e l)
| move_flush l awaited : move KFlush l (flushed awaited l)
| move_halt l : move KHalt l (halted l)
| move_settled l i events awaited :
    inflight l !! i = Some (events, awaited) ->
    move KSettled l (settled i events l)
| move_failed l i events awaited :
    inflight l !! i = Some (events, awaited) ->
    move KFailed l (failed i events l).

(** A sequence of changes of the kinds allowed. *)
Inductive Moves (allow : Kind -> bool) : Ledger -> Ledger -> Prop :=
| Moves_refl l : Moves allow l l
| Moves_step k l1 l2 l3 :
    allow k = true -> move k l1 l2 -> Moves allow l2 l3 -> Moves allow l1 l3.

(** The kinds of change made while an event is handled or a recording is
    stopped. *)
Definition handling (k : Kind) : bool :=
  match k with KAccept | KFlush | KHalt => true | _ => false end.

(** The kinds of change that a turn of the event loop may make. *)
Definition kindsOf (l : Label) (k : Kind) : bool :=
  match l with
  | LStart _ _ => match k with KOpen | KFirst => true | _ => false end
  | LSettle _ true => match k with KSettled => true | _ => false end
  | LSettle _ false => match k with KFailed => true | _ => false end
  | LUpdateConfig _ | LMutations _ => false
  | _ => handling k
  end.

Definition kindsOfRun (turns : list (Env * Label)) (k : Kind) : bool :=
  existsb (fun turn : Env * Label => kindsOf (snd turn) k) turns.

(** A turn that is not a [start]; a turn that is not the failure of a
    message. *)
Definition notStart (turn : Env * Label) : bool :=
  match snd turn with LStart _ _ => false | _ => true end.

Definition notFailure (turn : Env * Label) : bool :=
  match snd turn with LSettle _ false => false | _ => true end.

(** The events that have left the buffer or are still in it: delivered, on
    their way, buffered. *)
Definition eventStream {RT : RegExpRuntime} (w : World.t) : list DOMEvent :=
  app (concat (Runtime.delivered (World.runtime w)))
      (app (concat (map fst (Runtime.outbox (World.runtime w))))
           (DOMChronicle.eventBuffer (World.chronicle w))).

(** The events accepted are those delivered, on their way or buffered. *)
Definition conserved (l : Ledger) : Prop :=
  Permutation (accepted l)
    (app (concat (delivered l))
         (app (concat (map fst (inflight l))) (buffer l))).

End LedgerSpec.

Module BatchSpec.
Import Dom Chronicle ChronicleSpec.

(** The events that the mutation capture creates. *)
Definition isMutationType (type : EventType) : bool :=
  match type with
  | mutation_add | mutation_remove | mutation_attribute | mutation_text => true
  | _ => false
  end.

Definition isMutationEvent (e : DOMEvent) : bool :=
  isMutationType (DOMEvent.type e).

(** The timers set by [batchMutations]. *)
Definition isBatchTimer (t : Timer) : bool :=
  match callback t with CbBatch => true | _ => false end.

Section Generic.
Context {RT : RegExpRuntime} {B : Browser}.

(** The mutations recorded since [start], and the pending timers of the
    micro-batch. *)
Definition mutationsOf (w : World.t) : list DOMEvent :=
  List.filter isMutationEvent (acceptedOf w).

Definition batchTimers (w : World.t) : list Timer :=
  List.filter isBatchTimer (Runtime.timers (World.runtime w)).

(** A step that leaves [batchTimeout] as it is and sets no timer for the
    micro-batch; when [strict] it records no mutation either. *)
Record track (strict : bool) (w w' : World.t) : Prop := mkTrack {
  track_batchTimeout :
    MutationCapture.batchTimeout (World.mutationCapture w')
    = MutationCapture.batchTimeout (World.mutationCapture w);
  track_batchTimers : incl (batchTimers w') (batchTimers w);
  track_mutations :
    strict = true -> incl (mutationsOf w') (mutationsOf w)
}.

(** The timers of the micro-batch are timeouts and [batchTimeout] holds
    their id: there is at most one, and none when [batchTimeout] is
    [null]. *)
Definition oneBatch (w : World.t) : Prop :=
  Forall (fun t =>
            MutationCapture.batchTimeout (World.mutationCapture w)
            = Some (tid t) /\ repeating t = false)
         (batchTimers w).

(** [batchTimeout] is set and no timer of the micro-batch is pending. *)
Definition stale (w : World.t) : Prop :=
  MutationCapture.batchTimeout (World.mutationCapture w) <> None /\
  batchTimers w = [].

(** The timer [id] is the timer of the micro-batch, and [processBatch],
    which its callback runs, throws: [describe] throws for the target of
    one of the mutations. *)
Definition batchThrows (id : nat) (env : Env) (w : World.t) : Prop :=
  match List.find (fun t => Nat.eqb (tid t) id)
                  (Runtime.timers (World.runtime w)) with
  | Some timer => isBatchTimer timer = true
  | None => False
  end /\
  snd (processBatch env (clearTimer id w)) = false.

End Generic.

(** The session of [pendingWorld] after the timer of its micro-batch has
    run and a second mutation has been observed. *)
Definition batchedTwice : list (Env * Label) :=
  [(sampleEnv 0, LStart "s1" sampleConfig);
   (sampleEnv 20, LMutations [sampleRecord]);
   (sampleEnv 80, LTimer 2);
   (sampleEnv 90, LMutations [sampleRecord])].

(** A second session with a mutation and the timers that could process
    it. *)
Definition secondSession : list (Env * Label) :=
  [(sampleEnv 200, LStart "s2" sampleConfig);
   (sampleEnv 220, LMutations [sampleRecord]);
   (sampleEnv 280, LTimer 3);
   (sampleEnv 281, LTimer 4);
   (sampleEnv 282, LTimer 5);
   (sampleEnv 300, LStop)].

(** A page with an element whose [id] holds a double quote, the change of
    an attribute of that element, and the session in which the change is
    observed. *)
Definition quoted : node :=
  ElementNode "DIV" [("id", "a" ++ dq ++ "b")] [].

Definition quotedPage : node :=
  ElementNode "HTML" [] [ElementNode "BODY" [] [quoted]].

Definition quotedEnv (t : Z) : Env :=
  mkEnv t (1700000000000 + t)%Z quotedPage "https://example.org/" 0 0.

Definition quotedRecord : MutationRecord.t :=
  MutationRecord.mk Attributes (mkRef true quotedPage [0; 0]) [] []
                    (Some "class") None.

Definition quotedBatch : list (Env * Label) :=
  [(quotedEnv 0, LStart "s1" sampleConfig);
   (quotedEnv 20, LMutations [quotedRecord])].

(** What follows: a mutation of the sample page and the timers that could
    process it. *)
Definition laterMutation : list (Env * Label) :=
  [(sampleEnv 100, LMutations [sampleRecord]);
   (sampleEnv 160, LTimer 2);
   (sampleEnv 161, LTimer 3)].

End BatchSpec.

Module HooksSpec.
Import Dom Chronicle ChronicleSpec.

Section Generic.
Context {RT : RegExpRuntime} {B : Browser}.

(** The session ids of the [EventCapture] objects created so far, oldest
    first. *)
Definition sessionsOf (w : World.t) : list string :=
  map EventCapture.sessionId (World.captures w).

(** A step that leaves the wrappers of the history functions and the
    session ids of the [EventCapture] objects as they are. *)
Record keep (w w' : World.t) : Prop := mkKeep {
  keep_hooks :
    Runtime.historyHooks (World.runtime w')
    = Runtime.historyHooks (World.runtime w);
  keep_sessions : sessionsOf w' = sessionsOf w
}.

(** The session ids given to the calls of [start] that did not throw, in
    a run from [w]. *)
Fixpoint sessionsStarted (turns : list (Env * Label)) (w : World.t)
  : list string :=
  match turns with
  | [] => []
  | (env, l) :: rest =>
      app match l with
          | LStart sessionId _ =>
              if DOMChronicle.isRecording (World.chronicle w) then []
              else [sessionId]
          | _ => []
          end
          (sessionsStarted rest (step env l w))
  end.

(** Every [EventCapture] object has its wrapper on the history functions,
    in the order of creation. *)
Definition hooked (w : World.t) : Prop :=
  Runtime.historyHooks (World.runtime w)
  = List.seq 0 (length (World.captures w)).

(** The session is recording and there is room for [n] more events. *)
Record roomFor (n : nat) (w : World.t) : Prop := mkRoom {
  room_recording : DOMChronicle.isRecording (World.chronicle w) = true;
  room_config : DOMChronicle.config (World.chronicle w) <> None;
  room_counter :
    (sequenceOf w + N.of_nat n <= LIMITS.MAX_EVENTS_PER_SESSION)%N
}.

End Generic.

(** Two sessions on a page, the first one stopped and its last message
    delivered before the second one is started. *)
Definition twoSessions : list (Env * Label) :=
  [(sampleEnv 0, LStart "s1" sampleConfig);
   (sampleEnv 40, LStop);
   (sampleEnv 50, LSettle 0 true);
   (sampleEnv 200, LStart "s2" sampleConfig)].

End HooksSpec.

Module RaceSpec.
Import Dom Chronicle ChronicleSpec.

Section Generic.
Context {RT : RegExpRuntime} {B : Browser}.

(** A step that leaves the recording flag, the configuration and the
    history as they are. *)
Record mute (w w' : World.t) : Prop := mkMute {
  mute_recording :
    DOMChronicle.isRecording (World.chronicle w')
    = DOMChronicle.isRecording (World.chronicle w);
  mute_config :
    DOMChronicle.config (World.chronicle w')
    = DOMChronicle.config (World.chronicle w);
  mute_history : World.history w' = World.history w
}.

(** The content script records without a configuration: [handleEvent]
    returns at its first test. *)
Definition deaf (w : World.t) : Prop :=
  DOMChronicle.isRecording (World.chronicle w) = true /\
  DOMChronicle.config (World.chronicle w) = None.

End Generic.

(** A turn that is not a [stop]. *)
Definition notStop (turn : Env * Label) : bool :=
  match snd turn with LStop => false | _ => true end.

(** A session stopped and a second one started while the last message of
    the first is on its way. *)
Definition restartedEarly : list (Env * Label) :=
  [(sampleEnv 0, LStart "s1" sampleConfig);
   (sampleEnv 40, LStop);
   (sampleEnv 45, LStart "s2" sampleConfig)].

(** What the page does next: a click, a mutation and its timer, an input
    and its timer, the interval. *)
Definition busyPage : list (Env * Label) :=
  [(sampleEnv 60, LDispatch sampleClick);
   (sampleEnv 70, LMutations [sampleRecord]);
   (sampleEnv 130, LTimer 3);
   (sampleEnv 140, LDispatch sampleInput);
   (sampleEnv 250, LTimer 4);
   (sampleEnv 545, LTimer 2)].

End RaceSpec.

Module DebouncedSpec.
Import Timing Debounced.

Section Args.
Context {A : Type}.

Definition isExpire (turn : Turn A) : bool :=
  match turn with Expire _ _ => true | Call _ _ => false end.

(** The arguments of the calls of the debounced function, in order. *)
Definition argsOf (turns : list (Turn A)) : list A :=
  flat_map (fun turn => match turn with
                        | Call _ a => [a]
                        | Expire _ _ => []
                        end) turns.

(** [fn] is called at [time] with [a] for the last call of the debounced
    function, made at least [wait] before. *)
Definition trailing (wait : Z) (turns : list (Turn A)) (entry : Z * A)
  : Prop :=
  exists before c quiet id after,
    turns = app before (Call c (snd entry)
                          :: app quiet (Expire id (fst entry) :: after)) /\
    forallb isExpire quiet = true /\
    (c + wait <= fst entry)%Z.

(** The invariant of [debounce] after [turns]: the timeout of the closure,
    if any, is the only one pending, it holds the arguments of the last
    call and is due [wait] after it; [fn] has been called less often than
    the debounced function. *)
Record Inv (wait : Z) (turns : list (Turn A)) (s : Debounced.t A) : Prop :=
  mkInv {
  inv_timeouts :
    match d_timeoutId (closure s) with
    | None => timeouts s = []
    | Some id =>
        exists before c a quiet,
          timeouts s = [mkTimeout id (c + wait)%Z a] /\
          turns = app before (Call c a :: quiet) /\
          forallb isExpire quiet = true
    end;
  inv_called : Forall (trailing wait turns) (called s);
  inv_count :
    length (called s) + length (timeouts s) <= length (argsOf turns)
}.

(** The items passed to [batch], in order. *)
Definition itemsOf (turns : list (BatchTurn A)) : list A :=
  flat_map (fun turn => match turn with
                        | Add _ item => [item]
                        | Fire _ _ _ => []
                        end) turns.

(** No call of [fn] made in the turn throws. *)
Definition fnReturns (turn : BatchTurn A) : bool :=
  match turn with
  | Add _ _ => true
  | Fire _ _ returns => returns
  end.

(** The invariant of [batchDebounce] as long as [fn] returns: the timeout
    of the closure, if any, is the only one pending; there is one exactly
    when items wait. *)
Record BatchInv (s : Batch A) : Prop := mkBatchInv {
  batch_timeouts :
    match batchTimeoutId s with
    | None => batchTimeouts s = [] /\ items s = []
    | Some id => exists d, batchTimeouts s = [(id, d)] /\ items s <> []
    end;
  batch_nonempty : Forall (fun entry => snd entry <> []) (delivered s)
}.

End Args.
End DebouncedSpec.

Module MarkdownSectionsSpec.
Import Dom Chronicle ChronicleSpec MarkdownExporter MarkdownSections.

(** The event types by the prefix of their name. *)
Definition isUserType (type : EventType) : bool :=
  match type with
  | user_click | user_input | user_scroll | user_navigation
  | user_focus | user_blur => true
  | _ => false
  end.

Definition isMutationKind (type : EventType) : bool :=
  match type with
  | mutation_add | mutation_remove | mutation_attribute | mutation_text => true
  | _ => false
  end.

Definition isErrorType (type : EventType) : bool :=
  match type with error_js | error_console => true | _ => false end.

Definition isNetworkType (type : EventType) : bool :=
  match type with network_xhr | network_fetch => true | _ => false end.

(** The number of events whose type passes a test. *)
Definition countOfType (test : EventType -> bool) (events : list DOMEvent)
  : nat :=
  length (List.filter (fun e => test (DOMEvent.type e)) events).

(** An input event whose value is in square brackets. *)
Definition looksRedacted (e : DOMEvent) : bool :=
  match DOMEvent.type e, DOMEvent.payload e with
  | user_input, PInput payload => isRedacted (InputPayload.value payload)
  | _, _ => false
  end.

(** The event types that give a reproduction step. *)
Definition givesStep (type : EventType) : bool :=
  match type with
  | user_click | user_input | user_navigation
  | mutation_add | mutation_remove => true
  | _ => false
  end.

(** A session, and the events accepted in [pendingWorld] once the timers
    of the batch and of the input have run. *)
Definition sampleSession : Session.t :=
  Session.mk "s1" 1700000000000 None "https://example.org/" "Example" 4.

Definition sampleEvents : list DOMEvent :=
  acceptedOf
    (run (RT := miniRE) (B := plainBrowser)
         [(sampleEnv 80, LTimer 2); (sampleEnv 140, LTimer 3)]
         pendingWorld).

(** The entries of the timeline and the reproduction steps of the sample
    session. *)
Definition sampleEntries : list string :=
  match timelineEntries DEFAULT_OPTIONS sampleSession sampleEvents with
  | Some entries => entries
  | None => []
  end.

Definition sampleSteps : list string :=
  match reproductionSteps sampleSession sampleEvents with
  | Some r => fst r
  | None => []
  end.

End MarkdownSectionsSpec.

Module XPathSpec.
Import Dom SemanticExtractor.

(** A location path of child steps, each a name test with a position:
    [/html[1]/body[1]/div[2]]. *)
Definition Step : Type := string * nat.

Definition renderStep (step : Step) : string :=
  fst step ++ "[" ++ natToString (snd step) ++ "]".

(** The place, among the nodes [cs], of the element that the step
    [tag[index]] selects: the [index]-th of the elements named [tag], the
    name compared without regard to case, as in an HTML document. *)
Fixpoint selectChild (tag : string) (index : nat) (cs : list node)
  : option nat :=
  match cs with
  | [] => None
  | c :: rest =>
      if hasTag tag c then
        match index with
        | 0 => None
        | 1 => Some 0
        | S k => option_map S (selectChild tag k rest)
        end
      else option_map S (selectChild tag index rest)
  end.

(** The node that the steps select below [n], as the path of child
    indices. *)
Fixpoint locateFrom (n : node) (steps : list Step) : option (list nat) :=
  match steps with
  | [] => Some []
  | (tag, index) :: rest =>
      match selectChild tag index (children n) with
      | Some i =>
          match List.nth_error (children n) i with
          | Some c => option_map (cons i) (locateFrom c rest)
          | None => None
          end
      | None => None
      end
  end.

(** The node that an absolute location path selects in the document whose
    element is [doc]. *)
Definition locate (doc : node) (steps : list Step) : option (list nat) :=
  match steps with
  | (tag, 1) :: rest => if hasTag tag doc then locateFrom doc rest else None
  | _ => None
  end.

(** [s.toUpperCase()] on the letters a-z. *)
Fixpoint toUpperCase (s : string) : string :=
  match s with
  | EmptyString => EmptyString
  | String a s' => String (upperChar a) (toUpperCase s')
  end.

(** The tag names of the elements of an HTML document are in upper
    case. *)
Definition upperTags (doc : node) : Prop :=
  Forall (fun n => tagName n = toUpperCase (tagName n)) (descendantsOrSelf doc).

(** The steps from the document element to the node at a path. *)
Fixpoint stepsAlong (n : node) (p : list nat) : list Step :=
  match p with
  | [] => []
  | i :: p' =>
      match List.nth_error (children n) i with
      | Some c =>
          (toLowerCase (tagName c),
           1 + length (List.filter
                         (fun s => String.eqb (tagName s) (tagName c))
                         (List.filter isElement (List.firstn i (children n)))))
          :: stepsAlong c p'
      | None => []
      end
  end.

End XPathSpec.

(* ===================================================================== *)
(** * Properties *)
(* ===================================================================== *)

(** ** Helpers on strings and lines *)

Module JSStringFacts.
Import JSStringSpec.

Lemma fold_left_push_filter {A B : Type} (p : A -> bool) (f : A -> B)
    (l : list A) (acc : list B) :
  fold_left (fun r x => if p x then push r (f x) else r) l acc
  = (acc ++ map f (List.filter p l))%list.
Proof.
  revert acc. induction l as [|x l IH]; intros acc; simpl.
  - now rewrite app_nil_r.
  - rewrite IH. destruct (p x); simpl; [|reflexivity].
    unfold push. now rewrite <- app_assoc.
Qed.

Lemma includes_In (l : list string) (x : string) :
  includes l x = true <-> In x l.
Proof.
  unfold includes. rewrite existsb_exists. split.
  - intros (y & Hy & E). apply String.eqb_eq in E. now subst.
  - intros H. exists x. split; [assumption|apply String.eqb_refl].
Qed.

Lemma filter_none {A : Type} (p : A -> bool) (l : list A) :
  (forall x, In x l -> p x = false) -> List.filter p l = [].
Proof.
  induction l as [|x l IH]; intros H; simpl; [reflexivity|].
  rewrite (H x (or_introl eq_refl)). apply IH. intros y Hy. apply H. now right.
Qed.

Lemma split_nonempty (c : ascii) (s : string) : split c s <> [].
Proof.
  induction s as [|a s IH]; simpl; [discriminate|].
  destruct (Ascii.eqb a c); [discriminate|].
  destruct (split c s); [contradiction|discriminate].
Qed.

Lemma split_noLF (s : string) : Forall (fun l => noLF l = true) (split LF s).
Proof.
  induction s as [|a s IH]; simpl.
  - repeat constructor.
  - destruct (Ascii.eqb a LF) eqn:E.
    + constructor; [reflexivity|assumption].
    + destruct (split LF s) as [|w ws]; [repeat constructor; simpl; now rewrite E|].
      inversion IH; subst. constructor; [simpl; now rewrite E|assumption].
Qed.

Lemma split_noLF_id (s : string) : noLF s = true -> split LF s = [s].
Proof.
  induction s as [|a s IH]; simpl; [reflexivity|].
  intros H. apply andb_prop in H as [Ha Hs].
  apply negb_true_iff in Ha. rewrite Ha, (IH Hs). reflexivity.
Qed.

Lemma split_app_line (l rest : string) :
  noLF l = true -> split LF (l ++ nl ++ rest) = l :: split LF rest.
Proof.
  induction l as [|a l IH]; simpl; intros H.
  - reflexivity.
  - apply andb_prop in H as [Ha Hl]. apply negb_true_iff in Ha.
    rewrite Ha, (IH Hl). reflexivity.
Qed.

(** Splitting undoes joining when no joined line holds a line feed. *)
Lemma split_join (ls : list string) :
  ls <> [] -> Forall (fun l => noLF l = true) ls ->
  split LF (join nl ls) = ls.
Proof.
  induction ls as [|l ls IH]; [contradiction|].
  intros _ H. inversion H as [|? ? Hl Hls]; subst.
  destruct ls as [|l' ls'].
  - simpl. now apply split_noLF_id.
  - unfold join in *. change (String.concat nl (l :: l' :: ls'))
      with (l ++ nl ++ String.concat nl (l' :: ls')).
    rewrite (split_app_line _ _ Hl). f_equal. apply IH; [discriminate|assumption].
Qed.

Lemma startsWith_app (p s : string) : startsWith (p ++ s) p = true.
Proof.
  unfold startsWith. induction p as [|a p IH]; simpl.
  - now destruct s.
  - destruct (ascii_dec a a) as [_|n]; [assumption|contradiction].
Qed.

End JSStringFacts.

(** ** Templates: the line-set difference *)

Module TemplatesFacts.
Import Templates JSStringSpec JSStringFacts.

(** The lines [formatUnifiedDiff] emits, as a filter of each side. *)
Lemma unifiedDiffLines_spec (before after : string) :
  unifiedDiffLines before after =
  app (map (fun l => "- " ++ l)
           (List.filter (fun l => negb (includes (split LF after) l))
                        (split LF before)))
      (map (fun l => "+ " ++ l)
           (List.filter (fun l => negb (includes (split LF before) l))
                        (split LF after))).
Proof.
  unfold unifiedDiffLines.
  rewrite (fold_left_push_filter
             (fun l => negb (includes (split LF after) l))
             (fun l => "- " ++ l)).
  rewrite (fold_left_push_filter
             (fun l => negb (includes (split LF before) l))
             (fun l => "+ " ++ l)).
  reflexivity.
Qed.

Lemma formatUnifiedDiff_same (a : string) : formatUnifiedDiff a a = "".
Proof.
  unfold formatUnifiedDiff. rewrite unifiedDiffLines_spec.
  rewrite filter_none; [reflexivity|].
  intros x Hx. apply negb_false_iff. now apply includes_In.
Qed.

Lemma formatUnifiedDiff_empty_before (b : string) :
  formatUnifiedDiff "" b =
  join nl (app (if includes (split LF b) "" then [] else ["- "])
               (map (fun l => "+ " ++ l)
                    (List.filter (fun l => negb (String.eqb l ""))
                                 (split LF b)))).
Proof.
  unfold formatUnifiedDiff. rewrite unifiedDiffLines_spec. f_equal.
  f_equal.
  - simpl. now destruct (includes (split LF b) "").
  - f_equal. apply List.filter_ext. intros l. simpl. now rewrite orb_false_r.
Qed.

(** C5 (amended): [formatUnifiedDiff a a] is empty for every text [a]; with
    an empty "before" text the result is the [+]-prefixed non-empty lines of
    [b] in their order, preceded by the line ["- "] (the one empty line of
    the "before" side) unless [b] itself has an empty line. *)
Theorem formatUnifiedDiff_same_and_empty_before :
  (forall a, formatUnifiedDiff a a = "") /\
  (forall b,
      formatUnifiedDiff "" b =
      join nl (app (if includes (split LF b) "" then [] else ["- "])
                   (map (fun l => "+ " ++ l)
                        (List.filter (fun l => negb (String.eqb l ""))
                                     (split LF b))))).
Proof.
  split; [exact formatUnifiedDiff_same|exact formatUnifiedDiff_empty_before].
Qed.

(** C5 as stated fails: for the "after" text [x] the result starts with a
    [-]-prefixed line, so it is not the list of [+]-prefixed lines of [x]. *)
Lemma formatUnifiedDiff_empty_before_has_minus_line :
  formatUnifiedDiff "" "x" = "- " ++ nl ++ "+ x" /\
  split LF (formatUnifiedDiff "" "x") <> map (fun l => "+ " ++ l) (split LF "x") /\
  existsb (fun l => startsWith l "-") (split LF (formatUnifiedDiff "" "x")) = true.
Proof.
  repeat split; [discriminate].
Qed.

(** The lines of [formatAddedDiff] are the lines of its argument, each with
    the prefix ["+ "]. *)
Lemma formatAddedDiff_lines (html : string) :
  split LF (formatAddedDiff html) = map (fun l => "+ " ++ l) (split LF html).
Proof.
  unfold formatAddedDiff. apply split_join.
  - intros E. apply map_eq_nil in E. now apply split_nonempty in E.
  - apply List.Forall_map. eapply List.Forall_impl; [|apply split_noLF].
    intros l Hl. simpl. exact Hl.
Qed.

Lemma formatAddedDiff_all_plus (html : string) :
  Forall (fun l => startsWith l "+ " = true) (split LF (formatAddedDiff html)).
Proof.
  rewrite formatAddedDiff_lines. apply List.Forall_map, List.Forall_forall.
  intros l _. apply (startsWith_app "+ ").
Qed.

End TemplatesFacts.

(** ** The exporter: description of a structural addition *)

Module MarkdownExporterFacts.
Import Templates MarkdownExporter JSStringSpec JSStringFacts TemplatesFacts.
Import MarkdownExporterSpec.

(** Without both parent snapshots and with one added fragment, the diff block
    is the fenced [formatAddedDiff] of that fragment. *)
Lemma renderMutationDiff_add_fallback options p frag :
  MutationPayload.addedNodes p = Some [frag] ->
  MutationPayload.parentHTMLBefore p = None ->
  MutationPayload.parentHTMLAfter p = None ->
  renderMutationDiff options p true =
  Some ("```diff" ++ nl
        ++ formatAddedDiff (truncate (DOMFragment.html frag)
                                     (maxDOMFragmentLength options))
        ++ nl ++ "```").
Proof.
  intros Ha Hb _. unfold renderMutationDiff. rewrite Hb, Ha. reflexivity.
Qed.

(** C8 (amended): for a [mutation:add] event with one added fragment, the
    selector [form#contact-form] and no parent snapshot, the description is
    [1 element added to (`form#contact-form`)], the selector standing in
    parentheses, followed by a fenced diff block whose lines all start with
    [+]. *)
Theorem describeEvent_one_element_added options e p frag :
  DOMEvent.type e = mutation_add ->
  DOMEvent.payload e = PMutation p ->
  MutationPayload.addedNodes p = Some [frag] ->
  ElementDescriptor.cssSelector (DOMEvent.target e) = "form#contact-form" ->
  MutationPayload.parentHTMLBefore p = None ->
  MutationPayload.parentHTMLAfter p = None ->
  exists diffLines,
    describeEvent options e =
    Some ("1 element added to (`form#contact-form`)" ++ nl ++ nl
          ++ "```diff" ++ nl ++ diffLines ++ nl ++ "```") /\
    diffLines = formatAddedDiff (truncate (DOMFragment.html frag)
                                          (maxDOMFragmentLength options)) /\
    Forall (fun l => startsWith l "+ " = true) (split LF diffLines).
Proof.
  intros Ht Hp Ha Hs Hb Hf.
  eexists. split; [|split; [reflexivity|apply formatAddedDiff_all_plus]].
  unfold describeEvent. rewrite Ht, Hp, Hs.
  rewrite (renderMutationDiff_add_fallback options p frag Ha Hb Hf).
  rewrite Ha. reflexivity.
Qed.

Lemma describeEvent_one_element_added_witness :
  exists diffLines,
    describeEvent DEFAULT_OPTIONS sampleAddEvent =
    Some ("1 element added to (`form#contact-form`)" ++ nl ++ nl
          ++ "```diff" ++ nl ++ diffLines ++ nl ++ "```") /\
    diffLines = formatAddedDiff (truncate "<div>Saved</div>" 500) /\
    Forall (fun l => startsWith l "+ " = true) (split LF diffLines).
Proof.
  apply (describeEvent_one_element_added DEFAULT_OPTIONS sampleAddEvent
           (MutationPayload.mk ChildList (Some [sampleAddedFragment])
              None None None None None None)
           sampleAddedFragment); reflexivity.
Defined.

(** C8 as stated fails: the description does not begin with
    [1 element added to `form#contact-form`], because an opening parenthesis
    comes before the back quote. *)
Lemma describeEvent_one_element_added_prefix :
  describeEvent DEFAULT_OPTIONS sampleAddEvent =
  Some ("1 element added to (`form#contact-form`)" ++ nl ++ nl
        ++ "```diff" ++ nl ++ "+ <div>Saved</div>" ++ nl ++ "```") /\
  (forall d, describeEvent DEFAULT_OPTIONS sampleAddEvent = Some d ->
             startsWith d "1 element added to `form#contact-form`" = false).
Proof.
  split; [reflexivity|].
  intros d H. vm_compute in H. injection H as <-. reflexivity.
Qed.

End MarkdownExporterFacts.

(** ** The regular expressions *)

Module MiniREFacts.
Import MiniRE MiniRESpec.

(** *** Strings *)

Lemma sapp_nil_r (a : string) : a ++ "" = a.
Proof.
  induction a as [|x a IH]; [reflexivity|].
  change (String x (a ++ "") = String x a). now rewrite IH.
Qed.

Lemma sapp_assoc (a b c : string) : (a ++ b) ++ c = a ++ (b ++ c).
Proof.
  induction a as [|x a IH]; [reflexivity|].
  change (String x ((a ++ b) ++ c) = String x (a ++ b ++ c)). now rewrite IH.
Qed.

Lemma slength_app (a b : string) :
  String.length (a ++ b) = String.length a + String.length b.
Proof. induction a as [|c a IH]; simpl; [reflexivity|now rewrite IH]. Qed.

Lemma sapp_eq_nil (a b : string) : a ++ b = "" -> a = "" /\ b = "".
Proof. destruct a; [now split|discriminate]. Qed.

Lemma lastOf_app prev (a b : string) :
  lastOf prev (a ++ b) = lastOf (lastOf prev a) b.
Proof.
  revert prev. induction a as [|x a IH]; intros prev; [reflexivity|].
  change (lastOf (Some x) (a ++ b) = lastOf (lastOf (Some x) a) b). apply IH.
Qed.

Lemma headOf_app (a b : string) :
  headOf (a ++ b) = match a with
                    | EmptyString => headOf b
                    | String c _ => Some c
                    end.
Proof. now destruct a. Qed.

(** Two ways of cutting a string in two. *)
Lemma sapp_split (x y u v : string) :
  x ++ y = u ++ v ->
  (exists z, u = x ++ z /\ y = z ++ v)
  \/ (exists c z, x = u ++ String c z /\ v = String c z ++ y).
Proof.
  revert u. induction x as [|a x IH]; intros u H.
  - left. exists u. now split.
  - destruct u as [|b u].
    + right. exists a, x. split; [reflexivity|]. exact (eq_sym H).
    + change (String a (x ++ y) = String b (u ++ v)) in H.
      injection H as -> H. destruct (IH u H) as [(z & -> & ->)|(c & z & -> & ->)].
      * left. exists z. now split.
      * right. exists c, z. now split.
Qed.

Lemma allChars_app p (a b : string) :
  allChars p (a ++ b) = allChars p a && allChars p b.
Proof.
  induction a as [|x a IH]; [reflexivity|].
  change (p x && allChars p (a ++ b) = p x && allChars p a && allChars p b).
  now rewrite IH, andb_assoc.
Qed.

Lemma someChar_app p (a b : string) :
  someChar p (a ++ b) = someChar p a || someChar p b.
Proof.
  induction a as [|x a IH]; [reflexivity|].
  change (p x || someChar p (a ++ b) = p x || someChar p a || someChar p b).
  now rewrite IH, orb_assoc.
Qed.

Lemma someChar_nonempty p (m : string) : someChar p m = true -> m <> "".
Proof. now destruct m. Qed.

(** *** The matcher finds what the expression can read *)

Lemma matchRe_Repeat {R : Type} r0 min max prev s
    (k : option ascii -> string -> option R) :
  matchRe (Repeat r0 min max) prev s k
  = repeatLoop (fun p s' k' => matchRe r0 p s' k') min max k
      (S (min + String.length s)) 0 prev s.
Proof. reflexivity. Qed.

Lemma repeatLoop_S {R : Type} body min max
    (k : option ascii -> string -> option R) fuel count prev s :
  repeatLoop body min max k (S fuel) count prev s
  = match
      (if match max with Some m => Nat.ltb count m | None => true end
       then body prev s
              (fun p s' =>
                 if Nat.leb min count
                    && Nat.eqb (String.length s') (String.length s)
                 then None
                 else repeatLoop body min max k fuel (S count) p s')
       else None)
    with
    | Some x => Some x
    | None => if Nat.leb min count then k prev s else None
    end.
Proof. reflexivity. Qed.

Section Sound.
Context {R : Type}.

Lemma repeatLoop_sound r0 min max
    (IH : forall prev s (k : option ascii -> string -> option R) x,
        matchRe r0 prev s k = Some x ->
        exists m s', s = m ++ s' /\ Matches r0 prev m s'
                     /\ k (lastOf prev m) s' = Some x)
    (k : option ascii -> string -> option R) :
  forall fuel count prev s x,
    repeatLoop (fun p s' k' => matchRe r0 p s' k') min max k fuel count prev s
    = Some x ->
    exists m s', s = m ++ s' /\ Iter (Matches r0) min max count prev m s'
                 /\ k (lastOf prev m) s' = Some x.
Proof.
  induction fuel as [|fuel IHf]; intros count prev s x H; [discriminate|].
  rewrite repeatLoop_S in H.
  destruct (if match max with Some m => Nat.ltb count m | None => true end
            then _ else None) as [y|] eqn:More.
  - injection H as ->.
    destruct (match max with Some m => Nat.ltb count m | None => true end)
      eqn:Hmax; [|discriminate].
    apply IH in More. destruct More as (m1 & s1 & -> & M1 & K).
    destruct (Nat.leb min count
              && Nat.eqb (String.length s1) (String.length (m1 ++ s1)))
      eqn:Hstuck; [discriminate|].
    apply IHf in K. destruct K as (m2 & s' & -> & I2 & K).
    exists (m1 ++ m2), s'. split; [now rewrite sapp_assoc|]. split.
    + apply IterStep.
      * destruct max; [now apply Nat.ltb_lt|exact I].
      * exact M1.
      * intros Hmin ->. apply Nat.leb_le in Hmin. rewrite Hmin in Hstuck.
        simpl in Hstuck. now rewrite Nat.eqb_refl in Hstuck.
      * exact I2.
    + now rewrite lastOf_app.
  - destruct (Nat.leb min count) eqn:Hmin; [|discriminate].
    exists "", s. split; [reflexivity|]. split; [|exact H].
    apply IterStop. now apply Nat.leb_le.
Qed.

Lemma matchRe_sound r : forall prev s (k : option ascii -> string -> option R) x,
  matchRe r prev s k = Some x ->
  exists m s', s = m ++ s' /\ Matches r prev m s'
               /\ k (lastOf prev m) s' = Some x.
Proof.
  induction r as [|c| |neg items|r1 IH1 r2 IH2|r1 IH1 r2 IH2|r0 IH0 min max
                 |neg| |]; intros prev s k x H.
  - exists "", s. now repeat split.
  - simpl in H. destruct s as [|a s']; [discriminate|].
    destruct (Ascii.eqb (upperChar a) (upperChar c)) eqn:E; [|discriminate].
    exists (String a ""), s'. repeat split; [|exact H]. now exists a.
  - simpl in H. destruct s as [|a s']; [discriminate|].
    destruct (isLineTerminator a) eqn:E; [discriminate|].
    exists (String a ""), s'. repeat split; [|exact H]. now exists a.
  - simpl in H. destruct s as [|a s']; [discriminate|].
    destruct (xorb neg (classHas items a)) eqn:E; [|discriminate].
    exists (String a ""), s'. repeat split; [|exact H]. now exists a.
  - simpl in H. apply IH1 in H. destruct H as (m1 & s1 & -> & M1 & H).
    apply IH2 in H. destruct H as (m2 & s' & -> & M2 & H).
    exists (m1 ++ m2), s'. split; [now rewrite sapp_assoc|]. split.
    + exists m1, m2. now repeat split.
    + now rewrite lastOf_app.
  - simpl in H. destruct (matchRe r1 prev s k) as [y|] eqn:E.
    + injection H as ->. apply IH1 in E. destruct E as (m & s' & -> & M & K).
      exists m, s'. repeat split; [now left|exact K].
    + apply IH2 in H. destruct H as (m & s' & -> & M & K).
      exists m, s'. repeat split; [now right|exact K].
  - rewrite matchRe_Repeat in H.
    apply (repeatLoop_sound r0 min max IH0) in H.
    destruct H as (m & s' & -> & I & K). exists m, s'. now repeat split.
  - simpl in H.
    destruct (xorb neg (xorb (optWord prev) (optWord (headOf s)))) eqn:E;
      [|discriminate].
    exists "", s. now repeat split.
  - simpl in H. destruct prev; [discriminate|]. exists "", s. now repeat split.
  - simpl in H. destruct s; [|discriminate]. exists "", "". now repeat split.
Qed.

Lemma repeatLoop_complete r0 min max
    (IH : forall prev m rest (k : option ascii -> string -> option R),
        Matches r0 prev m rest -> k (lastOf prev m) rest <> None ->
        matchRe r0 prev (m ++ rest) k <> None)
    (k : option ascii -> string -> option R) count prev m rest :
  Iter (Matches r0) min max count prev m rest ->
  k (lastOf prev m) rest <> None ->
  forall fuel,
    (min - count) + String.length (m ++ rest) < fuel ->
    repeatLoop (fun p s' k' => matchRe r0 p s' k') min max k fuel count prev
      (m ++ rest) <> None.
Proof.
  induction 1 as [count prev rest Hmin
                 |count prev m1 m2 rest Hmax M1 Hne I2 IHI];
    intros K fuel Hfuel; (destruct fuel as [|fuel]; [lia|]);
    rewrite repeatLoop_S.
  - destruct (if match max with Some m => Nat.ltb count m | None => true end
              then _ else None); [discriminate|].
    apply Nat.leb_le in Hmin. rewrite Hmin. exact K.
  - assert (Hm : match max with Some m => Nat.ltb count m | None => true end
                 = true)
      by (destruct max; [now apply Nat.ltb_lt|reflexivity]).
    rewrite Hm.
    match goal with
    | |- match ?b with Some _ => _ | None => _ end <> None =>
        assert (Hb : b <> None); [|destruct b; [discriminate|contradiction]]
    end.
    rewrite sapp_assoc. apply IH; [exact M1|].
    rewrite lastOf_app in K.
    assert (Hlen : String.length ((m1 ++ m2) ++ rest)
                   = String.length m1 + String.length (m2 ++ rest))
      by (now rewrite sapp_assoc, slength_app).
    rewrite <- sapp_assoc.
    destruct (Nat.leb_spec min count) as [Hle|Hgt]; simpl.
    + assert (String.length m1 <> 0)
        by (specialize (Hne Hle); destruct m1; [contradiction|discriminate]).
      destruct (Nat.eqb_spec (String.length (m2 ++ rest))
                  (String.length ((m1 ++ m2) ++ rest))) as [E|_]; [lia|].
      apply IHI; [exact K|]. lia.
    + apply IHI; [exact K|]. lia.
Qed.

Lemma matchRe_complete r :
  forall prev m rest (k : option ascii -> string -> option R),
    Matches r prev m rest -> k (lastOf prev m) rest <> None ->
    matchRe r prev (m ++ rest) k <> None.
Proof.
  induction r as [|c| |neg items|r1 IH1 r2 IH2|r1 IH1 r2 IH2|r0 IH0 min max
                 |neg| |]; intros prev m rest k M K; simpl in M.
  - now subst.
  - destruct M as (a & -> & E). simpl. now rewrite E.
  - destruct M as (a & -> & E). simpl. now rewrite E.
  - destruct M as (a & -> & E). simpl. now rewrite E.
  - destruct M as (m1 & m2 & -> & M1 & M2). rewrite sapp_assoc. simpl.
    apply IH1; [exact M1|]. apply IH2; [exact M2|]. now rewrite <- lastOf_app.
  - simpl. destruct M as [M|M].
    + specialize (IH1 _ _ _ k M K).
      destruct (matchRe r1 prev (m ++ rest) k); [discriminate|contradiction].
    + destruct (matchRe r1 prev (m ++ rest) k); [discriminate|].
      now apply IH2.
  - rewrite matchRe_Repeat.
    apply (repeatLoop_complete r0 min max IH0 k 0 prev m rest M K). lia.
  - destruct M as [-> E]. change ("" ++ rest) with rest. simpl.
    now rewrite E.
  - destruct M as [-> ->]. exact K.
  - destruct M as [-> ->]. exact K.
Qed.

End Sound.

(** *** What the analysis of an expression says of its matches *)

Lemma allAscii_In (c : ascii) : In c allAscii.
Proof.
  unfold allAscii. rewrite <- (ascii_nat_embedding c). apply in_map.
  apply in_seq. pose proof (nat_ascii_bounded c). lia.
Qed.

Lemma atomIn_spec p r c :
  atomIn p r = true -> atomHas r c = true -> p c = true.
Proof.
  unfold atomIn. rewrite forallb_forall. intros H Hc.
  specialize (H c (allAscii_In c)). now rewrite Hc in H.
Qed.

Lemma lastOf_nonempty prev prev' (m : string) :
  m <> "" -> lastOf prev m = lastOf prev' m.
Proof. destruct m; [contradiction|reflexivity]. Qed.

Lemma optWord_lastOf prev prev' (m : string) :
  optWord prev = optWord prev' ->
  optWord (lastOf prev m) = optWord (lastOf prev' m).
Proof. destruct m; [trivial|reflexivity]. Qed.

Lemma Matches_readsIn p r : forall prev m rest,
  readsIn p r = true -> Matches r prev m rest -> allChars p m = true.
Proof.
  induction r as [|c| |neg items|r1 IH1 r2 IH2|r1 IH1 r2 IH2|r0 IH0 min max
                 |neg| |]; intros prev m rest Hr M; simpl in M, Hr.
  - now subst.
  - destruct M as (a & -> & E). simpl.
    rewrite (atomIn_spec p (Lit c) a Hr); [reflexivity|exact E].
  - destruct M as (a & -> & E). simpl.
    rewrite (atomIn_spec p AnyChar a Hr); [reflexivity|]. simpl. now rewrite E.
  - destruct M as (a & -> & E). simpl.
    rewrite (atomIn_spec p (Class neg items) a Hr); [reflexivity|exact E].
  - apply andb_prop in Hr as [H1 H2]. destruct M as (m1 & m2 & -> & M1 & M2).
    rewrite allChars_app, (IH1 _ _ _ H1 M1), (IH2 _ _ _ H2 M2). reflexivity.
  - apply andb_prop in Hr as [H1 H2]. destruct M as [M|M]; eauto.
  - induction M as [|count prev m1 m2 rest _ M1 _ _ IHI]; [reflexivity|].
    rewrite allChars_app, (IH0 _ _ _ Hr M1), IHI. reflexivity.
  - now destruct M as [-> _].
  - now destruct M as [-> _].
  - now destruct M as [-> _].
Qed.

Lemma Matches_needs p r : forall prev m rest,
  needs p r = true -> Matches r prev m rest -> someChar p m = true.
Proof.
  induction r as [|c| |neg items|r1 IH1 r2 IH2|r1 IH1 r2 IH2|r0 IH0 min max
                 |neg| |]; intros prev m rest Hr M; simpl in M, Hr;
    try discriminate.
  - destruct M as (a & -> & E). simpl.
    rewrite (atomIn_spec p (Lit c) a Hr); [reflexivity|exact E].
  - destruct M as (a & -> & E). simpl.
    rewrite (atomIn_spec p AnyChar a Hr); [reflexivity|]. simpl. now rewrite E.
  - destruct M as (a & -> & E). simpl.
    rewrite (atomIn_spec p (Class neg items) a Hr); [reflexivity|exact E].
  - destruct M as (m1 & m2 & -> & M1 & M2). rewrite someChar_app.
    apply orb_prop in Hr as [H|H].
    + now rewrite (IH1 _ _ _ H M1).
    + rewrite (IH2 _ _ _ H M2). apply orb_true_r.
  - apply andb_prop in Hr as [H1 H2]. destruct M as [M|M]; eauto.
  - apply andb_prop in Hr as [Hmin H0]. apply Nat.ltb_lt in Hmin.
    inversion M as [? ? ? Hle|count prev' m1 m2 rest' _ M1 _ _]; subst; [lia|].
    rewrite someChar_app, (IH0 _ _ _ H0 M1). reflexivity.
Qed.

Lemma Matches_nonempty r prev m rest :
  needs (fun _ => true) r = true -> Matches r prev m rest -> m <> "".
Proof.
  intros H M. eapply someChar_nonempty, Matches_needs; eassumption.
Qed.

Lemma Iter_nullable (body : option ascii -> string -> string -> Prop)
    min max count prev m rest :
  Iter body min max count prev m rest ->
  m = "" ->
  min <= count \/ exists p r, body p "" r.
Proof.
  induction 1 as [|count prev m1 m2 rest _ M1 _ _ IHI]; intros E;
    [now left|].
  apply sapp_eq_nil in E as [-> ->]. right. eauto.
Qed.

Lemma Matches_nullable r : forall prev rest,
  Matches r prev "" rest -> nullable r = true.
Proof.
  induction r as [|c| |neg items|r1 IH1 r2 IH2|r1 IH1 r2 IH2|r0 IH0 min max
                 |neg| |]; intros prev rest M; simpl in M; try reflexivity.
  - now destruct M as (a & E & _).
  - now destruct M as (a & E & _).
  - now destruct M as (a & E & _).
  - destruct M as (m1 & m2 & E & M1 & M2). symmetry in E.
    apply sapp_eq_nil in E as [-> ->]. simpl.
    now rewrite (IH1 _ _ M1), (IH2 _ _ M2).
  - simpl. destruct M as [M|M].
    + now rewrite (IH1 _ _ M).
    + rewrite (IH2 _ _ M). apply orb_true_r.
  - simpl. destruct (Iter_nullable _ _ _ _ _ _ _ M eq_refl) as [H|(p & r & H)].
    + replace min with 0 by lia. reflexivity.
    + rewrite (IH0 _ _ H). apply orb_true_r.
Qed.

Lemma Matches_firstIn p r : forall prev m rest a,
  firstIn p r = true -> Matches r prev m rest -> headOf m = Some a ->
  p a = true.
Proof.
  induction r as [|c| |neg items|r1 IH1 r2 IH2|r1 IH1 r2 IH2|r0 IH0 min max
                 |neg| |]; intros prev m rest a Hr M Ha; simpl in M, Hr.
  - now subst.
  - destruct M as (b & -> & E). injection Ha as ->.
    exact (atomIn_spec p (Lit c) a Hr E).
  - destruct M as (b & -> & E). injection Ha as ->.
    apply (atomIn_spec p AnyChar a Hr). simpl. now rewrite E.
  - destruct M as (b & -> & E). injection Ha as ->.
    exact (atomIn_spec p (Class neg items) a Hr E).
  - apply andb_prop in Hr as [H1 H2]. destruct M as (m1 & m2 & -> & M1 & M2).
    rewrite headOf_app in Ha. destruct m1 as [|b m1].
    + rewrite (Matches_nullable _ _ _ M1) in H2. simpl in H2. eauto.
    + eapply IH1; [exact H1|exact M1|exact Ha].
  - apply andb_prop in Hr as [H1 H2]. destruct M as [M|M]; eauto.
  - induction M as [|count prev m1 m2 rest _ M1 _ _ IHI]; [discriminate|].
    rewrite headOf_app in Ha. destruct m1 as [|b m1]; [now apply IHI|].
    eapply IH0; [exact Hr|exact M1|exact Ha].
  - now destruct M as [-> _].
  - now destruct M as [-> _].
  - now destruct M as [-> _].
Qed.

Lemma Matches_lastIn p r : forall prev m rest a,
  lastIn p r = true -> Matches r prev m rest -> lastOf None m = Some a ->
  p a = true.
Proof.
  induction r as [|c| |neg items|r1 IH1 r2 IH2|r1 IH1 r2 IH2|r0 IH0 min max
                 |neg| |]; intros prev m rest a Hr M Ha; simpl in M, Hr.
  - now subst.
  - destruct M as (b & -> & E). injection Ha as ->.
    exact (atomIn_spec p (Lit c) a Hr E).
  - destruct M as (b & -> & E). injection Ha as ->.
    apply (atomIn_spec p AnyChar a Hr). simpl. now rewrite E.
  - destruct M as (b & -> & E). injection Ha as ->.
    exact (atomIn_spec p (Class neg items) a Hr E).
  - apply andb_prop in Hr as [H2 H1]. destruct M as (m1 & m2 & -> & M1 & M2).
    rewrite lastOf_app in Ha. destruct m2 as [|b m2].
    + rewrite (Matches_nullable _ _ _ M2) in H1. simpl in H1, Ha. eauto.
    + eapply IH2; [exact H2|exact M2|exact Ha].
  - apply andb_prop in Hr as [H1 H2]. destruct M as [M|M]; eauto.
  - induction M as [|count prev m1 m2 rest _ M1 _ _ IHI]; [discriminate|].
    rewrite lastOf_app in Ha. destruct m2 as [|b m2].
    + simpl in Ha. eapply IH0; [exact Hr|exact M1|exact Ha].
    + apply IHI. exact Ha.
  - now destruct M as [-> _].
  - now destruct M as [-> _].
  - now destruct M as [-> _].
Qed.

Lemma Matches_leadB r : forall prev m rest,
  leadB r = true -> Matches r prev m rest ->
  xorb (optWord prev) (optWord (headOf (m ++ rest))) = true.
Proof.
  induction r as [|c| |neg items|r1 IH1 r2 IH2|r1 IH1 r2 IH2|r0 IH0 min max
                 |neg| |]; intros prev m rest Hr M; simpl in M, Hr;
    try discriminate.
  - destruct M as (m1 & m2 & -> & M1 & M2). rewrite sapp_assoc.
    apply orb_prop in Hr as [H|H]; [now apply IH1|].
    destruct r1; try discriminate. simpl in M1. subst m1.
    exact (IH2 prev m2 rest H M2).
  - destruct neg; [discriminate|]. now destruct M as [-> E].
Qed.

Lemma Matches_trailB r : forall prev m rest,
  trailB r = true -> Matches r prev m rest ->
  xorb (optWord (lastOf prev m)) (optWord (headOf rest)) = true.
Proof.
  induction r as [|c| |neg items|r1 IH1 r2 IH2|r1 IH1 r2 IH2|r0 IH0 min max
                 |neg| |]; intros prev m rest Hr M; simpl in M, Hr;
    try discriminate.
  - destruct M as (m1 & m2 & -> & M1 & M2). rewrite lastOf_app.
    apply orb_prop in Hr as [H|H]; [now apply IH2|].
    destruct r2; try discriminate. simpl in M2. subst m2.
    exact (IH1 prev m1 rest H M1).
  - destruct neg; [discriminate|]. now destruct M as [-> E].
Qed.

(** A match of an expression between two [\b] whose matches start and end
    with a word character has no word character next to it. *)
Lemma wordEdged_start r prev m rest :
  wordEdged r = true -> Matches r prev m rest -> m <> "" ->
  optWord prev = false /\ optWord (headOf m) = true.
Proof.
  unfold wordEdged. intros H M Hm.
  apply andb_prop in H as [H H4]. apply andb_prop in H as [H H3].
  apply andb_prop in H as [H1 H2].
  pose proof (Matches_leadB r _ _ _ H1 M) as L.
  destruct m as [|a m]; [contradiction|].
  pose proof (Matches_firstIn _ r _ _ _ a H3 M eq_refl) as F.
  simpl in *. rewrite F in *. split; [|reflexivity].
  now destruct (optWord prev).
Qed.

Lemma lastOf_Some (m : string) : m <> "" -> exists a, lastOf None m = Some a.
Proof.
  destruct m as [|a m]; [contradiction|]. intros _. simpl.
  generalize a. induction m as [|b m IH]; intros c; simpl; eauto.
Qed.

Lemma wordEdged_end r prev m rest :
  wordEdged r = true -> Matches r prev m rest -> m <> "" ->
  optWord (lastOf prev m) = true /\ optWord (headOf rest) = false.
Proof.
  unfold wordEdged. intros H M Hm.
  apply andb_prop in H as [H H4]. apply andb_prop in H as [H H3].
  apply andb_prop in H as [H1 H2].
  pose proof (Matches_trailB r _ _ _ H2 M) as T.
  destruct (lastOf_Some m Hm) as (a & Ha).
  pose proof (Matches_lastIn _ r _ _ _ a H4 M Ha) as L.
  rewrite (lastOf_nonempty prev None m Hm), Ha in *. simpl in *.
  rewrite L in *. split; [reflexivity|].
  now destruct (optWord (headOf rest)).
Qed.

(** *** Matches and their surroundings *)

Lemma Iter_ctx (body : option ascii -> string -> string -> Prop)
    (sensitive : bool) min max
    (IH : forall prev prev' m rest rest',
        (sensitive = true ->
         optWord prev = optWord prev'
         /\ optWord (headOf rest) = optWord (headOf rest')) ->
        body prev m rest -> body prev' m rest')
    count prev m rest :
  Iter body min max count prev m rest ->
  forall prev' rest',
    (sensitive = true ->
     optWord prev = optWord prev'
     /\ optWord (headOf rest) = optWord (headOf rest')) ->
    Iter body min max count prev' m rest'.
Proof.
  induction 1 as [|count prev m1 m2 rest Hmax M1 Hne I2 IHI];
    intros prev' rest' Hc.
  - now apply IterStop.
  - apply IterStep; [exact Hmax| |exact Hne|].
    + apply (IH prev prev' m1 (m2 ++ rest) (m2 ++ rest')); [|exact M1].
      intros Hs. destruct (Hc Hs) as [C1 C2]. split; [exact C1|].
      rewrite !headOf_app. now destruct m2.
    + apply IHI. intros Hs. destruct (Hc Hs) as [C1 C2].
      split; [now apply optWord_lastOf|exact C2].
Qed.

(** A match of an expression without [^] and [$] is a match wherever the
    characters next to it are of the same kind, word characters or not;
    without [\b] and [\B] as well, it is a match anywhere. *)
Lemma Matches_ctx r : forall prev prev' m rest rest',
  anchorFree r = true ->
  (hasBoundary r = true ->
   optWord prev = optWord prev'
   /\ optWord (headOf rest) = optWord (headOf rest')) ->
  Matches r prev m rest -> Matches r prev' m rest'.
Proof.
  induction r as [|c| |neg items|r1 IH1 r2 IH2|r1 IH1 r2 IH2|r0 IH0 min max
                 |neg| |]; intros prev prev' m rest rest' Ha Hc M;
    simpl in M, Ha, Hc; simpl; try exact M; try discriminate.
  - apply andb_prop in Ha as [A1 A2]. destruct M as (m1 & m2 & -> & M1 & M2).
    exists m1, m2. split; [reflexivity|]. split.
    + apply (IH1 prev prev' m1 (m2 ++ rest) (m2 ++ rest') A1); [|exact M1].
      intros Hs. rewrite Hs in Hc. destruct (Hc eq_refl) as [C1 C2].
      split; [exact C1|]. rewrite !headOf_app. now destruct m2.
    + apply (IH2 (lastOf prev m1) (lastOf prev' m1) m2 rest rest' A2);
        [|exact M2].
      intros Hs. rewrite Hs, orb_true_r in Hc.
      destruct (Hc eq_refl) as [C1 C2].
      split; [now apply optWord_lastOf|exact C2].
  - apply andb_prop in Ha as [A1 A2]. destruct M as [M|M].
    + left. apply (IH1 prev prev' m rest rest' A1); [|exact M].
      intros Hs. rewrite Hs in Hc. now apply Hc.
    + right. apply (IH2 prev prev' m rest rest' A2); [|exact M].
      intros Hs. rewrite Hs, orb_true_r in Hc. now apply Hc.
  - apply (Iter_ctx (Matches r0) (hasBoundary r0) min max) with (prev := prev)
                                                               (rest := rest);
      [|exact M|exact Hc].
    intros p p' m' t t' Hs. now apply IH0.
  - destruct M as [-> E]. split; [reflexivity|].
    destruct (Hc eq_refl) as [<- <-]. exact E.
Qed.

(** *** The replacement loop *)

Lemma matchHere_Some r prev s p s' :
  matchHere r prev s = Some (p, s') ->
  exists m, s = m ++ s' /\ Matches r prev m s' /\ p = lastOf prev m.
Proof.
  intros H. apply matchRe_sound in H.
  destruct H as (m & s0 & -> & M & K). injection K as <- <-. eauto.
Qed.

Lemma matchHere_complete r prev m rest :
  Matches r prev m rest -> matchHere r prev (m ++ rest) <> None.
Proof. intros M. apply matchRe_complete; [exact M|discriminate]. Qed.

Lemma expand_plain (s x : string) :
  someChar (Ascii.eqb "$") s = false -> expand s x = s.
Proof.
  induction s as [|c s IH]; [reflexivity|]. simpl. intros H.
  apply orb_false_elim in H as [Hc Hs].
  transitivity (String c (expand s x)); [|now rewrite IH].
  destruct c as [[] [] [] [] [] [] [] []]; try reflexivity; discriminate.
Qed.

Lemma replaceFrom_S fuel r replacement prev s :
  replaceFrom (S fuel) r replacement prev s
  = match matchHere r prev s with
    | Some (p, s') =>
        if Nat.eqb (String.length s - String.length s') 0
        then expand replacement
               (substring0 (String.length s - String.length s') s)
             ++ match s with
                | String a t =>
                    String a (replaceFrom fuel r replacement (Some a) t)
                | EmptyString => EmptyString
                end
        else expand replacement
               (substring0 (String.length s - String.length s') s)
             ++ replaceFrom fuel r replacement p s'
    | None =>
        match s with
        | String a t => String a (replaceFrom fuel r replacement (Some a) t)
        | EmptyString => EmptyString
        end
    end.
Proof. reflexivity. Qed.

Lemma Free_copy r prev a t : Free r prev (String a t) -> Free r (Some a) t.
Proof. intros H x y ->. exact (H (String a x) y eq_refl). Qed.

Lemma Free_skip r prev (m s' : string) :
  Free r prev (m ++ s') -> Free r (lastOf prev m) s'.
Proof.
  intros H x y ->. rewrite <- lastOf_app. apply H. now rewrite sapp_assoc.
Qed.

Lemma Free_here r prev s : Free r prev s -> matchHere r prev s = None.
Proof. intros H. exact (H "" s eq_refl). Qed.

(** Where the expression matches nowhere, the text is left as it is. *)
Lemma replaceFrom_Free r replacement : forall fuel prev s,
  String.length s < fuel -> Free r prev s ->
  replaceFrom fuel r replacement prev s = s.
Proof.
  induction fuel as [|fuel IH]; intros prev s Hf H; [lia|].
  rewrite replaceFrom_S, (Free_here _ _ _ H).
  destruct s as [|a t]; [reflexivity|].
  rewrite IH; [reflexivity|simpl in Hf; lia|]. eapply Free_copy, H.
Qed.

Lemma replaceAll_Free r replacement text :
  Free r None text -> replaceAll text r replacement = text.
Proof. intros H. apply replaceFrom_Free; [lia|exact H]. Qed.

Section Scan.
Variable r' : re.
Variable w : string.
Hypothesis r'_nonempty : needs (fun _ => true) r' = true.
Hypothesis w_plain : someChar (Ascii.eqb "$") w = false.

Lemma expand_bracketed x : expand (bracketed w) x = bracketed w.
Proof.
  apply expand_plain. unfold bracketed. simpl. rewrite someChar_app, w_plain.
  reflexivity.
Qed.

(** One round of the loop: a character is copied where [r'] does not
    match, and a match, which is not empty, gives way to the
    replacement. *)
Lemma replaceFrom_step fuel prev s :
  String.length s < S fuel ->
  (matchHere r' prev s = None
   /\ replaceFrom (S fuel) r' (bracketed w) prev s
      = match s with
        | String a t =>
            String a (replaceFrom fuel r' (bracketed w) (Some a) t)
        | EmptyString => EmptyString
        end)
  \/ (exists m s',
        m <> "" /\ s = m ++ s' /\ Matches r' prev m s'
        /\ replaceFrom (S fuel) r' (bracketed w) prev s
           = bracketed w
             ++ replaceFrom fuel r' (bracketed w) (lastOf prev m) s').
Proof.
  intros Hf. rewrite replaceFrom_S.
  destruct (matchHere r' prev s) as [[p s']|] eqn:E.
  - right. destruct (matchHere_Some _ _ _ _ _ E) as (m & -> & M & ->).
    pose proof (Matches_nonempty _ _ _ _ r'_nonempty M) as Hm.
    exists m, s'. repeat split; try assumption.
    rewrite expand_bracketed, slength_app.
    destruct (Nat.eqb_spec (String.length m + String.length s'
                            - String.length s') 0) as [Hz|_]; [|reflexivity].
    destruct m; [contradiction|simpl in Hz; lia].
  - now left.
Qed.

(** A part of the result without brackets was copied from the text. *)
Lemma replaceFrom_copied : forall m fuel prev s rest,
  String.length s < fuel ->
  replaceFrom fuel r' (bracketed w) prev s = m ++ rest ->
  allChars (fun c => negb (Ascii.eqb c "[") && negb (Ascii.eqb c "]")) m
  = true ->
  exists t,
    s = m ++ t /\ String.length t < fuel - String.length m
    /\ rest = replaceFrom (fuel - String.length m) r' (bracketed w)
                (lastOf prev m) t.
Proof.
  induction m as [|a m IH]; intros fuel prev s rest Hf H Hm.
  - exists s. rewrite Nat.sub_0_r. split; [reflexivity|].
    split; [exact Hf|exact (eq_sym H)].
  - destruct fuel as [|fuel]; [lia|].
    simpl in Hm. apply andb_prop in Hm as [Ha Hm].
    destruct (replaceFrom_step fuel prev s Hf)
      as [(_ & E)|(m0 & s' & _ & _ & _ & E)]; rewrite E in H.
    + destruct s as [|b t]; [discriminate|].
      change (String b (replaceFrom fuel r' (bracketed w) (Some b) t)
              = String a (m ++ rest)) in H. injection H as -> H.
      simpl in Hf. destruct (IH fuel (Some a) t rest) as (t' & -> & Hl & ->);
        [lia|exact H|exact Hm|].
      exists t'. now repeat split.
    + unfold bracketed in H.
      change (String "[" ((w ++ "]") ++ replaceFrom fuel r' (bracketed w)
                                          (lastOf prev m0) s')
              = String a (m ++ rest)) in H.
      injection H as <- _. discriminate.
Qed.

Lemma lastOf_bracketed prev : lastOf prev (bracketed w) = Some "]"%char.
Proof. unfold bracketed. simpl. now rewrite lastOf_app. Qed.

(** A proper end of the replacement is what is left of [w], then the
    closing bracket. *)
Lemma bracketed_suffix (x : string) c z :
  bracketed w = x ++ String c z ->
  exists z0 w0, String c z = z0 ++ "]" /\ String "[" w = w0 ++ z0.
Proof.
  unfold bracketed. intros H.
  change (String "[" w ++ "]" = x ++ String c z) in H.
  apply sapp_split in H. destruct H as [(y & -> & E)|(d & y & -> & E)].
  - destruct y as [|e y]; [|destruct y; discriminate].
    injection E as <- <-. exists "", (String "[" w).
    split; [reflexivity|now rewrite sapp_nil_r].
  - exists (String d y), x. split; [exact E|reflexivity].
Qed.

Section Apart.
Variable r : re.
Variable p : ascii -> bool.
Hypothesis r_brackets :
  readsIn (fun c => negb (Ascii.eqb c "[") && negb (Ascii.eqb c "]")) r
  = true.
Hypothesis r_needs : needs p r = true.
Hypothesis w_none : someChar p w = false.
Hypothesis open_none : p "["%char = false.
Hypothesis r_anchors : anchorFree r = true.
Hypothesis r_edges :
  hasBoundary r = false \/ (wordEdged r = true /\ wordEdged r' = true).

(** What is known of the text that is read: no match of [r] where a
    character is copied. *)
Variable Q : option ascii -> string -> Prop.
Hypothesis Q_here : forall prev s,
  Q prev s -> matchHere r' prev s = None -> matchHere r prev s = None.
Hypothesis Q_copy : forall prev a t, Q prev (String a t) -> Q (Some a) t.
Hypothesis Q_skip : forall prev (m s' : string),
  Q prev (m ++ s') -> Q (lastOf prev m) s'.

Lemma r_nonempty prev m rest : Matches r prev m rest -> m <> "".
Proof.
  intros M. eapply someChar_nonempty, Matches_needs; eassumption.
Qed.

(** No match of [r] starts inside a replacement. *)
Lemma inside_bracketed prev (x : string) c z out :
  bracketed w = x ++ String c z ->
  matchHere r prev (String c z ++ out) = None.
Proof.
  intros H. destruct (matchHere r prev (String c z ++ out)) as [[q s']|] eqn:E;
    [exfalso|reflexivity].
  destruct (matchHere_Some _ _ _ _ _ E) as (m & Hs & M & _).
  pose proof (Matches_readsIn _ _ _ _ _ r_brackets M) as Hb.
  pose proof (Matches_needs _ _ _ _ _ r_needs M) as Hn.
  destruct (bracketed_suffix x c z H) as (z0 & w0 & Hz & Hw).
  rewrite Hz, sapp_assoc in Hs. symmetry in Hs. apply sapp_split in Hs.
  assert (W : someChar p (w0 ++ z0) = false)
    by (rewrite <- Hw; simpl; now rewrite open_none, w_none).
  rewrite someChar_app in W. apply orb_false_elim in W as [_ W].
  destruct Hs as [(y & -> & _)|(d & y & -> & E2)].
  - rewrite someChar_app in W. apply orb_false_elim in W as [W _].
    now rewrite W in Hn.
  - change ("]" ++ out) with (String "]" out) in E2. injection E2 as <- _.
    rewrite allChars_app in Hb. apply andb_prop in Hb as [_ Hb].
    simpl in Hb. discriminate.
Qed.

(** No match of [r] starts anywhere in the result, in the replacements or
    in what is copied. *)
Lemma replaceFrom_apart : forall fuel s prev prev',
  String.length s < fuel ->
  Q prev s ->
  (hasBoundary r = true -> prev' = prev \/ optWord (headOf s) = false) ->
  Free r prev' (replaceFrom fuel r' (bracketed w) prev s).
Proof.
  induction fuel as [|fuel IH]; intros s prev prev' Hf HQ Hc; [lia|].
  destruct (replaceFrom_step fuel prev s Hf)
    as [(Hnone & E)|(m0 & s' & Hm0 & -> & M0 & E)]; rewrite E; clear E.
  - (* a character is copied *)
    destruct s as [|a t].
    + intros x y Hxy. symmetry in Hxy. apply sapp_eq_nil in Hxy as [-> ->].
      destruct (matchHere r (lastOf prev' "") "") as [[q s']|] eqn:E;
        [exfalso|reflexivity].
      destruct (matchHere_Some _ _ _ _ _ E) as (m & Hs & M & _).
      symmetry in Hs. apply sapp_eq_nil in Hs as [-> _].
      now apply (r_nonempty _ _ _ M).
    + simpl in Hf. intros x y Hxy. destruct x as [|b x].
      * (* at the character *)
        change ("" ++ y) with y in Hxy. subst y.
        change (lastOf prev' "") with prev'.
        match goal with
        | |- matchHere r prev' ?o = None =>
            destruct (matchHere r prev' o) as [[q s']|] eqn:E;
              [exfalso|reflexivity]
        end.
        destruct (matchHere_Some _ _ _ _ _ E) as (m & Hs & M & _).
        pose proof (r_nonempty _ _ _ M) as Hm.
        pose proof (Matches_readsIn _ _ _ _ _ r_brackets M) as Hb.
        destruct m as [|a' m]; [contradiction|].
        change (String a (replaceFrom fuel r' (bracketed w) (Some a) t)
                = String a' (m ++ s')) in Hs. injection Hs as <- Hs.
        simpl in Hb. apply andb_prop in Hb as [_ Hb].
        destruct (replaceFrom_copied m fuel (Some a) t s') as (u & -> & Hl & Hu);
          [lia|exact Hs|exact Hb|].
        apply (Q_here _ _ HQ) in Hnone.
        apply (matchHere_complete r prev (String a m) u); [|exact Hnone].
        apply (Matches_ctx r prev' prev (String a m) s' u r_anchors);
          [|exact M].
        intros HB. destruct r_edges as [HB'|[Er Er']]; [congruence|].
        destruct (wordEdged_start r _ _ _ Er M Hm) as [_ S2].
        destruct (wordEdged_end r _ _ _ Er M Hm) as [L1 _].
        split.
        -- destruct (Hc HB) as [->|Hw]; [reflexivity|].
           simpl in S2, Hw. congruence.
        -- destruct (fuel - String.length m) as [|f] eqn:Ef; [lia|].
           rewrite Hu.
           destruct (replaceFrom_step f (lastOf (Some a) m) u)
             as [(_ & ->)|(m1 & u' & Hm1 & -> & M1 & _)]; [lia| |].
           ++ now destruct u.
           ++ destruct (wordEdged_start r' _ _ _ Er' M1 Hm1) as [S1 _].
              simpl in L1. congruence.
      * (* further on *)
        change (String a (replaceFrom fuel r' (bracketed w) (Some a) t)
                = String b (x ++ y)) in Hxy. injection Hxy as <- Hxy.
        change (lastOf prev' (String a x)) with (lastOf (Some a) x).
        apply (IH t (Some a) (Some a)); [lia|eapply Q_copy, HQ|now left|].
        exact Hxy.
  - (* a match of [r'] is replaced *)
    rewrite slength_app in Hf.
    assert (Hlen : String.length s' < fuel).
    { destruct m0; [contradiction|simpl in Hf; lia]. }
    assert (F : Free r (Some "]"%char)
                  (replaceFrom fuel r' (bracketed w) (lastOf prev m0) s')).
    { apply IH; [exact Hlen|now apply Q_skip|].
      intros HB. right. destruct r_edges as [HB'|[_ Er']]; [congruence|].
      now destruct (wordEdged_end r' _ _ _ Er' M0 Hm0). }
    intros x y Hxy. symmetry in Hxy. apply sapp_split in Hxy.
    destruct Hxy as [(z & Hz & ->)|(c & z & -> & Hz)].
    + destruct z as [|c z].
      * rewrite sapp_nil_r in Hz. subst x.
        rewrite lastOf_bracketed. exact (F "" _ eq_refl).
      * now apply (inside_bracketed _ x c z).
    + rewrite lastOf_app, lastOf_bracketed.
      exact (F (String c z) y Hz).
Qed.

End Apart.
End Scan.

(** *** Cascades of rules that are apart *)

Lemma apart_spec p r r' w :
  apart p r r' w = true ->
  readsIn (fun c => negb (Ascii.eqb c "[") && negb (Ascii.eqb c "]")) r = true
  /\ needs p r = true
  /\ someChar p w = false /\ p "["%char = false
  /\ anchorFree r = true
  /\ (hasBoundary r = false \/ (wordEdged r = true /\ wordEdged r' = true))
  /\ needs (fun _ => true) r' = true
  /\ someChar (Ascii.eqb "$") w = false.
Proof.
  unfold apart. intros H.
  apply andb_prop in H as [H H8]. apply andb_prop in H as [H H7].
  apply andb_prop in H as [H H6]. apply andb_prop in H as [H H5].
  apply andb_prop in H as [H H3]. apply andb_prop in H as [H1 H2].
  apply negb_true_iff in H3, H8. simpl in H3.
  apply orb_false_elim in H3 as [H4 H3].
  repeat split; try assumption.
  apply orb_prop in H6 as [X|X].
  - left. now apply negb_true_iff.
  - right. now apply andb_prop in X.
Qed.

(** A rule leaves no match of its own expression. *)
Lemma replaceAll_self p r w text :
  apart p r r w = true -> Free r None (replaceAll text r (bracketed w)).
Proof.
  intros H. destruct (apart_spec _ _ _ _ H)
    as (H1 & H2 & H3 & H4 & H5 & H6 & H7 & H8).
  apply (replaceFrom_apart r w H7 H8 r p H1 H2 H3 H4 H5 H6
           (fun _ _ => True)); try (intros; trivial); [lia|now left].
Qed.

(** A rule makes no match of the expression of a rule that it is apart
    from. *)
Lemma replaceAll_keeps p r r' w text :
  apart p r r' w = true ->
  Free r None text -> Free r None (replaceAll text r' (bracketed w)).
Proof.
  intros H F. destruct (apart_spec _ _ _ _ H)
    as (H1 & H2 & H3 & H4 & H5 & H6 & H7 & H8).
  apply (replaceFrom_apart r' w H7 H8 r p H1 H2 H3 H4 H5 H6 (Free r)).
  - intros prev s HF _. now apply Free_here.
  - intros prev a t. apply Free_copy.
  - intros prev m s'. apply Free_skip.
  - lia.
  - exact F.
  - now left.
Qed.

Lemma cascade_keeps a l : forall text,
  forallb (tokenApart a) l = true ->
  Free (tokenRe a) None text -> Free (tokenRe a) None (cascade l text).
Proof.
  induction l as [|b l IH]; intros text H F; [exact F|].
  simpl in H. apply andb_prop in H as [Hb Hl].
  change (cascade (b :: l) text)
    with (cascade l (replaceAll text (tokenRe b) (bracketed (tokenText b)))).
  apply IH; [exact Hl|]. now apply (replaceAll_keeps (tokenNeeds a)).
Qed.

(** After a cascade of rules each of which is apart from itself and from
    the rules after it, no expression of the cascade has a match. *)
Lemma cascade_Free l : forall text,
  settled l = true ->
  Forall (fun a => Free (tokenRe a) None (cascade l text)) l.
Proof.
  induction l as [|a l IH]; intros text H; [constructor|].
  simpl in H. apply andb_prop in H as [Ha Hl].
  apply andb_prop in Ha as [Haa Hal].
  change (cascade (a :: l) text)
    with (cascade l (replaceAll text (tokenRe a) (bracketed (tokenText a)))).
  constructor; [|now apply IH].
  apply cascade_keeps; [exact Hal|].
  now apply (replaceAll_self (tokenNeeds a)).
Qed.

Lemma cascade_of_Free l text :
  Forall (fun a => Free (tokenRe a) None text) l -> cascade l text = text.
Proof.
  induction 1 as [|a l Ha _ IH]; [reflexivity|].
  change (cascade (a :: l) text)
    with (cascade l (replaceAll text (tokenRe a) (bracketed (tokenText a)))).
  now rewrite replaceAll_Free.
Qed.

(** Such a cascade is idempotent. *)
Lemma cascade_idempotent l text :
  settled l = true -> cascade l (cascade l text) = cascade l text.
Proof. intros H. apply cascade_of_Free, cascade_Free, H. Qed.

Lemma builtinTokens_settled : settled builtinTokens = true.
Proof. vm_compute. reflexivity. Qed.

End MiniREFacts.

(** ** The redaction engine *)

Module RedactionEngineFacts.
Import RedactionEngine.
Import RedactionEngineSpec.

Section Generic.
Context {RT : RegExpRuntime}.

(** The selector tests read the tag name, the id and the CSS selector of the
    descriptor, never its label. *)
Lemma matchesSelectorPattern_with_label d l pattern :
  matchesSelectorPattern (ElementDescriptor.with_label d l) pattern
  = matchesSelectorPattern d pattern.
Proof. reflexivity. Qed.

Lemma shouldRedactInputType_with_label rules d l ty :
  shouldRedactInputType rules (ElementDescriptor.with_label d l) ty
  = shouldRedactInputType rules d ty.
Proof.
  induction rules as [|r rs IH]; simpl; [reflexivity|].
  rewrite IH. reflexivity.
Qed.

Lemma getReplacementForInputType_with_label rules d l ty :
  getReplacementForInputType rules (ElementDescriptor.with_label d l) ty
  = getReplacementForInputType rules d ty.
Proof.
  induction rules as [|r rs IH]; simpl; [reflexivity|].
  rewrite IH. reflexivity.
Qed.

(** The rule list after [loadRules] starts with the built-in rules. *)
Lemma loadRules_rules custom :
  rules (loadRules custom)
  = app DEFAULT_REDACTION_RULES
        match custom with Some l => l | None => [] end.
Proof. reflexivity. Qed.

Lemma loadRules_password custom target :
  shouldRedactInputType (rules (loadRules custom)) target "password" = true /\
  getReplacementForInputType (rules (loadRules custom)) target "password"
  = "[PASSWORD]".
Proof. split; reflexivity. Qed.

(** C7: after [loadRules], whatever the custom rules, the enabled built-in
    input-type rule for [password] comes first, and [process] returns, for
    every [user:input] event of input type [password], an event whose
    payload has the value [[PASSWORD]], whatever the value was; the other
    fields of the payload are those of the event.  (The rules of an engine
    are set by [loadRules] only: [toggleRule] and [addRule] have no
    caller.) *)
Theorem process_password_value custom (e : DOMEvent) (ip : InputPayload) :
  DOMEvent.type e = user_input ->
  DOMEvent.payload e = PInput ip ->
  InputPayload.inputType ip = "password" ->
  exists e' ip',
    process (loadRules custom) e = Some e' /\
    DOMEvent.payload e' = PInput ip' /\
    InputPayload.value ip' = "[PASSWORD]" /\
    InputPayload.inputType ip' = "password" /\
    InputPayload.selectionStart ip' = InputPayload.selectionStart ip /\
    InputPayload.selectionEnd ip' = InputPayload.selectionEnd ip.
Proof.
  intros Ht Hp Hi. unfold process. rewrite Ht, Hp, Hi.
  destruct (loadRules_password custom (DOMEvent.target e)) as [-> ->].
  set (r := match ElementDescriptor.label (DOMEvent.target e) with
            | Some l => _ | None => _ end).
  exists (match DOMEvent.domSnapshot
                  (DOMEvent.with_payload r
                     (PInput (InputPayload.with_value ip "[PASSWORD]"))) with
          | Some snapshot =>
              DOMEvent.with_domSnapshot
                (DOMEvent.with_payload r
                   (PInput (InputPayload.with_value ip "[PASSWORD]")))
                (Some (DOMFragment.mk
                         (redactText (loadRules custom)
                            (DOMFragment.html snapshot))
                         (redactText (loadRules custom)
                            (DOMFragment.text snapshot))
                         (redactAttributes (loadRules custom)
                            (DOMFragment.attributes snapshot))))
          | None =>
              DOMEvent.with_payload r
                (PInput (InputPayload.with_value ip "[PASSWORD]"))
          end),
         (InputPayload.with_value ip "[PASSWORD]").
  destruct (DOMEvent.domSnapshot
              (DOMEvent.with_payload r
                 (PInput (InputPayload.with_value ip "[PASSWORD]"))));
    repeat split; try reflexivity; exact Hi.
Qed.

(** *** Idempotence of [process], relative to the cascade *)

Lemma redactAttributes_stable this attrs :
  Forall (fun kv => stableText this (snd kv)) attrs ->
  redactAttributes this (redactAttributes this attrs)
  = redactAttributes this attrs.
Proof.
  induction 1 as [|[k v] attrs Hkv _ IH]; [reflexivity|].
  simpl in *. rewrite IH. f_equal.
  destruct (attributeRuleFor (rules this) k) eqn:E; simpl; rewrite E.
  - reflexivity.
  - now rewrite Hkv.
Qed.

Lemma redactLabel_stable this d :
  (forall l, ElementDescriptor.label d = Some l -> stableText this l) ->
  redactLabel this (redactLabel this d) = redactLabel this d.
Proof.
  intros H. unfold redactLabel.
  destruct (ElementDescriptor.label d) as [l|] eqn:El; [|now rewrite El].
  destruct (truthy l) eqn:Tl; [|now rewrite El, Tl].
  simpl. destruct (truthy (redactText this l)); [|reflexivity].
  unfold ElementDescriptor.with_label; simpl. now rewrite (H l eq_refl).
Qed.

Lemma redactLabel_same_tests this d rules ty :
  shouldRedactInputType rules (redactLabel this d) ty
  = shouldRedactInputType rules d ty /\
  getReplacementForInputType rules (redactLabel this d) ty
  = getReplacementForInputType rules d ty.
Proof.
  unfold redactLabel.
  destruct (ElementDescriptor.label d) as [l|]; [|split; reflexivity].
  destruct (truthy l); [|split; reflexivity].
  split; [apply shouldRedactInputType_with_label
         |apply getReplacementForInputType_with_label].
Qed.

(** [process] written with its three steps named. *)
Lemma process_steps this e :
  process this e =
  match
    match DOMEvent.type e with
    | user_input =>
        match DOMEvent.payload e with
        | PInput ip =>
            Some (PInput
                    (InputPayload.with_value ip
                       (if shouldRedactInputType (rules this)
                             (DOMEvent.target e) (InputPayload.inputType ip)
                        then getReplacementForInputType (rules this)
                               (DOMEvent.target e) (InputPayload.inputType ip)
                        else redactText this (InputPayload.value ip))))
        | _ => None
        end
    | _ => Some (DOMEvent.payload e)
    end
  with
  | Some p =>
      Some (DOMEvent.mk (DOMEvent.id e) (DOMEvent.sessionId e)
              (DOMEvent.timestamp e) (DOMEvent.sequence e) (DOMEvent.type e)
              (redactLabel this (DOMEvent.target e)) p
              (match DOMEvent.domSnapshot e with
               | Some s =>
                   Some (DOMFragment.mk
                           (redactText this (DOMFragment.html s))
                           (redactText this (DOMFragment.text s))
                           (redactAttributes this (DOMFragment.attributes s)))
               | None => None
               end))
  | None => None
  end.
Proof.
  unfold process, redactLabel. destruct e as [i sid ts sq ty tg p snap]; simpl.
  destruct tg as [tn tid cl ro la xp cs br]; simpl.
  destruct ty; simpl;
    try (destruct la as [l|]; [destruct (truthy l)|];
         destruct snap as [s|]; reflexivity).
  destruct p; try reflexivity.
  destruct (shouldRedactInputType _ _ _);
    destruct la as [l|]; try destruct (truthy l);
    destruct snap as [s|]; reflexivity.
Qed.

(** [process] is idempotent on every event on whose texts (the label, the
    input value, the html, text and attribute values of the snapshot) the
    regex cascade is itself idempotent.  Values replaced as a whole by an
    input-type, selector or attribute rule stay as they are. *)
Lemma process_twice_of_stable this (e e1 : DOMEvent) :
  process this e = Some e1 ->
  cascadeStableOn this e ->
  process this e1 = Some e1.
Proof.
  intros H (Hl & Hv & Hs). rewrite process_steps in H.
  rewrite process_steps.
  destruct e as [i sid ts sq ty tg p snap]; simpl in *.
  assert (Hsnap :
    match
      match snap with
      | Some s =>
          Some (DOMFragment.mk (redactText this (DOMFragment.html s))
                  (redactText this (DOMFragment.text s))
                  (redactAttributes this (DOMFragment.attributes s)))
      | None => None
      end
    with
    | Some s =>
        Some (DOMFragment.mk (redactText this (DOMFragment.html s))
                (redactText this (DOMFragment.text s))
                (redactAttributes this (DOMFragment.attributes s)))
    | None => None
    end =
    match snap with
    | Some s =>
        Some (DOMFragment.mk (redactText this (DOMFragment.html s))
                (redactText this (DOMFragment.text s))
                (redactAttributes this (DOMFragment.attributes s)))
    | None => None
    end).
  { destruct snap as [s|]; [|reflexivity].
    destruct (Hs s eq_refl) as (Hh & Ht & Ha). simpl.
    rewrite Hh, Ht, (redactAttributes_stable this _ Ha). reflexivity. }
  pose proof (redactLabel_stable this tg Hl) as Hlab.
  destruct ty; simpl in *;
    try (injection H as <-; simpl; rewrite Hsnap, Hlab; reflexivity).
  destruct p as [| |ip| | | |]; try discriminate.
  injection H as <-. simpl.
  destruct (redactLabel_same_tests this tg (rules this)
              (InputPayload.inputType ip)) as [-> ->].
  rewrite Hsnap, Hlab. do 3 f_equal.
  unfold InputPayload.with_value; simpl. f_equal.
  destruct (shouldRedactInputType (rules this) tg (InputPayload.inputType ip));
    [reflexivity|].
  apply (Hv ip eq_refl).
Qed.

(** Rules that are not enabled regex rules add nothing to the compiled
    expressions and are passed over by the cascade. *)
Lemma compileRules_withoutRegex (l : list RedactionRule) :
  forallb (fun rule =>
             negb (RuleType_eqb (RedactionRule.type rule) RegexRule
                   && RedactionRule.enabled rule)) l = true ->
  compileRules (app DEFAULT_REDACTION_RULES l)
  = compileRules DEFAULT_REDACTION_RULES.
Proof.
  intros H. unfold compileRules. rewrite fold_left_app.
  generalize (compileRules DEFAULT_REDACTION_RULES).
  fold (compileRules DEFAULT_REDACTION_RULES).
  induction l as [|rule l IH]; intros m; [reflexivity|].
  simpl in H. apply andb_prop in H as [Hr Hl].
  apply negb_true_iff in Hr. simpl. rewrite Hr. now apply IH.
Qed.

Lemma redactText_app this (l1 l2 : list RedactionRule) text :
  rules this = app l1 l2 ->
  forallb (fun rule =>
             negb (RuleType_eqb (RedactionRule.type rule) RegexRule
                   && RedactionRule.enabled rule)) l2 = true ->
  redactText this text
  = fold_left
      (fun result rule =>
         if negb (RedactionRule.enabled rule)
            || negb (RuleType_eqb (RedactionRule.type rule) RegexRule)
         then result
         else match compiledRegex this !! RedactionRule.id rule with
              | Some regex =>
                  replace result regex (RedactionRule.replacement rule)
              | None => result
              end)
      l1 text.
Proof.
  intros E H. unfold redactText. rewrite E, fold_left_app. clear E.
  generalize (fold_left
      (fun result rule =>
         if negb (RedactionRule.enabled rule)
            || negb (RuleType_eqb (RedactionRule.type rule) RegexRule)
         then result
         else match compiledRegex this !! RedactionRule.id rule with
              | Some regex =>
                  replace result regex (RedactionRule.replacement rule)
              | None => result
              end)
      l1 text).
  induction l2 as [|rule l IH]; intros result; [reflexivity|].
  simpl in H. apply andb_prop in H as [Hr Hl].
  apply negb_true_iff, andb_false_iff in Hr. simpl.
  destruct Hr as [Hr|Hr]; rewrite Hr; cbn [negb orb];
    rewrite ?orb_true_r; now apply IH.
Qed.

End Generic.

(** *** Evaluation with the executable matcher *)

(** The examples of the specification. *)
Example redactText_email :
  redactText defaultEngine "user@example.com" = "[EMAIL]".
Proof. vm_compute. reflexivity. Qed.

Example process_email_value :
  process defaultEngine (inputEvent "text" "user@example.com")
  = Some (inputEvent "text" "[EMAIL]").
Proof. vm_compute. reflexivity. Qed.

Lemma process_password_value_witness :
  exists e' ip',
    process (loadRules (RT := miniRE) None) (inputEvent "password" "hunter2")
    = Some e' /\
    DOMEvent.payload e' = PInput ip' /\
    InputPayload.value ip' = "[PASSWORD]" /\
    InputPayload.inputType ip' = "password" /\
    InputPayload.selectionStart ip' = None /\
    InputPayload.selectionEnd ip' = None.
Proof.
  apply (process_password_value (RT := miniRE) None
           (inputEvent "password" "hunter2")
           (InputPayload.mk "password" "hunter2" None None)); reflexivity.
Defined.


(** *** The built-in rules *)

Lemma builtin_compiled :
  let m := compileRules (RT := miniRE) DEFAULT_REDACTION_RULES in
  Forall2 (fun id (b : MiniRESpec.Token) =>
             m !! id = Some (MiniRESpec.tokenRe b))
          ["regex-email"; "regex-phone"; "regex-ssn"; "regex-credit-card"]
          MiniRESpec.builtinTokens.
Proof.
  cbv zeta. unfold MiniRESpec.builtinTokens.
  do 4 (constructor; [vm_compute; reflexivity|]). constructor.
Qed.

(** With custom rules none of which is an enabled regex rule, the cascade
    of [redactText] is that of the four built-in rules for e-mail
    addresses, phone numbers, social security numbers and card numbers. *)
Lemma redactText_builtin custom text :
  withoutRegex custom = true ->
  redactText (loadRules (RT := miniRE) custom) text
  = MiniRESpec.cascade MiniRESpec.builtinTokens text.
Proof.
  intros H.
  assert (Hl : forallb
                 (fun rule =>
                    negb (RuleType_eqb (RedactionRule.type rule) RegexRule
                          && RedactionRule.enabled rule))
                 match custom with Some l => l | None => [] end = true)
    by (destruct custom; [exact H|reflexivity]).
  rewrite (redactText_app (loadRules custom) DEFAULT_REDACTION_RULES
             match custom with Some l => l | None => [] end text eq_refl Hl).
  change (compiledRegex (loadRules custom))
    with (compileRules
            (app DEFAULT_REDACTION_RULES
                 match custom with Some l => l | None => [] end)).
  rewrite (compileRules_withoutRegex _ Hl).
  pose proof builtin_compiled as C. cbv zeta in C.
  inversion C as [|? ? ? ? E1 C1]; subst.
  inversion C1 as [|? ? ? ? E2 C2]; subst.
  inversion C2 as [|? ? ? ? E3 C3]; subst.
  inversion C3 as [|? ? ? ? E4 _]; subst.
  clear C C1 C2 C3.
  set (m := compileRules DEFAULT_REDACTION_RULES) in *. clearbody m.
  unfold DEFAULT_REDACTION_RULES.
  cbn [fold_left RedactionRule.enabled RedactionRule.type RedactionRule.id
       RedactionRule.replacement RuleType_eqb negb orb].
  change (@RegExp miniRE) with MiniRE.re in *.
  rewrite E1, E2, E3, E4.
  unfold MiniRESpec.cascade, MiniRESpec.builtinTokens.
  cbn [fold_left MiniRESpec.tokenRe MiniRESpec.tokenText].
  change (MiniRESpec.bracketed "EMAIL") with "[EMAIL]".
  change (MiniRESpec.bracketed "PHONE") with "[PHONE]".
  change (MiniRESpec.bracketed "SSN") with "[SSN]".
  change (MiniRESpec.bracketed "CARD") with "[CARD]".
  reflexivity.
Qed.



End RedactionEngineFacts.

(** ** The semantic extractor *)

Module SemanticExtractorFacts.
Import Dom SemanticExtractor.
Import SemanticExtractorSpec.

Section Generic.
Context {B : Browser}.

(** An element without an id whose ancestors hold no [label], or one whose
    id no [label] refers to, has no associated label. *)
Lemma findAssociatedLabel_none doc element el :
  (id el = EmptyString \/
   querySelector doc ("label[for=" ++ dq ++ id el ++ dq ++ "]") = NotFound) ->
  closest element "label" = None ->
  findAssociatedLabel doc element el = Returned None.
Proof.
  intros Hid Hc. unfold findAssociatedLabel. rewrite Hc.
  destruct Hid as [-> | ->]; [reflexivity|].
  now destruct (truthy (id el)).
Qed.

(** The last source of [getLabel] on an empty text: the test on [text] fails
    and three dots are appended to the empty prefix. *)
Lemma getLabel_ellipsis doc element el :
  getAttribute el "aria-label" = None ->
  getAttribute el "aria-labelledby" = None ->
  getAttribute el "title" = None ->
  getAttribute el "alt" = None ->
  getAttribute el "placeholder" = None ->
  findAssociatedLabel doc element el = Returned None ->
  trim (textContent el) = EmptyString ->
  getLabel doc element el = Returned (Some "...").
Proof.
  intros H1 H2 H3 H4 H5 H6 H7. unfold getLabel. simpl.
  rewrite H1, H2, H3, H4, H5, H6, H7. reflexivity.
Qed.


End Generic.



Example describe_spacer :
  describe (B := plainBrowser) spacerPage (Some spacerRef)
  = Returned (ElementDescriptor.mk "div" None ["spacer"] None (Some "...")
                "/html[1]/body[1]/div[1]" "div.spacer"
                (Some (Rect.mk 0 0 0 0))).
Proof. vm_compute. reflexivity. Qed.

End SemanticExtractorFacts.

(** ** The content script: sequence numbers and redaction of what is
       buffered *)

Module ChronicleFacts.
Import Dom Chronicle.
Import ChronicleSpec.

Section Generic.
Context {RT : RegExpRuntime} {B : Browser}.

Lemma steady_refl w : steady w w.
Proof. split; reflexivity. Qed.

Lemma steady_trans w1 w2 w3 : steady w1 w2 -> steady w2 w3 -> steady w1 w3.
Proof. intros [A1 A2] [B1 B2]. split; congruence. Qed.

Lemma Good_steady w w' : steady w w' -> Good w -> Good w'.
Proof.
  intros [Hs Hh] [G1 G2 G3].
  unfold acceptedOf, redactedOf in *.
  split; unfold acceptedOf, redactedOf; rewrite ?Hh, ?Hs; assumption.
Qed.

Lemma steady_updRuntime f w : steady w (updRuntime f w).
Proof. split; reflexivity. Qed.

Lemma steady_updMutationCapture f w : steady w (updMutationCapture f w).
Proof. split; reflexivity. Qed.

Lemma steady_updCapture owner f w : steady w (updCapture owner f w).
Proof. unfold updCapture. destruct (_ !! _); split; reflexivity. Qed.

Lemma chronicle_updCapture owner f w :
  World.chronicle (updCapture owner f w) = World.chronicle w.
Proof. unfold updCapture. now destruct (_ !! _). Qed.

Lemma history_updCapture owner f w :
  World.history (updCapture owner f w) = World.history w.
Proof. unfold updCapture. now destruct (_ !! _). Qed.

Lemma steady_clearTimer id w : steady w (clearTimer id w).
Proof. split; reflexivity. Qed.

Lemma steady_setTimer cb r w : steady w (snd (setTimer cb r w)).
Proof. split; reflexivity. Qed.

Lemma steady_nextUUID w : steady w (snd (nextUUID w)).
Proof. split; reflexivity. Qed.

Lemma steady_flushBuffer awaited w : steady w (fst (flushBuffer awaited w)).
Proof.
  unfold flushBuffer.
  destruct (DOMChronicle.eventBuffer (World.chronicle w)); split; reflexivity.
Qed.

Lemma steady_finishStop w : steady w (finishStop w).
Proof. split; reflexivity. Qed.

Lemma steady_eventCaptureStop owner w : steady w (eventCaptureStop owner w).
Proof.
  unfold eventCaptureStop. destruct (_ !! _); [|apply steady_refl].
  eapply steady_trans; [apply steady_updRuntime|apply steady_updCapture].
Qed.

Lemma steady_settle i ok w : steady w (settle i ok w).
Proof.
  unfold settle.
  destruct (_ !! _) as [[events awaited]|]; [|apply steady_refl].
  destruct ok, awaited; split; reflexivity.
Qed.

Lemma steady_batchMutations ms w : steady w (batchMutations ms w).
Proof.
  unfold batchMutations.
  destruct (MutationCapture.batchTimeout (World.mutationCapture w));
    split; reflexivity.
Qed.

Lemma steady_eventCaptureStart owner sid n w :
  steady w (eventCaptureStart owner sid n w).
Proof.
  unfold eventCaptureStart. destruct (_ !! _); [|apply steady_refl].
  eapply steady_trans; [apply steady_updCapture|apply steady_updRuntime].
Qed.

(** Pushing the event that carries the current counter, after the
    increment, keeps the numbering. *)
Lemma Good_push_redacted w r :
  Good w ->
  Good (pushEvent (DOMEvent.with_sequence r (sequenceOf w))
          (bumpSequence
             (updHistory
                (fun h => History.set_redacted (push (History.redacted h) r) h)
                w))).
Proof.
  intros [G1 G2 (init & rest & E & L & F)].
  unfold acceptedOf, redactedOf, sequenceOf in *.
  split; unfold acceptedOf, redactedOf, sequenceOf; simpl; unfold push.
  - rewrite map_app, length_app, G1. simpl.
    rewrite Nat.add_1_r, seq_S, map_app. simpl. now rewrite G2.
  - rewrite length_app, G2. simpl. lia.
  - exists init, (app rest [DOMEvent.with_sequence r
                              (DOMChronicle.sequence (World.chronicle w))]).
    split; [now rewrite E, app_assoc|]. split; [assumption|].
    apply Forall2_app; [assumption|]. constructor; [|constructor].
    now destruct r.
Qed.

Lemma Good_handleEventWith stop event w :
  (forall w, Good w -> Good (stop w)) ->
  Good w -> Good (handleEventWith stop event w).
Proof.
  intros Hstop G. unfold handleEventWith.
  destruct (negb _ || _); [assumption|].
  destruct (_ <=? _)%N; [now apply Hstop|].
  destruct (RedactionEngine.process _ event) as [r|]; [|assumption].
  pose proof (Good_push_redacted w r G) as G'.
  match goal with |- Good (if ?c then _ else _) => destruct c end;
    [|exact G'].
  eapply Good_steady; [apply steady_flushBuffer|exact G'].
Qed.

Lemma steady_createEvent env m w : steady w (fst (createEvent env m w)).
Proof.
  unfold createEvent.
  destruct (getMutationType _); [|apply steady_refl].
  destruct (elementOrParent _); [|apply steady_refl].
  destruct (match deref _ with Some _ => _ | None => _ end);
    [apply steady_refl|].
  destruct (nextUUID w) as [uuid w'] eqn:E.
  destruct (SemanticExtractor.describe _ _); simpl;
    (eapply steady_trans; [|apply steady_updMutationCapture]);
    replace w' with (snd (nextUUID w)) by (now rewrite E);
    apply steady_nextUUID.
Qed.

Lemma Good_processBatchWith callback env w :
  (forall e w, Good w -> Good (callback e w)) ->
  Good w -> Good (fst (processBatchWith callback env w)).
Proof.
  intros Hcb G. unfold processBatchWith.
  assert (G0 : Good (fst (updMutationCapture
                            (MutationCapture.set_batchBuffer []) w, true)))
    by (eapply Good_steady; [apply steady_updMutationCapture|exact G]).
  revert G0.
  generalize (updMutationCapture (MutationCapture.set_batchBuffer []) w, true).
  generalize (MutationCapture.batchBuffer (World.mutationCapture w)).
  clear G. intros ms.
  induction ms as [|m ms IH]; intros [w0 b] G0; simpl; [assumption|].
  apply IH. destruct b; [|assumption]. simpl in G0.
  pose proof (Good_steady _ _ (steady_createEvent env m w0) G0) as G1.
  destruct (createEvent env m w0) as [w1 [[ev|]|]]; simpl in *; auto.
Qed.

Lemma Good_mutationCaptureStopWith callback env w :
  (forall e w, Good w -> Good (callback e w)) ->
  Good w -> Good (fst (mutationCaptureStopWith callback env w)).
Proof.
  intros Hcb G. unfold mutationCaptureStopWith.
  destruct (truthyId _) as [id|].
  - pose proof (Good_processBatchWith callback env (clearTimer id w) Hcb
                  (Good_steady _ _ (steady_clearTimer id w) G)) as G1.
    destruct (processBatchWith callback env (clearTimer id w)) as [w1 [|]];
      simpl in *; [|assumption].
    eapply Good_steady; [apply steady_updMutationCapture|exact G1].
  - simpl. eapply Good_steady; [apply steady_updMutationCapture|exact G].
Qed.

Lemma stopWith_eq callback env w :
  stopWith callback env w =
  if DOMChronicle.isRecording (World.chronicle w) then
    let r := mutationCaptureStopWith callback env
               (updChronicle (DOMChronicle.set_isRecording false) w) in
    if snd r then stopRest (fst r) else fst r
  else w.
Proof.
  unfold stopWith, stopRest.
  destruct (DOMChronicle.isRecording (World.chronicle w)); [|reflexivity].
  cbn [negb].
  destruct (mutationCaptureStopWith callback env _) as [w1 [|]]; reflexivity.
Qed.

Lemma steady_stopRest w : steady w (stopRest w).
Proof.
  unfold stopRest.
  set (w2 := match DOMChronicle.eventCapture (World.chronicle w) with
             | Some owner => eventCaptureStop owner w
             | None => w
             end).
  assert (S2 : steady w w2).
  { unfold w2. destruct (DOMChronicle.eventCapture _);
      [apply steady_eventCaptureStop|apply steady_refl]. }
  cbv zeta.
  set (w3 := updChronicle (DOMChronicle.set_eventCapture None) w2).
  assert (S3 : steady w w3)
    by (eapply steady_trans; [exact S2|]; split; reflexivity).
  set (w4 := match truthyId (DOMChronicle.flushInterval (World.chronicle w3)) with
             | Some id =>
                 updChronicle (DOMChronicle.set_flushInterval None)
                              (clearTimer id w3)
             | None => w3
             end).
  assert (S4 : steady w w4).
  { unfold w4. destruct (truthyId _); [|assumption].
    eapply steady_trans; [exact S3|]. split; reflexivity. }
  pose proof (steady_trans _ _ _ S4 (steady_flushBuffer true w4)) as S5.
  destruct (flushBuffer true w4) as [w5 [|]]; simpl in S5; [assumption|].
  eapply steady_trans; [exact S5|apply steady_finishStop].
Qed.

Lemma Good_stopWith callback env w :
  (forall e w, Good w -> Good (callback e w)) ->
  Good w -> Good (stopWith callback env w).
Proof.
  intros Hcb G. rewrite stopWith_eq.
  destruct (DOMChronicle.isRecording (World.chronicle w)); [|assumption].
  assert (G0 : Good (updChronicle (DOMChronicle.set_isRecording false) w))
    by (eapply Good_steady; [|exact G]; split; reflexivity).
  pose proof (Good_mutationCaptureStopWith callback env _ Hcb G0) as G1.
  cbv zeta. destruct (snd _); [|assumption].
  eapply Good_steady; [apply steady_stopRest|assumption].
Qed.

Lemma Good_stop env w : Good w -> Good (stop env w).
Proof.
  apply Good_stopWith. intros e w0. apply Good_handleEventWith. auto.
Qed.

Lemma Good_handleEvent env event w : Good w -> Good (handleEvent env event w).
Proof. apply Good_handleEventWith. intros w0. apply Good_stop. Qed.

Lemma Good_emit owner type target payload env w :
  Good w -> Good (fst (emit owner type target payload env w)).
Proof.
  intros G. unfold emit. destruct (_ !! _); [|assumption].
  destruct (nextUUID w) as [uuid w1] eqn:E.
  assert (G1 : Good w1).
  { replace w1 with (snd (nextUUID w)) by (now rewrite E).
    eapply Good_steady; [apply steady_nextUUID|assumption]. }
  pose proof (Good_steady _ _ (steady_updCapture owner
    (fun cap => EventCapture.set_sequence (EventCapture.sequence cap + 1)%N cap)
    w1) G1) as G2.
  destruct (SemanticExtractor.describe _ _); simpl; [|assumption].
  now apply Good_handleEvent.
Qed.

Lemma Good_handle owner e env w : Good w -> Good (fst (handle owner e env w)).
Proof.
  intros G. unfold handle.
  destruct e as [[t|] ? ? ? ?|[t|]|[t|]|[t|]| | |];
    try assumption; now apply Good_emit.
Qed.

Lemma Good_perform owner timer env effects w :
  Good w -> Good (perform owner timer env effects w).
Proof.
  unfold perform. revert w.
  induction effects as [|eff effects IH]; intros w G; simpl; [assumption|].
  apply IH. destruct eff.
  - eapply Good_steady; [apply steady_clearTimer|assumption].
  - eapply Good_steady; [apply steady_setTimer|assumption].
  - now apply Good_handle.
Qed.

Lemma Good_invokeListener owner e env w :
  Good w -> Good (invokeListener owner e env w).
Proof.
  intros G. unfold invokeListener. destruct (_ !! _) as [cap|]; [|assumption].
  destruct e; try (now apply Good_handle).
  - destruct (Timing.debounced _ _ _ _) as [st effects].
    apply Good_perform.
    eapply Good_steady; [apply steady_updCapture|assumption].
  - destruct (Timing.throttled _ _ _ _ _) as [st effects].
    apply Good_perform.
    eapply Good_steady; [apply steady_updCapture|assumption].
Qed.

Lemma Good_dispatch e env w : Good w -> Good (dispatch e env w).
Proof.
  unfold dispatch. generalize (Runtime.registry (World.runtime w)).
  intros reg. revert w.
  induction reg as [|[[owner ty] cap] reg IH]; intros w G; simpl;
    [assumption|].
  apply IH. destruct (ListenerType_eqb _ _); [|assumption].
  now apply Good_invokeListener.
Qed.

Lemma Good_historyCall type env w : Good w -> Good (historyCall type env w).
Proof.
  unfold historyCall. generalize (Runtime.historyHooks (World.runtime w)).
  intros hooks. revert w.
  induction hooks as [|owner hooks IH]; intros w G; simpl; [assumption|].
  apply IH. unfold emitNavigation. now apply Good_emit.
Qed.

Lemma Good_fireTimer id env w : Good w -> Good (fireTimer id env w).
Proof.
  intros G. unfold fireTimer.
  destruct (List.find _ _) as [timer|]; [|assumption].
  set (w1 := if repeating timer then w else clearTimer id w).
  assert (G1 : Good w1).
  { unfold w1. destruct (repeating timer); [assumption|].
    eapply Good_steady; [apply steady_clearTimer|assumption]. }
  destruct (callback timer) as [|owner e|owner e|].
  - pose proof (Good_processBatchWith (handleEvent env) env w1
                  (fun e w => Good_handleEvent env e w) G1) as G2.
    unfold processBatch.
    destruct (processBatchWith (handleEvent env) env w1) as [w2 [|]];
      simpl in G2; [|assumption].
    eapply Good_steady; [apply steady_updMutationCapture|assumption].
  - pose proof (Good_handle owner e env w1 G1) as G2.
    destruct (handle owner e env w1) as [w2 c]; simpl in G2.
    eapply Good_steady; [apply steady_updCapture|assumption].
  - destruct (_ !! _) as [cap|]; [|assumption].
    simpl. apply Good_handle.
    eapply Good_steady; [apply steady_updCapture|assumption].
  - eapply Good_steady; [apply steady_flushBuffer|assumption].
Qed.

Lemma start_eq sid cfg env w :
  start sid cfg env w =
  if DOMChronicle.isRecording (World.chronicle w) then w
  else captureInitialState env (startPrefix sid cfg w).
Proof.
  unfold start, startPrefix.
  destruct (DOMChronicle.isRecording (World.chronicle w)); [reflexivity|].
  cbv zeta. destruct (setTimer _ _ _). reflexivity.
Qed.

(** The state in which [captureInitialState] runs: a recording session with
    the counter at 0, an empty buffer and an empty history. *)
Lemma startPrefix_fresh sid cfg w :
  let w' := startPrefix sid cfg w in
  (sequenceOf w' = 0%N) /\
  (World.history w' = History.mk [] []) /\
  (DOMChronicle.eventBuffer (World.chronicle w') = []) /\
  (DOMChronicle.sessionId (World.chronicle w') = Some sid) /\
  (DOMChronicle.config (World.chronicle w') = Some cfg) /\
  (DOMChronicle.isRecording (World.chronicle w') = true).
Proof.
  unfold startPrefix, eventCaptureStart, setTimer. cbv zeta.
  destruct (_ !! _); unfold sequenceOf; simpl;
    rewrite ?chronicle_updCapture, ?history_updCapture;
    repeat split; reflexivity.
Qed.

(** [start] opens a session whatever came before: the initial navigation
    event, if any, gets the number 0. *)
Lemma Good_start sid cfg env w : Good w -> Good (start sid cfg env w).
Proof.
  intros G. rewrite start_eq.
  destruct (DOMChronicle.isRecording (World.chronicle w)); [assumption|].
  destruct (startPrefix_fresh sid cfg w) as (Hs & Hh & _ & Hsid & _).
  generalize dependent (startPrefix sid cfg w). intros wd Hs Hh Hsid.
  unfold captureInitialState. rewrite Hsid.
  unfold sequenceOf in Hs.
  destruct (negb (truthy sid)).
  - split; unfold acceptedOf, redactedOf, sequenceOf; rewrite ?Hh, ?Hs;
      [reflexivity|reflexivity|].
    exists [], []. repeat split; [simpl; lia|constructor].
  - split; unfold acceptedOf, redactedOf, sequenceOf; simpl; unfold push;
      rewrite ?Hh, ?Hs; simpl; [reflexivity|reflexivity|].
    eexists [_], []. repeat split; [simpl; lia|constructor].
Qed.

Lemma Good_step env l w : Good w -> Good (step env l w).
Proof.
  intros G. destruct l; simpl.
  - now apply Good_start.
  - now apply Good_stop.
  - destruct (DOMChronicle.config _); [|assumption].
    eapply Good_steady; [|exact G]. split; reflexivity.
  - eapply Good_steady; [apply steady_settle|assumption].
  - destruct (MutationCapture.observer _); [|assumption].
    eapply Good_steady; [apply steady_batchMutations|assumption].
  - now apply Good_fireTimer.
  - now apply Good_dispatch.
  - now apply Good_historyCall.
Qed.

Lemma Good_initial : Good initial.
Proof.
  split; [reflexivity|reflexivity|].
  exists [], []. repeat split; [simpl; lia|constructor].
Qed.

Lemma Good_run turns w : Good w -> Good (run turns w).
Proof.
  unfold run. revert w.
  induction turns as [|[env l] turns IH]; intros w G; simpl; [assumption|].
  apply IH. now apply Good_step.
Qed.

(** C4: in every run of the content script, the events pushed onto the
    outbound buffer since the last [start] carry the sequence numbers
    0, 1, 2, ... in the order in which they were pushed: increasing by one,
    without a gap, from 0. *)
Theorem sequence_numbers_gap_free turns :
  map DOMEvent.sequence (acceptedOf (run turns initial))
  = map N.of_nat (List.seq 0 (length (acceptedOf (run turns initial)))).
Proof. apply good_numbers, Good_run, Good_initial. Qed.

(** What [handleEvent] pushes is the result of [process] with the sequence
    number set; it pushes nothing else. *)
Theorem buffered_events_are_redacted turns :
  exists init rest,
    acceptedOf (run turns initial) = app init rest /\
    length init <= 1 /\
    Forall2 (fun a r => a = DOMEvent.with_sequence r (DOMEvent.sequence a))
            rest (redactedOf (run turns initial)).
Proof. apply good_redacted, Good_run, Good_initial. Qed.

(** ** The content script: what [stop] does *)

(** While no recording is running [handleEvent] returns at its first
    test. *)
Lemma handleEventWith_stopped stop event w :
  DOMChronicle.isRecording (World.chronicle w) = false ->
  handleEventWith stop event w = w.
Proof. intros H. unfold handleEventWith. now rewrite H. Qed.

Lemma quiet_refl w : quiet w w.
Proof. split; reflexivity. Qed.

Lemma quiet_trans w1 w2 w3 : quiet w1 w2 -> quiet w2 w3 -> quiet w1 w3.
Proof. intros [] []. split; congruence. Qed.

Lemma quiet_nextUUID w : quiet w (snd (nextUUID w)).
Proof. split; reflexivity. Qed.

Lemma quiet_updCapture owner f w : quiet w (updCapture owner f w).
Proof. unfold updCapture. destruct (_ !! _); split; reflexivity. Qed.

Lemma quiet_createEvent env m w : quiet w (fst (createEvent env m w)).
Proof.
  unfold createEvent.
  destruct (getMutationType _); [|apply quiet_refl].
  destruct (elementOrParent _); [|apply quiet_refl].
  destruct (match deref _ with Some _ => _ | None => _ end);
    [apply quiet_refl|].
  unfold nextUUID.
  destruct (SemanticExtractor.describe _ _); split; reflexivity.
Qed.

Lemma firstLabel_returns sources :
  Forall (fun source => source tt <> Thrown) sources ->
  SemanticExtractor.firstLabel sources <> Thrown.
Proof.
  induction 1 as [|source sources Hs _ IH]; simpl; [discriminate|].
  destruct (source tt) as [[label|]|]; [|assumption|contradiction].
  destruct (truthy (trim label)); [discriminate|assumption].
Qed.

Lemma describe_returns doc element :
  selectorsAccepted -> SemanticExtractor.describe doc element <> Thrown.
Proof.
  intros Hq. unfold SemanticExtractor.describe.
  destruct element as [r|]; [|discriminate].
  destruct (deref r) as [el|]; [|discriminate].
  destruct (isElement el); [|discriminate].
  assert (H : SemanticExtractor.getLabel doc r el <> Thrown).
  { unfold SemanticExtractor.getLabel. apply firstLabel_returns.
    repeat constructor; try discriminate.
    - destruct (getAttribute el "aria-labelledby") as [l|]; [|discriminate].
      destruct (truthy l); discriminate.
    - unfold SemanticExtractor.findAssociatedLabel.
      destruct (truthy (id el)); [|discriminate].
      specialize (Hq doc ("label[for=" ++ dq ++ id el ++ dq ++ "]")).
      destruct (querySelector doc _); [discriminate|discriminate|contradiction]. }
  destruct (SemanticExtractor.getLabel doc r el); [discriminate|contradiction].
Qed.

Lemma createEvent_returns env m w :
  selectorsAccepted -> snd (createEvent env m w) <> Thrown.
Proof.
  intros Hq. unfold createEvent.
  destruct (getMutationType _); [|discriminate].
  destruct (elementOrParent _) as [target|]; [|discriminate].
  destruct (match deref _ with Some _ => _ | None => _ end); [discriminate|].
  pose proof (describe_returns (document env) (Some target) Hq) as H.
  unfold nextUUID.
  destruct (SemanticExtractor.describe _ _); [discriminate|contradiction].
Qed.

(** The loop of [processBatch] when the callback changes nothing. *)
Lemma processBatch_loop_stopped callback env ms acc :
  (forall e w, DOMChronicle.isRecording (World.chronicle w) = false ->
               callback e w = w) ->
  DOMChronicle.isRecording (World.chronicle (fst acc)) = false ->
  let r :=
    fold_left
      (fun (acc : World.t * bool) mutation =>
         let '(w, completed) := acc in
         if completed then
           match createEvent env mutation w with
           | (w, Returned (Some event)) => (callback event w, true)
           | (w, Returned None) => (w, true)
           | (w, Thrown) => (w, false)
           end
         else (w, false))
      ms acc in
  quiet (fst acc) (fst r) /\
  (selectorsAccepted -> snd acc = true -> snd r = true).
Proof.
  intros Hcb. revert acc.
  induction ms as [|m ms IH]; intros [w b] Hrec; simpl.
  - split; [apply quiet_refl|auto].
  - destruct b.
    + pose proof (quiet_createEvent env m w) as Q.
      pose proof (createEvent_returns env m w) as R.
      destruct (createEvent env m w) as [w1 [[ev|]|]]; simpl in Q, R.
      * assert (H1 : DOMChronicle.isRecording (World.chronicle w1) = false)
          by (now rewrite (quiet_chronicle _ _ Q)).
        rewrite (Hcb ev w1 H1).
        destruct (IH (w1, true) H1) as [Q' R']. simpl in *.
        split; [eapply quiet_trans; eassumption|auto].
      * assert (H1 : DOMChronicle.isRecording (World.chronicle w1) = false)
          by (now rewrite (quiet_chronicle _ _ Q)).
        destruct (IH (w1, true) H1) as [Q' R']. simpl in *.
        split; [eapply quiet_trans; eassumption|auto].
      * assert (H1 : DOMChronicle.isRecording (World.chronicle w1) = false)
          by (now rewrite (quiet_chronicle _ _ Q)).
        destruct (IH (w1, false) H1) as [Q' R']. simpl in *.
        split; [eapply quiet_trans; eassumption|].
        intros Hq _. now destruct (R Hq).
    + destruct (IH (w, false) Hrec) as [Q' R']. simpl in *.
      split; [assumption|discriminate].
Qed.

(** [processBatch] while no recording is running: the batch is emptied, its
    events are built and dropped. *)
Lemma processBatchWith_stopped stopFn env w :
  DOMChronicle.isRecording (World.chronicle w) = false ->
  let r := processBatchWith (handleEventWith stopFn) env w in
  World.chronicle (fst r) = World.chronicle w /\
  World.history (fst r) = World.history w /\
  Runtime.timers (World.runtime (fst r)) = Runtime.timers (World.runtime w) /\
  Runtime.outbox (World.runtime (fst r)) = Runtime.outbox (World.runtime w) /\
  MutationCapture.batchBuffer (World.mutationCapture (fst r)) = [] /\
  MutationCapture.batchTimeout (World.mutationCapture (fst r))
  = MutationCapture.batchTimeout (World.mutationCapture w) /\
  (selectorsAccepted -> snd r = true).
Proof.
  intros Hrec. unfold processBatchWith.
  destruct (processBatch_loop_stopped (handleEventWith stopFn) env
              (MutationCapture.batchBuffer (World.mutationCapture w))
              (updMutationCapture (MutationCapture.set_batchBuffer []) w, true)
              (fun e w => handleEventWith_stopped stopFn e w) Hrec)
    as [[Q1 Q2 Q3 Q4 Q5 Q6 Q7] R].
  cbv zeta. repeat split; try assumption. auto.
Qed.

Lemma withoutTimers_nil timers : withoutTimers [] timers = timers.
Proof.
  unfold withoutTimers. induction timers as [|t ts IH]; [reflexivity|].
  simpl. f_equal. exact IH.
Qed.

Lemma withoutTimers_app ids1 ids2 timers :
  withoutTimers ids2 (withoutTimers ids1 timers)
  = withoutTimers (app ids1 ids2) timers.
Proof.
  unfold withoutTimers. induction timers as [|t ts IH]; simpl; [reflexivity|].
  rewrite existsb_app.
  destruct (existsb (Nat.eqb (tid t)) ids1); simpl; [assumption|].
  destruct (existsb (Nat.eqb (tid t)) ids2); simpl; congruence.
Qed.

Lemma timers_clearTimer id w :
  Runtime.timers (World.runtime (clearTimer id w))
  = withoutTimers [id] (Runtime.timers (World.runtime w)).
Proof.
  unfold clearTimer, withoutTimers. simpl.
  apply List.filter_ext. intros t. now rewrite orb_false_r.
Qed.

(** What [stop] does to a recording session in which no call throws: the
    recording flag is cleared, the batch is emptied, the timer of the batch
    and the interval are cleared and no other timer is touched, the buffer is
    handed whole to [sendMessage], and nothing is pushed or redacted. *)
Lemma stop_recording env w :
  DOMChronicle.isRecording (World.chronicle w) = true ->
  stopReturns env w ->
  let w' := stop env w in
  DOMChronicle.isRecording (World.chronicle w') = false /\
  DOMChronicle.eventBuffer (World.chronicle w') = [] /\
  Runtime.outbox (World.runtime w')
  = app (Runtime.outbox (World.runtime w))
        match DOMChronicle.eventBuffer (World.chronicle w) with
        | [] => []
        | events => [(events, true)]
        end /\
  Runtime.timers (World.runtime w')
  = withoutTimers
      (app (optList (truthyId (MutationCapture.batchTimeout
                                 (World.mutationCapture w))))
           (optList (truthyId (DOMChronicle.flushInterval
                                 (World.chronicle w)))))
      (Runtime.timers (World.runtime w)) /\
  (truthyId (MutationCapture.batchTimeout (World.mutationCapture w)) <> None ->
   MutationCapture.batchBuffer (World.mutationCapture w') = []) /\
  World.history w' = World.history w.
Proof.
  intros Hrec Hc. unfold stop. rewrite stopWith_eq, Hrec. cbv zeta.
  unfold stopReturns in Hc.
  set (w0 := updChronicle (DOMChronicle.set_isRecording false) w) in *.
  assert (H0 : DOMChronicle.isRecording (World.chronicle w0) = false)
    by reflexivity.
  assert (M :
    let r := mutationCaptureStopWith (handleEventWith (fun w => w)) env w0 in
    snd r = true /\
    World.chronicle (fst r) = World.chronicle w0 /\
    World.history (fst r) = World.history w /\
    Runtime.outbox (World.runtime (fst r)) = Runtime.outbox (World.runtime w) /\
    Runtime.timers (World.runtime (fst r))
    = withoutTimers
        (optList (truthyId (MutationCapture.batchTimeout
                              (World.mutationCapture w))))
        (Runtime.timers (World.runtime w)) /\
    (truthyId (MutationCapture.batchTimeout (World.mutationCapture w)) <> None ->
     MutationCapture.batchBuffer (World.mutationCapture (fst r)) = [])).
  { cbv zeta. split; [exact Hc|]. revert Hc.
    unfold mutationCaptureStopWith.
    change (MutationCapture.batchTimeout (World.mutationCapture w0))
      with (MutationCapture.batchTimeout (World.mutationCapture w)).
    destruct (truthyId (MutationCapture.batchTimeout (World.mutationCapture w)))
      as [id|].
    - destruct (processBatchWith_stopped (fun w => w) env (clearTimer id w0))
        as (P1 & P2 & P3 & P4 & P5 & P6 & _); [reflexivity|].
      destruct (processBatchWith _ env (clearTimer id w0)) as [w1 [|]];
        simpl in *; [intros _|discriminate].
      repeat split; try assumption.
      + rewrite P3. exact (timers_clearTimer id w).
      + intros _. exact P5.
    - simpl. intros _. repeat split; try reflexivity.
      + now rewrite withoutTimers_nil.
      + intros H. now destruct H. }
  destruct M as (Mc & M1 & M2 & M3 & M4 & M5).
  destruct (mutationCaptureStopWith _ env w0) as [w1 c]; simpl in *. subst c.
  unfold stopRest.
  set (w2 := match DOMChronicle.eventCapture (World.chronicle w1) with
             | Some owner => eventCaptureStop owner w1
             | None => w1
             end).
  assert (Q2 : quiet w1 w2).
  { unfold w2. destruct (DOMChronicle.eventCapture _); [|apply quiet_refl].
    unfold eventCaptureStop. destruct (_ !! _); [|apply quiet_refl].
    eapply quiet_trans; [|apply quiet_updCapture]. split; reflexivity. }
  destruct Q2 as [Q21 Q22 Q23 Q24 Q25 Q26 Q27].
  cbv zeta.
  set (w3 := updChronicle (DOMChronicle.set_eventCapture None) w2).
  assert (F3 : DOMChronicle.flushInterval (World.chronicle w3)
               = DOMChronicle.flushInterval (World.chronicle w))
    by (unfold w3; simpl; now rewrite Q21, M1).
  assert (B3 : DOMChronicle.eventBuffer (World.chronicle w3)
               = DOMChronicle.eventBuffer (World.chronicle w))
    by (unfold w3; simpl; now rewrite Q21, M1).
  set (w4 := match truthyId (DOMChronicle.flushInterval (World.chronicle w3)) with
             | Some id =>
                 updChronicle (DOMChronicle.set_flushInterval None)
                              (clearTimer id w3)
             | None => w3
             end).
  assert (P4 :
    DOMChronicle.isRecording (World.chronicle w4) = false /\
    DOMChronicle.eventBuffer (World.chronicle w4)
    = DOMChronicle.eventBuffer (World.chronicle w) /\
    Runtime.outbox (World.runtime w4) = Runtime.outbox (World.runtime w) /\
    Runtime.timers (World.runtime w4)
    = withoutTimers
        (app (optList (truthyId (MutationCapture.batchTimeout
                                   (World.mutationCapture w))))
             (optList (truthyId (DOMChronicle.flushInterval
                                   (World.chronicle w)))))
        (Runtime.timers (World.runtime w)) /\
    MutationCapture.batchBuffer (World.mutationCapture w4)
    = MutationCapture.batchBuffer (World.mutationCapture w1) /\
    World.history w4 = World.history w).
  { unfold w4. rewrite F3.
    destruct (truthyId (DOMChronicle.flushInterval (World.chronicle w)))
      as [id|]; simpl.
    - rewrite Q21, M1, Q24, M3, Q22, M2, Q26. repeat split; try reflexivity.
      rewrite <- withoutTimers_app, <- M4, <- Q23.
      apply (timers_clearTimer id w3).
    - rewrite Q21, M1, Q24, M3, Q22, M2, Q26, Q23, M4, app_nil_r.
      repeat split; reflexivity. }
  destruct P4 as (R4 & B4 & O4 & T4 & BB4 & H4).
  unfold flushBuffer. rewrite B4.
  destruct (DOMChronicle.eventBuffer (World.chronicle w)) as [|ev evs]; simpl.
  - repeat split; try assumption.
    + now rewrite app_nil_r.
    + intros H. rewrite BB4. now apply M5.
  - repeat split; try assumption.
    + unfold push. now rewrite O4.
    + intros H. rewrite BB4. now apply M5.
Qed.

(** Where the browser rejects no selector, [stop] is not interrupted. *)
Lemma stopReturns_selectorsAccepted env w :
  selectorsAccepted -> stopReturns env w.
Proof.
  intros Hq. unfold stopReturns, mutationCaptureStopWith.
  destruct (truthyId _) as [id|]; [|reflexivity].
  destruct (processBatchWith_stopped (fun w => w) env
              (clearTimer id (updChronicle (DOMChronicle.set_isRecording false) w)))
    as (_ & _ & _ & _ & _ & _ & P7); [reflexivity|].
  specialize (P7 Hq).
  destruct (processBatchWith _ env _) as [w1 c]; simpl in *. now subst c.
Qed.

(** While no recording is running, what the capture objects emit is
    dropped. *)
Lemma emit_stopped owner type target payload env w :
  DOMChronicle.isRecording (World.chronicle w) = false ->
  World.chronicle (fst (emit owner type target payload env w))
  = World.chronicle w /\
  World.history (fst (emit owner type target payload env w))
  = World.history w.
Proof.
  intros H. unfold emit. destruct (_ !! _); [|split; reflexivity].
  unfold nextUUID.
  set (w1 := updCapture owner _ _).
  assert (C1 : World.chronicle w1 = World.chronicle w)
    by (unfold w1; now rewrite chronicle_updCapture).
  assert (H1 : World.history w1 = World.history w)
    by (unfold w1; now rewrite history_updCapture).
  destruct (SemanticExtractor.describe _ _); simpl; [|now split].
  unfold handleEvent. rewrite handleEventWith_stopped; [now split|].
  now rewrite C1.
Qed.

Lemma handle_stopped owner e env w :
  DOMChronicle.isRecording (World.chronicle w) = false ->
  World.chronicle (fst (handle owner e env w)) = World.chronicle w /\
  World.history (fst (handle owner e env w)) = World.history w.
Proof.
  intros H. unfold handle.
  destruct e as [[t|] ? ? ? ?|[t|]|[t|]|[t|]| | |];
    try (split; reflexivity); now apply emit_stopped.
Qed.

Lemma fireTimer_stopped id env w :
  DOMChronicle.isRecording (World.chronicle w) = false ->
  acceptedOf (fireTimer id env w) = acceptedOf w.
Proof.
  intros H. unfold fireTimer, acceptedOf.
  destruct (List.find _ _) as [timer|]; [|reflexivity].
  set (w1 := if repeating timer then w else clearTimer id w).
  assert (C1 : World.chronicle w1 = World.chronicle w)
    by (unfold w1; now destruct (repeating timer)).
  assert (H1 : World.history w1 = World.history w)
    by (unfold w1; now destruct (repeating timer)).
  assert (R1 : DOMChronicle.isRecording (World.chronicle w1) = false)
    by (now rewrite C1).
  destruct (callback timer) as [|owner e|owner e|].
  - unfold processBatch.
    destruct (processBatchWith_stopped (stop env) env w1 R1)
      as (_ & P2 & _).
    destruct (processBatchWith _ env w1) as [w2 [|]]; simpl in *;
      now rewrite P2, H1.
  - destruct (handle_stopped owner e env w1 R1) as [_ P2].
    destruct (handle owner e env w1) as [w2 c]; simpl in *.
    now rewrite history_updCapture, P2, H1.
  - destruct (_ !! _) as [cap|]; [|now rewrite H1]. simpl.
    set (w2 := updCapture owner _ w1).
    assert (R2 : DOMChronicle.isRecording (World.chronicle w2) = false)
      by (unfold w2; now rewrite chronicle_updCapture).
    destruct (handle_stopped owner e env w2 R2) as [_ P2].
    rewrite P2. unfold w2. rewrite history_updCapture. now rewrite H1.
  - unfold flushBuffer.
    destruct (DOMChronicle.eventBuffer (World.chronicle w1)); simpl;
      now rewrite H1.
Qed.

Lemma In_withoutTimers ids t timers :
  In t timers -> existsb (Nat.eqb (tid t)) ids = false ->
  In t (withoutTimers ids timers).
Proof.
  intros Hin Hid. unfold withoutTimers. apply List.filter_In. split; [assumption|].
  now rewrite Hid.
Qed.

Lemma withoutTimers_gone ids id timers :
  In id ids -> Forall (fun t => tid t <> id) (withoutTimers ids timers).
Proof.
  intros Hin. apply List.Forall_forall. intros t Ht.
  apply List.filter_In in Ht as [_ Ht]. intros E. subst id.
  apply negb_true_iff in Ht.
  assert (existsb (Nat.eqb (tid t)) ids = true); [|congruence].
  apply existsb_exists. exists (tid t). split; [assumption|apply Nat.eqb_refl].
Qed.

(** C3 (amended): when [stop] is called on a recording session in which a
    debounced input emission and a micro-batch are pending (and no call
    throws), then before [stop] reaches its [await] the timer of the
    micro-batch is cleared and the batch is drained by [processBatch], and
    every event that was in the outbound buffer is in the message handed to
    the persistence boundary, the buffer being left empty.  The debounced
    emission is neither cancelled nor made by [stop]: its timer is still
    pending afterwards, and nothing is accepted when it fires. *)
Theorem stop_flushes_buffer_keeps_debounce env w t owner e :
  DOMChronicle.isRecording (World.chronicle w) = true ->
  stopReturns env w ->
  In t (Runtime.timers (World.runtime w)) ->
  callback t = CbDebouncedInput owner e ->
  truthyId (MutationCapture.batchTimeout (World.mutationCapture w))
  <> Some (tid t) ->
  truthyId (DOMChronicle.flushInterval (World.chronicle w)) <> Some (tid t) ->
  let w' := stop env w in
  (forall id,
      truthyId (MutationCapture.batchTimeout (World.mutationCapture w))
      = Some id ->
      MutationCapture.batchBuffer (World.mutationCapture w') = [] /\
      Forall (fun t' => tid t' <> id) (Runtime.timers (World.runtime w'))) /\
  DOMChronicle.eventBuffer (World.chronicle w') = [] /\
  (forall ev,
      In ev (DOMChronicle.eventBuffer (World.chronicle w)) ->
      exists events,
        In (events, true) (Runtime.outbox (World.runtime w')) /\
        In ev events) /\
  In t (Runtime.timers (World.runtime w')) /\
  (forall env', acceptedOf (fireTimer (tid t) env' w') = acceptedOf w').
Proof.
  intros Hrec Hq Hin Hcb Hb Hf.
  destruct (stop_recording env w Hrec Hq) as (S1 & S2 & S3 & S4 & S5 & S6).
  cbv zeta. repeat split.
  - apply S5. congruence.
  - rewrite S4. apply withoutTimers_gone. apply in_or_app. left.
    rewrite H. now left.
  - exact S2.
  - intros ev Hev. rewrite S3.
    destruct (DOMChronicle.eventBuffer (World.chronicle w)) as [|x xs] eqn:E;
      [contradiction|].
    exists (x :: xs). split; [|assumption].
    apply in_or_app. right. now left.
  - rewrite S4. apply In_withoutTimers; [assumption|].
    rewrite existsb_app. apply orb_false_iff. split.
    + destruct (truthyId (MutationCapture.batchTimeout _)) as [id|];
        [|reflexivity].
      simpl. rewrite orb_false_r. apply Nat.eqb_neq. congruence.
    + destruct (truthyId (DOMChronicle.flushInterval _)) as [id|];
        [|reflexivity].
      simpl. rewrite orb_false_r. apply Nat.eqb_neq. congruence.
  - intros env'. now apply fireTimer_stopped.
Qed.

End Generic.

(** ** A sample session *)

(** C1 (the code at a failing input): [start] on a page whose text holds an
    address puts the initial navigation event into the outbound buffer
    without a call of [process]: the buffer holds the event, no result of
    [process] has been recorded, the event carries the page's markup with
    the address in it, which the loaded rules would have replaced, and the
    next tick of the flush interval hands the event on as it is. *)
Theorem initial_event_buffered_without_process :
  exists e html,
    DOMChronicle.eventBuffer (World.chronicle startedWorld) = [e] /\
    DOMEvent.payload e
    = PNavigation
        (NavigationPayload.mk "https://example.org/" pageload (Some html)) /\
    acceptedOf startedWorld = [e] /\
    redactedOf startedWorld = [] /\
    strIncludes html "user@example.com" = true /\
    RedactionEngine.redactText
      (DOMChronicle.redactionEngine (World.chronicle startedWorld)) html
    <> html /\
    Runtime.outbox
      (World.runtime
         (run (B := plainBrowser) [(sampleEnv 1000, LTimer 1)] startedWorld))
    = [([e], false)].
Proof.
  eexists. eexists.
  split; [vm_compute; reflexivity|].
  split; [vm_compute; reflexivity|].
  split; [vm_compute; reflexivity|].
  split; [vm_compute; reflexivity|].
  split; [vm_compute; reflexivity|].
  split; [vm_compute; discriminate|].
  vm_compute; reflexivity.
Qed.

(** C2 (the code at a failing input): the event of a click on an element
    with an inline handler and a script is buffered with a snapshot whose
    markup is the element's [outerHTML] as it is, the script and the handler
    included: no sanitizer has run on it. *)
Theorem click_snapshot_buffered_unsanitized :
  exists e s,
    DOMChronicle.eventBuffer (World.chronicle clickedWorld) !! 1%nat = Some e /\
    DOMEvent.type e = user_click /\
    DOMEvent.domSnapshot e = Some s /\
    DOMFragment.html s = outerHTML (Browser := plainBrowser) widget /\
    strIncludes (DOMFragment.html s) "<script>" = true /\
    strIncludes (DOMFragment.html s) "onclick=" = true /\
    DOMFragment.attributes s = [("onclick", "steal()")] /\
    redactedOf clickedWorld = [DOMEvent.with_sequence e 0%N].
Proof.
  eexists. eexists.
  split; [vm_compute; reflexivity|].
  split; [vm_compute; reflexivity|].
  split; [vm_compute; reflexivity|].
  repeat split; vm_compute; reflexivity.
Qed.

(** C3 (counterexample): a session is stopped while a micro-batch of one
    mutation and a debounced input emission are pending.  Left running, the
    session would have accepted one event for each.  Stopped, it accepts
    neither: once [stop] has returned, and also after the timer of the
    debounced emission has fired, the stream holds the navigation and the
    click events only, while the batch is gone. *)
Lemma stop_drops_pending_batch_and_input :
  let stopped :=
    run (B := plainBrowser)
        [(sampleEnv 40, LStop); (sampleEnv 50, LSettle 0 true)] pendingWorld in
  let later := run (B := plainBrowser) [(sampleEnv 200, LTimer 3)] stopped in
  length (MutationCapture.batchBuffer (World.mutationCapture pendingWorld)) = 1 /\
  MutationCapture.batchTimeout (World.mutationCapture pendingWorld) = Some 2 /\
  In pendingInput (Runtime.timers (World.runtime pendingWorld)) /\
  map DOMEvent.type
      (acceptedOf
         (run (B := plainBrowser)
              [(sampleEnv 80, LTimer 2); (sampleEnv 140, LTimer 3)]
              pendingWorld))
  = [user_navigation; user_click; mutation_add; user_input] /\
  map DOMEvent.type (streamOf stopped) = [user_navigation; user_click] /\
  map DOMEvent.type (streamOf later) = [user_navigation; user_click] /\
  MutationCapture.batchBuffer (World.mutationCapture stopped) = [] /\
  ~ (forall kind, In kind [mutation_add; user_input] ->
                  In kind (map DOMEvent.type (streamOf stopped))).
Proof.
  cbv zeta.
  split; [vm_compute; reflexivity|].
  split; [vm_compute; reflexivity|].
  split; [vm_compute; auto|].
  split; [vm_compute; reflexivity|].
  split; [vm_compute; reflexivity|].
  split; [vm_compute; reflexivity|].
  split; [vm_compute; reflexivity|].
  intros H. specialize (H mutation_add (or_introl eq_refl)).
  vm_compute in H. intuition discriminate.
Qed.

(** The amended statement at the sample session: a batch and a debounced
    input emission are pending when [stop] is called. *)
Lemma stop_flushes_buffer_keeps_debounce_witness :
  let w' := stop (B := plainBrowser) (sampleEnv 40) pendingWorld in
  MutationCapture.batchBuffer (World.mutationCapture w') = [] /\
  DOMChronicle.eventBuffer (World.chronicle w') = [] /\
  In pendingInput (Runtime.timers (World.runtime w')) /\
  acceptedOf (fireTimer (B := plainBrowser) 3 (sampleEnv 200) w')
  = acceptedOf w'.
Proof.
  assert (H1 : DOMChronicle.isRecording (World.chronicle pendingWorld) = true)
    by (vm_compute; reflexivity).
  assert (H2 : stopReturns (B := plainBrowser) (sampleEnv 40) pendingWorld)
    by (vm_compute; reflexivity).
  assert (H3 : In pendingInput (Runtime.timers (World.runtime pendingWorld)))
    by (vm_compute; auto).
  assert (H4 : truthyId (MutationCapture.batchTimeout
                           (World.mutationCapture pendingWorld))
               <> Some (tid pendingInput))
    by (vm_compute; discriminate).
  assert (H5 : truthyId (DOMChronicle.flushInterval
                           (World.chronicle pendingWorld))
               <> Some (tid pendingInput))
    by (vm_compute; discriminate).
  destruct (stop_flushes_buffer_keeps_debounce
              (B := plainBrowser) (sampleEnv 40) pendingWorld pendingInput 0
              sampleInput H1 H2 H3 eq_refl H4 H5)
    as (B1 & B2 & _ & B4 & B5).
  cbv zeta. split; [exact (proj1 (B1 2 eq_refl))|].
  split; [exact B2|]. split; [exact B4|]. exact (B5 (sampleEnv 200)).
Defined.

End ChronicleFacts.

(* --------------------------------------------------------------------- *)
(** ** The throttled scroll handler *)

Module ThrottledScrollFacts.
Import Timing ThrottledScroll.
Import ThrottledScrollSpec.

Section Generic.
Variable wait : Z.

Lemma spacedFrom_snoc prev times x :
  spacedFrom wait prev times ->
  (prev + wait <= x)%Z ->
  Forall (fun t => (t + wait <= x)%Z) times ->
  spacedFrom wait prev (app times [x]).
Proof.
  revert prev. induction times as [|t rest IH]; intros prev Hs Hp Hall; simpl.
  - split; [assumption|exact I].
  - destruct Hs as [Hs1 Hs2]. inversion Hall; subst.
    split; [assumption|]. now apply IH.
Qed.

Lemma spaced_snoc times x :
  spaced wait times ->
  Forall (fun t => (t + wait <= x)%Z) times ->
  spaced wait (app times [x]).
Proof.
  destruct times as [|t rest]; intros Hs Hall; simpl; [exact I|].
  inversion Hall; subst. now apply spacedFrom_snoc.
Qed.

Lemma spacedFrom_spaced prev times :
  spacedFrom wait prev times -> spaced wait times.
Proof. destruct times; simpl; [trivial|]. now intros [_ H]. Qed.

Lemma spacedFrom_lower prev times :
  (0 <= wait)%Z -> spacedFrom wait prev times ->
  Forall (fun t => (prev + wait <= t)%Z) times.
Proof.
  intros Hw. revert prev.
  induction times as [|t rest IH]; intros prev Hs; constructor.
  - apply Hs.
  - destruct Hs as [Hs1 Hs2]. specialize (IH t Hs2).
    eapply List.Forall_impl; [|exact IH]. simpl. lia.
Qed.

(** Of times that are [wait] apart, at most one lies in a window of length
    [wait]. *)
Lemma spaced_window times t :
  spaced wait times ->
  length (List.filter (fun x => (t <=? x)%Z && (x <? t + wait)%Z) times) <= 1.
Proof.
  destruct (Z.le_gt_cases wait 0) as [Hw|Hw].
  - intros _. induction times as [|x rest IH]; simpl; [lia|].
    destruct (Z.leb_spec t x), (Z.ltb_spec x (t + wait)); simpl;
      try lia.
  - induction times as [|x rest IH]; intros Hs; simpl; [lia|].
    simpl in Hs.
    destruct ((t <=? x)%Z && (x <? t + wait)%Z) eqn:E.
    + apply andb_true_iff in E. destruct E as [E1 E2].
      apply Z.leb_le in E1. apply Z.ltb_lt in E2.
      assert (Hl := spacedFrom_lower x rest ltac:(lia) Hs).
      assert (List.filter (fun x0 => (t <=? x0)%Z && (x0 <? t + wait)%Z) rest
              = []) as ->; [|simpl; lia].
      clear -Hl E1 E2 Hw. induction rest as [|y r IH]; simpl; [reflexivity|].
      inversion Hl; subst.
      destruct (Z.leb_spec t y), (Z.ltb_spec y (t + wait)); simpl;
        try lia; now apply IH.
    + apply IH. eapply spacedFrom_spaced, Hs.
Qed.

Lemma emissionsIn_length t s :
  spaced wait (map fst (emitted s)) -> length (emissionsIn wait t s) <= 1.
Proof.
  intros Hs. unfold emissionsIn.
  assert (E : forall l : list (Z * ScrollPayload),
             length (List.filter
                       (fun e => (t <=? fst e)%Z && (fst e <? t + wait)%Z) l)
             = length (List.filter
                         (fun x => (t <=? x)%Z && (x <? t + wait)%Z)
                         (map fst l))).
  { induction l as [|e l IH]; simpl; [reflexivity|].
    destruct ((t <=? fst e)%Z && (fst e <? t + wait)%Z); simpl; now rewrite IH. }
  rewrite E. now apply spaced_window.
Qed.

(** The invariant holds before the first notification, at any time of the
    clock. *)
Lemma Inv_initial now : (0 <= now)%Z -> Inv wait now initial.
Proof. intros H. split; simpl; auto. Qed.

Lemma Inv_later now now' s :
  Inv wait now s -> (now <= now')%Z -> Inv wait now' s.
Proof. intros [H1 H2 H3 H4] Hle. split; auto. lia. Qed.

(** The state after an emission at [now']. *)
Lemma Inv_emit now now' lc tos nxt em payload :
  Inv wait now (mk (mkThrottle lc None) tos nxt em) ->
  (now <= now')%Z -> (lc + wait <= now')%Z ->
  Inv wait now' (mk (mkThrottle now' None) [] nxt (app em [(now', payload)])).
Proof.
  intros [H1 H2 H3 H4] Hle Hw. simpl in *. split; simpl.
  - lia.
  - rewrite map_app. apply spaced_snoc; [assumption|].
    apply List.Forall_map. eapply List.Forall_impl; [|exact H3]. simpl. lia.
  - apply Forall_app. split.
    + eapply List.Forall_impl; [|exact H3]. simpl. lia.
    + constructor; [simpl; lia|constructor].
  - reflexivity.
Qed.

Lemma Inv_notify now env s :
  Inv wait now s -> (now <= dateNow env)%Z ->
  Inv wait (dateNow env) (notify wait env s).
Proof.
  intros HI Hle. destruct s as [[lc tid] tos nxt em].
  unfold notify, throttled. simpl.
  destruct (Z.leb_spec (wait - (dateNow env - lc)) 0) as [Hr|Hr].
  - destruct HI as [H1 H2 H3 H4]. simpl in *.
    assert (HI' : Inv wait now (mk (mkThrottle lc None) [] nxt em))
      by (split; simpl; auto).
    destruct tid as [id|]; simpl.
    + destruct H4 as [e ->]. simpl. rewrite Nat.eqb_refl. simpl.
      eapply Inv_emit; [exact HI'|lia|lia].
    + subst tos. eapply Inv_emit; [exact HI'|lia|lia].
  - destruct tid as [id|]; simpl.
    + now apply Inv_later with now.
    + destruct HI as [H1 H2 H3 H4]. simpl in *. subst tos.
      split; simpl; auto; [lia|].
      exists ScrollEvent. do 2 f_equal. lia.
Qed.

Lemma Inv_expire now id env s :
  Inv wait now s -> (now <= dateNow env)%Z ->
  Inv wait (dateNow env) (expire id env s).
Proof.
  intros HI Hle. destruct s as [[lc tid] tos nxt em].
  unfold expire. simpl.
  destruct (List.find _ tos) as [x|] eqn:F; [|now apply Inv_later with now].
  destruct (Z.leb_spec (due x) (dateNow env)) as [Hd|Hd];
    [|now apply Inv_later with now].
  destruct HI as [H1 H2 H3 H4]. simpl in *.
  destruct tid as [id0|]; [|subst tos; discriminate].
  destruct H4 as [e ->]. simpl in F.
  destruct (Nat.eqb_spec id0 id) as [->|Hne]; [|discriminate].
  injection F as <-. simpl in *. rewrite Nat.eqb_refl. simpl.
  assert (HI' : Inv wait now (mk (mkThrottle lc None) [] nxt em))
    by (split; simpl; auto).
  eapply Inv_emit; [exact HI'|lia|lia].
Qed.

Lemma Inv_step now turn s :
  Inv wait now s -> (now <= dateNow (envOf turn))%Z ->
  Inv wait (dateNow (envOf turn)) (step wait turn s).
Proof.
  destruct turn; simpl; [apply Inv_notify|apply Inv_expire].
Qed.

Lemma last_cons_default (l : list Z) : forall x d,
  List.last (x :: l) d = List.last l x.
Proof.
  induction l as [|a l IH]; intros x d; [reflexivity|].
  change (List.last (x :: a :: l) d) with (List.last (a :: l) d).
  now rewrite (IH a d), (IH a x).
Qed.

Lemma clock_cons from turn turns :
  clock from (turn :: turns) = clock (dateNow (envOf turn)) turns.
Proof. unfold clock. simpl map. apply last_cons_default. Qed.

Lemma Inv_run turns : forall now s,
  Inv wait now s -> chronological now turns = true ->
  Inv wait (clock now turns) (run wait turns s).
Proof.
  induction turns as [|turn rest IH]; intros now s HI Hc; [exact HI|].
  simpl in Hc. apply andb_true_iff in Hc. destruct Hc as [Hc1 Hc2].
  apply Z.leb_le in Hc1. rewrite clock_cons.
  change (run wait (turn :: rest) s) with (run wait rest (step wait turn s)).
  apply IH; [|assumption]. now apply Inv_step with now.
Qed.

(** A notification within the window makes no emission and leaves one
    timeout pending, due when the window closes. *)
Lemma notify_in_window now env s :
  Inv wait now s ->
  (dateNow env < lastCall (closure s) + wait)%Z ->
  emitted (notify wait env s) = emitted s /\
  lastCall (closure (notify wait env s)) = lastCall (closure s) /\
  exists id e,
    t_timeoutId (closure (notify wait env s)) = Some id /\
    timeouts (notify wait env s)
    = [mkTimeout id (lastCall (closure s) + wait)%Z e].
Proof.
  intros [H1 H2 H3 H4] Hw. destruct s as [[lc tid] tos nxt em].
  unfold notify, throttled. simpl in *.
  destruct (Z.leb_spec (wait - (dateNow env - lc)) 0) as [Hr|Hr]; [lia|].
  destruct tid as [id|]; simpl.
  - destruct H4 as [e ->]. repeat split. now exists id, e.
  - subst tos. repeat split. exists nxt, ScrollEvent. split; [reflexivity|].
    simpl. do 2 f_equal. lia.
Qed.

(** While that timeout is pending, further notifications within the window
    change nothing. *)
Lemma notify_pending env s id :
  t_timeoutId (closure s) = Some id ->
  (dateNow env < lastCall (closure s) + wait)%Z ->
  notify wait env s = s.
Proof.
  intros Hp Hw. destruct s as [[lc tid] tos nxt em].
  unfold notify, throttled. simpl in *. subst tid.
  destruct (Z.leb_spec (wait - (dateNow env - lc)) 0) as [Hr|Hr]; [lia|].
  reflexivity.
Qed.

Lemma notifies_pending envs s id :
  t_timeoutId (closure s) = Some id ->
  Forall (fun env => (dateNow env < lastCall (closure s) + wait)%Z) envs ->
  run wait (map Notify envs) s = s.
Proof.
  intros Hp. induction envs as [|env rest IH]; intros Hall; [reflexivity|].
  inversion Hall; subst.
  change (run wait (map Notify (env :: rest)) s)
    with (run wait (map Notify rest) (notify wait env s)).
  rewrite (notify_pending env s id) by assumption. now apply IH.
Qed.

(** The only timeout runs once it is due: one emission, with the position
    of the window at that time. *)
Lemma expire_due id d e fire s :
  timeouts s = [mkTimeout id d e] ->
  (d <= dateNow fire)%Z ->
  emitted (expire id fire s)
  = app (emitted s) [(dateNow fire, handleScroll fire e)].
Proof.
  intros Ht Hd. unfold expire. rewrite Ht. simpl. rewrite Nat.eqb_refl.
  simpl. destruct (Z.leb_spec d (dateNow fire)) as [_|]; [|lia].
  reflexivity.
Qed.

(** C9 (amended): the throttled scroll handler over time, for the turns of
    the event loop taken in the order of the clock.  Any window of length
    [wait] holds at most one emission.  Notifications that arrive within
    [wait] of the last emission make no emission themselves; they leave one
    timeout pending, due at the end of the window, and when that timeout
    runs there is one emission, which carries the position of the window
    read at that time, not a position taken from a notification. *)
Theorem throttled_scroll_is_trailing_edge turns :
  chronological 0 turns = true ->
  let s := run wait turns initial in
  let boundary := (lastCall (closure s) + wait)%Z in
  (forall t, length (emissionsIn wait t s) <= 1) /\
  (forall env envs fire,
      Forall (fun env => (dateNow env < boundary)%Z) (env :: envs) ->
      (boundary <= dateNow fire)%Z ->
      let s' := run wait (map Notify (env :: envs)) s in
      emitted s' = emitted s /\
      exists id e,
        timeouts s' = [mkTimeout id boundary e] /\
        emitted (expire id fire s')
        = app (emitted s)
              [(dateNow fire,
                ScrollPayload.mk (scrollX fire) (scrollY fire))]).
Proof.
  intros Hc. cbv zeta.
  assert (HI := Inv_run turns 0 initial (Inv_initial 0 (Z.le_refl 0)) Hc).
  split.
  - intros t. apply emissionsIn_length, (inv_spaced _ _ _ HI).
  - intros env envs fire Hall Hb.
    inversion Hall as [|? ? Hw Hrest]; subst.
    destruct (notify_in_window _ env _ HI Hw) as (E1 & E2 & id & e & E3 & E4).
    change (run wait (map Notify (env :: envs)) (run wait turns initial))
      with (run wait (map Notify envs)
                (notify wait env (run wait turns initial))).
    rewrite (notifies_pending envs _ id E3) by (now rewrite E2).
    split; [exact E1|]. exists id, e. split; [exact E4|].
    rewrite (expire_due id _ e fire _ E4 Hb), E1. reflexivity.
Qed.

End Generic.

(** The statement at a sample run with the [wait] of the sources: an
    emission at 1000, notifications at 1050 and 1100, the timeout at 1200. *)
Lemma throttled_scroll_is_trailing_edge_witness :
  let s := run LIMITS.SCROLL_THROTTLE_MS [Notify (scrolledTo 1000 10)] initial in
  let s' :=
    run LIMITS.SCROLL_THROTTLE_MS
        (map Notify [scrolledTo 1050 20; scrolledTo 1100 30]) s in
  length (emissionsIn LIMITS.SCROLL_THROTTLE_MS 1000 s) <= 1 /\
  emitted s' = [(1000%Z, ScrollPayload.mk 0 10)] /\
  exists id e,
    timeouts s' = [mkTimeout id 1200 e] /\
    emitted (expire id (scrolledTo 1200 30) s')
    = [(1000%Z, ScrollPayload.mk 0 10); (1200%Z, ScrollPayload.mk 0 30)].
Proof.
  destruct (throttled_scroll_is_trailing_edge
              LIMITS.SCROLL_THROTTLE_MS [Notify (scrolledTo 1000 10)] eq_refl)
    as [A B].
  cbv zeta. split; [exact (A 1000%Z)|].
  assert (W : Forall
                (fun env =>
                   (dateNow env
                    < lastCall
                        (closure
                           (run LIMITS.SCROLL_THROTTLE_MS
                                [Notify (scrolledTo 1000 10)] initial))
                      + LIMITS.SCROLL_THROTTLE_MS)%Z)
                [scrolledTo 1050 20; scrolledTo 1100 30])
    by (repeat constructor; vm_compute; reflexivity).
  assert (D : (lastCall
                 (closure
                    (run LIMITS.SCROLL_THROTTLE_MS
                         [Notify (scrolledTo 1000 10)] initial))
               + LIMITS.SCROLL_THROTTLE_MS
               <= dateNow (scrolledTo 1200 30))%Z)
    by (vm_compute; discriminate).
  destruct (B (scrolledTo 1050 20) [scrolledTo 1100 30] (scrolledTo 1200 30)
              W D)
    as (E & id & e & T & F).
  split; [exact E|]. exists id, e. split; [exact T|exact F].
Defined.

(** C9 as stated fails: after an emission at 1000 with the window at 10,
    notifications arrive at 1050 and 1100 with the window at 20 and 30; the
    window is at 40 when the timeout runs at 1200, and the deferred
    emission carries 40, a position that no notification of the window
    saw, not 30, the latest that one saw. *)
Lemma throttled_scroll_position_read_at_expiry :
  let s := run LIMITS.SCROLL_THROTTLE_MS [Notify (scrolledTo 1000 10)] initial in
  let s' :=
    run LIMITS.SCROLL_THROTTLE_MS
        (map Notify [scrolledTo 1050 20; scrolledTo 1100 30]) s in
  emitted s' = [(1000%Z, ScrollPayload.mk 0 10)] /\
  timeouts s' = [mkTimeout 1 1200 ScrollEvent] /\
  emitted (expire 1 (scrolledTo 1200 40) s')
  = [(1000%Z, ScrollPayload.mk 0 10); (1200%Z, ScrollPayload.mk 0 40)] /\
  ScrollPayload.mk 0 40
  <> ScrollPayload.mk (scrollX (scrolledTo 1100 30))
                      (scrollY (scrolledTo 1100 30)).
Proof.
  cbv zeta. repeat split; try (vm_compute; reflexivity).
  vm_compute. discriminate.
Qed.

End ThrottledScrollFacts.


(* --------------------------------------------------------------------- *)
(** ** More on strings *)

Module StringFacts.

Lemma length_append (a b : string) :
  String.length (a ++ b) = String.length a + String.length b.
Proof. induction a as [|c a IH]; simpl; [reflexivity|now rewrite IH]. Qed.

Lemma length_substring0 (s : string) : forall k,
  String.length (substring0 k s) = Nat.min k (String.length s).
Proof.
  unfold substring0. induction s as [|c s IH]; intros [|k]; simpl;
    try reflexivity.
  now rewrite IH.
Qed.

Lemma append_assoc (a b c : string) : (a ++ b) ++ c = a ++ (b ++ c).
Proof.
  induction a as [|x a IH]; [reflexivity|].
  change (String x ((a ++ b) ++ c) = String x (a ++ b ++ c)). now rewrite IH.
Qed.

Lemma append_nil_r (a : string) : a ++ "" = a.
Proof.
  induction a as [|x a IH]; [reflexivity|].
  change (String x (a ++ "") = String x a). now rewrite IH.
Qed.

(** Joining the lines of a text gives the text back. *)
Lemma join_split (s : string) : join nl (split LF s) = s.
Proof.
  unfold join. induction s as [|a s IH]; [reflexivity|].
  simpl. destruct (Ascii.eqb_spec a LF) as [->|Hne].
  - pose proof (JSStringFacts.split_nonempty LF s) as Hs.
    destruct (split LF s) as [|w ws] eqn:E; [contradiction|].
    simpl in *. now rewrite IH.
  - destruct (split LF s) as [|w ws] eqn:E.
    + now destruct (JSStringFacts.split_nonempty LF s).
    + simpl in *. destruct ws; simpl in *; now rewrite <- IH.
Qed.

End StringFacts.

(* --------------------------------------------------------------------- *)
(** ** Templates: truncation, escaping, one-sided diffs *)

Module TemplatesMoreFacts.
Import Templates JSStringSpec JSStringFacts TemplatesFacts StringFacts TemplatesSpec.

(** X1: [truncate] keeps a text that fits as it is, and cuts a longer one
    to [maxLength] characters, the last three being dots, when [maxLength]
    is at least 3.  For a smaller [maxLength] a longer text becomes the
    three dots alone, which is longer than asked for. *)
Theorem truncate_length (text : string) (maxLength : nat) :
  (String.length text <= maxLength -> truncate text maxLength = text) /\
  (maxLength < String.length text -> 3 <= maxLength ->
   String.length (truncate text maxLength) = maxLength /\
   truncate text maxLength
   = substring0 (maxLength - 3) text ++ "...") /\
  (maxLength < String.length text -> maxLength < 3 ->
   truncate text maxLength = "...").
Proof.
  unfold truncate. repeat split.
  - intros H. apply Nat.leb_le in H. now rewrite H.
  - apply Nat.leb_gt in H. rewrite H, length_append, length_substring0.
    apply Nat.leb_gt in H. simpl. lia.
  - apply Nat.leb_gt in H. now rewrite H.
  - intros H H3. apply Nat.leb_gt in H. rewrite H.
    replace (maxLength - 3) with 0 by lia.
    unfold substring0. now destruct text.
Qed.

Lemma escapeMarkdown_app (a b : string) :
  escapeMarkdown (a ++ b) = escapeMarkdown a ++ escapeMarkdown b.
Proof.
  induction a as [|c a IH]; simpl; [reflexivity|].
  destruct (isMarkdownSpecial c); simpl; now rewrite IH.
Qed.

Lemma escapeMarkdown_plain (text : string) :
  plainMarkdown text = true -> escapeMarkdown text = text.
Proof.
  induction text as [|c t IH]; simpl; [reflexivity|].
  intros H. apply andb_prop in H as [Hc Ht].
  apply negb_true_iff in Hc. now rewrite Hc, IH.
Qed.

Lemma BSL_not_special : isMarkdownSpecial BSL = false.
Proof. reflexivity. Qed.

(** X2: [escapeMarkdown] loses nothing: two texts with the same escaped
    form are the same text; a text without any of the escaped characters
    is left as it is; and the escaped form of a concatenation is the
    concatenation of the escaped forms. *)
Theorem escapeMarkdown_injective :
  (forall a b, escapeMarkdown a = escapeMarkdown b -> a = b) /\
  (forall text, plainMarkdown text = true -> escapeMarkdown text = text) /\
  (forall a b, escapeMarkdown (a ++ b) = escapeMarkdown a ++ escapeMarkdown b).
Proof.
  split; [|split; [exact escapeMarkdown_plain|exact escapeMarkdown_app]].
  induction a as [|c a IH]; intros [|d b] H; simpl in H.
  - reflexivity.
  - destruct (isMarkdownSpecial d); discriminate.
  - destruct (isMarkdownSpecial c); discriminate.
  - destruct (isMarkdownSpecial c) eqn:Ec, (isMarkdownSpecial d) eqn:Ed.
    + injection H as -> H. f_equal. now apply IH.
    + injection H as <- H. destruct b as [|e b]; simpl in H.
      * now destruct a.
      * destruct (isMarkdownSpecial e) eqn:Ee.
        -- injection H as -> _. now rewrite BSL_not_special in Ec.
        -- injection H as -> _. congruence.
    + injection H as -> H. destruct a as [|e a]; simpl in H.
      * now destruct b.
      * destruct (isMarkdownSpecial e) eqn:Ee.
        -- injection H as <- _. now rewrite BSL_not_special in Ed.
        -- injection H as <- _. congruence.
    + injection H as -> H. f_equal. now apply IH.
Qed.

Lemma formatRemovedDiff_lines (html : string) :
  split LF (formatRemovedDiff html) = map (fun l => "- " ++ l) (split LF html).
Proof.
  unfold formatRemovedDiff. apply split_join.
  - intros E. apply map_eq_nil in E. now apply split_nonempty in E.
  - apply List.Forall_map. eapply List.Forall_impl; [|apply split_noLF].
    intros l Hl. simpl. exact Hl.
Qed.

Lemma map_dropPrefix (p : string) (ls : list string) :
  map (dropPrefix (String.length p)) (map (fun l => p ++ l) ls) = ls.
Proof.
  induction ls as [|l ls IH]; simpl; [reflexivity|]. f_equal; [|exact IH].
  clear. induction p as [|c p IH]; simpl; [now destruct l|exact IH].
Qed.

(** X3: the one-sided diffs keep the lines of the markup: the lines of
    [formatAddedDiff html] are the lines of [html], each behind the prefix
    [+ ], those of [formatRemovedDiff html] are the same lines behind [- ],
    and taking the two characters of the prefix off every line gives
    [html] back. *)
Theorem formatAddedDiff_formatRemovedDiff_lines (html : string) :
  split LF (formatAddedDiff html) = map (fun l => "+ " ++ l) (split LF html) /\
  split LF (formatRemovedDiff html) = map (fun l => "- " ++ l) (split LF html) /\
  join nl (map (dropPrefix 2) (split LF (formatAddedDiff html))) = html /\
  join nl (map (dropPrefix 2) (split LF (formatRemovedDiff html))) = html.
Proof.
  rewrite formatAddedDiff_lines, formatRemovedDiff_lines.
  repeat split.
  - rewrite (map_dropPrefix "+ "). apply join_split.
  - rewrite (map_dropPrefix "- "). apply join_split.
Qed.

End TemplatesMoreFacts.

(* --------------------------------------------------------------------- *)
(** ** The redaction engine: what [process] leaves alone, disabled rules,
       the built-in selector and attribute rules *)

Module RedactionEngineMoreFacts.
Import RedactionEngine.
Import RedactionEngineSpec RedactionEngineFacts RedactionEngineMoreSpec.

Section Generic.
Context {RT : RegExpRuntime}.

Lemma redactAttributes_keys this attrs :
  map fst (redactAttributes this attrs) = map fst attrs.
Proof.
  unfold redactAttributes. induction attrs as [|[k v] attrs IH]; simpl;
    [reflexivity|].
  rewrite IH. now destruct (attributeRuleFor _ k).
Qed.

(** X4: [process] changes nothing but the label of the target, the value of
    an input payload and the html, text and attribute values of the
    snapshot: the id, the session, the timestamp, the sequence number and
    the type of the event, the other fields of the target (its xpath and its
    CSS selector among them), the payload of an event that is not an input,
    the other fields of an input payload and the names of the snapshot's
    attributes are those of the event given. *)
Theorem process_frame this (e e' : DOMEvent) :
  process this e = Some e' ->
  DOMEvent.id e' = DOMEvent.id e /\
  DOMEvent.sessionId e' = DOMEvent.sessionId e /\
  DOMEvent.timestamp e' = DOMEvent.timestamp e /\
  DOMEvent.sequence e' = DOMEvent.sequence e /\
  DOMEvent.type e' = DOMEvent.type e /\
  (forall l, ElementDescriptor.with_label (DOMEvent.target e') l
             = ElementDescriptor.with_label (DOMEvent.target e) l) /\
  (DOMEvent.type e <> user_input ->
   DOMEvent.payload e' = DOMEvent.payload e) /\
  (forall ip, DOMEvent.payload e = PInput ip ->
              exists v, DOMEvent.payload e'
                        = PInput (InputPayload.with_value ip v)) /\
  match DOMEvent.domSnapshot e, DOMEvent.domSnapshot e' with
  | Some s, Some s' =>
      map fst (DOMFragment.attributes s') = map fst (DOMFragment.attributes s)
  | None, None => True
  | _, _ => False
  end.
Proof.
  rewrite process_steps.
  destruct e as [i sid ts sq ty tg p snap]; simpl.
  assert (L : forall l, ElementDescriptor.with_label (redactLabel this tg) l
                        = ElementDescriptor.with_label tg l).
  { intros l. unfold redactLabel.
    destruct (ElementDescriptor.label tg) as [x|]; [|reflexivity].
    now destruct (truthy x). }
  assert (S : match snap with
              | Some s =>
                  map fst (redactAttributes this (DOMFragment.attributes s))
                  = map fst (DOMFragment.attributes s)
              | None => True
              end)
    by (destruct snap; [apply redactAttributes_keys|exact I]).
  destruct ty; try (intros H; injection H as <-; simpl;
                    repeat split; try assumption; try congruence;
                    try (intros ip ->; exists (InputPayload.value ip);
                         now destruct ip);
                    now destruct snap).
  destruct p; try discriminate.
  intros H; injection H as <-; simpl.
  repeat split; try assumption; try congruence.
  - intros ip E. injection E as <-. eexists. reflexivity.
  - now destruct snap.
Qed.

(** *** Disabled rules *)

Lemma filter_filter_enabled (l : list RedactionRule) :
  List.filter RedactionRule.enabled (List.filter RedactionRule.enabled l)
  = List.filter RedactionRule.enabled l.
Proof.
  induction l as [|r l IH]; simpl; [reflexivity|].
  destruct (RedactionRule.enabled r) eqn:E; simpl; [|assumption].
  now rewrite E, IH.
Qed.

Lemma shouldRedactInputType_enabled l target ty :
  shouldRedactInputType l target ty
  = shouldRedactInputType (List.filter RedactionRule.enabled l) target ty.
Proof.
  induction l as [|r l IH]; simpl; [reflexivity|].
  destruct (RedactionRule.enabled r) eqn:E; simpl; [|assumption].
  now rewrite E, IH.
Qed.

Lemma getReplacementForInputType_enabled l target ty :
  getReplacementForInputType l target ty
  = getReplacementForInputType (List.filter RedactionRule.enabled l) target ty.
Proof.
  induction l as [|r l IH]; simpl; [reflexivity|].
  destruct (RedactionRule.enabled r) eqn:E; simpl; [|assumption].
  now rewrite E, IH.
Qed.

Lemma attributeRuleFor_enabled l key :
  attributeRuleFor l key
  = attributeRuleFor (List.filter RedactionRule.enabled l) key.
Proof.
  induction l as [|r l IH]; simpl; [reflexivity|].
  destruct (RedactionRule.enabled r) eqn:E; simpl; [|assumption].
  now rewrite E, IH.
Qed.

Lemma redactText_enabled l m text :
  redactText (mk l m) text
  = redactText (mk (List.filter RedactionRule.enabled l) m) text.
Proof.
  unfold redactText. simpl. revert text.
  induction l as [|r l IH]; intros text; simpl; [reflexivity|].
  destruct (RedactionRule.enabled r) eqn:E; simpl; [|apply IH].
  rewrite E. apply IH.
Qed.

Lemma compileRules_from_enabled l : forall acc : gmap string RegExp,
  fold_left
    (fun (compiled : gmap string RegExp) rule =>
       if RuleType_eqb (RedactionRule.type rule) RegexRule
          && RedactionRule.enabled rule
       then match newRegExp (RedactionRule.pattern rule) with
            | Some r => <[RedactionRule.id rule := r]> compiled
            | None => compiled
            end
       else compiled)
    l acc
  = fold_left
      (fun (compiled : gmap string RegExp) rule =>
         if RuleType_eqb (RedactionRule.type rule) RegexRule
            && RedactionRule.enabled rule
         then match newRegExp (RedactionRule.pattern rule) with
              | Some r => <[RedactionRule.id rule := r]> compiled
              | None => compiled
              end
         else compiled)
      (List.filter RedactionRule.enabled l) acc.
Proof.
  induction l as [|r l IH]; intros acc; simpl; [reflexivity|].
  destruct (RedactionRule.enabled r) eqn:E; simpl.
  - rewrite E. apply IH.
  - rewrite andb_false_r. apply IH.
Qed.

Lemma compileRules_enabled l :
  compileRules l = compileRules (List.filter RedactionRule.enabled l).
Proof. apply compileRules_from_enabled. Qed.

(** Two engines that agree on what their rules decide redact alike. *)
Lemma process_ext this1 this2 e :
  (forall text, redactText this1 text = redactText this2 text) ->
  (forall t ty, shouldRedactInputType (rules this1) t ty
                = shouldRedactInputType (rules this2) t ty) ->
  (forall t ty, getReplacementForInputType (rules this1) t ty
                = getReplacementForInputType (rules this2) t ty) ->
  (forall key, attributeRuleFor (rules this1) key
               = attributeRuleFor (rules this2) key) ->
  process this1 e = process this2 e.
Proof.
  intros T S G K.
  assert (A : forall attrs, redactAttributes this1 attrs
                            = redactAttributes this2 attrs).
  { intros attrs. unfold redactAttributes. apply map_ext. intros [k v].
    now rewrite K, T. }
  rewrite !process_steps. unfold redactLabel.
  destruct (DOMEvent.type e); try (destruct (DOMEvent.payload e));
    rewrite ?T, ?S, ?G;
    destruct (ElementDescriptor.label (DOMEvent.target e)) as [x|];
    try destruct (truthy x); rewrite ?T;
    destruct (DOMEvent.domSnapshot e); rewrite ?T, ?A; reflexivity.
Qed.

Lemma process_enabled l1 l2 m e :
  List.filter RedactionRule.enabled l1 = List.filter RedactionRule.enabled l2 ->
  process (mk l1 m) e = process (mk l2 m) e.
Proof.
  intros H. apply process_ext; simpl.
  - intros text. now rewrite (redactText_enabled l1), (redactText_enabled l2), H.
  - intros. now rewrite (shouldRedactInputType_enabled l1),
              (shouldRedactInputType_enabled l2), H.
  - intros. now rewrite (getReplacementForInputType_enabled l1),
              (getReplacementForInputType_enabled l2), H.
  - intros. now rewrite (attributeRuleFor_enabled l1),
              (attributeRuleFor_enabled l2), H.
Qed.

(** X5: a disabled rule is inert.  Whatever rules are handed to
    [loadRules], [process] gives the result it gives when the disabled ones
    among them are left out. *)
Theorem process_ignores_disabled_rules (custom : list RedactionRule)
    (e : DOMEvent) :
  process (loadRules (Some custom)) e
  = process (loadRules (Some (List.filter RedactionRule.enabled custom))) e.
Proof.
  unfold loadRules.
  rewrite (compileRules_enabled (app DEFAULT_REDACTION_RULES custom)).
  rewrite (compileRules_enabled
             (app DEFAULT_REDACTION_RULES
                  (List.filter RedactionRule.enabled custom))).
  rewrite !List.filter_app, filter_filter_enabled.
  apply process_enabled.
  now rewrite !List.filter_app, filter_filter_enabled.
Qed.

(** *** The built-in attribute rule *)

Lemma attributeRuleFor_token custom key :
  In key tokenAttributes ->
  attributeRuleFor (rules (loadRules custom)) key = Some "[TOKEN]".
Proof.
  intros H. simpl in H.
  destruct H as [<-|[<-|[<-|[<-|[]]]]]; reflexivity.
Qed.

(** X6: after [loadRules], whatever the custom rules, the snapshot of a
    processed event holds [[TOKEN]] as the value of each of the attributes
    [data-token], [data-auth], [data-session] and [data-csrf], whatever the
    value was; the attributes are the same, in the same order. *)
Theorem process_token_attributes custom (e e' : DOMEvent) (s : DOMFragment) :
  process (loadRules custom) e = Some e' ->
  DOMEvent.domSnapshot e = Some s ->
  exists s',
    DOMEvent.domSnapshot e' = Some s' /\
    map fst (DOMFragment.attributes s') = map fst (DOMFragment.attributes s) /\
    Forall (fun kv => In (fst kv) tokenAttributes -> snd kv = "[TOKEN]")
           (DOMFragment.attributes s').
Proof.
  rewrite process_steps. intros H Hs. rewrite Hs in H.
  destruct (match DOMEvent.type e with user_input => _ | _ => _ end);
    [|discriminate].
  injection H as <-. simpl. eexists. split; [reflexivity|]. simpl.
  split; [apply redactAttributes_keys|].
  unfold redactAttributes.
  induction (DOMFragment.attributes s) as [|[k v] attrs IH]; cbn [map];
    constructor; [|exact IH].
  destruct (attributeRuleFor (rules (loadRules custom)) k) as [r|] eqn:E;
    cbn [fst snd]; intros Hk;
    rewrite (attributeRuleFor_token custom k Hk) in E; congruence.
Qed.

(** *** The built-in selector rule *)

Lemma loadRules_cvv custom target ty :
  ty <> "password" -> ty <> "hidden" ->
  ElementDescriptor.tagName target = "input" ->
  strIncludes (ElementDescriptor.cssSelector target) "cvv" = true ->
  shouldRedactInputType (rules (loadRules custom)) target ty = true /\
  getReplacementForInputType (rules (loadRules custom)) target ty = "[CVV]".
Proof.
  intros Hp Hh Ht Hc.
  destruct target as [tn tid cl ro la xp cs br]; simpl in Ht, Hc. subst tn.
  apply String.eqb_neq in Hp, Hh.
  rewrite String.eqb_sym in Hp. rewrite String.eqb_sym in Hh.
  assert (Hcs : truthy cs = true) by (destruct cs; [discriminate|reflexivity]).
  assert (M : matchesSelectorPattern
                (ElementDescriptor.mk "input" tid cl ro la xp cs br)
                ("input[name*=" ++ dq ++ "cvv" ++ dq ++ "]") = true).
  { unfold matchesSelectorPattern. simpl.
    destruct tid; simpl; now rewrite Hc. }
  assert (P : forall t,
             existsb (matchesSelectorPattern
                        (ElementDescriptor.mk "input" tid cl ro la xp cs br))
                     (map trim (split "," t))
             = existsb (matchesSelectorPattern
                          (ElementDescriptor.mk "input" tid cl ro la xp cs br))
                       (patternsOf
                          (RedactionRule.mk "" "" SelectorRule t "" true)))
    by reflexivity.
  assert (E : existsb (matchesSelectorPattern
                         (ElementDescriptor.mk "input" tid cl ro la xp cs br))
                      (patternsOf
                         (RedactionRule.mk "" "" SelectorRule
                            ("input[name*=" ++ dq ++ "cvv" ++ dq
                             ++ "], input[name*=" ++ dq ++ "cvc" ++ dq
                             ++ "], input[autocomplete=" ++ dq ++ "cc-csc"
                             ++ dq ++ "]") "" true)) = true).
  { change (patternsOf _) with
      ["input[name*=" ++ dq ++ "cvv" ++ dq ++ "]";
       "input[name*=" ++ dq ++ "cvc" ++ dq ++ "]";
       "input[autocomplete=" ++ dq ++ "cc-csc" ++ dq ++ "]"].
    cbn [existsb]. now rewrite M. }
  split.
  - cbn -[matchesSelectorPattern truthy String.eqb]. rewrite Hp, Hh.
    cbn -[matchesSelectorPattern truthy]. rewrite Hcs, P, E. reflexivity.
  - cbn -[matchesSelectorPattern truthy String.eqb]. rewrite Hp, Hh.
    cbn -[matchesSelectorPattern truthy]. rewrite P, E. reflexivity.
Qed.


(** X7: after [loadRules], whatever the custom rules, the value typed into
    an [input] element whose CSS selector holds [cvv] is replaced by [[CVV]]
    whatever it was, unless the input is of type [password] or [hidden]
    (which the rules before replace by [[PASSWORD]] and [[HIDDEN]]); the
    other fields of the payload are those of the event. *)
Theorem process_cvv_value custom (e : DOMEvent) (ip : InputPayload) :
  DOMEvent.type e = user_input ->
  DOMEvent.payload e = PInput ip ->
  InputPayload.inputType ip <> "password" ->
  InputPayload.inputType ip <> "hidden" ->
  ElementDescriptor.tagName (DOMEvent.target e) = "input" ->
  strIncludes (ElementDescriptor.cssSelector (DOMEvent.target e)) "cvv" = true ->
  exists e' ip',
    process (loadRules custom) e = Some e' /\
    DOMEvent.payload e' = PInput ip' /\
    InputPayload.value ip' = "[CVV]" /\
    InputPayload.inputType ip' = InputPayload.inputType ip /\
    InputPayload.selectionStart ip' = InputPayload.selectionStart ip /\
    InputPayload.selectionEnd ip' = InputPayload.selectionEnd ip.
Proof.
  intros Ht Hp H1 H2 H3 H4. rewrite process_steps, Ht, Hp.
  destruct (loadRules_cvv custom (DOMEvent.target e) _ H1 H2 H3 H4) as [-> ->].
  eexists _, (InputPayload.with_value ip "[CVV]").
  repeat split; reflexivity.
Qed.

(** *** Patterns that the constructor of [RegExp] rejects *)

Lemma shouldRedactInputType_regex pre bad post t ty :
  RedactionRule.type bad = RegexRule ->
  shouldRedactInputType (app pre (bad :: post)) t ty
  = shouldRedactInputType (app pre post) t ty.
Proof.
  intros H. induction pre as [|r pre IH]; simpl.
  - rewrite H. simpl. now destruct (RedactionRule.enabled bad).
  - now rewrite IH.
Qed.

Lemma getReplacementForInputType_regex pre bad post t ty :
  RedactionRule.type bad = RegexRule ->
  getReplacementForInputType (app pre (bad :: post)) t ty
  = getReplacementForInputType (app pre post) t ty.
Proof.
  intros H. induction pre as [|r pre IH]; simpl.
  - rewrite H. simpl. now destruct (RedactionRule.enabled bad).
  - now rewrite IH.
Qed.

Lemma attributeRuleFor_regex pre bad post key :
  RedactionRule.type bad = RegexRule ->
  attributeRuleFor (app pre (bad :: post)) key
  = attributeRuleFor (app pre post) key.
Proof.
  intros H. induction pre as [|r pre IH]; simpl.
  - rewrite H. simpl. now rewrite orb_true_r.
  - now rewrite IH.
Qed.

Lemma redactText_uncompiled pre bad post m text :
  m !! RedactionRule.id bad = None ->
  redactText (mk (app pre (bad :: post)) m) text
  = redactText (mk (app pre post) m) text.
Proof.
  intros H. unfold redactText. simpl. rewrite !fold_left_app. simpl.
  rewrite H. now destruct (negb _ || negb _).
Qed.

Lemma compileRules_rejected pre bad post :
  newRegExp (RedactionRule.pattern bad) = None ->
  compileRules (app pre (bad :: post)) = compileRules (app pre post).
Proof.
  intros H. unfold compileRules. rewrite !fold_left_app. simpl.
  rewrite H. now destruct (RuleType_eqb _ _ && _).
Qed.

(** X8: a custom regex rule whose pattern the constructor of [RegExp]
    rejects is skipped by [loadRules], and the other rules work as without
    it: [process] gives the result it gives when the rule is left out,
    provided no other rule has been compiled under the same id. *)
Theorem process_skips_rejected_pattern (pre post : list RedactionRule)
    (bad : RedactionRule) (e : DOMEvent) :
  RedactionRule.type bad = RegexRule ->
  newRegExp (RedactionRule.pattern bad) = None ->
  compiledRegex (loadRules (Some (app pre post))) !! RedactionRule.id bad
  = None ->
  process (loadRules (Some (app pre (bad :: post)))) e
  = process (loadRules (Some (app pre post))) e.
Proof.
  intros Ht Hn Hm. unfold loadRules in *. cbn [compiledRegex] in Hm.
  rewrite (app_assoc DEFAULT_REDACTION_RULES pre (bad :: post)).
  rewrite (app_assoc DEFAULT_REDACTION_RULES pre post) in *.
  rewrite (compileRules_rejected _ bad post Hn).
  apply process_ext; cbn [rules]; intros.
  - now apply redactText_uncompiled.
  - now apply shouldRedactInputType_regex.
  - now apply getReplacementForInputType_regex.
  - now apply attributeRuleFor_regex.
Qed.

End Generic.

Lemma process_frame_witness :
  DOMEvent.id (inputEvent "text" "[EMAIL]") = "e1" /\
  DOMEvent.sequence (inputEvent "text" "[EMAIL]") = 1%N.
Proof.
  destruct (process_frame (RT := miniRE) defaultEngine
              (inputEvent "text" "user@example.com")
              (inputEvent "text" "[EMAIL]"))
    as (H1 & _ & _ & H4 & _); [vm_compute; reflexivity|].
  split; [exact H1|exact H4].
Defined.

Lemma process_token_attributes_witness :
  exists s',
    DOMEvent.domSnapshot tokenEventRedacted = Some s' /\
    map fst (DOMFragment.attributes s') = ["class"; "data-token"] /\
    Forall (fun kv => In (fst kv) tokenAttributes -> snd kv = "[TOKEN]")
           (DOMFragment.attributes s').
Proof.
  apply (process_token_attributes (RT := miniRE) None tokenEvent
           tokenEventRedacted tokenFragment); vm_compute; reflexivity.
Defined.

Lemma process_cvv_value_witness :
  exists e' ip',
    process (loadRules (RT := miniRE) None) cvvEvent = Some e' /\
    DOMEvent.payload e' = PInput ip' /\
    InputPayload.value ip' = "[CVV]" /\
    InputPayload.inputType ip' = "text" /\
    InputPayload.selectionStart ip' = None /\
    InputPayload.selectionEnd ip' = None.
Proof.
  apply (process_cvv_value (RT := miniRE) None cvvEvent
           (InputPayload.mk "text" "123" None None));
    try reflexivity; discriminate.
Defined.

Lemma process_skips_rejected_pattern_witness :
  process (loadRules (RT := miniRE) (Some [rejectedRule]))
          (inputEvent "text" "user@example.com")
  = process (loadRules (RT := miniRE) (Some []))
            (inputEvent "text" "user@example.com").
Proof.
  apply (process_skips_rejected_pattern (RT := miniRE) [] [] rejectedRule);
    vm_compute; reflexivity.
Defined.

End RedactionEngineMoreFacts.

(* --------------------------------------------------------------------- *)
(** ** Trimming *)

Module TrimFacts.

Lemma trimEnd_idempotent (s : string) : trimEnd (trimEnd s) = trimEnd s.
Proof.
  induction s as [|a s IH]; [reflexivity|].
  simpl. destruct (trimEnd s) as [|b t] eqn:E.
  - destruct (isSpace a) eqn:Ea; [reflexivity|]. simpl. now rewrite Ea.
  - change (trimEnd (String a (String b t))
            = String a (String b t)).
    simpl in IH |- *. destruct (trimEnd t) as [|c u] eqn:Et.
    + destruct (isSpace b); [discriminate|]. now rewrite IH.
    + now rewrite IH.
Qed.

Lemma trimStart_idempotent (s : string) : trimStart (trimStart s) = trimStart s.
Proof.
  induction s as [|a s IH]; [reflexivity|].
  simpl. destruct (isSpace a) eqn:Ea; [assumption|]. simpl. now rewrite Ea.
Qed.

Lemma trimStart_trimEnd (s : string) :
  trimStart (trimEnd s) = trimEnd (trimStart s).
Proof.
  induction s as [|a s IH]; [reflexivity|].
  simpl. destruct (isSpace a) eqn:Ea.
  - rewrite <- IH. destruct (trimEnd s) as [|b t]; [reflexivity|].
    simpl. now rewrite Ea.
  - simpl. destruct (trimEnd s) as [|b t]; simpl; now rewrite Ea.
Qed.

Lemma trim_idempotent (s : string) : trim (trim s) = trim s.
Proof.
  unfold trim. rewrite trimStart_trimEnd, trimStart_idempotent.
  apply trimEnd_idempotent.
Qed.

Lemma trimEnd_keeps (x y : string) :
  trimEnd y = y -> y <> "" -> trimEnd (x ++ y) = x ++ y.
Proof.
  intros Hy Hn. induction x as [|a x IH]; [exact Hy|].
  change (trimEnd (String a (x ++ y)) = String a (x ++ y)).
  simpl. rewrite IH. destruct (x ++ y) eqn:E; [|reflexivity].
  destruct x; [simpl in E; contradiction|discriminate].
Qed.

Lemma trimStart_suffix (x y : string) :
  trimStart y = y -> exists z, trimStart (x ++ y) = z ++ y.
Proof.
  intros Hy. induction x as [|a x [z IH]].
  - exists "". exact Hy.
  - change (exists z0, trimStart (String a (x ++ y)) = z0 ++ y).
    simpl. destruct (isSpace a).
    + now exists z.
    + now exists (String a x).
Qed.

(** A text that ends with the three dots is not empty once trimmed. *)
Lemma trim_dots (x : string) : truthy (trim (x ++ "...")) = true.
Proof.
  unfold trim.
  destruct (trimStart_suffix x "..." eq_refl) as [z ->].
  rewrite (trimEnd_keeps z "..." eq_refl); [|discriminate].
  now destruct z.
Qed.

Lemma length_trimStart (s : string) :
  String.length (trimStart s) <= String.length s.
Proof.
  induction s as [|a s IH]; simpl; [lia|].
  destruct (isSpace a); simpl; lia.
Qed.

Lemma length_trimEnd (s : string) :
  String.length (trimEnd s) <= String.length s.
Proof.
  induction s as [|a s IH]; simpl; [lia|].
  destruct (trimEnd s); [destruct (isSpace a)|]; simpl in *; lia.
Qed.

Lemma length_trim (s : string) : String.length (trim s) <= String.length s.
Proof.
  unfold trim. pose proof (length_trimEnd (trimStart s)).
  pose proof (length_trimStart s). lia.
Qed.

End TrimFacts.

(* --------------------------------------------------------------------- *)
(** ** The semantic extractor: labels and fragments *)

Module SemanticExtractorMoreFacts.
Import Dom SemanticExtractor.
Import SemanticExtractorSpec SemanticExtractorFacts StringFacts TrimFacts.
Import SemanticExtractorMoreSpec.

Section Generic.
Context {B : Browser}.

(** When the last source of the loop gives a text that is not empty once
    trimmed, the loop returns a label, trimmed and not empty, if it returns
    at all. *)
Lemma firstLabel_total sources (final : unit -> Outcome (option string)) s x :
  final tt = Returned (Some s) ->
  truthy (trim s) = true ->
  firstLabel (app sources [final]) = Returned x ->
  exists l, x = Some l /\ truthy l = true /\ trim l = l.
Proof.
  intros Hf Ht. induction sources as [|source rest IH]; simpl.
  - rewrite Hf, Ht. intros H. injection H as <-.
    exists (trim s). repeat split; [assumption|apply trim_idempotent].
  - destruct (source tt) as [[label|]|]; [|exact IH|discriminate].
    destruct (truthy (trim label)) eqn:E; [|exact IH].
    intros H. injection H as <-.
    exists (trim label). repeat split; [assumption|apply trim_idempotent].
Qed.

Lemma textSource_truthy (text : string) :
  trim text = text ->
  truthy (trim (if truthy text && Nat.leb (String.length text) 50
                then text else substring0 47 text ++ "...")) = true.
Proof.
  intros Ht. destruct (truthy text && _) eqn:E.
  - rewrite Ht. now apply andb_prop in E.
  - apply trim_dots.
Qed.

Lemma getLabel_present doc element el x :
  getLabel doc element el = Returned x ->
  exists l, x = Some l /\ truthy l = true /\ trim l = l.
Proof.
  unfold getLabel.
  match goal with
  | |- firstLabel [?s1; ?s2; ?s3; ?s4; ?s5; ?s6; ?s7] = _ -> _ =>
      change (firstLabel (app [s1; s2; s3; s4; s5; s6] [s7]) = Returned x ->
              exists l, x = Some l /\ truthy l = true /\ trim l = l);
      apply (firstLabel_total [s1; s2; s3; s4; s5; s6] s7
               (if truthy (trim (textContent el))
                   && Nat.leb (String.length (trim (textContent el))) 50
                then trim (textContent el)
                else substring0 47 (trim (textContent el)) ++ "..."))
  end.
  - reflexivity.
  - apply textSource_truthy, trim_idempotent.
Qed.

(** X9: [describe] never leaves an element without a label.  Whenever it
    returns for an element, the descriptor has a label, which is trimmed and
    not empty: the last source of [getLabel] always gives one, so that the
    [return undefined] at the end of [getLabel] is never reached. *)
Theorem describe_label_present doc element el d :
  deref element = Some el ->
  isElement el = true ->
  describe doc (Some element) = Returned d ->
  exists l,
    ElementDescriptor.label d = Some l /\ truthy l = true /\ trim l = l.
Proof.
  intros Hd He. unfold describe. rewrite Hd, He.
  destruct (getLabel doc element el) as [x|] eqn:E; [|discriminate].
  intros H. injection H as <-. simpl.
  now apply (getLabel_present doc element el).
Qed.

(** X10: the label read from the text of an element is at most 50
    characters long.  For an element without [aria-label],
    [aria-labelledby], [title], [alt] and [placeholder], that is inside no
    [label], that has no id or whose id gives a selector [label[for=...]]
    which the document accepts and answers with no element, and whose
    trimmed text is not empty, the label is that text when it has at most
    50 characters, and its first 47 characters followed by three dots
    otherwise. *)
Theorem describe_label_of_text doc element el :
  deref element = Some el ->
  isElement el = true ->
  getAttribute el "aria-label" = None ->
  getAttribute el "aria-labelledby" = None ->
  getAttribute el "title" = None ->
  getAttribute el "alt" = None ->
  getAttribute el "placeholder" = None ->
  closest element "label" = None ->
  (id el = EmptyString \/
   querySelector doc ("label[for=" ++ dq ++ id el ++ dq ++ "]") = NotFound) ->
  trim (textContent el) <> EmptyString ->
  exists d l,
    describe doc (Some element) = Returned d /\
    ElementDescriptor.label d = Some l /\
    String.length l <= 50 /\
    l = trim (if Nat.leb (String.length (trim (textContent el))) 50
              then trim (textContent el)
              else substring0 47 (trim (textContent el)) ++ "...").
Proof.
  intros Hd He H1 H2 H3 H4 H5 Hc Hq H7. unfold describe. rewrite Hd, He.
  unfold getLabel. simpl.
  rewrite H1, H2, H3, H4, H5,
    (SemanticExtractorFacts.findAssociatedLabel_none doc element el Hq Hc).
  assert (Ht : truthy (trim (textContent el)) = true)
    by (destruct (trim (textContent el)); [contradiction|reflexivity]).
  rewrite Ht. cbn [andb].
  set (s := if Nat.leb _ 50 then _ else _).
  assert (Hs : truthy (trim s) = true).
  { pose proof (textSource_truthy (trim (textContent el))
                  (trim_idempotent _)) as T.
    rewrite Ht in T. exact T. }
  rewrite Hs. eexists. eexists. split; [reflexivity|]. simpl.
  split; [reflexivity|]. split; [|reflexivity].
  pose proof (length_trim s) as L. unfold s in *.
  destruct (Nat.leb_spec (String.length (trim (textContent el))) 50).
  - lia.
  - rewrite length_append, length_substring0 in L.
    change (String.length "...") with 3 in L. lia.
Qed.

Lemma captureFragment_element (el : Dom.node) (maxLength : nat) :
  isElement el = true ->
  exists f,
    captureFragment (Some el) maxLength = Some f /\
    String.length (DOMFragment.html f) <= maxLength /\
    String.length (DOMFragment.text f) <= 500.
Proof.
  intros He. unfold captureFragment. rewrite He. eexists.
  split; [reflexivity|]. simpl. rewrite !length_substring0. lia.
Qed.


End Generic.

Lemma describe_label_present_witness :
  exists l,
    ElementDescriptor.label longParagraphDescriptor = Some l /\
    truthy l = true /\ trim l = l.
Proof.
  apply (describe_label_present (B := plainBrowser) longParagraphPage
           longParagraphRef longParagraph); vm_compute; reflexivity.
Defined.

Lemma describe_label_of_text_witness :
  exists d l,
    describe (B := plainBrowser) longParagraphPage (Some longParagraphRef)
    = Returned d /\
    ElementDescriptor.label d = Some l /\
    String.length l <= 50 /\
    l = trim (if Nat.leb (String.length (trim (textContent longParagraph))) 50
              then trim (textContent longParagraph)
              else substring0 47 (trim (textContent longParagraph)) ++ "...").
Proof.
  apply (describe_label_of_text (B := plainBrowser) longParagraphPage
           longParagraphRef longParagraph); try reflexivity.
  - left. reflexivity.
  - vm_compute. discriminate.
Defined.

End SemanticExtractorMoreFacts.

(* --------------------------------------------------------------------- *)
(** ** The mutation capture: payloads and the state before a change *)

Module MutationCaptureFacts.
Import Dom Chronicle.
Import StringFacts SemanticExtractorMoreFacts MutationCaptureSpec.

Lemma attrs_eqb_refl a : attrs_eqb a a = true.
Proof.
  unfold attrs_eqb. rewrite Nat.eqb_refl. simpl.
  apply forallb_forall. intros x Hx. apply existsb_exists.
  exists x. split; [exact Hx|]. now rewrite !String.eqb_refl.
Qed.

Lemma node_eqb_refl : forall n, node_eqb n n = true.
Proof.
  fix IH 1. intros [d|d|t a cs]; simpl.
  - apply String.eqb_refl.
  - apply String.eqb_refl.
  - rewrite String.eqb_refl, attrs_eqb_refl. simpl.
    induction cs as [|c cs IHcs]; [reflexivity|].
    now rewrite IH, IHcs.
Qed.

Lemma removeFirstEqual_insert added (before after : list node) :
  Forall (fun c => node_eqb c added = false) before ->
  removeFirstEqual added (app before (added :: after)) = app before after.
Proof.
  unfold removeFirstEqual.
  induction before as [|c before IH]; intros H; simpl.
  - now rewrite node_eqb_refl.
  - inversion H as [|? ? Hc Hrest]; subst. rewrite Hc. f_equal. now apply IH.
Qed.

Lemma In_firstn {A : Type} (x : A) : forall n l,
  In x (List.firstn n l) -> In x l.
Proof.
  induction n as [|n IH]; intros [|y l] H; simpl in H; try contradiction.
  destruct H as [->|H]; [now left|right; now apply IH].
Qed.

Section Generic.
Context {RT : RegExpRuntime} {B : Browser}.

(** X12: the state before an insertion is reconstructed exactly.  When one
    node has been inserted among the children of an element, at any place,
    and no child before that place is equal to it, [reconstructBeforeState]
    gives the markup of the element as it was before.  A removed node is
    put back as the last child, which is its place only if it was the last
    child. *)
Theorem reconstructBeforeState_exact (tag : string)
    (attrs : list (string * string)) (cs : list node) (i : nat)
    (added removed : node) (target : NodeRef) :
  Forall (fun c => node_eqb c added = false) (List.firstn i cs) ->
  reconstructBeforeState
    (ElementNode tag attrs (app (List.firstn i cs) (added :: List.skipn i cs)))
    (MutationRecord.mk ChildList target [added] [] None None)
  = outerHTML (ElementNode tag attrs cs) /\
  reconstructBeforeState
    (ElementNode tag attrs cs)
    (MutationRecord.mk ChildList target [] [removed] None None)
  = outerHTML (ElementNode tag attrs (app cs [removed])).
Proof.
  intros H. unfold reconstructBeforeState. simpl. split; [|reflexivity].
  now rewrite (removeFirstEqual_insert added _ _ H), List.firstn_skipn.
Qed.

Lemma length_fragmentsOf nodes : length (fragmentsOf nodes) <= 10.
Proof.
  unfold fragmentsOf.
  assert (L : forall (f : node -> option DOMFragment) l,
             length (omap f l) <= length l).
  { intros f l. induction l as [|x l IH]; [reflexivity|].
    change (omap f (x :: l))
      with (match f x with Some y => y :: omap f l | None => omap f l end).
    destruct (f x); cbn [length]; lia. }
  eapply Nat.le_trans; [apply L|]. rewrite List.length_firstn.
  apply Nat.le_min_l.
Qed.

Lemma fragmentsOf_bounds nodes :
  Forall (fun f =>
            String.length (DOMFragment.html f) <= LIMITS.MAX_DOM_FRAGMENT_SIZE
            /\ String.length (DOMFragment.text f) <= 500)
         (fragmentsOf nodes).
Proof.
  unfold fragmentsOf.
  assert (E : Forall (fun n => isElement n = true)
                     (List.firstn 10 (List.filter isElement nodes))).
  { apply List.Forall_forall. intros n Hn.
    apply In_firstn, List.filter_In in Hn. apply Hn. }
  induction (List.firstn 10 (List.filter isElement nodes)) as [|n l IH];
    [constructor|].
  inversion E as [|? ? Hn Hl]; subst.
  destruct (captureFragment_element n LIMITS.MAX_DOM_FRAGMENT_SIZE Hn)
    as (f & Hf & Bd).
  change (omap ?f (n :: l))
    with (match SemanticExtractor.captureFragment (Some n)
                  LIMITS.MAX_DOM_FRAGMENT_SIZE with
          | Some y =>
              y :: omap (fun n => SemanticExtractor.captureFragment (Some n)
                                    LIMITS.MAX_DOM_FRAGMENT_SIZE) l
          | None =>
              omap (fun n => SemanticExtractor.captureFragment (Some n)
                               LIMITS.MAX_DOM_FRAGMENT_SIZE) l
          end).
  rewrite Hf. constructor; [exact Bd|now apply IH].
Qed.

(** X13: the payload of a structural mutation is bounded: it lists at most
    ten added and at most ten removed fragments, the elements first met
    among the nodes, each with at most [MAX_DOM_FRAGMENT_SIZE] characters of
    markup and 500 of text, and it names no attribute and no value. *)
Theorem buildPayload_childList_bounds (this : MutationCapture.t)
    (ctx : MutationWithContext.t) :
  MutationRecord.type (MutationWithContext.record ctx) = ChildList ->
  let payload := buildPayload this ctx in
  let bounded (fragments : option (list DOMFragment)) :=
    match fragments with
    | Some fs =>
        length fs <= 10 /\
        Forall (fun f =>
                  String.length (DOMFragment.html f)
                  <= LIMITS.MAX_DOM_FRAGMENT_SIZE
                  /\ String.length (DOMFragment.text f) <= 500) fs
    | None => True
    end in
  bounded (MutationPayload.addedNodes payload) /\
  bounded (MutationPayload.removedNodes payload) /\
  MutationPayload.attributeName payload = None /\
  MutationPayload.oldValue payload = None /\
  MutationPayload.newValue payload = None.
Proof.
  intros H. cbv zeta. unfold buildPayload. rewrite H.
  cbn [MutationPayload.addedNodes MutationPayload.removedNodes
       MutationPayload.attributeName MutationPayload.oldValue
       MutationPayload.newValue].
  split; [|split; [|repeat split]].
  - destruct (Nat.ltb _ _); [|exact I].
    split; [apply length_fragmentsOf|apply fragmentsOf_bounds].
  - destruct (Nat.ltb 0 (length (MutationRecord.removedNodes _))); [|exact I].
    split; [apply length_fragmentsOf|apply fragmentsOf_bounds].
Qed.

End Generic.

Lemma reconstructBeforeState_exact_witness :
  reconstructBeforeState (B := plainBrowser)
    (ElementNode "UL" [] [listItem "a"; listItem "b"; listItem "c"])
    (MutationRecord.mk ChildList (mkRef true (listItem "a") []) [listItem "b"]
                       [] None None)
  = "<ul><li>a</li><li>c</li></ul>".
Proof.
  apply (proj1 (reconstructBeforeState_exact (B := plainBrowser) "UL" []
                  [listItem "a"; listItem "c"] 1 (listItem "b") (listItem "b")
                  (mkRef true (listItem "a") [])
                  ltac:(repeat constructor))).
Defined.

Lemma buildPayload_childList_bounds_witness :
  MutationPayload.attributeName
    (buildPayload (B := plainBrowser)
       (MutationCapture.mk true "s1" 0 [] None false)
       (MutationWithContext.mk
          (MutationRecord.mk ChildList (mkRef true (listItem "a") [])
             [listItem "b"] [] None None) None)) = None.
Proof.
  apply (buildPayload_childList_bounds (B := plainBrowser)
           (MutationCapture.mk true "s1" 0 [] None false)
           (MutationWithContext.mk
              (MutationRecord.mk ChildList (mkRef true (listItem "a") [])
                 [listItem "b"] [] None None) None) eq_refl).
Defined.

End MutationCaptureFacts.

(* --------------------------------------------------------------------- *)
(** ** The content script: where the events are *)

Module LedgerFacts.
Import Dom Chronicle.
Import ChronicleSpec ChronicleFacts LedgerSpec.

Lemma Moves_trans allow l1 l2 l3 :
  Moves allow l1 l2 -> Moves allow l2 l3 -> Moves allow l1 l3.
Proof.
  induction 1 as [|k a b c Hk Hm _ IH]; intros H; [assumption|].
  eapply Moves_step; eauto.
Qed.

Lemma Moves_one allow k l1 l2 :
  allow k = true -> move k l1 l2 -> Moves allow l1 l2.
Proof. intros Hk Hm. eapply Moves_step; [eassumption..|apply Moves_refl]. Qed.

Lemma Moves_weaken (allow allow' : Kind -> bool) l1 l2 :
  (forall k, allow k = true -> allow' k = true) ->
  Moves allow l1 l2 -> Moves allow' l1 l2.
Proof.
  intros Hsub. induction 1 as [|k a b c Hk Hm _ IH]; [apply Moves_refl|].
  eapply Moves_step; eauto.
Qed.

(** An invariant of the changes allowed is an invariant of their
    sequences. *)
Lemma Moves_invariant (allow : Kind -> bool) (P : Ledger -> Prop) l1 l2 :
  (forall k a b, allow k = true -> move k a b -> P a -> P b) ->
  Moves allow l1 l2 -> P l1 -> P l2.
Proof.
  intros Hstep. induction 1 as [|k a b c Hk Hm _ IH]; [trivial|].
  intros Ha. apply IH. eapply Hstep; eassumption.
Qed.

Section Generic.
Context {RT : RegExpRuntime} {B : Browser}.

Lemma Moves_calm allow w w' l :
  calm w w' -> Moves allow l (ledgerOf w) -> Moves allow l (ledgerOf w').
Proof. unfold calm. now intros ->. Qed.

Lemma calm_refl w : calm w w.
Proof. reflexivity. Qed.

Lemma calm_trans w1 w2 w3 : calm w1 w2 -> calm w2 w3 -> calm w1 w3.
Proof. unfold calm. congruence. Qed.

Lemma calm_updMutationCapture f w : calm w (updMutationCapture f w).
Proof. reflexivity. Qed.

Lemma calm_updCapture owner f w : calm w (updCapture owner f w).
Proof. unfold updCapture. now destruct (_ !! _). Qed.

Lemma calm_clearTimer id w : calm w (clearTimer id w).
Proof. reflexivity. Qed.

Lemma calm_setTimer cb r w : calm w (snd (setTimer cb r w)).
Proof. reflexivity. Qed.

Lemma calm_nextUUID w : calm w (snd (nextUUID w)).
Proof. reflexivity. Qed.

Lemma calm_finishStop w : calm w (finishStop w).
Proof. reflexivity. Qed.

Lemma calm_eventCaptureStop owner w : calm w (eventCaptureStop owner w).
Proof.
  unfold eventCaptureStop. destruct (_ !! _); [|apply calm_refl].
  eapply calm_trans; [|apply calm_updCapture]. reflexivity.
Qed.

Lemma calm_eventCaptureStart owner sid n w :
  calm w (eventCaptureStart owner sid n w).
Proof.
  unfold eventCaptureStart. destruct (_ !! _); [|apply calm_refl].
  eapply calm_trans; [apply calm_updCapture|]. reflexivity.
Qed.

Lemma calm_batchMutations ms w : calm w (batchMutations ms w).
Proof.
  unfold batchMutations.
  now destruct (MutationCapture.batchTimeout (World.mutationCapture w)).
Qed.

Lemma calm_createEvent env m w : calm w (fst (createEvent env m w)).
Proof.
  unfold createEvent.
  destruct (getMutationType _); [|apply calm_refl].
  destruct (elementOrParent _); [|apply calm_refl].
  destruct (match deref _ with Some _ => _ | None => _ end);
    [apply calm_refl|].
  destruct (nextUUID w) as [uuid w'] eqn:E.
  replace w' with (snd (nextUUID w)) by (now rewrite E).
  destruct (SemanticExtractor.describe _ _); reflexivity.
Qed.

(** What [flushBuffer] does to the ledger. *)
Lemma ledgerOf_flushBuffer awaited w :
  ledgerOf (fst (flushBuffer awaited w)) = flushed awaited (ledgerOf w).
Proof.
  unfold flushBuffer, flushed, ledgerOf. cbn [buffer].
  destruct (DOMChronicle.eventBuffer (World.chronicle w)) eqn:E; simpl;
    rewrite ?E; reflexivity.
Qed.

Lemma Moves_flushBuffer awaited w :
  Moves handling (ledgerOf w) (ledgerOf (fst (flushBuffer awaited w))).
Proof.
  rewrite ledgerOf_flushBuffer.
  apply (Moves_one handling KFlush); [reflexivity|constructor].
Qed.

Lemma Moves_handleEventWith stop event w :
  (forall w, Moves handling (ledgerOf w) (ledgerOf (stop w))) ->
  Moves handling (ledgerOf w) (ledgerOf (handleEventWith stop event w)).
Proof.
  intros Hstop. unfold handleEventWith.
  destruct (DOMChronicle.isRecording (World.chronicle w)) eqn:Hrec;
    [|apply Moves_refl].
  destruct (DOMChronicle.config (World.chronicle w)); [|apply Moves_refl].
  cbn [negb orb].
  destruct (N.leb_spec LIMITS.MAX_EVENTS_PER_SESSION
              (DOMChronicle.sequence (World.chronicle w))) as [_|Hlt];
    [apply Hstop|].
  destruct (RedactionEngine.process _ event) as [r|]; [|apply Moves_refl].
  apply (Moves_one handling KAccept); [reflexivity|].
  set (e := DOMEvent.with_sequence r (DOMChronicle.sequence (World.chronicle w))).
  match goal with
  | |- move _ _ (ledgerOf (if ?c then fst (flushBuffer false ?w') else ?w')) =>
      replace (ledgerOf (if c then fst (flushBuffer false w') else w'))
        with (taken e (ledgerOf w))
  end.
  - constructor; [exact Hrec|exact Hlt|reflexivity].
  - unfold taken.
    match goal with
    | |- _ = ledgerOf (if ?c then _ else _) => destruct c eqn:Hc
    end; simpl in Hc |- *; rewrite Hc; [|reflexivity].
    now rewrite ledgerOf_flushBuffer.
Qed.

Lemma Moves_processBatchWith callback env w :
  (forall e w, Moves handling (ledgerOf w) (ledgerOf (callback e w))) ->
  Moves handling (ledgerOf w) (ledgerOf (fst (processBatchWith callback env w))).
Proof.
  intros Hcb. unfold processBatchWith.
  assert (G0 : Moves handling (ledgerOf w)
                 (ledgerOf (fst (updMutationCapture
                                   (MutationCapture.set_batchBuffer []) w,
                                 true))))
    by apply Moves_refl.
  revert G0.
  generalize (updMutationCapture (MutationCapture.set_batchBuffer []) w, true).
  generalize (MutationCapture.batchBuffer (World.mutationCapture w)).
  intros ms.
  induction ms as [|m ms IH]; intros [w0 b] G0; simpl; [assumption|].
  apply IH. destruct b; [|assumption]. simpl in G0.
  pose proof (calm_createEvent env m w0) as C.
  destruct (createEvent env m w0) as [w1 [[ev|]|]]; simpl in *.
  - eapply Moves_trans; [exact G0|]. unfold calm in C. rewrite <- C.
    apply Hcb.
  - eapply Moves_calm; eassumption.
  - eapply Moves_calm; eassumption.
Qed.

Lemma Moves_mutationCaptureStopWith callback env w :
  (forall e w, Moves handling (ledgerOf w) (ledgerOf (callback e w))) ->
  Moves handling (ledgerOf w)
        (ledgerOf (fst (mutationCaptureStopWith callback env w))).
Proof.
  intros Hcb. unfold mutationCaptureStopWith.
  destruct (truthyId _) as [id|].
  - pose proof (Moves_processBatchWith callback env (clearTimer id w) Hcb)
      as G1.
    destruct (processBatchWith callback env (clearTimer id w)) as [w1 [|]];
      exact G1.
  - apply Moves_refl.
Qed.

Lemma Moves_stopRest w : Moves handling (ledgerOf w) (ledgerOf (stopRest w)).
Proof.
  unfold stopRest.
  set (w2 := match DOMChronicle.eventCapture (World.chronicle w) with
             | Some owner => eventCaptureStop owner w
             | None => w
             end).
  assert (S2 : calm w w2).
  { unfold w2. destruct (DOMChronicle.eventCapture _);
      [apply calm_eventCaptureStop|apply calm_refl]. }
  cbv zeta.
  set (w3 := updChronicle (DOMChronicle.set_eventCapture None) w2).
  assert (S3 : calm w w3) by (eapply calm_trans; [exact S2|reflexivity]).
  set (w4 := match truthyId (DOMChronicle.flushInterval (World.chronicle w3)) with
             | Some id =>
                 updChronicle (DOMChronicle.set_flushInterval None)
                              (clearTimer id w3)
             | None => w3
             end).
  assert (S4 : calm w w4).
  { unfold w4. destruct (truthyId _); [|assumption].
    eapply calm_trans; [exact S3|reflexivity]. }
  pose proof (Moves_flushBuffer true w4) as F.
  unfold calm in S4. rewrite S4 in F.
  destruct (flushBuffer true w4) as [w5 [|]]; simpl in F; exact F.
Qed.

Lemma Moves_stopWith callback env w :
  (forall e w, Moves handling (ledgerOf w) (ledgerOf (callback e w))) ->
  Moves handling (ledgerOf w) (ledgerOf (stopWith callback env w)).
Proof.
  intros Hcb. rewrite stopWith_eq.
  destruct (DOMChronicle.isRecording (World.chronicle w)); [|apply Moves_refl].
  cbv zeta.
  eapply (Moves_step handling KHalt); [reflexivity|apply move_halt|].
  change (halted (ledgerOf w))
    with (ledgerOf (updChronicle (DOMChronicle.set_isRecording false) w)).
  pose proof (Moves_mutationCaptureStopWith callback env
                (updChronicle (DOMChronicle.set_isRecording false) w) Hcb)
    as G1.
  destruct (snd _); [|exact G1].
  eapply Moves_trans; [exact G1|apply Moves_stopRest].
Qed.

Lemma Moves_stop env w : Moves handling (ledgerOf w) (ledgerOf (stop env w)).
Proof.
  apply Moves_stopWith. intros e w0. apply Moves_handleEventWith.
  intros w1. apply Moves_refl.
Qed.

Lemma Moves_handleEvent env event w :
  Moves handling (ledgerOf w) (ledgerOf (handleEvent env event w)).
Proof. apply Moves_handleEventWith. intros w0. apply Moves_stop. Qed.

Lemma Moves_emit owner type target payload env w :
  Moves handling (ledgerOf w)
        (ledgerOf (fst (emit owner type target payload env w))).
Proof.
  unfold emit. destruct (_ !! _); [|apply Moves_refl].
  destruct (nextUUID w) as [uuid w1] eqn:E.
  assert (C1 : calm w w1)
    by (replace w1 with (snd (nextUUID w)) by (now rewrite E);
        apply calm_nextUUID).
  pose proof (calm_trans _ _ _ C1
                (calm_updCapture owner
                   (fun cap => EventCapture.set_sequence
                                 (EventCapture.sequence cap + 1)%N cap) w1))
    as C2.
  destruct (SemanticExtractor.describe _ _); simpl.
  - unfold calm in C2. rewrite <- C2. apply Moves_handleEvent.
  - eapply Moves_calm; [exact C2|apply Moves_refl].
Qed.

Lemma Moves_handle owner e env w :
  Moves handling (ledgerOf w) (ledgerOf (fst (handle owner e env w))).
Proof.
  unfold handle.
  destruct e as [[t|] ? ? ? ?|[t|]|[t|]|[t|]| | |];
    try apply Moves_refl; apply Moves_emit.
Qed.

Lemma Moves_perform owner timer env effects w :
  Moves handling (ledgerOf w) (ledgerOf (perform owner timer env effects w)).
Proof.
  unfold perform. revert w.
  induction effects as [|eff effects IH]; intros w; simpl; [apply Moves_refl|].
  eapply Moves_trans; [|apply IH]. destruct eff.
  - apply Moves_refl.
  - apply Moves_refl.
  - apply Moves_handle.
Qed.

Lemma Moves_invokeListener owner e env w :
  Moves handling (ledgerOf w) (ledgerOf (invokeListener owner e env w)).
Proof.
  unfold invokeListener. destruct (_ !! _) as [cap|]; [|apply Moves_refl].
  destruct e; try apply Moves_handle.
  - destruct (Timing.debounced _ _ _ _) as [st effects].
    eapply Moves_trans; [|apply Moves_perform].
    eapply Moves_calm; [apply calm_updCapture|apply Moves_refl].
  - destruct (Timing.throttled _ _ _ _ _) as [st effects].
    eapply Moves_trans; [|apply Moves_perform].
    eapply Moves_calm; [apply calm_updCapture|apply Moves_refl].
Qed.

Lemma Moves_dispatch e env w :
  Moves handling (ledgerOf w) (ledgerOf (dispatch e env w)).
Proof.
  unfold dispatch. generalize (Runtime.registry (World.runtime w)).
  intros reg. revert w.
  induction reg as [|[[owner ty] cap] reg IH]; intros w; simpl;
    [apply Moves_refl|].
  eapply Moves_trans; [|apply IH].
  destruct (ListenerType_eqb _ _); [|apply Moves_refl].
  apply Moves_invokeListener.
Qed.

Lemma Moves_historyCall type env w :
  Moves handling (ledgerOf w) (ledgerOf (historyCall type env w)).
Proof.
  unfold historyCall. generalize (Runtime.historyHooks (World.runtime w)).
  intros hooks. revert w.
  induction hooks as [|owner hooks IH]; intros w; simpl; [apply Moves_refl|].
  eapply Moves_trans; [|apply IH]. unfold emitNavigation. apply Moves_emit.
Qed.

Lemma Moves_fireTimer id env w :
  Moves handling (ledgerOf w) (ledgerOf (fireTimer id env w)).
Proof.
  unfold fireTimer.
  destruct (List.find _ _) as [timer|]; [|apply Moves_refl].
  set (w1 := if repeating timer then w else clearTimer id w).
  assert (C1 : calm w w1) by (unfold w1; now destruct (repeating timer)).
  unfold calm in C1. rewrite <- C1.
  destruct (callback timer) as [|owner e|owner e|].
  - pose proof (Moves_processBatchWith (handleEvent env) env w1
                  (fun e w => Moves_handleEvent env e w)) as G2.
    unfold processBatch.
    destruct (processBatchWith (handleEvent env) env w1) as [w2 [|]];
      exact G2.
  - pose proof (Moves_handle owner e env w1) as G2.
    destruct (handle owner e env w1) as [w2 c]; simpl in G2.
    eapply Moves_calm; [apply calm_updCapture|exact G2].
  - destruct (_ !! _) as [cap|]; [|apply Moves_refl].
    simpl.
    eapply Moves_trans; [|apply Moves_handle].
    eapply Moves_calm; [apply calm_updCapture|apply Moves_refl].
  - apply Moves_flushBuffer.
Qed.

Lemma runtime_updCapture owner f w :
  World.runtime (updCapture owner f w) = World.runtime w.
Proof. unfold updCapture. now destruct (_ !! _). Qed.

Lemma ledgerOf_startPrefix sid cfg w :
  ledgerOf (startPrefix sid cfg w) = opened (ledgerOf w).
Proof.
  unfold startPrefix, eventCaptureStart, setTimer. cbv zeta.
  destruct (_ !! _); unfold ledgerOf, opened; simpl;
    rewrite ?chronicle_updCapture, ?history_updCapture, ?runtime_updCapture;
    reflexivity.
Qed.

Lemma Moves_start sid cfg env w :
  Moves (kindsOf (LStart sid cfg)) (ledgerOf w)
        (ledgerOf (start sid cfg env w)).
Proof.
  rewrite start_eq.
  destruct (DOMChronicle.isRecording (World.chronicle w)) eqn:Hrec;
    [apply Moves_refl|].
  eapply (Moves_step (kindsOf (LStart sid cfg)) KOpen);
    [reflexivity|apply move_open; exact Hrec|].
  rewrite <- (ledgerOf_startPrefix sid cfg w).
  destruct (startPrefix_fresh sid cfg w) as (Hs & Hh & Hb & Hsid & _ & Hr).
  generalize dependent (startPrefix sid cfg w). intros wd Hs Hh Hb Hsid Hr.
  unfold captureInitialState. rewrite Hsid.
  destruct (negb (truthy sid)); [apply Moves_refl|].
  apply (Moves_one (kindsOf (LStart sid cfg)) KFirst); [reflexivity|].
  simpl.
  match goal with
  | |- move _ _ (ledgerOf (pushEvent ?e _)) =>
      change (move KFirst (ledgerOf wd) (pushed e (ledgerOf wd)))
  end.
  constructor; try assumption; try reflexivity;
    unfold ledgerOf; simpl; now rewrite ?Hh, ?Hs.
Qed.

Lemma ledgerOf_settle i ok w events awaited :
  (Runtime.outbox (World.runtime w) !! i
   : option (list DOMEvent * bool)) = Some (events, awaited) ->
  ledgerOf (settle i ok w)
  = if ok then settled i events (ledgerOf w) else failed i events (ledgerOf w).
Proof.
  intros H. unfold settle. rewrite H. destruct ok, awaited; reflexivity.
Qed.

Lemma Moves_step_label env l w :
  Moves (kindsOf l) (ledgerOf w) (ledgerOf (step env l w)).
Proof.
  destruct l as [sid cfg| |cfg|i ok|records|id|e|type]; simpl step.
  - apply Moves_start.
  - apply Moves_stop.
  - destruct (DOMChronicle.config _); apply Moves_refl.
  - destruct (Runtime.outbox (World.runtime w) !! i) as [[events awaited]|]
      eqn:E.
    + rewrite (ledgerOf_settle i ok w events awaited E).
      destruct ok.
      * apply (Moves_one (kindsOf (LSettle i true)) KSettled); [reflexivity|].
        now apply move_settled with awaited.
      * apply (Moves_one (kindsOf (LSettle i false)) KFailed); [reflexivity|].
        now apply move_failed with awaited.
    + unfold settle. rewrite E. apply Moves_refl.
  - destruct (MutationCapture.observer _); [|apply Moves_refl].
    eapply Moves_calm; [apply calm_batchMutations|apply Moves_refl].
  - apply Moves_fireTimer.
  - apply Moves_dispatch.
  - apply Moves_historyCall.
Qed.

(** Every run of the content script changes the ledger by the changes of
    its turns. *)
Lemma Moves_run turns : forall w,
  Moves (kindsOfRun turns) (ledgerOf w) (ledgerOf (run turns w)).
Proof.
  induction turns as [|[env l] turns IH]; intros w; [apply Moves_refl|].
  change (run ((env, l) :: turns) w) with (run turns (step env l w)).
  eapply Moves_trans.
  - eapply Moves_weaken; [|apply Moves_step_label].
    intros k Hk. unfold kindsOfRun. simpl. now rewrite Hk.
  - eapply Moves_weaken; [|apply IH].
    intros k Hk. unfold kindsOfRun in *. simpl. rewrite Hk.
    apply orb_true_r.
Qed.

(** *** The limit of a session *)

Lemma counter_bounded k a b :
  move k a b ->
  (counter a <= LIMITS.MAX_EVENTS_PER_SESSION)%N ->
  (counter b <= LIMITS.MAX_EVENTS_PER_SESSION)%N.
Proof.
  intros Hm Ha. destruct Hm; simpl; try assumption.
  - vm_compute. discriminate.
  - rewrite H0. vm_compute. discriminate.
  - unfold taken, flushed.
    destruct (Nat.leb _ _); [destruct (buffer (pushed e l))|]; simpl; lia.
  - unfold flushed. destruct (buffer l); assumption.
Qed.

(** X14: a session accepts at most [MAX_EVENTS_PER_SESSION] events: in
    every run of the content script, the number of events pushed onto the
    buffer since the last [start] is at most 50000. *)
Theorem session_accepts_at_most_the_limit turns :
  (N.of_nat (length (acceptedOf (run turns initial)))
   <= LIMITS.MAX_EVENTS_PER_SESSION)%N.
Proof.
  rewrite <- (good_counter _ (Good_run turns _ Good_initial)).
  change (sequenceOf (run turns initial))
    with (counter (ledgerOf (run turns initial))).
  apply (Moves_invariant (kindsOfRun turns)
           (fun l => (counter l <= LIMITS.MAX_EVENTS_PER_SESSION)%N)
           (ledgerOf initial)).
  - intros k a b _. apply counter_bounded.
  - apply Moves_run.
  - vm_compute. discriminate.
Qed.

(** *** Conservation of the events *)

Lemma conserved_pushed e l : conserved l -> conserved (pushed e l).
Proof.
  unfold conserved, pushed, push. simpl. intros H.
  rewrite !app_assoc. apply Permutation_app_tail.
  now rewrite <- app_assoc.
Qed.

Lemma conserved_flushed awaited l : conserved l -> conserved (flushed awaited l).
Proof.
  unfold conserved, flushed. intros H.
  destruct (buffer l) as [|x xs] eqn:E; [now rewrite E|].
  simpl. unfold push. rewrite map_app, concat_app. simpl.
  now rewrite !app_nil_r.
Qed.

Lemma inflight_taken (l : list (list DOMEvent * bool)) i events awaited :
  l !! i = Some (events, awaited) ->
  Permutation (concat (map fst l))
              (app events (concat (map fst (delete i l)))).
Proof.
  intros H. apply delete_Permutation in H.
  rewrite <- !flat_map_concat_map.
  change (app events (flat_map fst (delete i l)))
    with (flat_map fst ((events, awaited) :: delete i l)).
  now apply Permutation_flat_map.
Qed.

Lemma conserved_move k a b :
  k <> KOpen -> k <> KFirst -> move k a b -> conserved a -> conserved b.
Proof.
  intros H1 H2 Hm Ha. destruct Hm; try contradiction.
  - unfold taken. destruct (Nat.leb _ _).
    + now apply conserved_flushed, conserved_pushed.
    + now apply conserved_pushed.
  - now apply conserved_flushed.
  - exact Ha.
  - unfold conserved, settled, push in *. simpl.
    rewrite Ha, concat_app. simpl. rewrite app_nil_r.
    rewrite (inflight_taken _ _ _ _ H).
    rewrite <- !app_assoc. apply Permutation_app_head.
    reflexivity.
  - unfold conserved, failed in *. simpl.
    rewrite Ha, (inflight_taken _ _ _ _ H).
    apply Permutation_app_head. rewrite !app_assoc.
    apply Permutation_app_tail. apply Permutation_app_comm.
Qed.

Lemma kindsOfRun_notStart turns k :
  forallb notStart turns = true ->
  kindsOfRun turns k = true -> k <> KOpen /\ k <> KFirst.
Proof.
  unfold kindsOfRun. induction turns as [|[env l] turns IH]; simpl;
    [discriminate|].
  intros H. apply andb_prop in H as [Hl Hr].
  intros Hk. apply orb_prop in Hk as [Hk|Hk]; [|now apply IH].
  destruct l as [| | |i [|]| | | |]; try discriminate;
    destruct k; try discriminate; split; discriminate.
Qed.

Lemma conserved_start sid cfg env :
  conserved (ledgerOf (start sid cfg env initial)).
Proof.
  assert (Q : inflight (ledgerOf (start sid cfg env initial)) = [] /\
              delivered (ledgerOf (start sid cfg env initial)) = [] /\
              accepted (ledgerOf (start sid cfg env initial))
              = buffer (ledgerOf (start sid cfg env initial))).
  { apply (Moves_invariant (kindsOf (LStart sid cfg))
             (fun l => inflight l = [] /\ delivered l = [] /\
                       accepted l = buffer l)
             (ledgerOf initial)).
    - intros k a b Hk Hm (Q1 & Q2 & Q3).
      destruct Hm; try discriminate; simpl; repeat split; try assumption.
      now rewrite Q3.
    - apply Moves_start.
    - repeat split. }
  destruct Q as (Q1 & Q2 & Q3). unfold conserved. rewrite Q1, Q2, Q3.
  cbn [concat map app]. reflexivity.
Qed.

Lemma NoDup_map_injective {A C : Type} (f : A -> C) (l : list A) :
  (forall x y, f x = f y -> x = y) -> List.NoDup l -> List.NoDup (map f l).
Proof.
  intros Hf. induction 1 as [|x l Hx Hl IH]; simpl; constructor;
    [|assumption].
  intros Hin. apply List.in_map_iff in Hin as (y & Hy & Hin).
  apply Hf in Hy. now subst.
Qed.

(** X15: no event is lost or doubled between the buffer and the background
    script.  In a session started on a freshly loaded page, and until the
    next [start], whatever happens (messages that fail and are put back,
    the limit reached, [stop]), the events accepted are, as a multiset, the
    events delivered, those of the messages on their way, and those in the
    buffer; their sequence numbers are pairwise distinct. *)
Theorem accepted_events_conserved sid cfg env turns :
  forallb notStart turns = true ->
  let w := run turns (start sid cfg env initial) in
  Permutation (acceptedOf w) (eventStream w) /\
  List.NoDup (map DOMEvent.sequence (eventStream w)).
Proof.
  intros H. cbv zeta.
  assert (P : Permutation (acceptedOf (run turns (start sid cfg env initial)))
                (eventStream (run turns (start sid cfg env initial)))).
  { change (conserved (ledgerOf (run turns (start sid cfg env initial)))).
    apply (Moves_invariant (kindsOfRun turns) conserved
             (ledgerOf (start sid cfg env initial))).
    - intros k a b Hk. destruct (kindsOfRun_notStart turns k H Hk).
      now apply conserved_move.
    - apply Moves_run.
    - apply conserved_start. }
  split; [exact P|].
  eapply Permutation_NoDup; [apply Permutation_map, P|].
  rewrite (good_numbers _
             (Good_run turns _ (Good_start sid cfg env _ Good_initial))).
  apply NoDup_map_injective; [|apply List.seq_NoDup].
  intros x y. apply Nat2N.inj.
Qed.

(** *** The bound of the buffer *)

Lemma buffer_bounded k a b :
  k <> KFailed -> move k a b ->
  length (buffer a) < LIMITS.MAX_EVENTS_IN_MEMORY ->
  length (buffer b) < LIMITS.MAX_EVENTS_IN_MEMORY.
Proof.
  assert (F : forall awaited l,
             length (buffer l) < LIMITS.MAX_EVENTS_IN_MEMORY \/ buffer l <> [] ->
             length (buffer (flushed awaited l))
             < LIMITS.MAX_EVENTS_IN_MEMORY).
  { intros awaited l Hl. unfold flushed.
    destruct (buffer l) eqn:E.
    - rewrite E. destruct Hl as [Hl|Hl]; [exact Hl|contradiction].
    - cbn [buffer length]. vm_compute. lia. }
  intros Hk Hm Ha. destruct Hm; try contradiction.
  - cbn [opened buffer length]. vm_compute. lia.
  - unfold pushed, push. cbn [buffer]. rewrite H1. vm_compute. lia.
  - unfold taken.
    destruct (Nat.leb_spec LIMITS.MAX_EVENTS_IN_MEMORY
                (length (buffer (pushed e l)))) as [Hge|Hlt]; [|exact Hlt].
    apply F. right. unfold pushed, push. cbn [buffer].
    now destruct (buffer l).
  - apply F. now left.
  - exact Ha.
  - exact Ha.
Qed.

Lemma kindsOfRun_notFailure turns :
  forallb notFailure turns = true -> kindsOfRun turns KFailed = false.
Proof.
  unfold kindsOfRun. induction turns as [|[env l] turns IH]; simpl;
    [reflexivity|].
  intros H. apply andb_prop in H as [Hl Hr]. rewrite (IH Hr), orb_false_r.
  now destruct l as [| | |i [|]| | | |].
Qed.

(** X16: the buffer stays below [MAX_EVENTS_IN_MEMORY] as long as no
    message fails: in every run in which no call of [sendMessage] is
    rejected, the buffer holds fewer than 500 events after each turn. *)
Theorem buffer_below_limit turns :
  forallb notFailure turns = true ->
  length (DOMChronicle.eventBuffer (World.chronicle (run turns initial)))
  < LIMITS.MAX_EVENTS_IN_MEMORY.
Proof.
  intros H.
  change (DOMChronicle.eventBuffer (World.chronicle (run turns initial)))
    with (buffer (ledgerOf (run turns initial))).
  apply (Moves_invariant (kindsOfRun turns)
           (fun l => length (buffer l) < LIMITS.MAX_EVENTS_IN_MEMORY)
           (ledgerOf initial)).
  - intros k a b Hk. apply buffer_bounded. intros ->.
    now rewrite (kindsOfRun_notFailure turns H) in Hk.
  - apply Moves_run.
  - vm_compute. lia.
Qed.

(** *** While no recording is running *)

(** X17: while no recording is running nothing is accepted.  From a state
    in which the content script does not record, whatever timers fire,
    notifications arrive and messages settle, until the next [start] no
    event is pushed onto the buffer, the counter stays as it is and the
    content script does not record. *)
Theorem nothing_accepted_while_stopped (w : World.t) turns :
  DOMChronicle.isRecording (World.chronicle w) = false ->
  forallb notStart turns = true ->
  let w' := run turns w in
  acceptedOf w' = acceptedOf w /\
  sequenceOf w' = sequenceOf w /\
  DOMChronicle.isRecording (World.chronicle w') = false.
Proof.
  intros Hrec H. cbv zeta.
  assert (Q : recording (ledgerOf (run turns w)) = false /\
              accepted (ledgerOf (run turns w)) = accepted (ledgerOf w) /\
              counter (ledgerOf (run turns w)) = counter (ledgerOf w)).
  { apply (Moves_invariant (kindsOfRun turns)
             (fun l => recording l = false /\
                       accepted l = accepted (ledgerOf w) /\
                       counter l = counter (ledgerOf w))
             (ledgerOf w)).
    - intros k a b Hk Hm (Q1 & Q2 & Q3).
      destruct (kindsOfRun_notStart turns k H Hk) as [N1 N2].
      destruct Hm; try contradiction; try congruence; simpl;
        repeat split; try assumption.
      all: unfold flushed; destruct (buffer l); simpl; assumption.
    - apply Moves_run.
    - repeat split. exact Hrec. }
  destruct Q as (Q1 & Q2 & Q3). repeat split; assumption.
Qed.

End Generic.

Lemma accepted_events_conserved_witness :
  Permutation
    (acceptedOf
       (run (B := plainBrowser)
            [(sampleEnv 10, LDispatch sampleClick); (sampleEnv 40, LStop);
             (sampleEnv 50, LSettle 0 false)]
            (start (RT := miniRE) (B := plainBrowser) "s1" sampleConfig
                   (sampleEnv 0) initial)))
    (eventStream
       (run (B := plainBrowser)
            [(sampleEnv 10, LDispatch sampleClick); (sampleEnv 40, LStop);
             (sampleEnv 50, LSettle 0 false)]
            (start (RT := miniRE) (B := plainBrowser) "s1" sampleConfig
                   (sampleEnv 0) initial))).
Proof.
  apply (accepted_events_conserved (RT := miniRE) (B := plainBrowser) "s1"
           sampleConfig (sampleEnv 0)
           [(sampleEnv 10, LDispatch sampleClick); (sampleEnv 40, LStop);
            (sampleEnv 50, LSettle 0 false)] eq_refl).
Defined.

Lemma buffer_below_limit_witness :
  length (DOMChronicle.eventBuffer
            (World.chronicle
               (run (RT := miniRE) (B := plainBrowser)
                    [(sampleEnv 0, LStart "s1" sampleConfig);
                     (sampleEnv 10, LDispatch sampleClick)] initial)))
  < LIMITS.MAX_EVENTS_IN_MEMORY.
Proof.
  apply (buffer_below_limit (RT := miniRE) (B := plainBrowser)
           [(sampleEnv 0, LStart "s1" sampleConfig);
            (sampleEnv 10, LDispatch sampleClick)] eq_refl).
Defined.

Lemma nothing_accepted_while_stopped_witness :
  acceptedOf
    (run (B := plainBrowser)
         [(sampleEnv 200, LTimer 3); (sampleEnv 210, LDispatch sampleClick)]
         (stop (B := plainBrowser) (sampleEnv 40) pendingWorld))
  = acceptedOf (stop (B := plainBrowser) (sampleEnv 40) pendingWorld).
Proof.
  apply (nothing_accepted_while_stopped (RT := miniRE) (B := plainBrowser)
           (stop (B := plainBrowser) (sampleEnv 40) pendingWorld)
           [(sampleEnv 200, LTimer 3); (sampleEnv 210, LDispatch sampleClick)]);
    vm_compute; reflexivity.
Defined.
End LedgerFacts.
(* --------------------------------------------------------------------- *)
(** ** The micro-batch of the mutation capture and its timer *)

Module BatchFacts.
Import Dom Chronicle.
Import ChronicleSpec ChronicleFacts RedactionEngineFacts LedgerFacts BatchSpec.

Lemma incl_filter_filter {A : Type} (p q : A -> bool) (l : list A) :
  incl (List.filter p (List.filter q l)) (List.filter p l).
Proof.
  intros x Hx. apply List.filter_In in Hx as [Hx Hp].
  apply List.filter_In in Hx as [Hx _]. apply List.filter_In. now split.
Qed.

Section Generic.
Context {RT : RegExpRuntime} {B : Browser}.

Lemma process_type this (e r : DOMEvent) :
  RedactionEngine.process this e = Some r -> DOMEvent.type r = DOMEvent.type e.
Proof.
  rewrite process_steps.
  destruct (match DOMEvent.type e with user_input => _ | _ => _ end);
    [|discriminate].
  intros H. injection H as <-. reflexivity.
Qed.

Lemma track_refl s w : track s w w.
Proof. split; [reflexivity|apply incl_refl|intros _; apply incl_refl]. Qed.

Lemma track_trans s w1 w2 w3 : track s w1 w2 -> track s w2 w3 -> track s w1 w3.
Proof.
  intros [A1 A2 A3] [B1 B2 B3]. split.
  - congruence.
  - eapply incl_tran; eassumption.
  - intros Hs. eapply incl_tran; eauto.
Qed.

Lemma track_weaken s w w' : track true w w' -> track s w w'.
Proof. intros [A1 A2 A3]. split; auto. Qed.

(** A step that leaves [batchTimeout], the timers and the history as they
    are. *)
Lemma track_frame s w w' :
  MutationCapture.batchTimeout (World.mutationCapture w')
  = MutationCapture.batchTimeout (World.mutationCapture w) ->
  Runtime.timers (World.runtime w') = Runtime.timers (World.runtime w) ->
  acceptedOf w' = acceptedOf w ->
  track s w w'.
Proof.
  intros H1 H2 H3. split; [assumption| |intros _];
    unfold batchTimers, mutationsOf; rewrite ?H2, ?H3; apply incl_refl.
Qed.

Lemma track_quiet s w w' : quiet w w' -> track s w w'.
Proof.
  intros Q. apply track_frame; try apply Q.
  unfold acceptedOf. now rewrite (quiet_history _ _ Q).
Qed.

Lemma track_updChronicle s f w : track s w (updChronicle f w).
Proof. now apply track_frame. Qed.

Lemma track_updCapture s owner f w : track s w (updCapture owner f w).
Proof. unfold updCapture. destruct (_ !! _); now apply track_frame. Qed.

Lemma track_nextUUID s w : track s w (snd (nextUUID w)).
Proof. now apply track_frame. Qed.

Lemma track_finishStop s w : track s w (finishStop w).
Proof. now apply track_frame. Qed.

Lemma track_flushBuffer s awaited w : track s w (fst (flushBuffer awaited w)).
Proof.
  unfold flushBuffer.
  destruct (DOMChronicle.eventBuffer _); now apply track_frame.
Qed.

Lemma track_clearTimer s id w : track s w (clearTimer id w).
Proof.
  split; [reflexivity| |intros _; apply incl_refl].
  unfold batchTimers, clearTimer. simpl. apply incl_filter_filter.
Qed.

Lemma track_setTimer s cb r w :
  cb <> CbBatch -> track s w (snd (setTimer cb r w)).
Proof.
  intros Hcb. split; [reflexivity| |intros _; apply incl_refl].
  unfold batchTimers, setTimer. simpl. rewrite List.filter_app. simpl.
  unfold isBatchTimer at 2. simpl.
  destruct cb; try contradiction; rewrite app_nil_r; apply incl_refl.
Qed.

Lemma track_eventCaptureStop s owner w : track s w (eventCaptureStop owner w).
Proof.
  unfold eventCaptureStop. destruct (_ !! _); [|apply track_refl].
  eapply track_trans; [|apply track_updCapture]. now apply track_frame.
Qed.

Lemma track_eventCaptureStart s owner sid n w :
  track s w (eventCaptureStart owner sid n w).
Proof.
  unfold eventCaptureStart. destruct (_ !! _); [|apply track_refl].
  eapply track_trans; [apply track_updCapture|]. now apply track_frame.
Qed.

Lemma track_settle s i ok w : track s w (settle i ok w).
Proof.
  unfold settle. destruct (_ !! _) as [[events awaited]|]; [|apply track_refl].
  destruct ok, awaited; now apply track_frame.
Qed.

Lemma track_createEvent s env m w : track s w (fst (createEvent env m w)).
Proof. apply track_quiet, quiet_createEvent. Qed.

(** An event is pushed. *)
Lemma track_pushEvent s e w :
  (s = true -> isMutationEvent e = false) -> track s w (pushEvent e w).
Proof.
  intros He. split; [reflexivity|apply incl_refl|].
  intros Hs. unfold mutationsOf, acceptedOf, pushEvent, push. simpl.
  rewrite List.filter_app. simpl. rewrite (He Hs), app_nil_r.
  apply incl_refl.
Qed.

Lemma track_handleEventWith s stop e w :
  (s = true -> isMutationEvent e = false) ->
  (forall w, track s w (stop w)) ->
  track s w (handleEventWith stop e w).
Proof.
  intros He Hstop. unfold handleEventWith.
  destruct (negb _ || _); [apply track_refl|].
  destruct (N.leb _ _); [apply Hstop|].
  destruct (RedactionEngine.process _ e) as [r|] eqn:Hp; [|apply track_refl].
  match goal with
  | |- track _ _ (if _ then fst (flushBuffer false ?w') else ?w') =>
      assert (T : track s w w')
  end.
  { eapply track_trans; [|apply track_pushEvent].
    - now apply track_frame.
    - intros Hs. unfold isMutationEvent. destruct r; simpl.
      apply process_type in Hp. simpl in Hp. rewrite Hp. now apply He. }
  destruct (Nat.leb _ _); [|exact T].
  eapply track_trans; [exact T|apply track_flushBuffer].
Qed.

Lemma track_stopRest s w : track s w (stopRest w).
Proof.
  unfold stopRest.
  set (w2 := match DOMChronicle.eventCapture (World.chronicle w) with
             | Some owner => eventCaptureStop owner w
             | None => w
             end).
  assert (S2 : track s w w2).
  { unfold w2. destruct (DOMChronicle.eventCapture _);
      [apply track_eventCaptureStop|apply track_refl]. }
  cbv zeta.
  set (w3 := updChronicle (DOMChronicle.set_eventCapture None) w2).
  assert (S3 : track s w w3)
    by (eapply track_trans; [exact S2|apply track_updChronicle]).
  set (w4 := match truthyId (DOMChronicle.flushInterval (World.chronicle w3)) with
             | Some id =>
                 updChronicle (DOMChronicle.set_flushInterval None)
                              (clearTimer id w3)
             | None => w3
             end).
  assert (S4 : track s w w4).
  { unfold w4. destruct (truthyId _); [|assumption].
    eapply track_trans; [exact S3|].
    eapply track_trans; [apply track_clearTimer|apply track_updChronicle]. }
  pose proof (track_trans _ _ _ _ S4 (track_flushBuffer s true w4)) as S5.
  destruct (flushBuffer true w4) as [w5 [|]]; simpl in S5; [assumption|].
  eapply track_trans; [exact S5|apply track_finishStop].
Qed.

(** [mutationCapture.stop()] as [stop] calls it, the recording flag
    cleared: the events of the batch are dropped. *)
Lemma track_mutationCaptureStop s stopFn env w :
  DOMChronicle.isRecording (World.chronicle w) = false ->
  track s w (fst (mutationCaptureStopWith (handleEventWith stopFn) env w)).
Proof.
  intros Hrec. unfold mutationCaptureStopWith.
  destruct (truthyId _) as [id|]; [|now apply track_frame].
  destruct (processBatchWith_stopped stopFn env (clearTimer id w) Hrec)
    as (_ & Hh & Ht & _ & _ & Hb & _).
  assert (T : track s w (fst (processBatchWith (handleEventWith stopFn) env
                                (clearTimer id w)))).
  { eapply track_trans; [apply track_clearTimer|].
    apply track_frame; [exact Hb|exact Ht|].
    unfold acceptedOf. now rewrite Hh. }
  destruct (processBatchWith _ env (clearTimer id w)) as [w1 [|]];
    simpl in *; [|exact T].
  eapply track_trans; [exact T|now apply track_frame].
Qed.

Lemma track_stop s env w : track s w (stop env w).
Proof.
  unfold stop. rewrite stopWith_eq.
  destruct (DOMChronicle.isRecording (World.chronicle w)); [|apply track_refl].
  cbv zeta.
  pose proof (track_mutationCaptureStop s (fun w => w) env
                (updChronicle (DOMChronicle.set_isRecording false) w) eq_refl)
    as T.
  apply (track_trans _ _ _ _ (track_updChronicle s _ w)) in T.
  destruct (snd _); [|exact T].
  eapply track_trans; [exact T|apply track_stopRest].
Qed.

Lemma track_handleEvent s env e w :
  (s = true -> isMutationEvent e = false) -> track s w (handleEvent env e w).
Proof.
  intros He. apply track_handleEventWith; [exact He|].
  intros w0. apply track_stop.
Qed.

Lemma track_emit s owner type target payload env w :
  isMutationType type = false ->
  track s w (fst (emit owner type target payload env w)).
Proof.
  intros Hty. unfold emit. destruct (_ !! _); [|apply track_refl].
  destruct (nextUUID w) as [uuid w1] eqn:E.
  assert (C1 : track s w w1)
    by (replace w1 with (snd (nextUUID w)) by (now rewrite E);
        apply track_nextUUID).
  pose proof (track_trans _ _ _ _ C1
                (track_updCapture s owner
                   (fun cap => EventCapture.set_sequence
                                 (EventCapture.sequence cap + 1)%N cap) w1))
    as C2.
  destruct (SemanticExtractor.describe _ _); simpl; [|exact C2].
  eapply track_trans; [exact C2|]. apply track_handleEvent.
  intros _. exact Hty.
Qed.

Lemma track_handle s owner e env w : track s w (fst (handle owner e env w)).
Proof.
  unfold handle.
  destruct e as [[t|] ? ? ? ?|[t|]|[t|]|[t|]| | |];
    try apply track_refl; now apply track_emit.
Qed.

Lemma track_perform s owner timer env effects w :
  (forall e, timer e <> CbBatch) ->
  track s w (perform owner timer env effects w).
Proof.
  intros Htimer. unfold perform. revert w.
  induction effects as [|eff effects IH]; intros w; simpl; [apply track_refl|].
  eapply track_trans; [|apply IH]. destruct eff.
  - apply track_clearTimer.
  - apply track_setTimer, Htimer.
  - apply track_handle.
Qed.

Lemma track_invokeListener s owner e env w :
  track s w (invokeListener owner e env w).
Proof.
  unfold invokeListener. destruct (_ !! _) as [cap|]; [|apply track_refl].
  destruct e; try apply track_handle.
  - destruct (Timing.debounced _ _ _ _) as [st effects].
    eapply track_trans; [apply track_updCapture|].
    apply track_perform. discriminate.
  - destruct (Timing.throttled _ _ _ _ _) as [st effects].
    eapply track_trans; [apply track_updCapture|].
    apply track_perform. discriminate.
Qed.

Lemma track_dispatch s e env w : track s w (dispatch e env w).
Proof.
  unfold dispatch. generalize (Runtime.registry (World.runtime w)).
  intros reg. revert w.
  induction reg as [|[[owner ty] cap] reg IH]; intros w; simpl;
    [apply track_refl|].
  eapply track_trans; [|apply IH].
  destruct (ListenerType_eqb _ _); [|apply track_refl].
  apply track_invokeListener.
Qed.

Lemma track_historyCall s type env w : track s w (historyCall type env w).
Proof.
  unfold historyCall. generalize (Runtime.historyHooks (World.runtime w)).
  intros hooks. revert w.
  induction hooks as [|owner hooks IH]; intros w; simpl; [apply track_refl|].
  eapply track_trans; [|apply IH]. unfold emitNavigation.
  now apply track_emit.
Qed.

Lemma mutationCapture_updCapture owner f w :
  World.mutationCapture (updCapture owner f w) = World.mutationCapture w.
Proof. unfold updCapture. now destruct (_ !! _). Qed.

(** [start] empties the history and records the initial state, which is
    no mutation. *)
Lemma track_start s sid cfg env w : track s w (start sid cfg env w).
Proof.
  rewrite start_eq.
  destruct (DOMChronicle.isRecording (World.chronicle w)); [apply track_refl|].
  destruct (startPrefix_fresh sid cfg w) as (Hs & Hh & Hb & Hsid & _ & Hr).
  assert (P : MutationCapture.batchTimeout
                (World.mutationCapture (startPrefix sid cfg w))
              = MutationCapture.batchTimeout (World.mutationCapture w) /\
              incl (batchTimers (startPrefix sid cfg w)) (batchTimers w)).
  { unfold startPrefix, eventCaptureStart, setTimer, batchTimers. cbv zeta.
    destruct (_ !! _); simpl;
      rewrite ?mutationCapture_updCapture, ?runtime_updCapture; simpl;
      rewrite List.filter_app, app_nil_r; split;
      try reflexivity; apply incl_refl. }
  destruct P as [P1 P2].
  generalize dependent (startPrefix sid cfg w). intros wd Hs Hh Hb Hsid Hr P1 P2.
  assert (T : track s w wd).
  { split; [exact P1|exact P2|].
    intros _. unfold mutationsOf, acceptedOf. rewrite Hh. simpl.
    intros x []. }
  unfold captureInitialState. rewrite Hsid.
  destruct (negb (truthy sid)); [exact T|].
  eapply track_trans; [exact T|]. simpl.
  eapply track_trans; [|apply track_pushEvent; reflexivity].
  now apply track_frame.
Qed.

(** The timer of the micro-batch runs: mutations are recorded, no timer
    of the micro-batch is set. *)
Lemma track_processBatch env w : track false w (fst (processBatch env w)).
Proof.
  unfold processBatch, processBatchWith.
  assert (G0 : track false w
                 (fst (updMutationCapture
                         (MutationCapture.set_batchBuffer []) w, true)))
    by now apply track_frame.
  revert G0.
  generalize (updMutationCapture (MutationCapture.set_batchBuffer []) w, true).
  generalize (MutationCapture.batchBuffer (World.mutationCapture w)).
  intros ms.
  induction ms as [|m ms IH]; intros [w0 b] G0; simpl; [assumption|].
  apply IH. destruct b; [|assumption]. simpl in G0.
  pose proof (track_createEvent false env m w0) as C.
  destruct (createEvent env m w0) as [w1 [[ev|]|]]; simpl in *.
  - eapply track_trans; [exact G0|]. eapply track_trans; [exact C|].
    apply track_handleEvent. discriminate.
  - eapply track_trans; eassumption.
  - eapply track_trans; eassumption.
Qed.

(** A timer that is not the one of the micro-batch runs. *)
Lemma track_fireTimer s id env w :
  match List.find (fun t => Nat.eqb (tid t) id)
                  (Runtime.timers (World.runtime w)) with
  | Some timer => isBatchTimer timer = false
  | None => True
  end ->
  track s w (fireTimer id env w).
Proof.
  unfold fireTimer.
  destruct (List.find _ _) as [timer|]; [|intros _; apply track_refl].
  intros Hcb.
  set (w1 := if repeating timer then w else clearTimer id w).
  assert (C1 : track s w w1)
    by (unfold w1; destruct (repeating timer);
        [apply track_refl|apply track_clearTimer]).
  unfold isBatchTimer in Hcb.
  destruct (callback timer) as [|owner e|owner e|]; [discriminate| | |].
  - pose proof (track_handle s owner e env w1) as G2.
    destruct (handle owner e env w1) as [w2 c]; simpl in G2.
    eapply track_trans; [exact C1|].
    eapply track_trans; [exact G2|apply track_updCapture].
  - destruct (_ !! _) as [cap|]; [|exact C1].
    simpl. eapply track_trans; [exact C1|].
    eapply track_trans; [apply track_updCapture|apply track_handle].
  - eapply track_trans; [exact C1|apply track_flushBuffer].
Qed.

(** *** Once [batchTimeout] is stale *)

Lemma stale_track s w w' : track s w w' -> stale w -> stale w'.
Proof.
  intros [T1 T2 _] [S1 S2]. split; [now rewrite T1|].
  rewrite S2 in T2. destruct (batchTimers w') as [|t ts]; [reflexivity|].
  destruct (T2 t). now left.
Qed.

Lemma find_batchTimers id w timer :
  List.find (fun t => Nat.eqb (tid t) id) (Runtime.timers (World.runtime w))
  = Some timer ->
  isBatchTimer timer = true ->
  In timer (batchTimers w) /\ tid timer = id.
Proof.
  intros Hf Hb. apply List.find_some in Hf as [Hin Hid].
  split; [|now apply Nat.eqb_eq]. apply List.filter_In. now split.
Qed.

Lemma track_step_stale env l w : stale w -> track true w (step env l w).
Proof.
  intros [S1 S2].
  destruct l as [sid cfg| |cfg|i ok|records|id|e|type]; simpl step.
  - apply track_start.
  - apply track_stop.
  - destruct (DOMChronicle.config _);
      [apply track_updChronicle|apply track_refl].
  - apply track_settle.
  - destruct (MutationCapture.observer _); [|apply track_refl].
    unfold batchMutations.
    destruct (MutationCapture.batchTimeout (World.mutationCapture w));
      [|contradiction].
    now apply track_frame.
  - apply track_fireTimer.
    destruct (List.find _ _) as [timer|] eqn:Hf; [|exact I].
    destruct (isBatchTimer timer) eqn:Hb; [|reflexivity].
    destruct (find_batchTimers id w timer Hf Hb) as [Hin _].
    rewrite S2 in Hin. destruct Hin.
  - apply track_dispatch.
  - apply track_historyCall.
Qed.

Lemma track_run_stale turns : forall w,
  stale w -> track true w (run turns w).
Proof.
  induction turns as [|[env l] turns IH]; intros w Hw; [apply track_refl|].
  change (run ((env, l) :: turns) w) with (run turns (step env l w)).
  pose proof (track_step_stale env l w Hw) as T.
  eapply track_trans; [exact T|]. apply IH. eapply stale_track; eassumption.
Qed.

(** *** At most one timer of the micro-batch *)

Lemma oneBatch_track s w w' : track s w w' -> oneBatch w -> oneBatch w'.
Proof.
  intros [T1 T2 _] H. unfold oneBatch in *. rewrite T1.
  apply List.Forall_forall. intros t Ht.
  rewrite List.Forall_forall in H. apply H, T2, Ht.
Qed.

Lemma oneBatch_none w :
  oneBatch w ->
  MutationCapture.batchTimeout (World.mutationCapture w) = None ->
  batchTimers w = [].
Proof.
  unfold oneBatch. intros H Hn. rewrite Hn in H.
  destruct (batchTimers w) as [|t ts]; [reflexivity|].
  inversion H as [|? ? [Ht _] _]; discriminate.
Qed.

Lemma batchTimers_clearTimer id w :
  oneBatch w ->
  MutationCapture.batchTimeout (World.mutationCapture w) = Some id ->
  batchTimers (clearTimer id w) = [].
Proof.
  unfold oneBatch. intros H Hid. rewrite Hid in H.
  unfold batchTimers, clearTimer in *. simpl.
  induction (Runtime.timers (World.runtime w)) as [|t ts IH];
    [reflexivity|].
  simpl in *. destruct (isBatchTimer t) eqn:Hb.
  - inversion H as [|? ? [Ht _] Hts]; subst. injection Ht as ->.
    rewrite Nat.eqb_refl. simpl. now apply IH.
  - destruct (negb _); simpl; rewrite ?Hb; now apply IH.
Qed.

Lemma oneBatch_nil w : batchTimers w = [] -> oneBatch w.
Proof. unfold oneBatch. intros ->. constructor. Qed.

Lemma batchTimers_track s w w' :
  track s w w' -> batchTimers w = [] -> batchTimers w' = [].
Proof.
  intros [_ T2 _] Hn. rewrite Hn in T2.
  destruct (batchTimers w') as [|t ts]; [reflexivity|].
  destruct (T2 t). now left.
Qed.

Lemma oneBatch_step env l w : oneBatch w -> oneBatch (step env l w).
Proof.
  intros H.
  destruct l as [sid cfg| |cfg|i ok|records|id|e|type]; simpl step.
  - eapply oneBatch_track; [apply (track_start true)|exact H].
  - eapply oneBatch_track; [apply (track_stop true)|exact H].
  - destruct (DOMChronicle.config _); [|exact H].
    eapply oneBatch_track; [apply (track_updChronicle true)|exact H].
  - eapply oneBatch_track; [apply (track_settle true)|exact H].
  - destruct (MutationCapture.observer _); [|exact H].
    unfold batchMutations.
    destruct (MutationCapture.batchTimeout (World.mutationCapture w)) eqn:Hb.
    + eapply oneBatch_track; [|exact H]. apply (track_frame true); try easy.
    + pose proof (oneBatch_none w H Hb) as Hn.
      unfold oneBatch, batchTimers, setTimer in *. simpl.
      rewrite List.filter_app, Hn. simpl. repeat constructor.
  - destruct (List.find (fun t => Nat.eqb (tid t) id)
                (Runtime.timers (World.runtime w))) as [timer|] eqn:Hf.
    + destruct (isBatchTimer timer) eqn:Hb.
      * destruct (find_batchTimers id w timer Hf Hb) as [Hin Hid].
        assert (Ht : MutationCapture.batchTimeout (World.mutationCapture w)
                     = Some id /\ repeating timer = false).
        { unfold oneBatch in H. rewrite List.Forall_forall in H.
          destruct (H timer Hin) as [-> Hr]. now rewrite Hid. }
        destruct Ht as [Ht Hr].
        unfold fireTimer. rewrite Hf, Hr. unfold isBatchTimer in Hb.
        destruct (callback timer); try discriminate.
        pose proof (batchTimers_track _ _ _
                      (track_processBatch env (clearTimer id w))
                      (batchTimers_clearTimer id w H Ht)) as Hn.
        destruct (processBatch env (clearTimer id w)) as [w2 [|]];
          apply oneBatch_nil; exact Hn.
      * eapply oneBatch_track; [|exact H].
        apply (track_fireTimer true). now rewrite Hf.
    + eapply oneBatch_track; [|exact H].
      apply (track_fireTimer true). now rewrite Hf.
  - eapply oneBatch_track; [apply (track_dispatch true)|exact H].
  - eapply oneBatch_track; [apply (track_historyCall true)|exact H].
Qed.

Lemma oneBatch_run turns : forall w, oneBatch w -> oneBatch (run turns w).
Proof.
  induction turns as [|[env l] turns IH]; intros w H; [exact H|].
  change (run ((env, l) :: turns) w) with (run turns (step env l w)).
  apply IH, oneBatch_step, H.
Qed.

Lemma truthyId_Some o id : truthyId o = Some id -> o = Some id.
Proof.
  destruct o as [x|]; [|discriminate]. simpl.
  destruct (Nat.eqb x 0); [discriminate|]. intros H. now injection H as ->.
Qed.

(** [stop] with a batch pending leaves [batchTimeout] stale. *)
Lemma stale_stop env w id :
  oneBatch w ->
  DOMChronicle.isRecording (World.chronicle w) = true ->
  truthyId (MutationCapture.batchTimeout (World.mutationCapture w)) = Some id ->
  stale (stop env w).
Proof.
  intros H Hrec Hid. unfold stop. rewrite stopWith_eq, Hrec. cbv zeta.
  set (w0 := updChronicle (DOMChronicle.set_isRecording false) w).
  assert (S0 : stale (fst (mutationCaptureStopWith
                             (handleEventWith (fun w => w)) env w0))).
  { unfold mutationCaptureStopWith.
    change (MutationCapture.batchTimeout (World.mutationCapture w0))
      with (MutationCapture.batchTimeout (World.mutationCapture w)).
    rewrite Hid.
    destruct (processBatchWith_stopped (fun w => w) env (clearTimer id w0)
                eq_refl) as (_ & _ & Ht & _ & _ & Hb & _).
    assert (S1 : stale (fst (processBatchWith
                               (handleEventWith (fun w => w)) env
                               (clearTimer id w0)))).
    { split.
      - rewrite Hb. simpl. apply truthyId_Some in Hid. now rewrite Hid.
      - unfold batchTimers. rewrite Ht.
        apply (batchTimers_clearTimer id w0).
        + exact H.
        + now apply truthyId_Some. }
    destruct (processBatchWith _ env (clearTimer id w0)) as [w1 [|]];
      simpl in *; exact S1. }
  destruct (snd _); [|exact S0].
  eapply stale_track; [apply (track_stopRest true)|exact S0].
Qed.

Lemma mutationsOf_start sid cfg env w :
  DOMChronicle.isRecording (World.chronicle w) = false ->
  mutationsOf (start sid cfg env w) = [].
Proof.
  intros Hrec. rewrite start_eq, Hrec.
  destruct (startPrefix_fresh sid cfg w) as (Hs & Hh & Hb & Hsid & _ & Hr).
  generalize dependent (startPrefix sid cfg w). intros wd Hs Hh Hb Hsid Hr.
  unfold captureInitialState. rewrite Hsid.
  unfold mutationsOf, acceptedOf.
  destruct (negb (truthy sid)); [now rewrite Hh|].
  simpl. now rewrite Hh.
Qed.

(** X18: a recording stopped while a micro-batch of mutations is pending
    is the end of the mutations recorded on the page.  [stop] clears the
    timer of the batch and leaves [batchTimeout] set, and nothing resets
    it: whatever follows, no mutation is recorded any more, and a recording
    started later records no mutation at all. *)
Theorem no_mutation_after_stop_with_pending_batch turns env id later :
  let w := run turns initial in
  DOMChronicle.isRecording (World.chronicle w) = true ->
  truthyId (MutationCapture.batchTimeout (World.mutationCapture w)) = Some id ->
  let w' := run later (stop env w) in
  incl (mutationsOf w') (mutationsOf w) /\
  forall sid cfg env' rest,
    DOMChronicle.isRecording (World.chronicle w') = false ->
    mutationsOf (run rest (start sid cfg env' w')) = [].
Proof.
  intros w Hrec Hid w'.
  assert (H : oneBatch w).
  { apply oneBatch_run, oneBatch_nil. reflexivity. }
  pose proof (stale_stop env w id H Hrec Hid) as S.
  pose proof (track_run_stale later _ S) as T. fold w' in T.
  split.
  - eapply incl_tran; [apply (track_mutations _ _ _ T eq_refl)|].
    apply (track_mutations _ _ _ (track_stop true env w) eq_refl).
  - intros sid cfg env' rest Hrec'.
    pose proof (stale_track _ _ _ T S) as S'.
    pose proof (stale_track _ _ _ (track_start true sid cfg env' w') S') as S2.
    pose proof (track_mutations _ _ _ (track_run_stale rest _ S2) eq_refl)
      as I.
    rewrite (mutationsOf_start sid cfg env' w' Hrec') in I.
    destruct (mutationsOf _) as [|x xs]; [reflexivity|].
    destruct (I x). now left.
Qed.

(** The timer of the batch runs and [processBatch] throws. *)
Lemma stale_thrown id env w :
  oneBatch w -> batchThrows id env w -> stale (fireTimer id env w).
Proof.
  intros H [Hf Hthrown]. unfold fireTimer.
  destruct (List.find (fun t => Nat.eqb (tid t) id)
              (Runtime.timers (World.runtime w))) as [timer|] eqn:E;
    [|contradiction].
  destruct (find_batchTimers id w timer E Hf) as [Hin Hid].
  assert (Ht : MutationCapture.batchTimeout (World.mutationCapture w)
               = Some id /\ repeating timer = false).
  { unfold oneBatch in H. rewrite List.Forall_forall in H.
    destruct (H timer Hin) as [-> Hr]. now rewrite Hid. }
  destruct Ht as [Ht Hr]. rewrite Hr.
  unfold isBatchTimer in Hf. destruct (callback timer); try discriminate.
  pose proof (track_processBatch env (clearTimer id w)) as T.
  pose proof (batchTimers_track _ _ _ T (batchTimers_clearTimer id w H Ht))
    as Hn.
  destruct (processBatch env (clearTimer id w)) as [w2 c]. simpl in *.
  subst c. split; [|exact Hn].
  rewrite (track_batchTimeout _ _ _ T). simpl. now rewrite Ht.
Qed.

(** X28: an exception in the callback of the batch timer is the end of
    the mutations recorded on the page.  When [describe] throws for the
    target of a mutation of the batch (its [id] makes the selector of
    [findAssociatedLabel] invalid), the callback ends before it resets
    [batchTimeout]: the rest of the batch is dropped, no timer is set
    again, and whatever follows, no further mutation is recorded, in this
    session or in a later one. *)
Theorem no_mutation_after_exception_in_batch turns id env later :
  let w := run turns initial in
  batchThrows id env w ->
  let w' := run later (fireTimer id env w) in
  incl (mutationsOf w') (mutationsOf (fireTimer id env w)) /\
  forall sid cfg env' rest,
    DOMChronicle.isRecording (World.chronicle w') = false ->
    mutationsOf (run rest (start sid cfg env' w')) = [].
Proof.
  intros w Hthrown w'.
  assert (H : oneBatch w).
  { apply oneBatch_run, oneBatch_nil. reflexivity. }
  pose proof (stale_thrown id env w H Hthrown) as S.
  pose proof (track_run_stale later _ S) as T. fold w' in T.
  split; [apply (track_mutations _ _ _ T eq_refl)|].
  intros sid cfg env' rest Hrec'.
  pose proof (stale_track _ _ _ T S) as S'.
  pose proof (stale_track _ _ _ (track_start true sid cfg env' w') S') as S2.
  pose proof (track_mutations _ _ _ (track_run_stale rest _ S2) eq_refl) as I.
  rewrite (mutationsOf_start sid cfg env' w' Hrec') in I.
  destruct (mutationsOf _) as [|x xs]; [reflexivity|].
  destruct (I x). now left.
Qed.

End Generic.

Lemma no_mutation_after_exception_in_batch_witness :
  incl
    (mutationsOf
       (run (RT := miniRE) (B := plainBrowser) laterMutation
          (fireTimer (B := plainBrowser) 2 (quotedEnv 80)
             (run (B := plainBrowser) quotedBatch initial))))
    (mutationsOf
       (fireTimer (RT := miniRE) (B := plainBrowser) 2 (quotedEnv 80)
          (run (B := plainBrowser) quotedBatch initial))).
Proof.
  apply (proj1 (no_mutation_after_exception_in_batch
                  (RT := miniRE) (B := plainBrowser)
                  quotedBatch 2 (quotedEnv 80) laterMutation
                  (conj eq_refl eq_refl))).
Defined.

Lemma no_mutation_after_stop_with_pending_batch_witness :
  mutationsOf
    (run (RT := miniRE) (B := plainBrowser) (List.tl secondSession)
       (start (B := plainBrowser) "s2" sampleConfig (sampleEnv 200)
          (run (B := plainBrowser) []
             (stop (B := plainBrowser) (sampleEnv 100)
                (run (B := plainBrowser) batchedTwice initial)))))
  = [].
Proof.
  apply (proj2 (no_mutation_after_stop_with_pending_batch
                  (RT := miniRE) (B := plainBrowser)
                  batchedTwice (sampleEnv 100) 3 [] eq_refl eq_refl)).
  reflexivity.
Defined.

End BatchFacts.
(* --------------------------------------------------------------------- *)
(** ** The wrappers of the history functions *)

Module HooksFacts.
Import Dom Chronicle.
Import ChronicleSpec ChronicleFacts RedactionEngineFacts LedgerFacts HooksSpec.

Lemma map_insert_keep {A C : Type} (g : A -> C) (l : list A) i x y :
  l !! i = Some x -> g y = g x -> map g (<[i := y]> l) = map g l.
Proof.
  revert i. induction l as [|a l IH]; intros [|i] H Hg; try discriminate.
  - injection H as ->. simpl. now rewrite Hg.
  - simpl. f_equal. now apply IH.
Qed.

Lemma lookup_map_Some {A C : Type} (g : A -> C) (l : list A) i c :
  map g l !! i = Some c -> exists x, l !! i = Some x /\ g x = c.
Proof.
  revert i. induction l as [|a l IH]; intros [|i] H; try discriminate.
  - injection H as <-. now exists a.
  - now apply IH.
Qed.

Section Generic.
Context {RT : RegExpRuntime} {B : Browser}.

Lemma process_sessionId this (e r : DOMEvent) :
  RedactionEngine.process this e = Some r ->
  DOMEvent.sessionId r = DOMEvent.sessionId e /\
  DOMEvent.type r = DOMEvent.type e.
Proof.
  rewrite process_steps.
  destruct (match DOMEvent.type e with user_input => _ | _ => _ end);
    [|discriminate].
  intros H. injection H as <-. split; reflexivity.
Qed.

Lemma keep_refl w : keep w w.
Proof. split; reflexivity. Qed.

Lemma keep_trans w1 w2 w3 : keep w1 w2 -> keep w2 w3 -> keep w1 w3.
Proof. intros [A1 A2] [B1 B2]. split; congruence. Qed.

Lemma keep_frame w w' :
  Runtime.historyHooks (World.runtime w')
  = Runtime.historyHooks (World.runtime w) ->
  World.captures w' = World.captures w ->
  keep w w'.
Proof. intros H1 H2. split; [assumption|]. unfold sessionsOf. now rewrite H2. Qed.

Lemma keep_updCapture owner f w :
  (forall cap, EventCapture.sessionId (f cap) = EventCapture.sessionId cap) ->
  keep w (updCapture owner f w).
Proof.
  intros Hf. unfold updCapture.
  destruct (World.captures w !! owner) as [cap|] eqn:E; [|apply keep_refl].
  split; [reflexivity|]. unfold sessionsOf. simpl.
  now apply map_insert_keep with cap.
Qed.

Lemma keep_flushBuffer awaited w : keep w (fst (flushBuffer awaited w)).
Proof.
  unfold flushBuffer.
  destruct (DOMChronicle.eventBuffer _); now apply keep_frame.
Qed.

Lemma keep_eventCaptureStop owner w : keep w (eventCaptureStop owner w).
Proof.
  unfold eventCaptureStop. destruct (_ !! _); [|apply keep_refl].
  eapply keep_trans; [|now apply keep_updCapture]. now apply keep_frame.
Qed.

Lemma keep_settle i ok w : keep w (settle i ok w).
Proof.
  unfold settle. destruct (_ !! _) as [[events awaited]|]; [|apply keep_refl].
  destruct ok, awaited; now apply keep_frame.
Qed.

Lemma keep_createEvent env m w : keep w (fst (createEvent env m w)).
Proof.
  unfold createEvent.
  destruct (getMutationType _); [|apply keep_refl].
  destruct (elementOrParent _); [|apply keep_refl].
  destruct (match deref _ with Some _ => _ | None => _ end);
    [apply keep_refl|].
  unfold nextUUID.
  destruct (SemanticExtractor.describe _ _); now apply keep_frame.
Qed.

Lemma keep_handleEventWith stop e w :
  (forall w, keep w (stop w)) -> keep w (handleEventWith stop e w).
Proof.
  intros Hstop. unfold handleEventWith.
  destruct (negb _ || _); [apply keep_refl|].
  destruct (N.leb _ _); [apply Hstop|].
  destruct (RedactionEngine.process _ e) as [r|]; [|apply keep_refl].
  match goal with
  | |- keep _ (if _ then fst (flushBuffer false ?w') else ?w') =>
      assert (T : keep w w') by now apply keep_frame
  end.
  destruct (Nat.leb _ _); [|exact T].
  eapply keep_trans; [exact T|apply keep_flushBuffer].
Qed.

Lemma keep_stopRest w : keep w (stopRest w).
Proof.
  unfold stopRest.
  set (w2 := match DOMChronicle.eventCapture (World.chronicle w) with
             | Some owner => eventCaptureStop owner w
             | None => w
             end).
  assert (S2 : keep w w2).
  { unfold w2. destruct (DOMChronicle.eventCapture _);
      [apply keep_eventCaptureStop|apply keep_refl]. }
  cbv zeta.
  set (w3 := updChronicle (DOMChronicle.set_eventCapture None) w2).
  assert (S3 : keep w w3)
    by (eapply keep_trans; [exact S2|now apply keep_frame]).
  set (w4 := match truthyId (DOMChronicle.flushInterval (World.chronicle w3)) with
             | Some id =>
                 updChronicle (DOMChronicle.set_flushInterval None)
                              (clearTimer id w3)
             | None => w3
             end).
  assert (S4 : keep w w4).
  { unfold w4. destruct (truthyId _); [|assumption].
    eapply keep_trans; [exact S3|now apply keep_frame]. }
  pose proof (keep_trans _ _ _ S4 (keep_flushBuffer true w4)) as S5.
  destruct (flushBuffer true w4) as [w5 [|]]; simpl in S5; [assumption|].
  eapply keep_trans; [exact S5|now apply keep_frame].
Qed.

Lemma keep_processBatchWith callback env w :
  (forall e w, keep w (callback e w)) ->
  keep w (fst (processBatchWith callback env w)).
Proof.
  intros Hcb. unfold processBatchWith.
  assert (G0 : keep w (fst (updMutationCapture
                              (MutationCapture.set_batchBuffer []) w, true)))
    by now apply keep_frame.
  revert G0.
  generalize (updMutationCapture (MutationCapture.set_batchBuffer []) w, true).
  generalize (MutationCapture.batchBuffer (World.mutationCapture w)).
  intros ms.
  induction ms as [|m ms IH]; intros [w0 b] G0; simpl; [assumption|].
  apply IH. destruct b; [|assumption]. simpl in G0.
  pose proof (keep_createEvent env m w0) as C.
  destruct (createEvent env m w0) as [w1 [[ev|]|]]; simpl in *.
  - eapply keep_trans; [exact G0|]. eapply keep_trans; [exact C|apply Hcb].
  - eapply keep_trans; eassumption.
  - eapply keep_trans; eassumption.
Qed.

Lemma keep_stopWith callback env w :
  (forall e w, keep w (callback e w)) -> keep w (stopWith callback env w).
Proof.
  intros Hcb. rewrite stopWith_eq.
  destruct (DOMChronicle.isRecording (World.chronicle w)); [|apply keep_refl].
  cbv zeta.
  set (w0 := updChronicle (DOMChronicle.set_isRecording false) w).
  assert (T : keep w (fst (mutationCaptureStopWith callback env w0))).
  { unfold mutationCaptureStopWith.
    destruct (truthyId _) as [id|]; [|now apply keep_frame].
    pose proof (keep_processBatchWith callback env (clearTimer id w0) Hcb)
      as G1.
    destruct (processBatchWith callback env (clearTimer id w0)) as [w1 [|]];
      simpl in *.
    - apply (keep_trans _ w1); [|now apply keep_frame].
      apply (keep_trans _ (clearTimer id w0)); [now apply keep_frame|exact G1].
    - apply (keep_trans _ (clearTimer id w0)); [now apply keep_frame|exact G1]. }
  destruct (snd _); [|exact T].
  eapply keep_trans; [exact T|apply keep_stopRest].
Qed.

Lemma keep_stop env w : keep w (stop env w).
Proof.
  apply keep_stopWith. intros e w0. apply keep_handleEventWith.
  intros w1. apply keep_refl.
Qed.

Lemma keep_handleEvent env e w : keep w (handleEvent env e w).
Proof. apply keep_handleEventWith. intros w0. apply keep_stop. Qed.

Lemma keep_emit owner type target payload env w :
  keep w (fst (emit owner type target payload env w)).
Proof.
  unfold emit. destruct (_ !! _); [|apply keep_refl].
  unfold nextUUID.
  match goal with
  | |- context [updCapture owner ?f ?w1] =>
      assert (C2 : keep w (updCapture owner f w1))
        by (eapply keep_trans; [|now apply keep_updCapture];
            now apply keep_frame)
  end.
  destruct (SemanticExtractor.describe _ _); simpl; [|exact C2].
  eapply keep_trans; [exact C2|apply keep_handleEvent].
Qed.

Lemma keep_handle owner e env w : keep w (fst (handle owner e env w)).
Proof.
  unfold handle.
  destruct e as [[t|] ? ? ? ?|[t|]|[t|]|[t|]| | |];
    try apply keep_refl; apply keep_emit.
Qed.

Lemma keep_perform owner timer env effects w :
  keep w (perform owner timer env effects w).
Proof.
  unfold perform. revert w.
  induction effects as [|eff effects IH]; intros w; simpl; [apply keep_refl|].
  eapply keep_trans; [|apply IH]. destruct eff.
  - now apply keep_frame.
  - now apply keep_frame.
  - apply keep_handle.
Qed.

Lemma keep_invokeListener owner e env w :
  keep w (invokeListener owner e env w).
Proof.
  unfold invokeListener. destruct (_ !! _) as [cap|]; [|apply keep_refl].
  destruct e; try apply keep_handle.
  - destruct (Timing.debounced _ _ _ _) as [st effects].
    eapply keep_trans; [|apply keep_perform]; now apply keep_updCapture.
  - destruct (Timing.throttled _ _ _ _ _) as [st effects].
    eapply keep_trans; [|apply keep_perform]; now apply keep_updCapture.
Qed.

Lemma keep_dispatch e env w : keep w (dispatch e env w).
Proof.
  unfold dispatch. generalize (Runtime.registry (World.runtime w)).
  intros reg. revert w.
  induction reg as [|[[owner ty] cap] reg IH]; intros w; simpl;
    [apply keep_refl|].
  eapply keep_trans; [|apply IH].
  destruct (ListenerType_eqb _ _); [|apply keep_refl].
  apply keep_invokeListener.
Qed.

Lemma keep_historyCall type env w : keep w (historyCall type env w).
Proof.
  unfold historyCall. generalize (Runtime.historyHooks (World.runtime w)).
  intros hooks. revert w.
  induction hooks as [|owner hooks IH]; intros w; simpl; [apply keep_refl|].
  eapply keep_trans; [|apply IH]. unfold emitNavigation. apply keep_emit.
Qed.

Lemma keep_fireTimer id env w : keep w (fireTimer id env w).
Proof.
  unfold fireTimer.
  destruct (List.find _ _) as [timer|]; [|apply keep_refl].
  set (w1 := if repeating timer then w else clearTimer id w).
  assert (C1 : keep w w1)
    by (unfold w1; destruct (repeating timer); now apply keep_frame).
  destruct (callback timer) as [|owner e|owner e|].
  - pose proof (keep_processBatchWith (handleEvent env) env w1
                  (fun e w => keep_handleEvent env e w)) as G2.
    unfold processBatch.
    destruct (processBatchWith (handleEvent env) env w1) as [w2 [|]];
      simpl in G2.
    + eapply keep_trans; [exact C1|].
      eapply keep_trans; [exact G2|now apply keep_frame].
    + eapply keep_trans; eassumption.
  - pose proof (keep_handle owner e env w1) as G2.
    destruct (handle owner e env w1) as [w2 c]; simpl in G2.
    eapply keep_trans; [exact C1|].
    eapply keep_trans; [exact G2|now apply keep_updCapture].
  - destruct (_ !! _) as [cap|]; [|exact C1].
    simpl. eapply keep_trans; [exact C1|].
    eapply keep_trans; [|apply keep_handle]; now apply keep_updCapture.
  - eapply keep_trans; [exact C1|apply keep_flushBuffer].
Qed.

(** Every turn but an effective [start] keeps the wrappers and the
    sessions. *)
Lemma keep_step env l w :
  match l with
  | LStart _ _ => DOMChronicle.isRecording (World.chronicle w) = true
  | _ => True
  end ->
  keep w (step env l w).
Proof.
  destruct l as [sid cfg| |cfg|i ok|records|id|e|type]; simpl step;
    intros H.
  - rewrite start_eq, H. apply keep_refl.
  - apply keep_stop.
  - destruct (DOMChronicle.config _); now apply keep_frame.
  - apply keep_settle.
  - destruct (MutationCapture.observer _); [|apply keep_refl].
    unfold batchMutations.
    destruct (MutationCapture.batchTimeout (World.mutationCapture w));
      now apply keep_frame.
  - apply keep_fireTimer.
  - apply keep_dispatch.
  - apply keep_historyCall.
Qed.

(** *** What [start] adds *)

Lemma lookup_push {A : Type} (l : list A) (x : A) :
  push l x !! length l = Some x.
Proof. unfold push. induction l; simpl; auto. Qed.

Lemma insert_push {A : Type} (l : list A) (x y : A) :
  <[length l := y]> (push l x) = push l y.
Proof. unfold push. induction l; simpl; [reflexivity|]. now f_equal. Qed.

Lemma startPrefix_hooks sid cfg w :
  Runtime.historyHooks (World.runtime (startPrefix sid cfg w))
  = push (Runtime.historyHooks (World.runtime w)) (length (World.captures w))
  /\ sessionsOf (startPrefix sid cfg w) = push (sessionsOf w) sid.
Proof.
  unfold startPrefix, eventCaptureStart, setTimer, updCapture, sessionsOf.
  cbv zeta. simpl. rewrite !lookup_push. simpl.
  rewrite ?lookup_push. simpl. rewrite ?insert_push.
  unfold push. rewrite ?map_app. split; reflexivity.
Qed.

Lemma keep_captureInitialState env w : keep w (captureInitialState env w).
Proof.
  unfold captureInitialState.
  destruct (DOMChronicle.sessionId _) as [sid|]; [|apply keep_refl].
  destruct (negb (truthy sid)); [apply keep_refl|].
  unfold nextUUID. now apply keep_frame.
Qed.

Lemma start_hooks sid cfg env w :
  DOMChronicle.isRecording (World.chronicle w) = false ->
  Runtime.historyHooks (World.runtime (start sid cfg env w))
  = push (Runtime.historyHooks (World.runtime w)) (length (World.captures w))
  /\ sessionsOf (start sid cfg env w) = push (sessionsOf w) sid.
Proof.
  intros Hrec. rewrite start_eq, Hrec.
  destruct (keep_captureInitialState env (startPrefix sid cfg w)) as [K1 K2].
  rewrite K1, K2. apply startPrefix_hooks.
Qed.

Lemma length_sessionsOf w : length (sessionsOf w) = length (World.captures w).
Proof. apply length_map. Qed.

Lemma hooked_keep w w' : keep w w' -> hooked w -> hooked w'.
Proof.
  intros [K1 K2] H. unfold hooked in *.
  now rewrite K1, <- length_sessionsOf, K2, length_sessionsOf.
Qed.

Lemma hooked_step env l w : hooked w -> hooked (step env l w).
Proof.
  intros H.
  assert (K : match l with
              | LStart _ _ =>
                  DOMChronicle.isRecording (World.chronicle w) = true
              | _ => True
              end -> hooked (step env l w))
    by (intros Hl; eapply hooked_keep; [apply keep_step, Hl|exact H]).
  destruct l as [sid cfg| | | | | | |]; try (apply K; exact I).
  destruct (DOMChronicle.isRecording (World.chronicle w)) eqn:Hrec;
    [now apply K|].
  destruct (start_hooks sid cfg env w Hrec) as [S1 S2].
  unfold hooked in *. simpl step.
  rewrite S1, <- (length_sessionsOf (start sid cfg env w)), S2, H.
  unfold push. rewrite length_app, length_sessionsOf. simpl.
  rewrite Nat.add_1_r, List.seq_S. reflexivity.
Qed.

Lemma hooked_run turns : forall w, hooked w -> hooked (run turns w).
Proof.
  induction turns as [|[env l] turns IH]; intros w H; [exact H|].
  change (run ((env, l) :: turns) w) with (run turns (step env l w)).
  apply IH, hooked_step, H.
Qed.

(** The [EventCapture] objects are those of the sessions started, in
    order. *)
Lemma sessions_run turns : forall w,
  sessionsOf (run turns w) = app (sessionsOf w) (sessionsStarted turns w).
Proof.
  induction turns as [|[env l] turns IH]; intros w;
    [simpl; now rewrite app_nil_r|].
  change (run ((env, l) :: turns) w) with (run turns (step env l w)).
  rewrite IH. simpl. rewrite app_assoc. f_equal.
  assert (K : match l with
              | LStart _ _ =>
                  DOMChronicle.isRecording (World.chronicle w) = true
              | _ => True
              end -> sessionsOf (step env l w) = sessionsOf w)
    by (intros Hl; apply (keep_step env l w Hl)).
  destruct l as [sid cfg| | | | | | |];
    try (rewrite app_nil_r; apply K; exact I).
  destruct (DOMChronicle.isRecording (World.chronicle w)) eqn:Hrec.
  - rewrite app_nil_r. now apply K.
  - apply (start_hooks sid cfg env w Hrec).
Qed.

(** *** A call of a history function while a session is recording *)

Lemma flushBuffer_room awaited n w :
  roomFor n w ->
  roomFor n (fst (flushBuffer awaited w)) /\
  acceptedOf (fst (flushBuffer awaited w)) = acceptedOf w.
Proof.
  intros H. unfold flushBuffer.
  destruct (DOMChronicle.eventBuffer _); split; try reflexivity;
    try exact H.
  destruct H as [H1 H2 H3]. now split.
Qed.

(** An event that is not an input is recorded when there is room. *)
Lemma handleEventWith_recorded stop e w n :
  roomFor (S n) w ->
  DOMEvent.type e <> user_input ->
  let w' := handleEventWith stop e w in
  (exists e',
     acceptedOf w' = push (acceptedOf w) e' /\
     DOMEvent.sessionId e' = DOMEvent.sessionId e /\
     DOMEvent.type e' = DOMEvent.type e) /\
  roomFor n w'.
Proof.
  intros [Hrec Hcfg Hcnt] Hty. cbv zeta.
  assert (Hlt : (LIMITS.MAX_EVENTS_PER_SESSION
                 <=? DOMChronicle.sequence (World.chronicle w))%N = false)
    by (apply N.leb_gt; unfold sequenceOf in Hcnt; lia).
  unfold handleEventWith. rewrite Hrec, Hlt.
  destruct (DOMChronicle.config (World.chronicle w)) as [c|] eqn:Hc;
    [|contradiction].
  cbn [negb orb].
  destruct (RedactionEngine.process _ e) as [r|] eqn:Hp.
  - destruct (process_sessionId _ _ _ Hp) as [Hsid Htype].
    match goal with
    | |- context [if _ then fst (flushBuffer false ?w1) else ?w1] =>
        set (w' := w1)
    end.
    assert (R : roomFor n w').
    { split; [exact Hrec|simpl; now rewrite Hc|].
      unfold sequenceOf in *. simpl. lia. }
    assert (A : exists e',
               acceptedOf w' = push (acceptedOf w) e' /\
               DOMEvent.sessionId e' = DOMEvent.sessionId e /\
               DOMEvent.type e' = DOMEvent.type e).
    { eexists. split; [reflexivity|]. destruct r; simpl in *. now split. }
    destruct (Nat.leb _ _); [|now split].
    destruct (flushBuffer_room false n w' R) as [R' A'].
    split; [|exact R']. now rewrite A'.
  - exfalso. rewrite process_steps in Hp.
    destruct (DOMEvent.type e); try discriminate. now apply Hty.
Qed.

Lemma emitNavigation_recorded owner type env w this n :
  World.captures w !! owner = Some this ->
  roomFor (S n) w ->
  SemanticExtractor.describe (document env) (Some (documentElement env))
  <> Thrown ->
  let w' := fst (emitNavigation owner type env w) in
  ((exists e,
      acceptedOf w' = push (acceptedOf w) e /\
      DOMEvent.sessionId e = EventCapture.sessionId this /\
      DOMEvent.type e = user_navigation) /\
   roomFor n w') /\ keep w w'.
Proof.
  intros Hthis R Hd. cbv zeta.
  split; [|apply keep_emit].
  unfold emitNavigation, emit. rewrite Hthis. unfold nextUUID.
  destruct (SemanticExtractor.describe _ _) as [d|]; [|contradiction].
  cbn [fst snd]. unfold handleEvent.
  match goal with
  | |- context [handleEventWith ?st ?e ?w2] =>
      assert (R2 : roomFor (S n) w2);
      [|assert (A2 : acceptedOf w2 = acceptedOf w);
        [|destruct (handleEventWith_recorded st e w2 n R2) as [A R'];
          [discriminate|]]]
  end.
  - destruct R as [R1 R2 R3].
    split; unfold sequenceOf; rewrite chronicle_updCapture; assumption.
  - unfold acceptedOf. now rewrite history_updCapture.
  - split; [|exact R']. rewrite <- A2. exact A.
Qed.

(** The wrappers run one after the other, each for its own session. *)
Lemma historyCall_loop type env : forall sessions owners before w,
  sessionsOf w = app before sessions ->
  owners = List.seq (length before) (length sessions) ->
  roomFor (length sessions) w ->
  SemanticExtractor.describe (document env) (Some (documentElement env))
  <> Thrown ->
  exists events,
    acceptedOf
      (fold_left (fun w owner => fst (emitNavigation owner type env w))
                 owners w)
    = app (acceptedOf w) events /\
    map DOMEvent.sessionId events = sessions /\
    Forall (fun e => DOMEvent.type e = user_navigation) events.
Proof.
  induction sessions as [|sid sessions IH];
    intros owners before w Hs -> R Hd; simpl.
  - exists []. rewrite app_nil_r. repeat split. constructor.
  - assert (L : exists this, World.captures w !! length before = Some this /\
                             EventCapture.sessionId this = sid).
    { apply lookup_map_Some. fold (sessionsOf w). rewrite Hs.
      now rewrite list_lookup_middle. }
    destruct L as (this & Hthis & Hsid).
    destruct (emitNavigation_recorded (length before) type env w this
                (length sessions) Hthis R Hd) as (((e & A & E1 & E2) & R') & K).
    destruct (IH (List.seq (S (length before)) (length sessions))
                 (app before [sid])
                 (fst (emitNavigation (length before) type env w)))
      as (events & A' & S' & T').
    + rewrite (keep_sessions _ _ K), Hs, <- app_assoc. reflexivity.
    + rewrite length_app. simpl. now rewrite Nat.add_1_r.
    + exact R'.
    + exact Hd.
    + exists (e :: events). rewrite A', A. unfold push.
      rewrite <- app_assoc. simpl. repeat split.
      * now rewrite E1, Hsid, S'.
      * now constructor.
Qed.

(** X19: the wrappers that [start] puts on [history.pushState] and
    [history.replaceState] are never taken off.  While a session is
    recording, with room for the events and [describe] returning for the
    root element, a call of one of the two functions is recorded once for
    every session started on the page so far, each time as a navigation
    event that carries the id of that session. *)
Theorem history_call_recorded_once_per_session turns env type :
  let w := run turns initial in
  DOMChronicle.isRecording (World.chronicle w) = true ->
  DOMChronicle.config (World.chronicle w) <> None ->
  (sequenceOf w + N.of_nat (length (sessionsStarted turns initial))
   <= LIMITS.MAX_EVENTS_PER_SESSION)%N ->
  SemanticExtractor.describe (document env) (Some (documentElement env))
  <> Thrown ->
  exists events,
    acceptedOf (historyCall type env w) = app (acceptedOf w) events /\
    map DOMEvent.sessionId events = sessionsStarted turns initial /\
    Forall (fun e => DOMEvent.type e = user_navigation) events.
Proof.
  intros w Hrec Hcfg Hcnt Hd. unfold historyCall.
  pose proof (hooked_run turns initial eq_refl) as H. fold w in H.
  pose proof (sessions_run turns initial) as S. fold w in S. simpl in S.
  apply (historyCall_loop type env (sessionsStarted turns initial)
           _ [] w).
  - exact S.
  - rewrite H, <- length_sessionsOf, S. reflexivity.
  - now split.
  - exact Hd.
Qed.

End Generic.

Lemma history_call_recorded_once_per_session_witness :
  exists events,
    acceptedOf
      (historyCall (B := plainBrowser) pushState (sampleEnv 210)
         (run (RT := miniRE) (B := plainBrowser) twoSessions initial))
    = app (acceptedOf
             (run (RT := miniRE) (B := plainBrowser) twoSessions initial))
          events /\
    map DOMEvent.sessionId events = ["s1"; "s2"] /\
    Forall (fun e => DOMEvent.type e = user_navigation) events.
Proof.
  apply (history_call_recorded_once_per_session (RT := miniRE)
           (B := plainBrowser) twoSessions (sampleEnv 210) pushState);
    vm_compute; congruence.
Defined.

End HooksFacts.
(* --------------------------------------------------------------------- *)
(** ** The end of [stop] after its [await] *)

Module RaceFacts.
Import Dom Chronicle.
Import ChronicleSpec ChronicleFacts RaceSpec.

Section Generic.
Context {RT : RegExpRuntime} {B : Browser}.

Lemma mute_refl w : mute w w.
Proof. split; reflexivity. Qed.

Lemma mute_trans w1 w2 w3 : mute w1 w2 -> mute w2 w3 -> mute w1 w3.
Proof. intros [] []. split; congruence. Qed.

Lemma deaf_mute w w' : mute w w' -> deaf w -> deaf w'.
Proof. intros [M1 M2 _] [D1 D2]. split; congruence. Qed.

Lemma mute_quiet w w' : quiet w w' -> mute w w'.
Proof.
  intros Q. split; [| |apply Q]; now rewrite (quiet_chronicle _ _ Q).
Qed.

Lemma mute_updCapture owner f w : mute w (updCapture owner f w).
Proof. apply mute_quiet, quiet_updCapture. Qed.

Lemma mute_flushBuffer awaited w : mute w (fst (flushBuffer awaited w)).
Proof.
  unfold flushBuffer. destruct (DOMChronicle.eventBuffer _); now split.
Qed.

Lemma mute_settle i ok w : deaf w -> mute w (settle i ok w).
Proof.
  intros [D1 D2]. unfold settle.
  destruct (_ !! _) as [[events awaited]|]; [|apply mute_refl].
  destruct ok, awaited; split; simpl; auto.
Qed.

Lemma handleEventWith_deaf stop e w :
  deaf w -> handleEventWith stop e w = w.
Proof.
  intros [D1 D2]. unfold handleEventWith. rewrite D1, D2. reflexivity.
Qed.

Lemma mute_emit owner type target payload env w :
  deaf w -> mute w (fst (emit owner type target payload env w)).
Proof.
  intros D. unfold emit. destruct (_ !! _); [|apply mute_refl].
  unfold nextUUID.
  match goal with
  | |- context [updCapture owner ?f ?w1] =>
      assert (C2 : mute w (updCapture owner f w1))
        by (eapply mute_trans; [|apply mute_updCapture]; now split)
  end.
  destruct (SemanticExtractor.describe _ _); simpl; [|exact C2].
  unfold handleEvent. rewrite handleEventWith_deaf; [exact C2|].
  eapply deaf_mute; eassumption.
Qed.

Lemma mute_handle owner e env w :
  deaf w -> mute w (fst (handle owner e env w)).
Proof.
  intros D. unfold handle.
  destruct e as [[t|] ? ? ? ?|[t|]|[t|]|[t|]| | |];
    try apply mute_refl; now apply mute_emit.
Qed.

Lemma mute_perform owner timer env effects : forall w,
  deaf w -> mute w (perform owner timer env effects w).
Proof.
  unfold perform.
  induction effects as [|eff effects IH]; intros w D; simpl;
    [apply mute_refl|].
  assert (M : mute w match eff with
                     | Timing.ClearTimeout id => clearTimer id w
                     | Timing.SetTimeout _ args =>
                         snd (setTimer (timer args) false w)
                     | Timing.CallFn args => fst (handle owner args env w)
                     end).
  { destruct eff; [now split|now split|now apply mute_handle]. }
  eapply mute_trans; [exact M|]. apply IH. eapply deaf_mute; eassumption.
Qed.

Lemma mute_invokeListener owner e env w :
  deaf w -> mute w (invokeListener owner e env w).
Proof.
  intros D. unfold invokeListener.
  destruct (_ !! _) as [cap|]; [|apply mute_refl].
  destruct e; try now apply mute_handle.
  - destruct (Timing.debounced _ _ _ _) as [st effects].
    eapply mute_trans; [apply mute_updCapture|].
    apply mute_perform. eapply deaf_mute; [apply mute_updCapture|exact D].
  - destruct (Timing.throttled _ _ _ _ _) as [st effects].
    eapply mute_trans; [apply mute_updCapture|].
    apply mute_perform. eapply deaf_mute; [apply mute_updCapture|exact D].
Qed.

Lemma mute_dispatch e env w : deaf w -> mute w (dispatch e env w).
Proof.
  unfold dispatch. generalize (Runtime.registry (World.runtime w)).
  intros reg. revert w.
  induction reg as [|[[owner ty] cap] reg IH]; intros w D; simpl;
    [apply mute_refl|].
  assert (M : mute w (if ListenerType_eqb ty (listenerTypeOf e)
                      then invokeListener owner e env w else w)).
  { destruct (ListenerType_eqb _ _);
      [now apply mute_invokeListener|apply mute_refl]. }
  eapply mute_trans; [exact M|]. apply IH. eapply deaf_mute; eassumption.
Qed.

Lemma mute_historyCall type env w : deaf w -> mute w (historyCall type env w).
Proof.
  unfold historyCall. generalize (Runtime.historyHooks (World.runtime w)).
  intros hooks. revert w.
  induction hooks as [|owner hooks IH]; intros w D; simpl; [apply mute_refl|].
  pose proof (mute_emit owner user_navigation (Some (documentElement env))
                (PNavigation (NavigationPayload.mk (href env) type None))
                env w D) as M.
  eapply mute_trans; [exact M|]. apply IH. eapply deaf_mute; eassumption.
Qed.

(** The loop of [processBatch] when [handleEvent] returns at once. *)
Lemma mute_processBatch env w :
  deaf w -> mute w (fst (processBatch env w)).
Proof.
  intros D. unfold processBatch, processBatchWith.
  assert (G0 : mute w (fst (updMutationCapture
                              (MutationCapture.set_batchBuffer []) w, true)))
    by now split.
  revert G0.
  generalize (updMutationCapture (MutationCapture.set_batchBuffer []) w, true).
  generalize (MutationCapture.batchBuffer (World.mutationCapture w)).
  intros ms.
  induction ms as [|m ms IH]; intros [w0 b] G0; simpl; [assumption|].
  apply IH. destruct b; [|assumption]. simpl in G0.
  pose proof (mute_quiet _ _ (quiet_createEvent env m w0)) as C.
  destruct (createEvent env m w0) as [w1 [[ev|]|]]; simpl in *.
  - unfold handleEvent. rewrite handleEventWith_deaf.
    + eapply mute_trans; eassumption.
    + eapply deaf_mute; [|exact D]. eapply mute_trans; eassumption.
  - eapply mute_trans; eassumption.
  - eapply mute_trans; eassumption.
Qed.

Lemma mute_fireTimer id env w : deaf w -> mute w (fireTimer id env w).
Proof.
  intros D. unfold fireTimer.
  destruct (List.find _ _) as [timer|]; [|apply mute_refl].
  set (w1 := if repeating timer then w else clearTimer id w).
  assert (C1 : mute w w1)
    by (unfold w1; destruct (repeating timer); now split).
  assert (D1 : deaf w1) by (eapply deaf_mute; eassumption).
  destruct (callback timer) as [|owner e|owner e|].
  - pose proof (mute_processBatch env w1 D1) as G2.
    destruct (processBatch env w1) as [w2 [|]]; simpl in G2.
    + eapply mute_trans; [exact C1|].
      eapply mute_trans; [exact G2|now split].
    + eapply mute_trans; eassumption.
  - pose proof (mute_handle owner e env w1 D1) as G2.
    destruct (handle owner e env w1) as [w2 c]; simpl in G2.
    eapply mute_trans; [exact C1|].
    eapply mute_trans; [exact G2|apply mute_updCapture].
  - destruct (_ !! _) as [cap|]; [|exact C1].
    simpl. eapply mute_trans; [exact C1|].
    eapply mute_trans; [apply mute_updCapture|].
    apply mute_handle. eapply deaf_mute; [apply mute_updCapture|exact D1].
  - eapply mute_trans; [exact C1|apply mute_flushBuffer].
Qed.

Lemma mute_step env l w :
  deaf w -> notStop (env, l) = true -> mute w (step env l w).
Proof.
  intros D Hl.
  destruct l as [sid cfg| |cfg|i ok|records|id|e|type]; simpl step.
  - unfold start. destruct D as [-> _]. apply mute_refl.
  - discriminate.
  - destruct D as [_ ->]. apply mute_refl.
  - now apply mute_settle.
  - destruct (MutationCapture.observer _); [|apply mute_refl].
    unfold batchMutations.
    destruct (MutationCapture.batchTimeout (World.mutationCapture w));
      now split.
  - now apply mute_fireTimer.
  - now apply mute_dispatch.
  - now apply mute_historyCall.
Qed.

Lemma mute_run turns : forall w,
  deaf w -> forallb notStop turns = true -> mute w (run turns w).
Proof.
  induction turns as [|[env l] turns IH]; intros w D H; [apply mute_refl|].
  change (run ((env, l) :: turns) w) with (run turns (step env l w)).
  simpl in H. apply andb_prop in H as [H1 H2].
  pose proof (mute_step env l w D H1) as M.
  eapply mute_trans; [exact M|]. apply IH; [|exact H2].
  eapply deaf_mute; eassumption.
Qed.

(** X20: a recording started before the last message of the previous
    [stop] has settled is silenced when it settles.  The end of [stop],
    which runs after the [await], sets [sessionId] and [config] to [null]
    whatever session is running then; from that moment, until the next
    [stop], [isRecording] stays true, [handleEvent] drops every event and
    nothing is recorded. *)
Theorem recording_silenced_by_late_settlement (w : World.t) i events ok
    turns :
  (Runtime.outbox (World.runtime w) !! i : option (list DOMEvent * bool))
  = Some (events, true) ->
  DOMChronicle.isRecording (World.chronicle w) = true ->
  forallb notStop turns = true ->
  let w' := run turns (settle i ok w) in
  DOMChronicle.isRecording (World.chronicle w') = true /\
  DOMChronicle.config (World.chronicle w') = None /\
  acceptedOf w' = acceptedOf w.
Proof.
  intros Hi Hrec Hturns. cbv zeta.
  assert (D : deaf (settle i ok w))
    by (unfold settle; rewrite Hi; destruct ok; split;
        [exact Hrec|reflexivity|exact Hrec|reflexivity]).
  assert (A : acceptedOf (settle i ok w) = acceptedOf w)
    by (unfold settle; rewrite Hi; destruct ok; reflexivity).
  destruct (mute_run turns _ D Hturns) as [M1 M2 M3].
  destruct D as [D1 D2].
  repeat split; [congruence|congruence|].
  unfold acceptedOf in *. now rewrite M3.
Qed.

End Generic.

Lemma recording_silenced_by_late_settlement_witness :
  acceptedOf
    (run (RT := miniRE) (B := plainBrowser) busyPage
       (settle 0 true (run (B := plainBrowser) restartedEarly initial)))
  = acceptedOf (run (RT := miniRE) (B := plainBrowser) restartedEarly initial).
Proof.
  apply (recording_silenced_by_late_settlement (RT := miniRE)
           (B := plainBrowser)
           (run (B := plainBrowser) restartedEarly initial) 0
           (acceptedOf (run (RT := miniRE) (B := plainBrowser)
                          [(sampleEnv 0, LStart "s1" sampleConfig)] initial))
           true busyPage); reflexivity.
Defined.

End RaceFacts.
(* --------------------------------------------------------------------- *)
(** ** The debounced closures in time *)

Module DebouncedFacts.
Import Timing Debounced DebouncedSpec.

Section Generic.
Context {A : Type}.
Variable wait : Z.

Lemma trailing_later (turns : list (Turn A)) turn (entry : Z * A) :
  trailing wait turns entry -> trailing wait (app turns [turn]) entry.
Proof.
  intros (before & c & quiet & id & after & -> & Hq & Hc).
  exists before, c, quiet, id, (app after [turn]).
  repeat split; try assumption.
  rewrite <- app_assoc. simpl. f_equal. f_equal.
  rewrite <- app_assoc. reflexivity.
Qed.

Lemma argsOf_app (l1 l2 : list (Turn A)) :
  argsOf (app l1 l2) = app (argsOf l1) (argsOf l2).
Proof. unfold argsOf. apply flat_map_app. Qed.

Lemma Inv_debounce_initial : Inv wait [] (initial (A := A)).
Proof. split; simpl; [reflexivity|constructor|lia]. Qed.

Lemma Inv_debounce_call (turns : list (Turn A)) now (a : A) (s : Debounced.t A) :
  Inv wait turns s -> Inv wait (app turns [Call now a]) (call wait now a s).
Proof.
  intros [I1 I2 I3]. unfold call, debounced.
  assert (C : Forall (trailing wait (app turns [Call now a])) (called s)).
  { eapply List.Forall_impl; [|exact I2]. intros e. apply trailing_later. }
  destruct s as [[tid] tos nxt em]. simpl in *.
  destruct tid as [id|].
  - destruct I1 as (before & c & a0 & quiet & -> & -> & Hq).
    simpl. rewrite Nat.eqb_refl. simpl. split; simpl.
    + exists (app before (Call c a0 :: quiet)), now, a, [].
      repeat split.
    + exact C.
    + rewrite argsOf_app, length_app. simpl in *. lia.
  - subst tos. simpl. split; simpl.
    + exists turns, now, a, []. repeat split.
    + exact C.
    + rewrite argsOf_app, length_app. simpl in *. lia.
Qed.

Lemma Inv_debounce_expire (turns : list (Turn A)) id now (s : Debounced.t A) :
  Inv wait turns s ->
  Inv wait (app turns [Expire id now]) (expire id now s).
Proof.
  intros [I1 I2 I3]. unfold expire.
  assert (C : Forall (trailing wait (app turns [Expire id now])) (called s)).
  { eapply List.Forall_impl; [|exact I2]. intros e. apply trailing_later. }
  assert (N : length (argsOf (app turns [Expire id now]))
              = length (argsOf turns)).
  { rewrite argsOf_app, length_app. simpl. lia. }
  destruct s as [[tid] tos nxt em]. simpl in *.
  destruct tid as [id0|].
  - destruct I1 as (before & c & a0 & quiet & -> & -> & Hq).
    simpl. destruct (Nat.eqb id0 id) eqn:E.
    + simpl. destruct (Z.leb_spec (c + wait) now) as [Hle|Hgt].
      * simpl. rewrite ?E. simpl. split; simpl.
        -- reflexivity.
        -- apply Forall_app. split; [exact C|]. constructor; [|constructor].
           exists before, c, quiet, id, []. simpl.
           repeat split; try assumption.
           now rewrite <- app_assoc.
        -- rewrite length_app. simpl in *. lia.
      * split; simpl.
        -- exists before, c, a0, (app quiet [Expire id now]).
           repeat split.
           ++ now rewrite <- app_assoc.
           ++ rewrite forallb_app, Hq. reflexivity.
        -- exact C.
        -- simpl in *; lia.
    + split; simpl.
      * exists before, c, a0, (app quiet [Expire id now]).
        repeat split.
        -- now rewrite <- app_assoc.
        -- rewrite forallb_app, Hq. reflexivity.
      * exact C.
      * simpl in *; lia.
  - subst tos. simpl. split; simpl; [reflexivity|exact C|simpl in *; lia].
Qed.

Lemma debounce_run_snoc (turns : list (Turn A)) turn (s : Debounced.t A) :
  run wait (app turns [turn]) s = step wait turn (run wait turns s).
Proof. unfold run. now rewrite fold_left_app. Qed.

Lemma Inv_debounce_run (turns : list (Turn A)) :
  Inv wait turns (run wait turns initial).
Proof.
  induction turns as [|turn turns IH] using rev_ind; [apply Inv_debounce_initial|].
  rewrite debounce_run_snoc. destruct turn as [now a|id now].
  - now apply Inv_debounce_call.
  - now apply Inv_debounce_expire.
Qed.

(** X21: [debounce] calls [fn] on the trailing edge only.  In every run,
    each call of [fn] is made by a timeout, with the arguments of the last
    call of the debounced function before it, when at least [wait] has
    passed since that call; [fn] is called at most as often as the
    debounced function, and at most one timeout is pending. *)
Theorem debounce_calls_fn_on_trailing_edge (turns : list (Turn A)) :
  let s := run wait turns initial in
  Forall (trailing wait turns) (called s) /\
  length (called s) <= length (argsOf turns) /\
  length (timeouts s) <= 1.
Proof.
  destruct (Inv_debounce_run turns) as [I1 I2 I3]. cbv zeta.
  split; [exact I2|]. split; [lia|].
  destruct (d_timeoutId _).
  - destruct I1 as (? & ? & ? & ? & -> & _). simpl. lia.
  - rewrite I1. simpl. lia.
Qed.

(** X22: the last call of the debounced function is served.  After a
    call with arguments [a] at time [c], exactly one timeout is pending,
    due at [c + wait]; when it runs, at that time or later, [fn] is called
    with [a], and nothing is left pending. *)
Theorem debounce_serves_last_call (turns : list (Turn A)) (c : Z) (a : A) :
  let s := run wait (app turns [Call c a]) initial in
  exists id,
    timeouts s = [mkTimeout id (c + wait)%Z a] /\
    forall now, (c + wait <= now)%Z ->
      called (expire id now s) = app (called s) [(now, a)] /\
      timeouts (expire id now s) = [] /\
      forall id' now', expire id' now' (expire id now s)
                       = expire id now s.
Proof.
  cbv zeta. rewrite debounce_run_snoc.
  destruct (Inv_debounce_run turns) as [I1 _ _].
  destruct (run wait turns initial) as [[tid] tos nxt em]. simpl in I1.
  exists nxt. unfold step, call, debounced.
  destruct tid as [id|];
    [destruct I1 as (? & ? & ? & ? & -> & _)|subst tos];
    simpl; rewrite ?Nat.eqb_refl; simpl;
    (split; [reflexivity|]); intros now Hnow; unfold expire; simpl;
    rewrite ?Nat.eqb_refl; simpl;
    (destruct (Z.leb_spec (c + wait) now); [|lia]); simpl;
    rewrite ?Nat.eqb_refl; simpl; repeat split.
Qed.

(** *** [batchDebounce] *)

Lemma itemsOf_app (l1 l2 : list (BatchTurn A)) :
  itemsOf (app l1 l2) = app (itemsOf l1) (itemsOf l2).
Proof. unfold itemsOf. apply flat_map_app. Qed.

Lemma batchDebounce_run_snoc (turns : list (BatchTurn A)) turn (s : Batch A) :
  batchRun wait (app turns [turn]) s
  = batchStep wait turn (batchRun wait turns s).
Proof. unfold batchRun. now rewrite fold_left_app. Qed.

Lemma BatchInv_step (turn : BatchTurn A) (s : Batch A) :
  fnReturns turn = true ->
  BatchInv s ->
  BatchInv (batchStep wait turn s) /\
  app (concat (map snd (delivered (batchStep wait turn s))))
      (items (batchStep wait turn s))
  = app (app (concat (map snd (delivered s))) (items s)) (itemsOf [turn]).
Proof.
  intros Hr [I1 I2]. destruct s as [its tid tos nxt dl]. simpl in *.
  destruct turn as [now item|id now returns]; simpl in *.
  - unfold batch, push. simpl. split.
    + split; simpl; [|exact I2].
      destruct tid as [id|].
      * destruct I1 as (d & -> & _). simpl. rewrite Nat.eqb_refl. simpl.
        eexists. split; [reflexivity|]. now destruct its.
      * destruct I1 as [-> ->]. simpl.
        eexists. split; [reflexivity|discriminate].
    + now rewrite app_assoc.
  - subst returns. unfold batchExpire. simpl. rewrite app_nil_r.
    destruct tid as [id0|].
    + destruct I1 as (d & -> & Hne). simpl.
      destruct (Nat.eqb id0 id) eqn:E; simpl.
      * destruct (Z.leb d now); simpl.
        -- rewrite ?E. simpl. split.
           ++ split; simpl; [now split|].
              apply Forall_app. split; [exact I2|]. now repeat constructor.
           ++ rewrite map_app, concat_app. simpl.
              now rewrite !app_nil_r.
        -- split; [split; simpl; [now exists d|exact I2]|reflexivity].
      * split; [split; simpl; [now exists d|exact I2]|reflexivity].
    + destruct I1 as [-> ->]. simpl.
      split; [split; simpl; [now split|exact I2]|now rewrite app_nil_r].
Qed.

(** X23: as long as [fn] returns, [batchDebounce] hands every item to [fn]
    once, in the order of the calls.  In every run in which no call of [fn]
    throws, the arrays given to [fn], one after the other, followed by the
    items that wait, are the items passed to [batch]; no array given to
    [fn] is empty, and a timeout is pending exactly when items wait. *)
Theorem batchDebounce_keeps_every_item (turns : list (BatchTurn A)) :
  forallb fnReturns turns = true ->
  let s := batchRun wait turns batchInitial in
  app (concat (map snd (delivered s))) (items s) = itemsOf turns /\
  Forall (fun entry => snd entry <> []) (delivered s) /\
  (items s = [] <-> batchTimeouts s = []).
Proof.
  intros Hr. cbv zeta.
  assert (H : BatchInv (batchRun wait turns batchInitial) /\
              app (concat (map snd (delivered
                                      (batchRun wait turns batchInitial))))
                  (items (batchRun wait turns batchInitial))
              = itemsOf turns).
  { induction turns as [|turn turns IH] using rev_ind.
    - split; [split; simpl; [now split|constructor]|reflexivity].
    - rewrite forallb_app in Hr. apply andb_prop in Hr as [Hr1 Hr2].
      simpl in Hr2. rewrite andb_true_r in Hr2.
      destruct (IH Hr1) as [IH1 IH2].
      rewrite batchDebounce_run_snoc.
      destruct (BatchInv_step turn _ Hr2 IH1) as [J1 J2].
      split; [exact J1|]. now rewrite J2, IH2, itemsOf_app. }
  destruct H as [[I1 I2] E]. split; [exact E|]. split; [exact I2|].
  destruct (batchTimeoutId _).
  - destruct I1 as (d & -> & Hne). split; [contradiction|discriminate].
  - destruct I1 as [-> ->]. split; reflexivity.
Qed.

End Generic.

(** Two items batched at 0 and 10 and handed to [fn] at 110, a third
    batched at 200 and still waiting. *)
Lemma batchDebounce_keeps_every_item_witness :
  let s := batchRun 100 [Add 0%Z "a"; Add 10%Z "b"; Fire 2 110%Z true;
                         Add 200%Z "c"] batchInitial in
  app (concat (map snd (delivered s))) (items s) = ["a"; "b"; "c"] /\
  Forall (fun entry => snd entry <> []) (delivered s) /\
  (items s = [] <-> batchTimeouts s = []).
Proof.
  apply (batchDebounce_keeps_every_item 100
           [Add 0%Z "a"; Add 10%Z "b"; Fire 2 110%Z true; Add 200%Z "c"]).
  reflexivity.
Defined.

(** When [fn] throws, the items it was given stay in the closure and are
    given to it again with the next ones. *)
Example batchDebounce_fn_throws :
  delivered (batchRun 100 [Add 0%Z "a"; Fire 1 100%Z false; Add 200%Z "b";
                           Fire 2 300%Z true] batchInitial)
  = [(100%Z, ["a"]); (300%Z, ["a"; "b"])].
Proof. reflexivity. Qed.

End DebouncedFacts.
(* --------------------------------------------------------------------- *)
(** ** The sections of the export *)

Module MarkdownSectionsFacts.
Import Templates MarkdownExporter MarkdownSections MarkdownSectionsSpec.

Lemma truthy_app_r (a b : string) : truthy b = true -> truthy (a ++ b) = true.
Proof. destruct a; [trivial|reflexivity]. Qed.

(** A description is never empty. *)
Lemma describeEvent_truthy options e d :
  describeEvent options e = Some d -> truthy d = true.
Proof.
  unfold describeEvent.
  destruct (DOMEvent.type e), (DOMEvent.payload e); try discriminate;
    repeat match goal with
           | |- context [if ?c then _ else _] => destruct c
           | |- context [match ?x with Some _ => _ | None => _ end] =>
               destruct x
           end;
    intros H; injection H as <-;
    first [reflexivity|apply truthy_app_r; reflexivity].
Qed.

Lemma renderEvent_present options e base r :
  renderEvent options e base = Some r ->
  exists md, r = Some md /\ startsWith md "### " = true.
Proof.
  unfold renderEvent.
  destruct (describeEvent options e) as [d|] eqn:E; [|discriminate].
  rewrite (describeEvent_truthy _ _ _ E). cbn [negb].
  intros H. injection H as <-.
  destruct (renderDOMFragment options e); eexists; (split; [reflexivity|]);
    rewrite ?StringFacts.append_assoc; apply JSStringFacts.startsWith_app.
Qed.

Lemma timeline_loop options base : forall events rendered entries,
  fold_left
    (fun (acc : option (list string)) event =>
       match acc with
       | None => None
       | Some rendered =>
           match renderEvent options event base with
           | None => None
           | Some (Some eventMd) =>
               if truthy eventMd then Some (push rendered eventMd)
               else Some rendered
           | Some None => Some rendered
           end
       end)
    events (Some rendered) = Some entries ->
  exists mds,
    entries = app rendered mds /\
    Forall2 (fun event md =>
               renderEvent options event base = Some (Some md) /\
               startsWith md "### " = true) events mds.
Proof.
  induction events as [|e events IH]; intros rendered entries; simpl.
  - intros H. injection H as <-. exists []. rewrite app_nil_r.
    split; [reflexivity|constructor].
  - destruct (renderEvent options e base) as [r|] eqn:E.
    + destruct (renderEvent_present _ _ _ _ E) as (md & -> & Hmd).
      assert (T : truthy md = true) by (destruct md; [discriminate|reflexivity]).
      rewrite T. intros H. destruct (IH _ _ H) as (mds & -> & F).
      exists (md :: mds). unfold push. rewrite <- app_assoc.
      split; [reflexivity|]. constructor; [now split|exact F].
    + intros H. exfalso. clear -H.
      induction events as [|e' events IH']; simpl in H; [discriminate|auto].
Qed.

(** X24: the timeline of the export leaves out no event.  Whenever
    [renderTimeline] builds its entries, they are the entry of the page
    load followed by one entry for each event, in order: [renderEvent]
    never returns [null], because no description is empty, and each entry
    is a heading of level three. *)
Theorem timeline_has_every_event options session events entries :
  timelineEntries options session events = Some entries ->
  exists mds,
    entries = renderInitialLoad session :: mds /\
    Forall2 (fun event md =>
               renderEvent options event (Session.startedAt session)
               = Some (Some md) /\
               startsWith md "### " = true) events mds.
Proof.
  unfold timelineEntries. intros H.
  destruct (timeline_loop _ _ _ _ _ H) as (mds & -> & F).
  now exists mds.
Qed.

(** *** The summary *)

Lemma countEvent_counts counts e counts' :
  countEvent counts e = Some counts' ->
  let bump (test : bool) (n : nat) := if test then S n else n in
  actions counts' = bump (isUserType (DOMEvent.type e)) (actions counts) /\
  mutations counts'
  = bump (isMutationKind (DOMEvent.type e)) (mutations counts) /\
  errors counts' = bump (isErrorType (DOMEvent.type e)) (errors counts) /\
  navs counts'
  = bump (EventType_eqb (DOMEvent.type e) user_navigation) (navs counts) /\
  redactions counts' = bump (looksRedacted e) (redactions counts).
Proof.
  unfold countEvent, looksRedacted. cbv zeta.
  destruct (DOMEvent.type e); simpl;
    try (intros H; injection H as <-; repeat split).
  destruct (DOMEvent.payload e); try discriminate.
  destruct (isRedacted _); intros H; injection H as <-; repeat split.
Qed.

Lemma summary_loop : forall events counts result,
  fold_left
    (fun (acc : option Counts) event =>
       match acc with
       | Some counts => countEvent counts event
       | None => None
       end)
    events (Some counts) = Some result ->
  actions result = actions counts + countOfType isUserType events /\
  mutations result = mutations counts + countOfType isMutationKind events /\
  errors result = errors counts + countOfType isErrorType events /\
  navs result
  = navs counts
    + countOfType (fun t => EventType_eqb t user_navigation) events /\
  redactions result
  = redactions counts + length (List.filter looksRedacted events).
Proof.
  unfold countOfType.
  induction events as [|e events IH]; intros counts result; simpl.
  - intros H. injection H as <-. repeat split; lia.
  - destruct (countEvent counts e) as [c1|] eqn:E.
    + intros H. destruct (IH _ _ H) as (A & M & R & N & D).
      destruct (countEvent_counts _ _ _ E) as (A1 & M1 & R1 & N1 & D1).
      cbv zeta in *.
      rewrite A, M, R, N, D, A1, M1, R1, N1, D1.
      destruct (isUserType _), (isMutationKind _), (isErrorType _),
        (EventType_eqb _ _), (looksRedacted e); simpl; repeat split; lia.
    + intros H. exfalso. clear -H.
      induction events as [|e' events IH']; simpl in H; [discriminate|auto].
Qed.

Lemma countOfType_split (events : list DOMEvent) :
  countOfType isUserType events + countOfType isMutationKind events
  + countOfType isErrorType events + countOfType isNetworkType events
  = length events.
Proof.
  unfold countOfType. induction events as [|e events IH]; [reflexivity|].
  simpl. destruct (DOMEvent.type e); simpl; lia.
Qed.

Lemma filter_length_le {X : Type} (p q : X -> bool) (l : list X) :
  (forall x, p x = true -> q x = true) ->
  length (List.filter p l) <= length (List.filter q l).
Proof.
  intros H. induction l as [|x l IH]; [reflexivity|]. simpl.
  destruct (p x) eqn:P; [rewrite (H x P); simpl; lia|].
  destruct (q x); simpl; lia.
Qed.

Lemma navigation_redaction_action (e : DOMEvent) :
  let weight (b : bool) := if b then 1 else 0 in
  weight (EventType_eqb (DOMEvent.type e) user_navigation)
  + weight (looksRedacted e)
  <= weight (isUserType (DOMEvent.type e)).
Proof.
  unfold looksRedacted. destruct (DOMEvent.type e); simpl; try lia.
  destruct (DOMEvent.payload e); simpl; try lia.
  destruct (isRedacted _); simpl; lia.
Qed.

Lemma navigations_redactions_actions (events : list DOMEvent) :
  countOfType (fun t => EventType_eqb t user_navigation) events
  + length (List.filter looksRedacted events)
  <= countOfType isUserType events.
Proof.
  unfold countOfType. induction events as [|e events IH]; [reflexivity|].
  pose proof (navigation_redaction_action e) as W. simpl in *.
  destruct (EventType_eqb _ _), (looksRedacted e), (isUserType _);
    simpl in *; lia.
Qed.

(** X25: what the summary counts.  Whenever [renderSummary] completes
    its loop, the actions are the events whose type begins with [user:],
    the mutations those with [mutation:], the errors those with [error:];
    together with the network events, which no line counts, they are all
    the events.  The navigations and the redactions are counted among the
    actions: a navigation is an action, and a redaction is an input event
    whose value stands in square brackets, whether a rule put it there or
    the user typed it. *)
Theorem summary_counts_partition_events events counts :
  summaryCounts events = Some counts ->
  actions counts = countOfType isUserType events /\
  mutations counts = countOfType isMutationKind events /\
  errors counts = countOfType isErrorType events /\
  actions counts + mutations counts + errors counts
  + countOfType isNetworkType events = length events /\
  navs counts = countOfType (fun t => EventType_eqb t user_navigation) events /\
  redactions counts = length (List.filter looksRedacted events) /\
  navs counts + redactions counts <= actions counts.
Proof.
  unfold summaryCounts. intros H.
  destruct (summary_loop _ _ _ H) as (A & M & R & N & D). simpl in *.
  rewrite A, M, R, N, D.
  repeat split; try apply countOfType_split.
  apply navigations_redactions_actions.
Qed.

(** *** The reproduction steps *)

Lemma eventToStep_step e r :
  eventToStep e = Some r ->
  match r with
  | Some step => givesStep (DOMEvent.type e) = true /\ truthy step = true
  | None => givesStep (DOMEvent.type e) = false
  end.
Proof.
  unfold eventToStep.
  destruct (DOMEvent.type e); simpl;
    try (intros H; injection H as <-; try split; reflexivity).
  - destruct (DOMEvent.payload e); try discriminate.
    destruct (isRedacted _); intros H; injection H as <-; split; reflexivity.
  - destruct (DOMEvent.payload e); try discriminate.
    intros H; injection H as <-; split; reflexivity.
Qed.

Lemma steps_loop : forall events steps stepNum result,
  stepNum = S (length steps) ->
  fold_left
    (fun (acc : option (list string * nat)) event =>
       match acc with
       | None => None
       | Some (steps, stepNum) =>
           match eventToStep event with
           | None => None
           | Some (Some step) =>
               if truthy step
               then Some (push steps (natToString stepNum ++ ". " ++ step),
                          S stepNum)
               else Some (steps, stepNum)
           | Some None => Some (steps, stepNum)
           end
       end)
    events (Some (steps, stepNum)) = Some result ->
  exists more,
    fst result = app steps more /\
    snd result = S (length (fst result)) /\
    length more = countOfType givesStep events /\
    Forall2 (fun k step => startsWith step (natToString k ++ ". ") = true)
            (List.seq stepNum (length more)) more.
Proof.
  unfold countOfType.
  induction events as [|e events IH]; intros steps stepNum result Hn; simpl.
  - intros H. injection H as <-. exists []. simpl. rewrite app_nil_r.
    repeat split; [exact Hn|constructor].
  - destruct (eventToStep e) as [r|] eqn:E.
    + pose proof (eventToStep_step _ _ E) as S. destruct r as [step|].
      * destruct S as [S1 S2]. rewrite S1, S2. intros H.
        destruct (IH (push steps (natToString stepNum ++ ". " ++ step))
                     (Datatypes.S stepNum) result) as (more & F1 & F2 & F3 & F4).
        { unfold push. rewrite length_app. simpl. lia. }
        { exact H. }
        exists ((natToString stepNum ++ ". " ++ step) :: more).
        unfold push in F1. rewrite <- app_assoc in F1.
        repeat split; try assumption; simpl; [now rewrite F3|].
        constructor; [|exact F4].
        rewrite <- StringFacts.append_assoc.
        apply JSStringFacts.startsWith_app.
      * rewrite S. intros H. now apply (IH _ _ _ Hn H).
    + intros H. exfalso. clear -H.
      induction events as [|e' events IH']; simpl in H; [discriminate|auto].
Qed.

(** X26: the reproduction steps are numbered without a gap.  Whenever
    [renderReproductionSteps] completes its loop, its steps are the
    navigation to the page followed by one step for each click, input,
    navigation and added or removed element, in the order of the events;
    scrolls, focus changes, attribute and text mutations give no step; the
    step at place [k] begins with the number [k] and a dot. *)
Theorem reproduction_steps_numbered session events steps stepNum :
  reproductionSteps session events = Some (steps, stepNum) ->
  length steps = S (countOfType givesStep events) /\
  stepNum = S (length steps) /\
  Forall2 (fun k step => startsWith step (natToString k ++ ". ") = true)
          (List.seq 1 (length steps)) steps.
Proof.
  unfold reproductionSteps. intros H.
  destruct (steps_loop _ _ _ _ eq_refl H) as (more & F1 & F2 & F3 & F4).
  simpl in *. subst steps. cbn [length]. split; [now rewrite F3|].
  split; [exact F2|].
  constructor; [reflexivity|exact F4].
Qed.

Lemma timeline_has_every_event_witness :
  exists mds,
    sampleEntries = renderInitialLoad sampleSession :: mds /\
    Forall2 (fun event md =>
               renderEvent DEFAULT_OPTIONS event
                 (Session.startedAt sampleSession) = Some (Some md) /\
               startsWith md "### " = true)
            sampleEvents mds.
Proof.
  apply (timeline_has_every_event DEFAULT_OPTIONS sampleSession sampleEvents).
  vm_compute. reflexivity.
Defined.

Lemma summary_counts_partition_events_witness :
  actions (mkCounts 3 1 0 1 0) = countOfType isUserType sampleEvents.
Proof.
  apply (summary_counts_partition_events sampleEvents (mkCounts 3 1 0 1 0)).
  vm_compute. reflexivity.
Defined.

Lemma reproduction_steps_numbered_witness :
  length sampleSteps = S (countOfType givesStep sampleEvents).
Proof.
  apply (reproduction_steps_numbered sampleSession sampleEvents sampleSteps 6).
  vm_compute. reflexivity.
Defined.

End MarkdownSectionsFacts.
(* --------------------------------------------------------------------- *)
(** ** The XPath of an element *)

Module XPathFacts.
Import Dom SemanticExtractor ChronicleSpec XPathSpec.

Lemma upper_lower_char (c : ascii) : upperChar (lowerChar c) = upperChar c.
Proof.
  destruct c as [[] [] [] [] [] [] [] []]; reflexivity.
Qed.

Lemma upper_lower (s : string) : toUpperCase (toLowerCase s) = toUpperCase s.
Proof.
  induction s as [|c s IH]; simpl; [reflexivity|].
  now rewrite upper_lower_char, IH.
Qed.

(** Names in upper case are equal when they are equal in lower case. *)
Lemma upper_names_equal (a b : string) :
  a = toUpperCase a -> b = toUpperCase b ->
  toLowerCase a = toLowerCase b -> a = b.
Proof.
  intros Ha Hb H. rewrite Ha, Hb, <- (upper_lower a), <- (upper_lower b).
  now rewrite H.
Qed.

Lemma upperTags_child doc i c :
  upperTags doc -> List.nth_error (children doc) i = Some c -> upperTags c.
Proof.
  unfold upperTags. intros H Hc. destruct doc as [| |t a cs]; simpl in *;
    try (destruct i; discriminate).
  inversion H as [|? ? _ Hcs]; subst.
  apply List.Forall_forall. intros n Hn.
  rewrite List.Forall_forall in Hcs. apply Hcs.
  apply List.in_flat_map. exists c. split; [|exact Hn].
  eapply List.nth_error_In; eassumption.
Qed.

Lemma upperTags_children doc s :
  upperTags doc -> In s (children doc) -> isElement s = true ->
  tagName s = toUpperCase (tagName s).
Proof.
  intros H Hs _. destruct (List.In_nth_error _ _ Hs) as [i Hi].
  pose proof (upperTags_child doc i s H Hi) as U.
  unfold upperTags in U. destruct s; simpl in *; inversion U; assumption.
Qed.

(** In a document with upper-case names, the name test of a step selects
    the elements with the tag name of the node the step was made for. *)
Lemma hasTag_same_name c s :
  isElement c = true ->
  tagName c = toUpperCase (tagName c) ->
  (isElement s = true -> tagName s = toUpperCase (tagName s)) ->
  hasTag (toLowerCase (tagName c)) s
  = isElement s && String.eqb (tagName s) (tagName c).
Proof.
  intros Hc Uc Us. unfold hasTag. destruct (isElement s) eqn:Es;
    [|reflexivity].
  simpl. destruct (String.eqb_spec (tagName s) (tagName c)) as [->|Hne].
  - apply String.eqb_refl.
  - apply String.eqb_neq. intros H. apply Hne.
    apply upper_names_equal; auto.
Qed.

Lemma selectChild_found tag : forall cs i c,
  List.nth_error cs i = Some c ->
  hasTag tag c = true ->
  selectChild tag
    (S (length (List.filter (hasTag tag) (List.firstn i cs)))) cs = Some i.
Proof.
  induction cs as [|x cs IH]; intros [|i] c Hc Ht; simpl in *;
    try discriminate.
  - injection Hc as ->. now rewrite Ht.
  - destruct (hasTag tag x); simpl; now rewrite (IH i c Hc Ht).
Qed.

Lemma filter_hasTag (doc : node) c i :
  upperTags doc ->
  isElement c = true ->
  tagName c = toUpperCase (tagName c) ->
  List.filter (hasTag (toLowerCase (tagName c))) (List.firstn i (children doc))
  = List.filter (fun s => String.eqb (tagName s) (tagName c))
                (List.filter isElement (List.firstn i (children doc))).
Proof.
  intros U Hc Uc.
  assert (H : forall s, In s (List.firstn i (children doc)) ->
                        isElement s = true ->
                        tagName s = toUpperCase (tagName s)).
  { intros s Hs. apply (upperTags_children doc s U).
    revert Hs. generalize (children doc). clear. intros l. revert l.
    induction i as [|i IH]; intros [|x l] H; simpl in H; try contradiction.
    destruct H as [->|H]; [now left|right; now apply IH]. }
  induction (List.firstn i (children doc)) as [|x l IH]; [reflexivity|].
  simpl. rewrite (hasTag_same_name c x Hc Uc (H x (or_introl eq_refl))).
  destruct (isElement x); simpl.
  - destruct (String.eqb _ _); [f_equal|]; apply IH; intros; apply H;
      auto; now right.
  - apply IH. intros. apply H; auto. now right.
Qed.

(** The steps made along a path lead back to its node. *)
Lemma locateFrom_stepsAlong : forall p doc el,
  upperTags doc ->
  nodeAt doc p = Some el ->
  isElement el = true ->
  locateFrom doc (stepsAlong doc p) = Some p.
Proof.
  induction p as [|i p IH]; intros doc el U Hn He; [reflexivity|].
  simpl in *. destruct (List.nth_error (children doc) i) as [c|] eqn:Hc;
    [|discriminate].
  assert (Ec : isElement c = true).
  { destruct c; try reflexivity; destruct p; simpl in Hn;
      try (injection Hn as <-; discriminate);
      destruct n; discriminate. }
  pose proof (upperTags_child doc i c U Hc) as Uc.
  assert (Tc : tagName c = toUpperCase (tagName c))
    by (unfold upperTags in Uc; destruct c; simpl in *; inversion Uc;
        assumption).
  simpl. rewrite <- (filter_hasTag doc c i U Ec Tc).
  rewrite (selectChild_found _ _ i c Hc).
  - rewrite Hc. now rewrite (IH c el Uc Hn He).
  - unfold hasTag. now rewrite Ec, String.eqb_refl.
Qed.

Lemma removelast_snoc {X : Type} (l : list X) (x : X) :
  List.removelast (app l [x]) = l.
Proof. apply List.removelast_last. Qed.

Lemma nodeAt_snoc : forall p doc i,
  nodeAt doc (app p [i])
  = match nodeAt doc p with
    | Some n => List.nth_error (children n) i
    | None => None
    end.
Proof.
  induction p as [|j p IH]; intros doc i; simpl.
  - now destruct (List.nth_error (children doc) i).
  - destruct (List.nth_error (children doc) j); [apply IH|reflexivity].
Qed.

Lemma stepsAlong_snoc : forall p doc i n c,
  nodeAt doc p = Some n ->
  List.nth_error (children n) i = Some c ->
  stepsAlong doc (app p [i])
  = app (stepsAlong doc p)
        [(toLowerCase (tagName c),
          1 + length (List.filter
                        (fun s => String.eqb (tagName s) (tagName c))
                        (List.filter isElement
                           (List.firstn i (children n)))))].
Proof.
  induction p as [|j p IH]; intros doc i n c Hn Hc; simpl in *.
  - injection Hn as ->. now rewrite Hc.
  - destruct (List.nth_error (children doc) j) as [d|]; [|discriminate].
    simpl. f_equal. now apply IH.
Qed.

(** The loop of [getXPath], from the node up to the document element. *)
Lemma xpathParts_steps a doc : forall p el parts,
  nodeAt doc p = Some el ->
  isElement el = true ->
  xpathParts (length p) (mkRef a doc p) parts
  = app (map renderStep ((toLowerCase (tagName doc), 1) :: stepsAlong doc p))
        parts.
Proof.
  induction p as [|i p IH] using rev_ind; intros el parts Hn He.
  - simpl in *. injection Hn as ->. unfold deref. simpl. rewrite He.
    reflexivity.
  - rewrite length_app, Nat.add_1_r.
    rewrite nodeAt_snoc in Hn.
    destruct (nodeAt doc p) as [n|] eqn:Hp; [|discriminate].
    assert (En : isElement n = true)
      by (destruct n; try reflexivity; destruct i; discriminate).
    cbn [xpathParts]. unfold deref. cbn [root path].
    rewrite nodeAt_snoc, Hp, Hn, He.
    unfold parentElement, precedingElementSiblings, parentElement, deref.
    cbn [root path attached].
    destruct (app p [i]) as [|x l] eqn:E;
      [destruct p; discriminate|]. rewrite <- E.
    rewrite removelast_snoc, List.last_last. cbn [root path]. rewrite Hp.
    rewrite (IH n _ eq_refl En), (stepsAlong_snoc p doc i n el Hp Hn).
    cbn [map app]. rewrite map_app. cbn [map]. rewrite <- app_assoc.
    reflexivity.
Qed.

(** X27: the XPath of an element leads back to it.  For an element
    without an [id], in a document whose tag names are in upper case,
    [getXPath] gives an absolute location path of steps [tag[index]] from
    the document element down, and resolving these steps in the document
    selects the element itself. *)
Theorem getXPath_locates_element (a : bool) (doc : node) (p : list nat)
    (el : node) :
  upperTags doc ->
  nodeAt doc p = Some el ->
  isElement el = true ->
  Dom.id el = EmptyString ->
  exists steps,
    getXPath (mkRef a doc p) el = "/" ++ join "/" (map renderStep steps) /\
    locate doc steps = Some p.
Proof.
  intros U Hn He Hid.
  exists ((toLowerCase (tagName doc), 1) :: stepsAlong doc p). split.
  - unfold getXPath. rewrite Hid. cbn [truthy path].
    now rewrite (xpathParts_steps a doc p el [] Hn He), app_nil_r.
  - assert (Ed : isElement doc = true).
    { destruct p as [|i p]; simpl in Hn.
      - now injection Hn as ->.
      - destruct doc; try reflexivity; destruct i; discriminate. }
    unfold locate, hasTag. rewrite Ed, String.eqb_refl. simpl.
    now apply (locateFrom_stepsAlong p doc el).
Qed.

Lemma getXPath_locates_element_witness :
  exists steps,
    getXPath (mkRef true page [0; 1]) field
    = "/" ++ join "/" (map renderStep steps) /\
    locate page steps = Some [0; 1].
Proof.
  apply (getXPath_locates_element true page [0; 1] field);
    try reflexivity.
  unfold upperTags. vm_compute. repeat constructor.
Defined.

End XPathFacts.
